(** * byteps-compress: server aggregation core and gradient compressors

    A shallow embedding of the parts of the repository that the
    specification talks about, then the vocabulary the statements are
    written in, then the properties proved.

    - [Utils]      : byteps/common/compressor/utils.h
                     (Serialize, Deserialize, BitWriter, BitReader,
                      RoundNextPow2, Elias-delta codec, xorshift128+,
                      HyperParamFinder, sum, sparse_sum)
    - [Compressors]: momentum.cc, impl/nesterov_momentum.cc,
                     impl/corrected_error_feedback.cc,
                     impl/sparse_error_feedback.cc
    - [Topk]       : impl/topk.h (declarations only)
    - [Server]     : byteps/server/server.cc

    Conventions.  C++ unsigned integers of width w are values of [Z] in
    [0, 2^w) with the wrap-around written out.  [size_t] counters that index
    memory are [nat] (a buffer of 2^64 elements does not exist).  IEEE
    floating point numbers are [spec_float] of the Standard Library, with
    the operations of SpecFloat at the format's precision.  A C++ call either
    returns, aborts through a fatal log / failed CHECK, or has no defined
    behaviour: this is the type [result]. *)

From Stdlib Require Import ZArith List Bool Lia String Ascii.
From Stdlib Require Import Floats.SpecFloat.
From stdpp Require Import base tactics option list gmap strings pretty.

Local Open Scope Z_scope.

(** ** Outcomes of a call *)

Inductive result (A : Type) : Type :=
| Ok (a : A)                (* the call returns *)
| Fatal (msg : string)      (* BPS_LOG(FATAL), CHECK(..) failed: abort *)
| Undefined.                (* undefined behaviour in C++ *)
Arguments Ok {A} a.
Arguments Fatal {A} msg.
Arguments Undefined {A}.

#[global] Instance result_ret : MRet result := fun A a => Ok a.
#[global] Instance result_bind : MBind result := fun A B f m =>
  match m with
  | Ok a => f a
  | Fatal msg => Fatal msg
  | Undefined => Undefined
  end.
#[global] Instance result_fmap : FMap result := fun A B f m =>
  match m with
  | Ok a => Ok (f a)
  | Fatal msg => Fatal msg
  | Undefined => Undefined
  end.

(** [for (x : xs) st = body(x, st)] with early exit on abort. *)
Fixpoint foldM {A S : Type} (body : A -> S -> result S) (xs : list A) (st : S)
  : result S :=
  match xs with
  | [] => Ok st
  | x :: xs' => st' ← body x st; foldM body xs' st'
  end.

(** The indices of [for (int i = hi; i >= lo; --i)]. *)
Definition downto (hi lo : Z) : list Z :=
  map (fun k => hi - Z.of_nat k) (seq 0 (Z.to_nat (hi - lo + 1))).

(** [p[i]] and [p[i] = v] on a buffer of known extent. *)
Definition load {A : Type} (l : list A) (i : nat) : result A :=
  match l !! i with
  | Some v => Ok v
  | None => Undefined
  end.

Definition store {A : Type} (l : list A) (i : nat) (v : A) : result (list A) :=
  if decide (i < length l)%nat then Ok (<[i:=v]> l) else Undefined.

(** ** IEEE formats *)

Module Float.

Definition f32 := spec_float.
Definition f64 := spec_float.

Definition prec32 : Z := 24.
Definition emax32 : Z := 128.
Definition prec64 : Z := 53.
Definition emax64 : Z := 1024.

(** Conversion of a float of any format to the format [(prec, emax)],
    rounding to nearest even. *)
Definition convert (prec emax : Z) (x : spec_float) : spec_float :=
  match x with
  | S754_finite s m e => binary_normalize prec emax (cond_Zopp s (Zpos m)) e s
  | _ => x
  end.

Definition f64_of_f32 (x : f32) : f64 := convert prec64 emax64 x.
Definition f32_of_f64 (x : f64) : f32 := convert prec32 emax32 x.

(** Integer to floating point. *)
Definition f32_of_Z (z : Z) : f32 := binary_normalize prec32 emax32 z 0 false.
Definition f64_of_Z (z : Z) : f64 := binary_normalize prec64 emax64 z 0 false.

(** Floating point to integer: truncation toward zero; the conversion is
    undefined when the truncated value is outside [[lo, hi]]. *)
Definition trunc (x : spec_float) : option Z :=
  match x with
  | S754_zero _ => Some 0
  | S754_finite s m e =>
      Some (cond_Zopp s (if 0 <=? e then Zpos m * 2 ^ e else Zpos m / 2 ^ (- e)))
  | _ => None
  end.

Definition Z_of_float (lo hi : Z) (x : spec_float) : result Z :=
  match trunc x with
  | Some z => if (lo <=? z) && (z <=? hi) then Ok z else Undefined
  | None => Undefined
  end.

(** [std::floor] on a double: the largest integral value not above [x]. *)
Definition floor (x : f64) : f64 :=
  match x with
  | S754_finite s m e =>
      if 0 <=? e then x else f64_of_Z (cond_Zopp s (Zpos m) / 2 ^ (- e))
  | _ => x
  end.

(** A decimal literal [n / 10^d] of the given format. *)
Definition lit (prec emax : Z) (n : Z) (d : Z) : spec_float :=
  SFdiv prec emax (binary_normalize prec emax n 0 false)
                  (binary_normalize prec emax (10 ^ d) 0 false).
Definition lit32 := lit prec32 emax32.
Definition lit64 := lit prec64 emax64.

(** Reinterpretation of a 64-bit word as a binary64. *)
Definition f64_of_bits (w : Z) : f64 :=
  let s := Z.testbit w 63 in
  let e := Z.land (Z.shiftr w 52) 2047 in
  let m := Z.land w (2 ^ 52 - 1) in
  if e =? 0 then
    match m with
    | Zpos p => S754_finite s p (-1074)
    | _ => S754_zero s
    end
  else if e =? 2047 then
    if m =? 0 then S754_infinity s else S754_nan
  else
    match m + 2 ^ 52 with
    | Zpos p => S754_finite s p (e - 1075)
    | _ => S754_nan
    end.

End Float.

(** ** utils.h *)

Module Utils.

(** *** Serialize, Deserialize *)

(** [std::isspace] in the C locale: the space and the characters 9 to 13. *)
Definition isspace (c : ascii) : bool :=
  let n := nat_of_ascii c in
  (n =? 32)%nat || ((9 <=? n)%nat && (n <=? 13)%nat).

(** [std::istringstream]: the characters not read yet, and [failbit]. *)
Record istringstream := mkIs { is_rest : list ascii; is_fail : bool }.

Fixpoint skip_ws (cs : list ascii) : list ascii :=
  match cs with
  | c :: cs' => if isspace c then skip_ws cs' else cs
  | [] => []
  end.

Fixpoint read_word (cs : list ascii) : list ascii * list ascii :=
  match cs with
  | c :: cs' =>
      if isspace c then ([], cs)
      else let '(w, rest) := read_word cs' in (c :: w, rest)
  | [] => ([], [])
  end.

(** [is >> str] into a [std::string] that is empty: leading white space is
    skipped and the characters up to the next white space are taken; with
    nothing left to take, or [failbit] set before, the string stays empty
    and [failbit] is set. *)
Definition extract_string (strm : istringstream) : string * istringstream :=
  if is_fail strm then (EmptyString, strm) else
  match skip_ws (is_rest strm) with
  | [] => (EmptyString, mkIs [] true)
  | cs => let '(w, rest) := read_word cs in (string_of_list_ascii w, mkIs rest false)
  end.

Section Serialization.
(** [kwargs_t] is an unordered map of strings: the order in which it is
    iterated is not specified.  [is >> size] for a [size_t] and [os << n]
    belong to the C++ library; the latter prints the decimal numeral. *)
Variable iterate : gmap string string -> list (string * string).
Variable extract_size_t : istringstream -> nat * istringstream.

Definition Serialize (kwargs : gmap string string) : string :=
  fold_left (fun os kwarg => os +:+ " " +:+ kwarg.1 +:+ " " +:+ kwarg.2)
            (iterate kwargs) (pretty (size kwargs)).

Fixpoint Deserialize_loop (n : nat) (strm : istringstream)
    (kwargs : gmap string string) : gmap string string :=
  match n with
  | O => kwargs
  | Datatypes.S n' =>
      let '(key, strm) := extract_string strm in
      let '(val, strm) := extract_string strm in
      Deserialize_loop n' strm (<[key := val]> kwargs)
  end.

Definition Deserialize (content : string) : gmap string string :=
  let strm := mkIs (list_ascii_of_string content) false in
  let '(size, strm) := extract_size_t strm in
  Deserialize_loop size strm ∅.
End Serialization.

(** *** BitWriter<T>, BitReader<T>

    [T] is an unsigned word type of [sizeof_T] bytes. *)

Section BitIO.
Variable sizeof_T : nat.

Definition PACKING_SIZE : nat := (sizeof_T * 8)%nat.

(** Conversion to [T]. *)
Definition to_T (z : Z) : Z := z mod 2 ^ Z.of_nat PACKING_SIZE.

Record BitWriter := mkBitWriter {
  w_dptr : list Z;
  w_accum : Z;
  w_used_bits : nat;
  w_blocks : nat
}.

Definition BitWriter_new (data : list Z) : BitWriter := mkBitWriter data 0 0 0.

Definition Put (x : bool) (w : BitWriter) : result BitWriter :=
  let accum := to_T (Z.shiftl (w_accum w) 1) in
  let accum := Z.lor accum (Z.b2z x) in
  let used_bits := S (w_used_bits w) in
  if (used_bits =? PACKING_SIZE)%nat then
    dptr ← store (w_dptr w) (w_blocks w) accum;
    Ok (mkBitWriter dptr accum 0 (S (w_blocks w)))
  else
    Ok (mkBitWriter (w_dptr w) accum used_bits (w_blocks w)).

Definition Flush (w : BitWriter) : result BitWriter :=
  if (0 <? w_used_bits w)%nat then
    let padding_size := (PACKING_SIZE - w_used_bits w)%nat in
    let accum := to_T (Z.shiftl (w_accum w) (Z.of_nat padding_size)) in
    dptr ← store (w_dptr w) (w_blocks w) accum;
    Ok (mkBitWriter dptr accum (w_used_bits w) (w_blocks w))
  else Ok w.

Definition w_bits (w : BitWriter) : nat :=
  (w_blocks w * PACKING_SIZE + w_used_bits w)%nat.

Record BitReader := mkBitReader {
  r_dptr : list Z;
  r_used_bits : nat;
  r_blocks : nat;
  r_accum : Z
}.

(** The constructor leaves [_accum] uninitialised; the first [Get] loads it
    before any use, so its initial content [junk] is never looked at. *)
Definition BitReader_new (data : list Z) (junk : Z) : BitReader :=
  mkBitReader data 0 0 junk.

(** [1 << n] on the [int] literal 1: defined for [n < 32] only
    ([1 << 31] is [INT_MIN]). *)
Definition int_one_shl (n : nat) : result Z :=
  if (n <? 31)%nat then Ok (2 ^ Z.of_nat n)
  else if (n =? 31)%nat then Ok (- 2 ^ 31)
  else Undefined.

Definition Get (r : BitReader) : result (bool * BitReader) :=
  r1 ← (if (r_used_bits r =? 0)%nat then
          a ← load (r_dptr r) (r_blocks r);
          Ok (mkBitReader (r_dptr r) PACKING_SIZE (S (r_blocks r)) a)
        else Ok r);
  let used_bits := pred (r_used_bits r1) in
  mask ← int_one_shl used_bits;
  Ok (negb (Z.land (r_accum r1) mask =? 0),
      mkBitReader (r_dptr r1) used_bits (r_blocks r1) (r_accum r1)).

Definition r_bits (r : BitReader) : nat :=
  (r_blocks r * PACKING_SIZE - r_used_bits r)%nat.

(** Writing and reading a sequence of bits. *)
Definition put_all (bs : list bool) (w : BitWriter) : result BitWriter :=
  foldM Put bs w.

Fixpoint get_n (n : nat) (r : BitReader) : result (list bool * BitReader) :=
  match n with
  | O => Ok ([], r)
  | S n' =>
      '(b, r1) ← Get r;
      '(bs, r2) ← get_n n' r1;
      Ok (b :: bs, r2)
  end.

(** *** Elias-delta codec *)

Definition INT_MAX : Z := 2 ^ 31 - 1.
Definition INT_MIN : Z := - 2 ^ 31.
Definition ULONG_MOD : Z := 2 ^ 64.

(** [std::log2] on doubles belongs to the C++ library. *)
Variable std_log2 : Float.f64 -> Float.f64.

(** [(v >> i) & 1] for [0 <= i]: the shift is defined below the width of
    the type of [v] ([int]: 32, [unsigned long]: 64). *)
Definition shr_bit (width : Z) (v i : Z) : result bool :=
  if i <? width then Ok (Z.testbit v i) else Undefined.

(** [int len = 1 + std::floor(std::log2(x))]: [x] is converted to
    [double], the sum is a [double] and is converted to [int];
    [int lenth_of_len = std::floor(std::log2(len))] alike. *)
Definition EliasDeltaEncode (w : BitWriter) (x : Z) : result BitWriter :=
  len ← Float.Z_of_float INT_MIN INT_MAX
          (SFadd Float.prec64 Float.emax64 (Float.f64_of_Z 1)
             (Float.floor (std_log2 (Float.f64_of_Z x))));
  lenth_of_len ← Float.Z_of_float INT_MIN INT_MAX
                   (Float.floor (std_log2 (Float.f64_of_Z len)));
  w ← foldM (fun _ w => Put false w) (downto lenth_of_len 1) w;
  w ← foldM (fun i w => b ← shr_bit 32 len i; Put b w) (downto lenth_of_len 0) w;
  foldM (fun i w => b ← shr_bit 64 x i; Put b w) (downto (len - 2) 0) w.

(** [while (!bit_reader.Get()) lenth_of_len++;] every iteration consumes a
    bit, so the number of bits of the buffer bounds the iterations. *)
Fixpoint count_zeros (fuel : nat) (r : BitReader) (lenth_of_len : Z)
  : result (Z * BitReader) :=
  match fuel with
  | O => Undefined
  | S fuel' =>
      '(b, r1) ← Get r;
      if (b : bool) then Ok (lenth_of_len, r1)
      else if lenth_of_len <? INT_MAX
           then count_zeros fuel' r1 (lenth_of_len + 1)
           else Undefined
  end.

(** [len <<= 1; if (Get()) len |= 1;] on an [int]. *)
Definition decode_len_step (st : Z * BitReader) : result (Z * BitReader) :=
  let '(len, r) := st in
  if INT_MAX <? 2 * len then Undefined
  else
    '(b, r1) ← Get r;
    Ok (Z.lor (Z.shiftl len 1) (Z.b2z b), r1).

(** [num <<= 1; if (Get()) num |= 1;] on an [unsigned long]. *)
Definition decode_num_step (st : Z * BitReader) : result (Z * BitReader) :=
  let '(num, r) := st in
  '(b, r1) ← Get r;
  Ok (Z.lor (Z.shiftl num 1 mod ULONG_MOD) (Z.b2z b), r1).

Fixpoint repeatM {S : Type} (n : nat) (body : S -> result S) (st : S)
  : result S :=
  match n with
  | O => Ok st
  | Datatypes.S n' => st' ← body st; repeatM n' body st'
  end.

Definition EliasDeltaDecode (r : BitReader) : result (Z * BitReader) :=
  '(lenth_of_len, r) ← count_zeros (S (length (r_dptr r) * PACKING_SIZE)) r 0;
  '(len, r) ← repeatM (Z.to_nat lenth_of_len) decode_len_step (1, r);
  repeatM (Z.to_nat (len - 1)) decode_num_step (1, r).

End BitIO.

(** *** xorshift128+ *)

Definition U64 : Z := 2 ^ 64.
Definition U32 : Z := 2 ^ 32.

Record xorshift128p_state := mkRng { rng_a : Z; rng_b : Z }.

Definition set_seed (seed : Z) (_ : xorshift128p_state) : xorshift128p_state :=
  mkRng seed seed.

Definition xorshift128p (st : xorshift128p_state) : Z * xorshift128p_state :=
  let t := rng_a st in
  let s := rng_b st in
  let t := Z.lxor t (Z.shiftl t 23 mod U64) in
  let t := Z.lxor t (Z.shiftr t 17) in
  let t := Z.lxor t (Z.lxor s (Z.shiftr s 26)) in
  ((t + s) mod U64, mkRng s t).

(** uniform int among [low, high): [xorshift128p() % (high - low) + low]. *)
Definition Randint (low high : Z) (st : xorshift128p_state)
  : result (Z * xorshift128p_state) :=
  let '(r, st') := xorshift128p st in
  let range := (high - low) mod U64 in
  if range =? 0 then Undefined
  else Ok ((r mod range + low) mod U64, st').

(** *** RoundNextPow2

    On [uint32_t]: the subtraction and the addition wrap around. *)
Definition RoundNextPow2 (v : Z) : Z :=
  let v := (v - 1) mod U32 in
  let v := Z.lor v (Z.shiftr v 1) in
  let v := Z.lor v (Z.shiftr v 2) in
  let v := Z.lor v (Z.shiftr v 4) in
  let v := Z.lor v (Z.shiftr v 8) in
  let v := Z.lor v (Z.shiftr v 16) in
  (v + 1) mod U32.


(** *** Hyper-parameters

    [kwargs_t] is a map from names to the textual values. *)

(** What [HyperParamFinder<T>] needs of a fundamental type [T]: the value
    [T()] and whether [T] is [bool]. *)
Class Fundamental (T : Type) := {
  T_default : T;
  is_same_bool : bool
}.

(** Stream extraction [ss >> value] from the text [s], with
    [std::boolalpha] set or not.  It belongs to the C++ library. *)
Class Extract (T : Type) := extract : bool -> string -> T.

#[export] Instance fundamental_float : Fundamental Float.f32 :=
  {| T_default := S754_zero false; is_same_bool := false |}.
(** [unsigned]: a value in [0, 2^32). *)
#[export] Instance fundamental_unsigned : Fundamental Z :=
  {| T_default := 0; is_same_bool := false |}.
#[export] Instance fundamental_bool : Fundamental bool :=
  {| T_default := false; is_same_bool := true |}.

(** Models of the extraction for the plain texts used in the examples:
    decimal digits for [unsigned], digits with an optional fraction for
    [float], the word true for [bool] under [std::boolalpha].  A text the
    extraction fails on leaves the value 0. *)
Definition digit_of (c : ascii) : option Z :=
  let n := Z.of_nat (nat_of_ascii c) in
  if (48 <=? n) && (n <=? 57) then Some (n - 48) else None.

Fixpoint digits_value (cs : list ascii) (acc : Z) : Z * nat * list ascii :=
  match cs with
  | [] => (acc, O, [])
  | c :: cs' =>
      match digit_of c with
      | Some d => let '(v, n, rest) := digits_value cs' (10 * acc + d) in (v, S n, rest)
      | None => (acc, O, cs)
      end
  end.

Definition extract_unsigned_model : Extract Z := fun _ s =>
  let '(v, n, _) := digits_value (list_ascii_of_string s) 0 in
  if (n =? 0)%nat then 0 else if v <? 2 ^ 32 then v else 2 ^ 32 - 1.

Definition extract_float_model : Extract Float.f32 := fun _ s =>
  let '(v, n, rest) := digits_value (list_ascii_of_string s) 0 in
  if (n =? 0)%nat then S754_zero false else
  match rest with
  | c :: rest' =>
      if Ascii.eqb c "."%char
      then let '(v', n', _) := digits_value rest' v in
           Float.lit32 v' (Z.of_nat n')
      else Float.lit32 v 0
  | [] => Float.lit32 v 0
  end.

Definition extract_bool_model : Extract bool := fun boolalpha s =>
  if boolalpha then String.prefix "true" s
  else String.prefix "1" s.

Inductive hp_event (T : Type) : Type :=
| EvFatalNotFound (name : string)
| EvCheck (value : T)
| EvFatalShouldNotBe (name : string) (value : T)
| EvInfoRegister (name : string) (value : T).
Arguments EvFatalNotFound {T} name.
Arguments EvCheck {T} value.
Arguments EvFatalShouldNotBe {T} name value.
Arguments EvInfoRegister {T} name value.

(** The outcome together with the trace of what the call did: the
    invocations of [check] and the log lines. *)
Definition HyperParamFinder {T : Type} `{Fundamental T} `{Extract T}
    (kwargs : gmap string string) (name : string) (optional : bool)
    (check : T -> bool) : list (hp_event T) * result T :=
  let value := T_default in
  match kwargs !! name with
  | None =>
      if negb optional
      then ([EvFatalNotFound name], Fatal "Hyper-parameter is not found! Aborted.")
      else ([], Ok value)
  | Some text =>
      let value := extract is_same_bool text in
      if negb (check value)
      then ([EvCheck value; EvFatalShouldNotBe name value],
            Fatal "Hyper-parameter should not be this value! Aborted.")
      else ([EvCheck value; EvInfoRegister name value], Ok value)
  end.

(** *** Typed memory

    Buffers live in a heap indexed by their base address.  A buffer holds
    elements of one C++ type; [reinterpret_cast<T*>] succeeds on a buffer of
    [T] elements and is outside the model on any other. *)

Inductive DataType :=
| BYTEPS_FLOAT32 | BYTEPS_FLOAT64 | BYTEPS_FLOAT16 | BYTEPS_UINT8
| BYTEPS_INT32 | BYTEPS_INT8 | BYTEPS_INT64
| BYTEPS_OTHER (tag : Z).                       (* any other tag value *)

(** The type in which [T * float] and [T + float] are evaluated. *)
Inductive arith := ArithFloat | ArithDouble.

Definition arith_add (a : arith) : spec_float -> spec_float -> spec_float :=
  match a with
  | ArithFloat => SFadd Float.prec32 Float.emax32
  | ArithDouble => SFadd Float.prec64 Float.emax64
  end.
Definition arith_mul (a : arith) : spec_float -> spec_float -> spec_float :=
  match a with
  | ArithFloat => SFmul Float.prec32 Float.emax32
  | ArithDouble => SFmul Float.prec64 Float.emax64
  end.
Definition arith_of_float (a : arith) (x : Float.f32) : spec_float :=
  match a with
  | ArithFloat => x
  | ArithDouble => Float.f64_of_f32 x
  end.

(** Base addresses; the heap maps them to buffers ([heap] below). *)
Abbreviation ptr := N.

(** An access to element [i] of the buffer at [p]. *)
Inductive access := Reads (p : ptr) (i : nat) | Writes (p : ptr) (i : nat).

(** Two accesses conflict when they are to the same element and one of
    them writes it. *)
Definition conflict (a b : access) : bool :=
  match a, b with
  | Reads _ _, Reads _ _ => false
  | Reads p i, Writes q j | Writes p i, Reads q j | Writes p i, Writes q j =>
      (p =? q)%N && (i =? j)%nat
  end.

(** No access of [fp] conflicts with an access of one of [others]. *)
Definition independent (fp : list access) (others : list (list access)) : bool :=
  forallb (fun o => forallb (fun a => forallb (fun b => negb (conflict a b)) o) fp)
          others.

(** No two of the footprints conflict. *)
Fixpoint race_free (fps : list (list access)) : bool :=
  match fps with
  | [] => true
  | fp :: rest => independent fp rest && race_free rest
  end.

Section Memory.
(** [half_t] comes from half.h, which is not part of the sources: the type
    and its arithmetic are parameters. *)
Context {half_t : Type}.

Inductive buffer :=
| BufF32 (l : list Float.f32)
| BufF64 (l : list Float.f64)
| BufF16 (l : list half_t)
| BufU8 (l : list Z)
| BufI32 (l : list Z)
| BufI8 (l : list Z)
| BufI64 (l : list Z).

Local Abbreviation heap := (gmap N buffer).

(** An element type [T] of the reducer templates. *)
Class Scalar (T : Type) := {
  s_sizeof : nat;                               (* sizeof(T) *)
  s_zero : T;                                   (* T(0) *)
  s_arith : arith;                              (* type of T op float *)
  s_to_arith : T -> spec_float;                 (* conversion T -> arith *)
  s_of_arith : spec_float -> result T;          (* conversion arith -> T *)
  s_inj : list T -> buffer;
  s_proj : buffer -> option (list T);
}.

Definition scalar_float : Scalar Float.f32 := {|
  s_sizeof := 4; s_zero := S754_zero false; s_arith := ArithFloat;
  s_to_arith := fun x => x; s_of_arith := Ok;
  s_inj := BufF32;
  s_proj := fun b => match b with BufF32 l => Some l | _ => None end |}.

Definition scalar_double : Scalar Float.f64 := {|
  s_sizeof := 8; s_zero := S754_zero false; s_arith := ArithDouble;
  s_to_arith := fun x => x; s_of_arith := Ok;
  s_inj := BufF64;
  s_proj := fun b => match b with BufF64 l => Some l | _ => None end |}.

(** Integer element types: arithmetic with a [float] happens in [float];
    the conversion back truncates and is undefined out of range. *)
Definition scalar_uint8_t : Scalar Z := {|
  s_sizeof := 1; s_zero := 0; s_arith := ArithFloat;
  s_to_arith := Float.f32_of_Z; s_of_arith := Float.Z_of_float 0 255;
  s_inj := BufU8;
  s_proj := fun b => match b with BufU8 l => Some l | _ => None end |}.
Definition scalar_int32_t : Scalar Z := {|
  s_sizeof := 4; s_zero := 0; s_arith := ArithFloat;
  s_to_arith := Float.f32_of_Z;
  s_of_arith := Float.Z_of_float (- 2 ^ 31) (2 ^ 31 - 1);
  s_inj := BufI32;
  s_proj := fun b => match b with BufI32 l => Some l | _ => None end |}.
Definition scalar_int8_t : Scalar Z := {|
  s_sizeof := 1; s_zero := 0; s_arith := ArithFloat;
  s_to_arith := Float.f32_of_Z; s_of_arith := Float.Z_of_float (- 128) 127;
  s_inj := BufI8;
  s_proj := fun b => match b with BufI8 l => Some l | _ => None end |}.
Definition scalar_int64_t : Scalar Z := {|
  s_sizeof := 8; s_zero := 0; s_arith := ArithFloat;
  s_to_arith := Float.f32_of_Z;
  s_of_arith := Float.Z_of_float (- 2 ^ 63) (2 ^ 63 - 1);
  s_inj := BufI64;
  s_proj := fun b => match b with BufI64 l => Some l | _ => None end |}.

(** [p[i]] and [p[i] = v] through a [T*]. *)
Definition rd {T : Type} `{Scalar T} (h : heap) (p : ptr) (i : nat) : result T :=
  match h !! p with
  | Some b => match s_proj b with
              | Some l => load l i
              | None => Undefined
              end
  | None => Undefined
  end.

Definition wr {T : Type} `{Scalar T} (h : heap) (p : ptr) (i : nat) (v : T)
  : result heap :=
  match h !! p with
  | Some b => match s_proj b with
              | Some l => l' ← store l i v; Ok (<[p := s_inj l']> h)
              | None => Undefined
              end
  | None => Undefined
  end.

(** [a + alpha * b] and [a + b * alpha], converted to [T]. *)
Definition add_scaled {T : Type} `{Scalar T} (a : T) (alpha : Float.f32) (b : T)
  : result T :=
  s_of_arith (arith_add s_arith (s_to_arith a)
                (arith_mul s_arith (arith_of_float s_arith alpha) (s_to_arith b))).

Definition add_scaled_r {T : Type} `{Scalar T} (a b : T) (alpha : Float.f32)
  : result T :=
  s_of_arith (arith_add s_arith (s_to_arith a)
                (arith_mul s_arith (s_to_arith b) (arith_of_float s_arith alpha))).

(** *** sum, sparse_sum *)

(** [dst[i] = dst[i] + alpha * src[i]] for [i < len / sizeof(T)]. *)
Definition _sum {T : Type} `{Scalar T} (h : heap) (dst src : ptr) (len : nat)
    (alpha : Float.f32) : result heap :=
  foldM (fun i h =>
           d ← rd h dst i;
           s ← rd h src i;
           v ← add_scaled d alpha s;
           wr h dst i v)
        (seq 0 (len / s_sizeof)) h.

(** [dst[i] = src1[i] + alpha * src2[i]] for [i < len / sizeof(T)]. *)
Definition _sum3 {T : Type} `{Scalar T} (h : heap) (dst src1 src2 : ptr)
    (len : nat) (alpha : Float.f32) : result heap :=
  foldM (fun i h =>
           a ← rd h src1 i;
           b ← rd h src2 i;
           v ← add_scaled a alpha b;
           wr h dst i v)
        (seq 0 (len / s_sizeof)) h.

(** [#pragma omp parallel for simd] over [i < n]: the iterations run
    concurrently.  [footprint i] lists the elements iteration [i] reads and
    writes.  Two iterations that access the same element, one of them
    writing it, race, and a data race is undefined behaviour.  Without a
    race the iterations commute, and every schedule leaves what running
    them one after the other leaves.  (In [_sum] iteration [i] touches the
    elements at position [i] only, so its loop never races.) *)
Definition omp_parallel_for (n : nat) (footprint : nat -> list access)
    (body : nat -> heap -> result heap) (h : heap) : result heap :=
  if race_free (footprint <$> seq 0 n)
  then foldM body (seq 0 n) h
  else Undefined.

(** [dst[i] += src[idx_list[i]] * alpha; src[idx_list[i]] = 0], under
    [#pragma omp parallel for simd]. *)
Definition _sparse_sum {T : Type} `{Scalar T} (h : heap) (dst src : ptr)
    (len : nat) (alpha : Float.f32) (idx_list : list Z) : result heap :=
  let size := length idx_list in
  omp_parallel_for size
    (fun i =>
       let j := Z.to_nat (nth i idx_list 0) in
       [Reads dst i; Reads src j; Writes dst i; Writes src j])
    (fun i h =>
       j ← load idx_list i;
       d ← rd h dst i;
       s ← rd h src (Z.to_nat j);
       v ← add_scaled_r d s alpha;
       h ← wr h dst i v;
       wr h src (Z.to_nat j) s_zero)
    h.

Context {scalar_half : Scalar half_t}.

Definition sum (h : heap) (dst src : ptr) (len : nat) (dtype : DataType)
    (alpha : Float.f32) : result heap :=
  match dtype with
  | BYTEPS_FLOAT32 => _sum (H:=scalar_float) h dst src len alpha
  | BYTEPS_FLOAT64 => _sum (H:=scalar_double) h dst src len alpha
  | BYTEPS_FLOAT16 => _sum (H:=scalar_half) h dst src len alpha
  | BYTEPS_UINT8 => _sum (H:=scalar_uint8_t) h dst src len alpha
  | BYTEPS_INT32 => _sum (H:=scalar_int32_t) h dst src len alpha
  | BYTEPS_INT8 => _sum (H:=scalar_int8_t) h dst src len alpha
  | BYTEPS_INT64 => _sum (H:=scalar_int64_t) h dst src len alpha
  | BYTEPS_OTHER _ => Fatal "Unsupported data type"
  end.

Definition sum3 (h : heap) (dst src1 src2 : ptr) (len : nat)
    (dtype : DataType) (alpha : Float.f32) : result heap :=
  match dtype with
  | BYTEPS_FLOAT32 => _sum3 (H:=scalar_float) h dst src1 src2 len alpha
  | BYTEPS_FLOAT64 => _sum3 (H:=scalar_double) h dst src1 src2 len alpha
  | BYTEPS_FLOAT16 => _sum3 (H:=scalar_half) h dst src1 src2 len alpha
  | BYTEPS_UINT8 => _sum3 (H:=scalar_uint8_t) h dst src1 src2 len alpha
  | BYTEPS_INT32 => _sum3 (H:=scalar_int32_t) h dst src1 src2 len alpha
  | BYTEPS_INT8 => _sum3 (H:=scalar_int8_t) h dst src1 src2 len alpha
  | BYTEPS_INT64 => _sum3 (H:=scalar_int64_t) h dst src1 src2 len alpha
  | BYTEPS_OTHER _ => Fatal "Unsupported data type"
  end.

Definition sparse_sum (h : heap) (dst src : ptr) (size : nat)
    (dtype : DataType) (alpha : Float.f32) (idx_list : list Z) : result heap :=
  match dtype with
  | BYTEPS_FLOAT32 =>
      _sparse_sum (H:=scalar_float) h dst src (size / 4) alpha idx_list
  | BYTEPS_FLOAT64 =>
      _sparse_sum (H:=scalar_double) h dst src (size / 8) alpha idx_list
  | BYTEPS_FLOAT16 =>
      _sparse_sum (H:=scalar_half) h dst src (size / @s_sizeof half_t scalar_half)
                  alpha idx_list
  | _ => Fatal "Unsupported data type"
  end.

(** The element type the reducers select for a dtype tag. *)
Inductive dtype_scalar : DataType -> forall T : Type, Scalar T -> Prop :=
| ds_float32 : dtype_scalar BYTEPS_FLOAT32 Float.f32 scalar_float
| ds_float64 : dtype_scalar BYTEPS_FLOAT64 Float.f64 scalar_double
| ds_float16 : dtype_scalar BYTEPS_FLOAT16 half_t scalar_half
| ds_uint8 : dtype_scalar BYTEPS_UINT8 Z scalar_uint8_t
| ds_int32 : dtype_scalar BYTEPS_INT32 Z scalar_int32_t
| ds_int8 : dtype_scalar BYTEPS_INT8 Z scalar_int8_t
| ds_int64 : dtype_scalar BYTEPS_INT64 Z scalar_int64_t.

Definition is_floating (dtype : DataType) : bool :=
  match dtype with
  | BYTEPS_FLOAT32 | BYTEPS_FLOAT64 | BYTEPS_FLOAT16 => true
  | _ => false
  end.

End Memory.

Abbreviation heap := (gmap N buffer).

(** A model of [half_t] for the examples: IEEE binary16, computing in
    [float] and rounding to nearest even on the way back. *)
Definition scalar_half_model : Scalar (half_t:=spec_float) spec_float := {|
  s_sizeof := 2; s_zero := S754_zero false; s_arith := ArithFloat;
  s_to_arith := Float.convert Float.prec32 Float.emax32;
  s_of_arith := fun x => Ok (Float.convert 11 16 x);
  s_inj := BufF16;
  s_proj := fun b => match b with BufF16 l => Some l | _ => None end |}.

End Utils.

(** ** Compressor decorators *)

Module Compressors.
Import Utils.

(** [tensor_t]: base address, size in bytes, dtype tag. *)
Record tensor_t := mkTensor { data : ptr; size : nat; dtype : DataType }.

(** The learning-rate file [lr.s] as the constructor finds it. *)
Inductive lr_file :=
| LrOpenFails                   (* open returns no descriptor *)
| LrMmapFails                   (* mmap returns MAP_FAILED *)
| LrMapped (bits : Z).          (* the 8 mapped bytes, as a 64-bit word *)

Section Decorators.
Context {half_t : Type} {scalar_half : Scalar (half_t:=half_t) half_t}.
Local Abbreviation heap := (gmap N (buffer (half_t:=half_t))).

(** [getDataTypeLength] is declared in common.h, which is not part of the
    sources: a parameter. *)
Variable getDataTypeLength : DataType -> result nat.

(** The wrapped compressor [_cptr]: any implementation of the Compressor
    interface, with a state of its own.  [Compress(grad, output)] and
    [Decompress(compressed, output)] take the first tensor by value and the
    second by reference. *)
Variable inner : Type.
Variable inner_Compress :
  inner -> heap -> tensor_t -> tensor_t ->
  result (inner * heap * tensor_t).
Variable inner_Decompress :
  inner -> heap -> tensor_t -> tensor_t ->
  result (inner * heap * tensor_t).

(** *** momentum.cc *)

Record Momentum := mkMomentum {
  m_buf : ptr;                  (* _buf.get() *)
  m_mu : Float.f32;             (* _mu *)
  m_cptr : inner                (* _cptr *)
}.

Section MomentumBase.
(** The pure virtual methods. *)
Variable UpdateMom : Momentum -> heap -> tensor_t -> result heap.
Variable UpdateGradient : Momentum -> heap -> tensor_t -> result heap.

Definition Momentum_Compress (this : Momentum) (h : heap) (grad output : tensor_t)
  : result (Momentum * heap * tensor_t) :=
  (* m_t = \mu * m_{t-1} + g_t *)
  h ← UpdateMom this h grad;
  (* p_t = \mu m_t + g_t *)
  h ← UpdateGradient this h grad;
  (* compress *)
  '(c, h, output) ← inner_Compress (m_cptr this) h grad output;
  Ok (mkMomentum (m_buf this) (m_mu this) c, h, output).

Definition Momentum_Decompress (this : Momentum) (h : heap)
    (compressed output : tensor_t) : result (Momentum * heap * tensor_t) :=
  '(c, h, output) ← inner_Decompress (m_cptr this) h compressed output;
  Ok (mkMomentum (m_buf this) (m_mu this) c, h, output).
End MomentumBase.

(** *** impl/nesterov_momentum.cc *)

Definition Nesterov_UpdateMom (this : Momentum) (h : heap) (grad : tensor_t)
  : result heap :=
  (* m_t = \mu * m_{t-1} + g_t *)
  sum3 h (m_buf this) (data grad) (m_buf this) (size grad) (dtype grad)
       (m_mu this).

Definition Nesterov_UpdateGradient (this : Momentum) (h : heap) (grad : tensor_t)
  : result heap :=
  (* p_t = \mu m_t + g_t *)
  sum h (data grad) (m_buf this) (size grad) (dtype grad) (m_mu this).

Definition Nesterov_Compress := Momentum_Compress Nesterov_UpdateMom Nesterov_UpdateGradient.
Definition Nesterov_Decompress := Momentum_Decompress.

(** *** impl/corrected_error_feedback.cc *)

Record CorrectedErrorFeedbackCompressor := mkCorrected {
  ce_buf : ptr;                 (* _buf.get(): the error *)
  ce_pre_lr : Float.f64;
  ce_cur_lr : Float.f64;
  ce_cptr : inner
}.

(** [(_pre_lr / _cur_lr)] passed for the [float alpha] parameter. *)
Definition lr_ratio (pre_lr cur_lr : Float.f64) : Float.f32 :=
  Float.f32_of_f64 (SFdiv Float.prec64 Float.emax64 pre_lr cur_lr).

(** [mm] is what the mapping [_mm] holds when the method runs. *)
Definition Corrected_UpdateGradient (this : CorrectedErrorFeedbackCompressor)
    (mm : Z) (h : heap) (grad : tensor_t)
  : result (CorrectedErrorFeedbackCompressor * heap) :=
  let cur_lr := Float.f64_of_bits mm in
  h ← sum h (data grad) (ce_buf this) (size grad) (dtype grad)
          (lr_ratio (ce_pre_lr this) cur_lr);
  Ok (mkCorrected (ce_buf this) cur_lr cur_lr (ce_cptr this), h).

(** *** impl/sparse_error_feedback.cc *)

Record SparseErrorFeedbackCompressor := mkSparse {
  se_buf : ptr;
  se_pre_lr : Float.f64;
  se_cur_lr : Float.f64;
  se_k : Z;                           (* size_t _k *)
  se_rng : xorshift128p_state;
  se_selected_idx : list Z;           (* std::vector<uint32_t> *)
  se_cptr : inner
}.

(** [for (i < _k) _selected_idx.push_back(_rng.Randint(0, len));] *)
Fixpoint draw (k : nat) (len : Z) (rng : xorshift128p_state) (idx : list Z)
  : result (xorshift128p_state * list Z) :=
  match k with
  | O => Ok (rng, idx)
  | S k' =>
      '(r, rng') ← Randint 0 len rng;
      draw k' len rng' (idx ++ [r mod U32])
  end.

(** [building_server] says whether BYTEPS_BUILDING_SERVER is defined. *)
Definition Sparse_UpdateGradient (building_server : bool)
    (this : SparseErrorFeedbackCompressor) (mm : Z) (h : heap) (grad : tensor_t)
  : result (SparseErrorFeedbackCompressor * heap) :=
  let cur_lr := Float.f64_of_bits mm in
  if negb building_server then
    h ← sum h (data grad) (se_buf this) (size grad) (dtype grad)
            (lr_ratio (se_pre_lr this) cur_lr);
    Ok (mkSparse (se_buf this) cur_lr cur_lr (se_k this) (se_rng this)
                 (se_selected_idx this) (se_cptr this), h)
  else
    esize ← getDataTypeLength (dtype grad);
    if (esize =? 0)%nat then Undefined else
    let len := Z.of_nat (size grad / esize) in
    '(rng, selected_idx) ← draw (Z.to_nat (se_k this)) len (se_rng this)
                                (se_selected_idx this);
    h ← sparse_sum h (data grad) (se_buf this) (size grad) (dtype grad)
                   (lr_ratio (se_pre_lr this) cur_lr) selected_idx;
    Ok (mkSparse (se_buf this) cur_lr cur_lr (se_k this) rng [] (se_cptr this), h).

(** The constructor.  [buf] is the buffer the Compressor base allocates,
    [rd1, rd2] the two draws of [std::random_device] that seed the
    default-constructed generator. *)
Definition Sparse_new (buf : ptr) (rd1 rd2 : Z) (lr : lr_file)
    (cptr : inner) (k : Z) (seed : Z) : result SparseErrorFeedbackCompressor :=
  let rng := mkRng rd1 rd2 in
  let rng := if negb (seed =? 0) then set_seed ((seed + k) mod U64) rng else rng in
  match lr with
  | LrOpenFails => Fatal "open lr.s failed"
  | LrMmapFails => Fatal "mmap failed"
  | LrMapped bits =>
      let lr := Float.f64_of_bits bits in
      Ok (mkSparse buf lr lr k rng [] cptr)
  end.

(** The constructor registered under the name sparse_ef. *)
Context {extract_float : Extract Float.f32} {extract_unsigned : Extract Z}.

Definition float_gt0 (x : Float.f32) : bool :=
  SFltb (S754_zero false) x.
Definition unsigned_ne0 (x : Z) : bool := negb (x =? 0).

Definition sparse_ef_k (factor : Float.f32) (size : nat) (dtype : DataType)
  : result Z :=
  if SFltb factor (Float.f32_of_Z 1) then
    esize ← getDataTypeLength dtype;
    k ← Float.Z_of_float 0 (U32 - 1)
          (SFdiv Float.prec32 Float.emax32
             (SFmul Float.prec32 Float.emax32 factor (Float.f32_of_Z (Z.of_nat size)))
             (Float.f32_of_Z (Z.of_nat esize)));
    Ok (if k =? 0 then 1 else k)
  else Float.Z_of_float 0 (U32 - 1) factor.

Definition sparse_ef_register (kwargs : gmap string string) (size : nat)
    (dtype : DataType) (cptr : option inner)
    (buf : ptr) (rd1 rd2 : Z) (lr : lr_file)
  : result SparseErrorFeedbackCompressor :=
  match cptr with
  | None => Fatal "Check failed: cptr != nullptr"
  | Some c =>
      factor ← (HyperParamFinder kwargs "compressor_k" false float_gt0).2;
      k ← sparse_ef_k factor size dtype;
      seed ← (HyperParamFinder kwargs "seed" true unsigned_ne0).2;
      Sparse_new buf rd1 rd2 lr c k seed
  end.

End Decorators.

Arguments mkMomentum {inner}.
Arguments m_buf {inner}.
Arguments m_mu {inner}.
Arguments m_cptr {inner}.
Arguments mkCorrected {inner}.
Arguments ce_buf {inner}.
Arguments ce_pre_lr {inner}.
Arguments ce_cur_lr {inner}.
Arguments ce_cptr {inner}.
Arguments mkSparse {inner}.
Arguments se_buf {inner}.
Arguments se_pre_lr {inner}.
Arguments se_cur_lr {inner}.
Arguments se_k {inner}.
Arguments se_rng {inner}.
Arguments se_selected_idx {inner}.
Arguments se_cptr {inner}.
Arguments Sparse_new {inner}.
Arguments sparse_ef_register getDataTypeLength {inner extract_float extract_unsigned}.
Arguments Sparse_UpdateGradient {half_t scalar_half} getDataTypeLength {inner}.
Arguments Corrected_UpdateGradient {half_t scalar_half inner}.
Arguments Nesterov_UpdateMom {half_t scalar_half inner}.
Arguments Nesterov_UpdateGradient {half_t scalar_half inner}.
Arguments Nesterov_Compress {half_t scalar_half inner}.
Arguments Nesterov_Decompress {half_t inner}.
Arguments Momentum_Compress {half_t inner}.
Arguments Momentum_Decompress {half_t inner}.

End Compressors.

(** ** impl/topk.h

    The header declares [TopkCompressor] with its parameter [_k]; the
    bodies of [Compress] and [Decompress] (topk.cc) are not part of the
    sources. *)

Module Topk.

Section TopkModel.
(** The scalar type: [abs_lt a b] is [|a| < |b|]. *)
Context {T : Type}.
Variable abs_lt : T -> T -> bool.
Variable zero : T.
Variable sizeof_scalar : nat.

Definition sizeof_u32 : nat := 4.

(** Modelled from the spec: topk.cc is missing.  The entry of largest
    absolute value among the candidates, the one of smaller index on ties
    (the candidates are listed by increasing index). *)
Fixpoint largest (cands : list (nat * T)) : option (nat * T) :=
  match cands with
  | [] => None
  | c :: rest =>
      match largest rest with
      | None => Some c
      | Some b => if abs_lt c.2 b.2 then Some b else Some c
      end
  end.

(** Modelled from the spec: topk.cc is missing.  The [k] entries of
    largest absolute value, found one after the other. *)
Fixpoint select (k : nat) (cands : list (nat * T)) : list (nat * T) :=
  match k with
  | O => []
  | S k' =>
      match largest cands with
      | None => []
      | Some b => b :: select k' (filter (fun c => c.1 ≠ b.1) cands)
      end
  end.

(** The compressed tensor: the (u32 index, scalar value) pairs and the
    byte length reported for them. *)
Record compressed := mkCompressed { pairs : list (nat * T); c_size : nat }.

(** Modelled from the spec: topk.cc is missing.  "Compress: writes the k
    entries of largest absolute value as (u32 index, scalar value) pairs;
    ties broken by preferring the smaller index.  Compress result length =
    k * (sizeof(u32) + sizeof(scalar))." *)
Definition Compress (k : nat) (grad : list T) : compressed :=
  mkCompressed (select k (imap (fun i v => (i, v)) grad))
               (k * (sizeof_u32 + sizeof_scalar)).

(** Modelled from the spec: topk.cc is missing.  "Decompress: zero-fills
    dst, then scatters the k pairs."  [n] is the number of scalars of
    [dst]. *)
Definition Decompress (c : compressed) (n : nat) : result (list T) :=
  foldM (fun p dst => store dst p.1 p.2) (pairs c) (replicate n zero).

End TopkModel.

(** The comparison of absolute values of IEEE numbers. *)
Definition float_abs_lt (a b : spec_float) : bool := SFltb (SFabs a) (SFabs b).

End Topk.

(** ** server.cc *)

Module Server.
Import Utils.

(** [ps::KVMeta]: the fields the server reads. *)
Record KVMeta := mkMeta { cmd : Z; push : bool; sender : Z }.

(** [ps::SArray<char>(data, len)]: a view of [len] bytes at [data]. *)
Record SArray := mkSArray { sa_data : ptr; sa_size : nat }.

(** [ps::KVPairs<char>] *)
Record KVPairs := mkKV { keys : list Z; vals : SArray; lens : list nat }.
Definition KVPairs_empty : KVPairs := mkKV [] (mkSArray 0%N 0) [].

Inductive RequestType :=
| kDefaultPushPull | kRowSparsePushPull | kCompressedPushPull | kConfigPushPull.
Record DataHandleType := mkType { requestType : RequestType; dtype : Z }.

Inductive BytePSEngineOperation := COPY_FIRST | SUM_RECV | ALL_RECV | TERMINATE.

Record BytePSEngineMessage := mkMsg {
  id : Z;
  type : DataHandleType;
  key : Z;
  dst : ptr;
  src : ptr;
  len : nat;
  ops : BytePSEngineOperation;
  sarray : KVPairs;
  req_meta : KVMeta;
  mixed_precision : bool
}.

(** [BytePSArray]; the null pointer is [0]. *)
Record BytePSArray := mkArray {
  tensor : ptr;
  a_len : nat;
  a_dtype : Z;
  tmp_sarray : KVPairs
}.
Definition BytePSArray_empty : BytePSArray := mkArray 0%N 0 0 KVPairs_empty.

Record UpdateBuf := mkUpdate { request : list KVMeta; merged : BytePSArray }.
Definition UpdateBuf_empty : UpdateBuf := mkUpdate [] BytePSArray_empty.

(** What the server asks of its collaborators, in the order it asks. *)
Inductive effect :=
| Response (req : KVMeta) (res : KVPairs)
| QueuePush (tid : nat) (msg : BytePSEngineMessage)
| QueueClearCounter (tid : nat) (k : Z)
| ReducerSum (d s : ptr) (n : nat) (dt : Z)
| ReducerSumMixed (d s : ptr) (n : nat) (dt : Z)
| ReducerCopy (d s : ptr) (n : nat)
| ReducerCopyMixed (d s : ptr) (n : nat) (dt : Z) (up : bool)
| CompressorCompress (k : Z) (grad : SArray) (out : ptr)
| CompressorDecompress (k : Z) (compressed : SArray).

(** The bookkeeping of one engine thread, guarded by [flag_mu_[i]].  The
    maps read with [operator[]] only are total maps with the C++ default;
    [is_push_finished_] is also searched with [find]. *)
Record shard := mkShard {
  is_push_finished_ : gmap Z bool;
  pull_cnt_ : gmap Z nat;
  seen_sender_ : gmap Z (gset Z);
  q_pull_reqmeta_ : gmap Z (list KVMeta)
}.
Definition shard_empty : shard := mkShard ∅ ∅ ∅ ∅.

Record server := mkServer {
  sync_mode_ : bool;
  is_engine_blocking_ : bool;
  NumWorkers : nat;
  lb_factor_ : Float.f32;
  timestamp_ : Z;
  store_ : gmap Z BytePSArray;
  update_buf_ : gmap Z UpdateBuf;
  fp16_copy_ : gmap Z BytePSArray;
  compressor_map_ : gset Z;
  push_response_map_ : gmap Z KVPairs;
  pull_response_map_ : gmap Z KVPairs;
  shards : list shard;
  trace : list effect
}.

Definition emit (e : effect) (st : server) : server :=
  mkServer (sync_mode_ st) (is_engine_blocking_ st) (NumWorkers st)
    (lb_factor_ st) (timestamp_ st) (store_ st) (update_buf_ st)
    (fp16_copy_ st) (compressor_map_ st) (push_response_map_ st)
    (pull_response_map_ st) (shards st) (trace st ++ [e]).
Definition set_update_buf (u : gmap Z UpdateBuf) (st : server) : server :=
  mkServer (sync_mode_ st) (is_engine_blocking_ st) (NumWorkers st)
    (lb_factor_ st) (timestamp_ st) (store_ st) u
    (fp16_copy_ st) (compressor_map_ st) (push_response_map_ st)
    (pull_response_map_ st) (shards st) (trace st).
Definition set_timestamp (t : Z) (st : server) : server :=
  mkServer (sync_mode_ st) (is_engine_blocking_ st) (NumWorkers st)
    (lb_factor_ st) t (store_ st) (update_buf_ st)
    (fp16_copy_ st) (compressor_map_ st) (push_response_map_ st)
    (pull_response_map_ st) (shards st) (trace st).
Definition set_push_response_map (m : gmap Z KVPairs) (st : server) : server :=
  mkServer (sync_mode_ st) (is_engine_blocking_ st) (NumWorkers st)
    (lb_factor_ st) (timestamp_ st) (store_ st) (update_buf_ st)
    (fp16_copy_ st) (compressor_map_ st) m
    (pull_response_map_ st) (shards st) (trace st).
Definition set_pull_response_map (m : gmap Z KVPairs) (st : server) : server :=
  mkServer (sync_mode_ st) (is_engine_blocking_ st) (NumWorkers st)
    (lb_factor_ st) (timestamp_ st) (store_ st) (update_buf_ st)
    (fp16_copy_ st) (compressor_map_ st) (push_response_map_ st)
    m (shards st) (trace st).
Definition set_shards (l : list shard) (st : server) : server :=
  mkServer (sync_mode_ st) (is_engine_blocking_ st) (NumWorkers st)
    (lb_factor_ st) (timestamp_ st) (store_ st) (update_buf_ st)
    (fp16_copy_ st) (compressor_map_ st) (push_response_map_ st)
    (pull_response_map_ st) l (trace st).

(** [update_buf_[key]] *)
Definition updates_of (st : server) (k : Z) : UpdateBuf :=
  default UpdateBuf_empty (update_buf_ st !! k).
Definition set_request (k : Z) (r : list KVMeta) (st : server) : server :=
  set_update_buf (<[k := mkUpdate r (merged (updates_of st k))]> (update_buf_ st)) st.
Definition set_merged (k : Z) (m : BytePSArray) (st : server) : server :=
  set_update_buf (<[k := mkUpdate (request (updates_of st k)) m]> (update_buf_ st)) st.

Section Handlers.
(** Declared in server.h and ps-lite, which are not part of the sources:
    the shard a key is assigned to, the wire encoding of keys, the return
    code of the reducer's sum and the tensor a compressor hands back. *)
Variable GetThreadID : Z -> Z -> nat.
Variable EncodeKey : Z -> Z.
Variable reducer_sum : ptr -> ptr -> nat -> Z -> Z.
Variable compress_output : Z -> SArray -> ptr -> SArray.
Variable decompress_output : Z -> SArray -> SArray * Z.

Definition SendPushResponse (k : Z) (req : KVMeta) (st : server) : server :=
  match push_response_map_ st !! k with
  | None =>
      let response := KVPairs_empty in
      emit (Response req response)
           (set_push_response_map (<[k := response]> (push_response_map_ st)) st)
  | Some response => emit (Response req response) st
  end.

Definition SendPullResponse (k : Z) (req_meta : KVMeta) (st : server)
  : result server :=
  let updates := updates_of st k in
  let st := set_update_buf (<[k := updates]> (update_buf_ st)) st in
  if (tensor (merged updates) =? 0)%N then Fatal "init key first" else
  let data := tensor (merged updates) in
  let len := a_len (merged updates) in
  match pull_response_map_ st !! k with
  | None =>
      let response := mkKV [EncodeKey k] (mkSArray data len) [len] in
      Ok (emit (Response req_meta response)
               (set_pull_response_map (<[k := response]> (pull_response_map_ st)) st))
  | Some old =>
      let response := mkKV (keys old) (mkSArray data len) [len] in
      Ok (emit (Response req_meta response)
               (set_pull_response_map (<[k := response]> (pull_response_map_ st)) st))
  end.

(** *** The per-key bookkeeping of a shard *)

Definition push_finished (sh : shard) (k : Z) : bool :=
  default false (is_push_finished_ sh !! k).
Definition pull_cnt (sh : shard) (k : Z) : nat :=
  default 0%nat (pull_cnt_ sh !! k).
Definition seen_sender (sh : shard) (k : Z) : gset Z :=
  default ∅ (seen_sender_ sh !! k).
Definition q_pull_reqmeta (sh : shard) (k : Z) : list KVMeta :=
  default [] (q_pull_reqmeta_ sh !! k).

(** [if (is_push_finished_[i].find(key) == end) { ... }] *)
Definition init_flags (k : Z) (sh : shard) : shard :=
  match is_push_finished_ sh !! k with
  | None => mkShard (<[k := false]> (is_push_finished_ sh))
                    (<[k := 0%nat]> (pull_cnt_ sh))
                    (<[k := ∅]> (seen_sender_ sh))
                    (q_pull_reqmeta_ sh)
  | Some _ => sh
  end.
Definition set_push_finished (k : Z) (b : bool) (sh : shard) : shard :=
  mkShard (<[k := b]> (is_push_finished_ sh)) (pull_cnt_ sh) (seen_sender_ sh)
          (q_pull_reqmeta_ sh).
(** [pull_cnt_[i][key] += 1; seen_sender_[i][key].insert(sender)] *)
Definition mark_served (k : Z) (s : Z) (sh : shard) : shard :=
  mkShard (is_push_finished_ sh)
          (<[k := S (pull_cnt sh k)]> (pull_cnt_ sh))
          (<[k := {[s]} ∪ seen_sender sh k]> (seen_sender_ sh))
          (q_pull_reqmeta_ sh).
(** [is_push_finished_ = false; pull_cnt_ = 0; seen_sender_.clear()] *)
Definition reset_flags (k : Z) (sh : shard) : shard :=
  mkShard (<[k := false]> (is_push_finished_ sh))
          (<[k := 0%nat]> (pull_cnt_ sh))
          (<[k := ∅]> (seen_sender_ sh))
          (q_pull_reqmeta_ sh).
Definition set_q_pull_reqmeta (k : Z) (q : list KVMeta) (sh : shard) : shard :=
  mkShard (is_push_finished_ sh) (pull_cnt_ sh) (seen_sender_ sh)
          (<[k := q]> (q_pull_reqmeta_ sh)).

(** *** The engine thread *)

(** The loop of [case ALL_RECV] over the parked pulls of the key: [it] is
    what the iterator has not visited yet, [kept] what it has passed over. *)
Fixpoint flush_pulls (k : Z) (it kept : list KVMeta) (sh : shard) (st : server)
  : result (shard * server) :=
  match it with
  | [] => Ok (set_q_pull_reqmeta k kept sh, st)
  | m :: rest =>
      '(kept, sh, st) ←
        (if decide (sender m ∈ seen_sender sh k)
         then Ok (kept ++ [m], sh, st)
         else st ← SendPullResponse k m st;
              Ok (kept, mark_served k (sender m) sh, st));
      if (pull_cnt sh k =? NumWorkers st)%nat
      then Ok (set_q_pull_reqmeta k (kept ++ rest) (reset_flags k sh), st)
      else flush_pulls k rest kept sh st
  end.

Definition all_recv_case (i : nat) (msg : BytePSEngineMessage) (st : server)
  : result server :=
  sh ← load (shards st) i;
  let sh := init_flags (key msg) sh in
  let sh := set_push_finished (key msg) true sh in
  '(sh, st) ← flush_pulls (key msg) (q_pull_reqmeta sh (key msg)) [] sh st;
  l ← store (shards st) i sh;
  Ok (set_shards l st).

(** One iteration of the loop of [BytePSServerEngineThread(i)], for a
    message other than TERMINATE (the loop is left before the checks on
    TERMINATE; the last branch of the [match] is the [default:] of the
    [switch]). *)
Definition engine_step (i : nat) (msg : BytePSEngineMessage) (st : server)
  : result server :=
  if (dst msg =? 0)%N then Fatal "Check failed: msg.dst" else
  if (src msg =? 0)%N then Fatal "Check failed: msg.src" else
  '(msg, st) ←
    (if decide (key msg ∈ compressor_map_ st) then
       match ops msg with
       | ALL_RECV =>
           let fp16_copy := default BytePSArray_empty (fp16_copy_ st !! key msg) in
           let grad := mkSArray (src msg) (len msg) in
           let st := emit (CompressorCompress (key msg) grad (tensor fp16_copy)) st in
           let compressed := compress_output (key msg) grad (tensor fp16_copy) in
           let m := merged (updates_of st (key msg)) in
           Ok (msg, set_merged (key msg)
                      (mkArray (sa_data compressed) (sa_size compressed)
                               (a_dtype m) (tmp_sarray m)) st)
       | _ =>
           compressed_len ← load (lens (sarray msg)) 0;
           if (len msg <? compressed_len)%nat
           then Fatal "Check failed: compressed_len <= msg.len" else
           let compressed := mkSArray (src msg) compressed_len in
           let st := emit (CompressorDecompress (key msg) compressed) st in
           let '(decompressed, dt) := decompress_output (key msg) compressed in
           Ok (mkMsg (id msg) (mkType (requestType (type msg)) dt) (key msg)
                     (dst msg) (sa_data decompressed) (sa_size decompressed)
                     (ops msg) (sarray msg) (req_meta msg) false, st)
       end
     else
       match ops msg with
       | ALL_RECV =>
           let m := merged (updates_of st (key msg)) in
           if mixed_precision msg then
             let fp16_copy := default BytePSArray_empty (fp16_copy_ st !! key msg) in
             let st := emit (ReducerCopyMixed (tensor fp16_copy) (src msg)
                               (a_len fp16_copy) (a_dtype fp16_copy) false) st in
             Ok (msg, set_merged (key msg)
                        (mkArray (tensor fp16_copy) (a_len fp16_copy)
                                 (a_dtype m) (tmp_sarray m)) st)
           else
             Ok (msg, set_merged (key msg)
                        (mkArray (src msg) (len msg) (a_dtype m) (tmp_sarray m)) st)
       | _ => Ok (msg, st)
       end);
  match ops msg with
  | COPY_FIRST =>
      if mixed_precision msg
      then Ok (emit (ReducerCopyMixed (dst msg) (src msg) (len msg)
                       (dtype (type msg)) true) st)
      else Ok (emit (ReducerCopy (dst msg) (src msg) (len msg)) st)
  | ALL_RECV => all_recv_case i msg st
  | SUM_RECV =>
      if mixed_precision msg
      then Ok (emit (ReducerSumMixed (dst msg) (src msg) (len msg)
                       (dtype (type msg))) st)
      else
        let st := emit (ReducerSum (dst msg) (src msg) (len msg)
                          (dtype (type msg))) st in
        if reducer_sum (dst msg) (src msg) (len msg) (dtype (type msg)) <? 0
        then Fatal "Check failed: sum >= 0" else Ok st
  | TERMINATE => Fatal "Check failed: 0"
  end.

(** [BytePSServerEngineThread(i)] on the messages popped from its queue,
    in order: the loop is left at TERMINATE; with the queue empty the thread
    waits in [WaitAndPop]. *)
Fixpoint BytePSServerEngineThread (i : nat) (queue : list BytePSEngineMessage)
    (st : server) : result server :=
  match queue with
  | [] => Ok st
  | msg :: queue' =>
      match ops msg with
      | TERMINATE => Ok st
      | _ => st' ← engine_step i msg st; BytePSServerEngineThread i queue' st'
      end
  end.

(** *** The request handlers *)

(** [float workload = stored->len; if (compressor) workload *= lb_factor_;]
    and the conversion [int(workload)]. *)
Definition push_workload (st : server) (k : Z) (stored : BytePSArray) : result Z :=
  let workload := Float.f32_of_Z (Z.of_nat (a_len stored)) in
  let workload :=
    if decide (k ∈ compressor_map_ st)
    then SFmul Float.prec32 Float.emax32 workload (lb_factor_ st)
    else workload in
  Float.Z_of_float INT_MIN INT_MAX workload.

Definition BytePSHandlePush (k : Z) (ty : DataHandleType) (n : nat)
    (stored : BytePSArray) (recved : ptr) (req : KVMeta) (req_data : KVPairs)
    (mixed : bool) (st : server) : result server :=
  let st := set_update_buf (<[k := updates_of st k]> (update_buf_ st)) st in
  w ← push_workload st k stored;
  let tid := GetThreadID k w in
  st ←
    (match request (updates_of st k) with
     | [] =>
         if sync_mode_ st then
           let m := merged (updates_of st k) in
           let st := set_merged k (mkArray (tensor m) (a_len m) (a_dtype m) req_data) st in
           let msg := mkMsg (timestamp_ st) ty k (tensor stored) recved n
                            COPY_FIRST req_data req mixed in
           Ok (emit (QueuePush tid msg) (set_timestamp (timestamp_ st + 1) st))
         else
           let st := emit (ReducerSum (tensor stored) recved n (a_dtype stored)) st in
           if reducer_sum (tensor stored) recved n (a_dtype stored) <? 0
           then Fatal "Check failed: sum >= 0" else Ok st
     | _ :: _ =>
         if negb (sync_mode_ st) then Fatal "Check failed: sync_mode_" else
         if is_engine_blocking_ st then
           let m := merged (updates_of st k) in
           let st := emit (ReducerSum (tensor m) recved n (a_dtype m)) st in
           if reducer_sum (tensor m) recved n (a_dtype m) <? 0
           then Fatal "Check failed: sum >= 0" else Ok st
         else
           let msg := mkMsg (timestamp_ st) ty k (tensor stored) recved n
                            SUM_RECV req_data req mixed in
           Ok (emit (QueuePush tid msg) (set_timestamp (timestamp_ st + 1) st))
     end);
  let st := set_request k (request (updates_of st k) ++ [req]) st in
  let st := SendPushResponse k req st in
  if sync_mode_ st && (length (request (updates_of st k)) =? NumWorkers st)%nat then
    let st :=
      if is_engine_blocking_ st then
        emit (ReducerCopy (tensor stored) (tensor (merged (updates_of st k))) n) st
      else
        let msg := mkMsg (timestamp_ st)
                         (mkType (requestType ty) (a_dtype stored)) k
                         (tensor stored) (tensor stored) (a_len stored)
                         ALL_RECV req_data req mixed in
        emit (QueueClearCounter tid k)
             (emit (QueuePush tid msg) (set_timestamp (timestamp_ st + 1) st)) in
    Ok (set_request k [] st)
  else if negb (sync_mode_ st) then Ok (set_request k [] st)
  else Ok st.

Definition BytePSHandlePull (k : Z) (ty : DataHandleType) (stored : BytePSArray)
    (req : KVMeta) (st : server) : result server :=
  if (tensor stored =? 0)%N then Fatal "Should init the buffer for key first" else
  if is_engine_blocking_ st || negb (sync_mode_ st) then
    SendPullResponse k req st
  else
    let tid := GetThreadID k 0 in
    sh ← load (shards st) tid;
    let sh := init_flags k sh in
    '(sh, st) ←
      (if push_finished sh k && bool_decide (sender req ∉ seen_sender sh k) then
         st ← SendPullResponse k req st;
         let sh := mark_served k (sender req) sh in
         Ok (if (pull_cnt sh k =? NumWorkers st)%nat then reset_flags k sh else sh, st)
       else
         Ok (set_q_pull_reqmeta k (q_pull_reqmeta sh k ++ [req]) sh, st));
    l ← store (shards st) tid sh;
    Ok (set_shards l st).

End Handlers.

(** *** Initialisation, configuration and dispatch *)

Definition set_store (m : gmap Z BytePSArray) (st : server) : server :=
  mkServer (sync_mode_ st) (is_engine_blocking_ st) (NumWorkers st)
    (lb_factor_ st) (timestamp_ st) m (update_buf_ st)
    (fp16_copy_ st) (compressor_map_ st) (push_response_map_ st)
    (pull_response_map_ st) (shards st) (trace st).
Definition set_fp16_copy (m : gmap Z BytePSArray) (st : server) : server :=
  mkServer (sync_mode_ st) (is_engine_blocking_ st) (NumWorkers st)
    (lb_factor_ st) (timestamp_ st) (store_ st) (update_buf_ st)
    m (compressor_map_ st) (push_response_map_ st)
    (pull_response_map_ st) (shards st) (trace st).
Definition set_compressor_map (m : gset Z) (st : server) : server :=
  mkServer (sync_mode_ st) (is_engine_blocking_ st) (NumWorkers st)
    (lb_factor_ st) (timestamp_ st) (store_ st) (update_buf_ st)
    (fp16_copy_ st) m (push_response_map_ st)
    (pull_response_map_ st) (shards st) (trace st).

(** [GetStore(key)], [GetFP16Copy(key)]: [&store_[key]], [&fp16_copy_[key]];
    the entry is created when it is missing. *)
Definition GetStore (k : Z) (st : server) : BytePSArray * server :=
  let stored := default BytePSArray_empty (store_ st !! k) in
  (stored, set_store (<[k := stored]> (store_ st)) st).
Definition GetFP16Copy (k : Z) (st : server) : BytePSArray * server :=
  let copy := default BytePSArray_empty (fp16_copy_ st !! k) in
  (copy, set_fp16_copy (<[k := copy]> (fp16_copy_ st)) st).

Section Requests.
Variable GetThreadID : Z -> Z -> nat.
Variable EncodeKey : Z -> Z.
Variable reducer_sum : ptr -> ptr -> nat -> Z -> Z.
(** Declared in common.h, server.h, ps-lite and the compressor registry,
    which are not part of the sources: the address an allocation returns
    (it may depend on everything that happened before), [Align],
    [Promote] (called on [len] and [dtype]), whether the registry builds a
    compressor from the configuration a request carries, the decoding of
    the command word and of keys, the flag [log_key_info_] and the tag of
    [BYTEPS_FLOAT16]. *)
Variable PageAlignedMalloc : server -> nat -> ptr.
Variable Align : nat -> nat.
Variable Promote : nat -> Z -> nat * Z.
Variable CompressorRegistry_Create : KVPairs -> nat -> nat -> Z -> bool.
Variable DepairDataHandleType : Z -> DataHandleType.
Variable DecodeKey : Z -> Z.
Variable log_key_info_ : bool.
Variable BYTEPS_FLOAT16 : Z.

(** [for (const auto& req : updates.request) SendPushResponse(key, req)] *)
Definition respond_all (k : Z) (reqs : list KVMeta) (st : server) : server :=
  fold_left (fun st req => SendPushResponse k req st) reqs st.

(** The tail the two handlers below share: buffer the request, and answer
    all of them once every worker has sent one. *)
Definition buffer_and_respond (k : Z) (req : KVMeta) (st : server) : server :=
  let st := set_update_buf (<[k := updates_of st k]> (update_buf_ st)) st in
  let st := set_request k (request (updates_of st k) ++ [req]) st in
  if (length (request (updates_of st k)) <? NumWorkers st)%nat then st
  else set_request k [] (respond_all k (request (updates_of st k)) st).

Definition BytePSHandleConfigReq (k : Z) (ty : DataHandleType) (req : KVMeta)
    (req_data : KVPairs) (st : server) : result server :=
  st ←
    (if decide (k ∈ compressor_map_ st) then Ok st
     else
       len0 ← load (lens req_data) 0;
       let '(stored, st) := GetStore k st in
       let aligned_size := Align (a_len stored) in
       if CompressorRegistry_Create req_data len0 aligned_size (a_dtype stored)
       then Ok (set_compressor_map ({[k]} ∪ compressor_map_ st) st)
       else Fatal "Check failed: compressor_ptr != nullptr");
  Ok (buffer_and_respond k req st).

(** [stored] points into [store_]: the handler writes [store_[key]]. *)
Definition BytePSHanleInit (k : Z) (ty : DataHandleType) (n : nat)
    (stored : BytePSArray) (req : KVMeta) (req_data : KVPairs) (mixed : bool)
    (st : server) : result server :=
  let st :=
    if sync_mode_ st && bool_decide (update_buf_ st !! k = None)
    then set_update_buf
           (<[k := mkUpdate [] (mkArray 0%N n (dtype ty) KVPairs_empty)]>
              (update_buf_ st)) st
    else st in
  let st := set_update_buf (<[k := updates_of st k]> (update_buf_ st)) st in
  let st := set_request k (request (updates_of st k) ++ [req]) st in
  if (length (request (updates_of st k)) <? NumWorkers st)%nat then Ok st else
  '(n', dt, st) ←
    (if mixed then
       let '(fp16_copy, st) := GetFP16Copy k st in
       let p := PageAlignedMalloc st n in
       let st := set_fp16_copy
                   (<[k := mkArray p n (dtype ty) (tmp_sarray fp16_copy)]>
                      (fp16_copy_ st)) st in
       if (p =? 0)%N then Fatal "Check failed: fp16_copy->tensor"
       else let '(n', dt) := Promote n (dtype ty) in Ok (n', dt, st)
     else Ok (n, dtype ty, st));
  let aligned_size := Align n' in
  let p := PageAlignedMalloc st aligned_size in
  let st := set_store (<[k := mkArray p n' dt (tmp_sarray stored)]> (store_ st)) st in
  if (p =? 0)%N then Fatal "Check failed: stored->tensor" else
  Ok (set_request k [] (respond_all k (request (updates_of st k)) st)).

Definition BytePSHandleDefaultReq (k : Z) (ty : DataHandleType) (req : KVMeta)
    (req_data : KVPairs) (st : server) : result server :=
  let '(stored, st) := GetStore k st in
  let mixed := (dtype ty =? BYTEPS_FLOAT16) in
  if push req then
    if negb (length (lens req_data) =? 1)%nat
    then Fatal "Check failed: req_data.lens.size() == 1" else
    len0 ← load (lens req_data) 0;
    if negb (sa_size (vals req_data) =? len0)%nat
    then Fatal "Check failed: req_data.vals.size() == req_data.lens[0]" else
    if (tensor stored =? 0)%N
    then BytePSHanleInit k ty len0 stored req req_data mixed st
    else BytePSHandlePush GetThreadID reducer_sum k ty len0 stored
           (sa_data (vals req_data)) req req_data mixed st
  else BytePSHandlePull GetThreadID EncodeKey k ty stored req st.

Definition BytePSHandler (req : KVMeta) (req_data : KVPairs) (st : server)
  : result server :=
  let ty := DepairDataHandleType (cmd req) in
  if negb (length (keys req_data) =? 1)%nat
  then Fatal "Check failed: req_data.keys.size() == 1" else
  _ ← (if log_key_info_ && push req then
         if negb (length (lens req_data) =? 1)%nat
         then Fatal "Check failed: req_data.lens.size() == 1" else
         len0 ← load (lens req_data) 0;
         if negb (sa_size (vals req_data) =? len0)%nat
         then Fatal "Check failed: req_data.vals.size() == req_data.lens[0]"
         else Ok tt
       else Ok tt);
  k0 ← load (keys req_data) 0;
  let k := DecodeKey k0 in
  match requestType ty with
  | kConfigPushPull => BytePSHandleConfigReq k ty req req_data st
  | kDefaultPushPull => BytePSHandleDefaultReq k ty req req_data st
  | kCompressedPushPull => BytePSHandleDefaultReq k ty req req_data st
  | kRowSparsePushPull => Fatal "Not implemented."
  end.

End Requests.
End Server.

(** * Vocabulary of the statements *)

(** ** Bit IO *)

Module BitIOSpec.
Import Utils.

(** A bit string written as text, most significant bit first. *)
Definition bits_of_string (s : string) : list bool :=
  map (fun c => Ascii.eqb c "1"%char) (list_ascii_of_string s).

(** Write [bs] into a zeroed buffer of [cap] words of [sizeof_T] bytes,
    flush, and read [length bs] bits back. *)
Definition write_then_read (sizeof_T : nat) (cap : nat) (bs : list bool)
  : result (nat * result (list bool)) :=
  w ← put_all sizeof_T bs (BitWriter_new (repeat 0 cap));
  w ← Flush sizeof_T w;
  Ok (w_bits sizeof_T w,
      fst <$> get_n sizeof_T (length bs) (BitReader_new (w_dptr w) 0)).

(** Encode [x] into a zeroed buffer of [cap] words, flush, and decode. *)
Definition encode_then_decode (sizeof_T : nat) (std_log2 : Float.f64 -> Float.f64)
    (cap : nat) (x : Z) : result Z :=
  w ← EliasDeltaEncode sizeof_T std_log2 (BitWriter_new (repeat 0 cap)) x;
  w ← Flush sizeof_T w;
  fst <$> EliasDeltaDecode sizeof_T (BitReader_new (w_dptr w) 0).

(** The bits [EliasDeltaEncode] puts for [x], read back from the buffer. *)
Definition encoded_bits (sizeof_T : nat) (std_log2 : Float.f64 -> Float.f64)
    (cap : nat) (x : Z) : result (list bool) :=
  w ← EliasDeltaEncode sizeof_T std_log2 (BitWriter_new (repeat 0 cap)) x;
  let n := w_bits sizeof_T w in
  w ← Flush sizeof_T w;
  fst <$> get_n sizeof_T n (BitReader_new (w_dptr w) 0).

(** The bits [n-1 .. 0] of [v], most significant first. *)
Definition low_bits (v : Z) (n : Z) : list bool :=
  map (fun i => Z.testbit v i) (downto (n - 1) 0).

(** The code word for a length field [L] and a payload [x]: with
    [LL = floor (log2 L)], [LL] zeros, then [L] in [LL + 1] bits, then the
    low [L - 1] bits of [x]. *)
Definition code_word (L x : Z) : list bool :=
  let LL := Z.log2 L in
  replicate (Z.to_nat LL) false ++ low_bits L (LL + 1) ++ low_bits x (L - 1).

(** The code word of the specification: [L = 1 + floor (log2 x)]. *)
Definition elias_bits (x : Z) : list bool := code_word (1 + Z.log2 x) x.

(** What is assumed of [std::log2]: on an [unsigned long] below [2^46], or
    a power of two, converted to [double], the floor of the result is the
    integer logarithm.  A logarithm that returns one of the two doubles
    next to the exact value has this property; nearer to the next power of
    two the result may be rounded up to the next integer. *)
Definition log2_faithful (std_log2 : Float.f64 -> Float.f64) : Prop :=
  forall x, 1 <= x < 2 ^ 64 -> x < 2 ^ 46 \/ x = 2 ^ Z.log2 x ->
    Float.floor (std_log2 (Float.f64_of_Z x)) = Float.f64_of_Z (Z.log2 x).

(** A logarithm for the examples: the exact logarithm rounded down to an
    integer. *)
Definition log2_rounded_down (d : Float.f64) : Float.f64 :=
  match d with
  | S754_finite false m e => Float.f64_of_Z (Z.log2 (Zpos m) + e)
  | S754_zero _ => S754_infinity true
  | S754_infinity false => d
  | _ => S754_nan
  end.

Section Streams.
Variable sizeof_T : nat.
Local Abbreviation W := (PACKING_SIZE sizeof_T).

(** [a] is a value of the word type [T]. *)
Definition in_T (a : Z) : Prop := to_T sizeof_T a = a.

(** The bits of a word and of a word array, most significant first. *)
Definition word_bits (a : Z) : list bool :=
  (fun j => Z.testbit a (Z.of_nat (W - 1 - j))) <$> seq 0 W.

Definition mem_bits (m : list Z) : list bool := concat (word_bits <$> m).

(** The low [length c] bits of [a] are the bits [c]. *)
Definition holds (a : Z) (c : list bool) : Prop :=
  forall j b, c !! j = Some b -> Z.testbit a (Z.of_nat (length c - 1 - j)) = b.

(** A writer whose accumulator holds the bits [c] of the word in progress. *)
Record writer_inv (w : BitWriter) (c : list bool) : Prop := {
  wi_used : w_used_bits w = length c;
  wi_lt : (length c < W)%nat;
  wi_holds : holds (w_accum w) c;
  wi_mem : Forall in_T (w_dptr w)
}.

(** The bits put so far: the completed words, then the word in progress. *)
Definition written (w : BitWriter) (c : list bool) : list bool :=
  mem_bits (take (w_blocks w) (w_dptr w)) ++ c.

Record reader_inv (r : BitReader) : Prop := {
  ri_used : (r_used_bits r <= r_blocks r * W)%nat;
  ri_used_W : (r_used_bits r <= W)%nat;
  ri_blocks : (r_blocks r <= length (r_dptr r))%nat;
  ri_accum : (0 < r_used_bits r)%nat -> in_T (r_accum r);
  ri_mem : Forall in_T (r_dptr r)
}.

(** The bits a reader has still to deliver: the rest of the word loaded,
    then the words not yet loaded. *)
Definition pending (r : BitReader) : list bool :=
  drop (W - r_used_bits r) (word_bits (r_accum r))
  ++ mem_bits (drop (r_blocks r) (r_dptr r)).

End Streams.


(** A list of numbers encoded one after the other into the same writer,
    and [n] numbers decoded one after the other from the same reader. *)
Definition encode_all (sizeof_T : nat) (std_log2 : Float.f64 -> Float.f64)
    (xs : list Z) (w : BitWriter) : result BitWriter :=
  foldM (fun x w => EliasDeltaEncode sizeof_T std_log2 w x) xs w.

Fixpoint decode_n (sizeof_T : nat) (n : nat) (r : BitReader)
  : result (list Z * BitReader) :=
  match n with
  | O => Ok ([], r)
  | S n' =>
      '(x, r1) ← EliasDeltaDecode sizeof_T r;
      '(xs, r2) ← decode_n sizeof_T n' r1;
      Ok (x :: xs, r2)
  end.

(** Number of bits of the code word of [x]. *)
Definition elias_length (x : Z) : nat :=
  Z.to_nat (2 * Z.log2 (1 + Z.log2 x) + 1 + Z.log2 x).


(** [s] has bit [k] set exactly when [w] has a bit set among [k .. k+m-1]. *)
Definition smeared (m : Z) (w s : Z) : Prop :=
  forall k, 0 <= k ->
    Z.testbit s k = true <-> exists j, 0 <= j < m /\ Z.testbit w (k + j) = true.


End BitIOSpec.

(** ** Hyper-parameters *)

Module HyperParamSpec.
Import Utils Compressors.

(** The element sizes of the C++ types, for the examples. *)
Definition sizes (d : DataType) : result nat :=
  match d with
  | BYTEPS_FLOAT32 | BYTEPS_INT32 => Ok 4%nat
  | BYTEPS_FLOAT64 | BYTEPS_INT64 => Ok 8%nat
  | BYTEPS_FLOAT16 => Ok 2%nat
  | BYTEPS_UINT8 | BYTEPS_INT8 => Ok 1%nat
  | BYTEPS_OTHER _ => Fatal "Unsupported data type"
  end.

(** A string [operator>>] reads back as it is: not empty, no white space. *)
Definition is_word (s : string) : Prop :=
  s <> EmptyString /\ Forall (fun c => isspace c = false) (list_ascii_of_string s).

(** What is assumed of the iteration of the map and of the extraction of a
    [size_t]: the iteration visits every entry once, and a decimal numeral
    followed by a space or by the end of the input is read as its value,
    up to the character after it. *)
Definition iterates_all (iterate : gmap string string -> list (string * string)) : Prop :=
  forall kwargs, iterate kwargs ≡ₚ map_to_list kwargs.

Definition reads_decimal (extract_size_t : istringstream -> nat * istringstream) : Prop :=
  forall (n : nat) rest,
    (rest = [] \/ exists rest', rest = " "%char :: rest') ->
    extract_size_t (mkIs (list_ascii_of_string (pretty n) ++ rest) false)
    = (n, mkIs rest false).

(** Stand-in for the examples (which iterate with [map_to_list]): the
    extraction of an unsigned decimal numeral. *)
Definition decimal_digit (c : ascii) : option nat :=
  let n := nat_of_ascii c in
  if (48 <=? n)%nat && (n <=? 57)%nat then Some (n - 48)%nat else None.

Fixpoint read_decimal (cs : list ascii) (acc : nat) (seen : bool)
  : nat * bool * list ascii :=
  match cs with
  | c :: cs' =>
      match decimal_digit c with
      | Some d => read_decimal cs' (10 * acc + d) true
      | None => (acc, seen, cs)
      end
  | [] => (acc, seen, [])
  end.

Definition extract_size_t_model (strm : istringstream) : nat * istringstream :=
  if is_fail strm then (0%nat, strm) else
  let '(n, seen, rest) := read_decimal (skip_ws (is_rest strm)) 0 false in
  if seen then (n, mkIs rest false) else (0%nat, mkIs rest true).

(** The characters [Serialize] appends for a list of entries. *)
Definition entries_text (l : list (string * string)) : list ascii :=
  concat (map (fun kv => " "%char :: list_ascii_of_string kv.1
                         ++ " "%char :: list_ascii_of_string kv.2) l).

(** The map the assignments [kwargs[key] = val] build, in order. *)
Definition assign_all (l : list (string * string)) (m : gmap string string)
  : gmap string string :=
  fold_left (fun m kv => <[kv.1 := kv.2]> m) l m.

End HyperParamSpec.

(** ** The reducers *)

Module ReducerSpec.
Import Utils.

Section Elementwise.
Context {half_t : Type} {T : Type} {S : Scalar (half_t:=half_t) T}.

(** What the reducers rely on of an element type: a buffer of [T] is read
    back as it was written, and [sizeof(T)] is positive. *)
Definition lawful : Prop :=
  (forall l : list T, s_proj (s_inj l) = Some l) /\
  (forall b (l : list T), s_proj b = Some l -> b = s_inj l) /\
  (0 < s_sizeof (T:=T))%nat.

(** [alpha * m + g], as the specification writes the momentum update. *)
Definition scale_add (alpha : Float.f32) (m g : T) : result T :=
  s_of_arith (arith_add s_arith
                (arith_mul s_arith (arith_of_float s_arith alpha) (s_to_arith m))
                (s_to_arith g)).

(** [R] is [D] with its first [n] elements replaced by [f A[i] B[i]]. *)
Definition elementwise (n : nat) (f : T -> T -> result T) (D A B R : list T) : Prop :=
  length R = length D /\
  (forall i, (i < n)%nat ->
     exists a b r, A !! i = Some a /\ B !! i = Some b /\ R !! i = Some r /\
                   f a b = Ok r) /\
  (forall i, (n <= i)%nat -> R !! i = D !! i).

(** [src] after the positions [js] have been zeroed, one after the other. *)
Definition zero_at (S0 : list T) (js : list nat) : list T :=
  foldl (fun s j => <[j := s_zero]> s) S0 js.

(** What the iterations of [_sparse_sum] leave in [dst] ([D'], from [D])
    when they run one after the other, for the index list [idx] and the
    source [S0]: position [i] receives [D[i] + alpha * s] where [s] is the
    element [idx[i]] of the source as the earlier iterations left it;
    positions from [length idx] on are kept. *)
Definition sparse_result (alpha : Float.f32) (idx : list Z) (D S0 D' : list T) : Prop :=
  length D' = length D /\
  (forall i j, idx !! i = Some j ->
     exists d s r, D !! i = Some d /\
       zero_at S0 (Z.to_nat <$> take i idx) !! Z.to_nat j = Some s /\
       D' !! i = Some r /\ add_scaled d alpha s = Ok r) /\
  (forall i, (length idx <= i)%nat -> D' !! i = D !! i).

(** The same for an index list without a repeated index: position [i]
    receives [D[i] + alpha * S0[idx[i]]]. *)
Definition sparse_update (alpha : Float.f32) (idx : list Z) (D S0 D' : list T) : Prop :=
  length D' = length D /\
  (forall i j, idx !! i = Some j ->
     exists d s r, D !! i = Some d /\ S0 !! Z.to_nat j = Some s /\
       D' !! i = Some r /\ add_scaled d alpha s = Ok r) /\
  (forall i, (length idx <= i)%nat -> D' !! i = D !! i).

(** [dst] holds [n] elements of [T]. *)
Definition extent (dst : ptr) (n : nat) (h : gmap N (buffer (half_t:=half_t))) : Prop :=
  exists D : list T, h !! dst = Some (s_inj D) /\ length D = n.

End Elementwise.

(** The index list holds an index at two positions. *)
Definition picked_twice (idx : list Z) : Prop :=
  exists i j a, (i < j)%nat /\ idx !! i = Some a /\ idx !! j = Some a.

(** The elements iteration [i] of the loop of [_sparse_sum] accesses. *)
Definition sparse_footprint (dst src : ptr) (idx : list Z) (i : nat) : list access :=
  let j := Z.to_nat (nth i idx 0) in
  [Reads dst i; Reads src j; Writes dst i; Writes src j].

End ReducerSpec.

(** ** The decorators *)

Module CompressorSpec.
Import Utils Compressors.

(** The inner compressor of the examples: it leaves everything as it is
    and reports the gradient as its output. *)
Definition identity_inner {half_t : Type} (c : unit) (h : gmap N (buffer (half_t:=half_t)))
    (grad output : tensor_t) : result (unit * gmap N (buffer (half_t:=half_t)) * tensor_t) :=
  Ok (c, h, grad).

(** The first [k] outputs of the generator, and its state after them. *)
Fixpoint outputs (k : nat) (rng : xorshift128p_state) : list Z :=
  match k with
  | O => []
  | Datatypes.S k' => let '(r, rng') := xorshift128p rng in r :: outputs k' rng'
  end.

Fixpoint rng_after (k : nat) (rng : xorshift128p_state) : xorshift128p_state :=
  match k with
  | O => rng
  | Datatypes.S k' => rng_after k' (xorshift128p rng).2
  end.

(** Both words of the state are 64-bit values. *)
Definition rng_wf (st : xorshift128p_state) : Prop :=
  0 <= rng_a st < U64 /\ 0 <= rng_b st < U64.

(** The inverses of [t ^= t << 23] on 64 bits and of [t ^= t >> 17]. *)
Definition undo_shl23 (y : Z) : Z :=
  Z.lxor y (Z.lxor (Z.shiftl y 23) (Z.shiftl y 46)) mod U64.
Definition undo_shr17 (y : Z) : Z :=
  Z.lxor y (Z.lxor (Z.shiftr y 17) (Z.lxor (Z.shiftr y 34) (Z.shiftr y 51))).

(** The first state word from which the generator, with [b] as its second
    state word, outputs [o]. *)
Definition first_word_for (b o : Z) : Z :=
  let t := (o - b) mod U64 in
  undo_shl23 (undo_shr17 (Z.lxor t (Z.lxor b (Z.shiftr b 26)))).

End CompressorSpec.

(** ** Top-K *)

Module TopkSpec.
Import Utils Topk.

Section Order.
Context {T : Type}.
Variable abs_lt : T -> T -> bool.

(** [a] is selected before [b]: its absolute value is larger, or it is not
    smaller and its index is smaller. *)
Definition beats (a b : nat * T) : Prop :=
  abs_lt b.2 a.2 = true \/ (abs_lt a.2 b.2 = false /\ (a.1 < b.1)%nat).

(** The comparison is a strict weak order on the values of [l]. *)
Definition asymmetric_on (l : list T) : Prop :=
  forall a b, a ∈ l -> b ∈ l -> abs_lt a b = true -> abs_lt b a = false.
Definition cotransitive_on (l : list T) : Prop :=
  forall a b c, a ∈ l -> b ∈ l -> c ∈ l ->
    abs_lt a c = true -> abs_lt a b = true \/ abs_lt b c = true.

(** Candidates listed by increasing index. *)
Definition increasing (cands : list (nat * T)) : Prop :=
  forall p q a b, (p < q)%nat -> cands !! p = Some a -> cands !! q = Some b ->
    (a.1 < b.1)%nat.

End Order.

Arguments beats {T} abs_lt a b.
Arguments asymmetric_on {T} abs_lt l.
Arguments cotransitive_on {T} abs_lt l.

(** Checks [asymmetric_on] and [cotransitive_on] on a concrete list. *)
Definition strict_weak_orderb {T : Type} (abs_lt : T -> T -> bool) (l : list T) : bool :=
  forallb (fun a => forallb (fun b =>
    implb (abs_lt a b) (negb (abs_lt b a)) &&
    forallb (fun c => implb (abs_lt a c) (abs_lt a b || abs_lt b c)) l) l) l.

(** The gradient of the specification's example, in single precision. *)
Definition example_grad : list spec_float :=
  [Float.lit32 1 1; Float.lit32 (-9) 1; Float.lit32 3 1; Float.lit32 8 1].

End TopkSpec.

(** ** The server *)

Module ServerSpec.
Import Utils Server.

Section Handlers.
Variable GetThreadID : Z -> Z -> nat.
Variable EncodeKey : Z -> Z.

(** The shell [SendPushResponse] answers a push with. *)
Definition push_shell (st : server) (k : Z) : KVPairs :=
  default KVPairs_empty (push_response_map_ st !! k).

(** The response [SendPullResponse] sends for the key: the memoised shell
    with its value array pointing at the merged buffer. *)
Definition pull_payload (st : server) (k : Z) : KVPairs :=
  let m := merged (updates_of st k) in
  mkKV (match pull_response_map_ st !! k with
        | Some old => keys old
        | None => [EncodeKey k]
        end)
       (mkSArray (tensor m) (a_len m)) [a_len m].

(** The invariant of the bookkeeping of key [k] on a shard, for [n]
    workers: [pull_cnt] counts the senders served in the current step, it
    stays below [n], and nothing is counted before the pushes finished. *)
Definition pull_inv (n : nat) (sh : shard) (k : Z) : Prop :=
  pull_cnt sh k = size (seen_sender sh k) /\
  (pull_cnt sh k < n)%nat /\
  (push_finished sh k = false -> pull_cnt sh k = 0%nat).

(** The bookkeeping after [served] more senders were answered, starting
    from [sh]: reset when the count reaches [n], advanced otherwise (with
    [is_push_finished] at [fin]). *)
Definition bookkeeping_after (n : nat) (sh sh' : shard) (k : Z)
    (served : list KVMeta) (fin : bool) : Prop :=
  (pull_cnt sh k + length served <= n)%nat /\
  if (pull_cnt sh k + length served =? n)%nat
  then push_finished sh' k = false /\ pull_cnt sh' k = 0%nat /\
       seen_sender sh' k = ∅
  else push_finished sh' k = fin /\
       pull_cnt sh' k = (pull_cnt sh k + length served)%nat /\
       seen_sender sh' k = list_to_set (sender <$> served) ∪ seen_sender sh k.

(** The senders answered are distinct and were not served in this step. *)
Definition served_once (sh : shard) (k : Z) (served : list KVMeta) : Prop :=
  NoDup (sender <$> served) /\
  forall m, m ∈ served -> sender m ∉ seen_sender sh k.

(** The pull requests and ALL_RECV messages of a key. *)
Inductive pull_op :=
| PullRequest (ty : DataHandleType) (stored : BytePSArray) (req : KVMeta)
| AllRecv (msg : BytePSEngineMessage).

Definition run_pull_op (i : nat) (k : Z) (op : pull_op) (st : server)
  : result server :=
  match op with
  | PullRequest ty stored req => BytePSHandlePull GetThreadID EncodeKey k ty stored req st
  | AllRecv msg => all_recv_case EncodeKey i msg st
  end.

Definition pull_op_ready (k : Z) (op : pull_op) : Prop :=
  match op with
  | PullRequest ty stored req => tensor stored <> 0%N
  | AllRecv msg => key msg = k
  end.

(** [is_push_finished] after the operation, unless the step completes. *)
Definition finished_after (sh : shard) (k : Z) (op : pull_op) : bool :=
  match op with
  | PullRequest _ _ _ => push_finished sh k
  | AllRecv _ => true
  end.

End Handlers.

(** A server of [n] workers in sync mode with a non-blocking engine and one
    shard, where [pending] pushes are buffered for key 7. *)
Definition example_server (n : nat) (pending : list KVMeta) : server :=
  mkServer true false n (Float.f32_of_Z 1) 100
    {[ 7 := mkArray 64%N 16 0 KVPairs_empty ]}
    {[ 7 := mkUpdate pending (mkArray 64%N 16 0 KVPairs_empty) ]}
    ∅ ∅ ∅ ∅ [shard_empty] [].

Definition example_push (n : nat) (pending : list KVMeta) (sender : Z)
  : result server :=
  BytePSHandlePush (fun _ _ => 0%nat) (fun _ _ _ _ => 0) 7
    (mkType kDefaultPushPull 0) 16 (mkArray 64%N 16 0 KVPairs_empty) 128%N
    (mkMeta 0 true sender) (mkKV [7] (mkSArray 128%N 16) [16%nat]) false
    (example_server n pending).

(** The operations of the messages a trace enqueues, in order. *)
Definition enqueued_ops (tr : list effect) : list BytePSEngineOperation :=
  omap (fun e => match e with QueuePush _ m => Some (ops m) | _ => None end) tr.

(** Two workers; pulls of senders 8, 9 and 8 again are parked for key 7
    when ALL_RECV is processed. *)
Definition example_parked : server :=
  mkServer true false 2 (Float.f32_of_Z 1) 100
    {[ 7 := mkArray 64%N 16 0 KVPairs_empty ]}
    {[ 7 := mkUpdate [] (mkArray 64%N 16 0 KVPairs_empty) ]}
    ∅ ∅ ∅ ∅
    [mkShard ∅ ∅ ∅ {[ 7 := [mkMeta 0 false 8; mkMeta 0 false 9; mkMeta 0 false 8] ]}]
    [].

Definition example_all_recv : BytePSEngineMessage :=
  mkMsg 102 (mkType kDefaultPushPull 0) 7 64%N 64%N 16 ALL_RECV
        KVPairs_empty (mkMeta 0 true 9) false.


(** The fields a handler step leaves alone. *)
Definition same_config (st st' : server) : Prop :=
  sync_mode_ st' = sync_mode_ st /\
  is_engine_blocking_ st' = is_engine_blocking_ st /\
  NumWorkers st' = NumWorkers st.

(** What is buffered for a key, and what is sent, once [req] has joined
    the [pending] requests of [n] workers. *)
Definition pending_after (n : nat) (pending : list KVMeta) (req : KVMeta)
  : list KVMeta :=
  if (length (pending ++ [req]) <? n)%nat then pending ++ [req] else [].

Definition acks_after (n : nat) (pending : list KVMeta) (req : KVMeta)
    (shell : KVPairs) : list effect :=
  if (length (pending ++ [req]) <? n)%nat then []
  else (fun r => Response r shell) <$> (pending ++ [req]).


Definition is_response (e : effect) : bool :=
  match e with Response _ _ => true | _ => false end.


Section System.
Variable GetThreadID : Z -> Z -> nat.
Variable EncodeKey : Z -> Z.
Variable reducer_sum : ptr -> ptr -> nat -> Z -> Z.
Variable compress_output : Z -> SArray -> ptr -> SArray.
Variable decompress_output : Z -> SArray -> SArray * Z.
Variable PageAlignedMalloc : server -> nat -> ptr.
Variable Align : nat -> nat.
Variable Promote : nat -> Z -> nat * Z.
Variable CompressorRegistry_Create : KVPairs -> nat -> nat -> Z -> bool.
Variable DepairDataHandleType : Z -> DataHandleType.
Variable DecodeKey : Z -> Z.
Variable log_key_info_ : bool.
Variable BYTEPS_FLOAT16 : Z.

(** The request handler on one request. *)
Definition handler (req : KVMeta) (req_data : KVPairs) (st : server) : result server :=
  BytePSHandler GetThreadID EncodeKey reducer_sum PageAlignedMalloc Align Promote
    CompressorRegistry_Create DepairDataHandleType DecodeKey log_key_info_
    BYTEPS_FLOAT16 req req_data st.

(** One move of the server: the handler serves a request, or engine thread
    [i] runs one iteration on a message that was pushed to its queue.  The
    process stops at a failed check, so only moves that return count. *)
Definition server_step (st st' : server) : Prop :=
  (exists req req_data, handler req req_data st = Ok st') \/
  (exists i msg, QueuePush i msg ∈ trace st /\
     engine_step EncodeKey reducer_sum compress_output decompress_output i msg st
     = Ok st').

(** Every key has fewer buffered requests than there are workers. *)
Definition buffers_open (st : server) : Prop :=
  forall k, (length (request (updates_of st k)) < NumWorkers st)%nat.

(** No merged buffer is set and no message other than COPY_FIRST was queued. *)
Definition nothing_merged (st : server) : Prop :=
  (forall k, tensor (merged (updates_of st k)) = 0%N) /\
  (forall i msg, QueuePush i msg ∈ trace st -> ops msg = COPY_FIRST).
End System.


(** What serving one request for key [k] changes. *)
Definition request_served (k : Z) (st st' : server) : Prop :=
  exists evs,
    trace st' = trace st ++ evs /\ same_config st st' /\
    (forall k', k' <> k -> updates_of st' k' = updates_of st k') /\
    ((length (request (updates_of st k)) < NumWorkers st)%nat ->
     (length (request (updates_of st' k)) < NumWorkers st)%nat) /\
    ((is_engine_blocking_ st || negb (sync_mode_ st)) = true ->
     (forall k', tensor (merged (updates_of st k')) = 0%N) ->
     (forall k', tensor (merged (updates_of st' k')) = 0%N) /\
     Forall (fun o => o = COPY_FIRST) (enqueued_ops evs)).


(** The buffer an ALL_RECV message seals as the merged one: what the
    compressor returns, the half-precision copy, or the buffer of the
    message. *)
Definition sealed_buffer (compress_output : Z -> SArray -> ptr -> SArray)
    (st : server) (msg : BytePSEngineMessage) : SArray :=
  let fp16_copy := default BytePSArray_empty (fp16_copy_ st !! key msg) in
  if decide (key msg ∈ compressor_map_ st)
  then compress_output (key msg) (mkSArray (src msg) (len msg)) (tensor fp16_copy)
  else if mixed_precision msg
       then mkSArray (tensor fp16_copy) (a_len fp16_copy)
       else mkSArray (src msg) (len msg).

(** Stand-ins for the collaborators in the examples: one shard, keys sent
    as they are, a reducer and an allocator that succeed, a registry that
    accepts every configuration, command 1 for a configuration request and
    any other for a default one, dtype tag 2 for half precision. *)
Definition example_handler : KVMeta -> KVPairs -> server -> result server :=
  handler (fun _ _ => 0%nat) (fun k => k) (fun _ _ _ _ => 0) (fun _ _ => 4096%N)
    (fun n => n) (fun n dt => (n, dt)) (fun _ _ _ _ => true)
    (fun c => mkType (if c =? 1 then kConfigPushPull else kDefaultPushPull) 0)
    (fun k => k) false 2.

Definition example_step : server -> server -> Prop :=
  server_step (fun _ _ => 0%nat) (fun k => k) (fun _ _ _ _ => 0)
    (fun _ a _ => a) (fun _ a => (a, 0)) (fun _ _ => 4096%N)
    (fun n => n) (fun n dt => (n, dt)) (fun _ _ _ _ => true)
    (fun c => mkType (if c =? 1 then kConfigPushPull else kDefaultPushPull) 0)
    (fun k => k) false 2.

(** A server that has served nothing yet. *)
Definition example_fresh (sync blocking : bool) (n : nat) : server :=
  mkServer sync blocking n (Float.f32_of_Z 1) 0 ∅ ∅ ∅ ∅ ∅ ∅ [shard_empty] [].

(** The handler on a list of requests, one after the other. *)
Definition example_run (reqs : list (KVMeta * KVPairs)) (st : server)
  : result server :=
  foldM (fun rd st => example_handler rd.1 rd.2 st) reqs st.

(** A push of 16 bytes for key 7 by [sender]. *)
Definition example_push_req (sender : Z) : KVMeta * KVPairs :=
  (mkMeta 0 true sender, mkKV [7] (mkSArray 128%N 16) [16%nat]).
Definition example_pull_req (sender : Z) : KVMeta * KVPairs :=
  (mkMeta 0 false sender, mkKV [7] (mkSArray 0%N 0) []).

(** A COPY_FIRST and a TERMINATE message for key 7. *)
Definition example_copy_first : BytePSEngineMessage :=
  mkMsg 100 (mkType kDefaultPushPull 0) 7 64%N 128%N 16 COPY_FIRST
        KVPairs_empty (mkMeta 0 true 8) false.
Definition example_terminate : BytePSEngineMessage :=
  mkMsg 101 (mkType kDefaultPushPull 0) 7 64%N 64%N 16 TERMINATE
        KVPairs_empty (mkMeta 0 true 8) false.

(** [example_parked] with a compressor registered for key 7, and a
    compressor that leaves 8 bytes at address 96. *)
Definition example_parked_compressed : server :=
  set_compressor_map {[ 7 ]} example_parked.
Definition example_compress_output (k : Z) (grad : SArray) (out : ptr) : SArray :=
  mkSArray 96%N 8.


(** *** What is answered, and when *)

(** An ALL_RECV message for key [k] has been queued. *)
Definition sealed_for (k : Z) (tr : list effect) : Prop :=
  exists i msg, QueuePush i msg ∈ tr /\ ops msg = ALL_RECV /\ key msg = k.

(** The memoised responses: the shells of the pushes are empty, the
    response of the pulls of a key names the key. *)
Definition shells_empty (st : server) : Prop :=
  forall k r, push_response_map_ st !! k = Some r -> r = KVPairs_empty.

Section Answers.
Variable EncodeKey : Z -> Z.

Definition pull_keys (st : server) : Prop :=
  forall k r, pull_response_map_ st !! k = Some r -> keys r = [EncodeKey k].

(** What a move for key [k] does to the answers and to the merged
    buffers; [sealing] says whether it may set the merged buffer of [k]. *)
Definition answers (k : Z) (sealing : bool) (st st' : server) : Prop :=
  exists evs,
    trace st' = trace st ++ evs /\
    shells_empty st' /\ pull_keys st' /\
    (forall req res, Response req res ∈ evs ->
       res = KVPairs_empty \/
       keys res = [EncodeKey k] /\
       (sealing = true \/ tensor (merged (updates_of st k)) <> 0%N)) /\
    (forall k', tensor (merged (updates_of st' k')) <> 0%N ->
       tensor (merged (updates_of st k')) <> 0%N \/ (sealing = true /\ k' = k)).

(** Every answer that carries data is for a key whose ALL_RECV message has
    been queued, and a merged buffer is set only for such a key. *)
Definition data_after_seal (st : server) : Prop :=
  shells_empty st /\ pull_keys st /\
  (forall k, tensor (merged (updates_of st k)) <> 0%N -> sealed_for k (trace st)) /\
  (forall n req res, trace st !! n = Some (Response req res) ->
     res = KVPairs_empty \/
     exists k, keys res = [EncodeKey k] /\ sealed_for k (take n (trace st))).
End Answers.

(** The ALL_RECV message the second push of a round for key 7 queues. *)
Definition example_round_all_recv : BytePSEngineMessage :=
  mkMsg 2 (mkType kDefaultPushPull 0) 7 4096%N 4096%N 16 ALL_RECV
        (mkKV [7] (mkSArray 128%N 16) [16%nat]) (mkMeta 0 true 9) false.

(** *** Rounds *)

(** A move of the server: the handler serves a request, or engine thread
    [i] runs one iteration on a message. *)
Inductive move :=
| Serve (req : KVMeta) (req_data : KVPairs)
| Iterate (i : nat) (msg : BytePSEngineMessage).

(** The iterations on an ALL_RECV message for key [k] among the moves. *)
Definition seals (k : Z) (m : move) : bool :=
  match m with
  | Iterate _ msg =>
      match ops msg with ALL_RECV => bool_decide (key msg = k) | _ => false end
  | Serve _ _ => false
  end.
Definition sealed_rounds (k : Z) (ms : list move) : nat :=
  length (List.filter (seals k) ms).

(** The answers to pulls a shard may still send for key [k] in the round
    that is open, with [n] workers. *)
Definition credit (n : nat) (k : Z) (sh : shard) : nat :=
  if push_finished sh k then (n - pull_cnt sh k)%nat else 0%nat.
Definition total_credit (n : nat) (k : Z) (shs : list shard) : nat :=
  sum_list (credit n k <$> shs).

(** A response without a key: the acknowledgement of a push. *)
Definition no_data (evs : list effect) : Prop :=
  Forall (fun e => match e with Response _ res => keys res = [] | _ => True end) evs.

Section Rounds.
Variable GetThreadID : Z -> Z -> nat.
Variable EncodeKey : Z -> Z.
Variable reducer_sum : ptr -> ptr -> nat -> Z -> Z.
Variable compress_output : Z -> SArray -> ptr -> SArray.
Variable decompress_output : Z -> SArray -> SArray * Z.
Variable PageAlignedMalloc : server -> nat -> ptr.
Variable Align : nat -> nat.
Variable Promote : nat -> Z -> nat * Z.
Variable CompressorRegistry_Create : KVPairs -> nat -> nat -> Z -> bool.
Variable DepairDataHandleType : Z -> DataHandleType.
Variable DecodeKey : Z -> Z.
Variable log_key_info_ : bool.
Variable BYTEPS_FLOAT16 : Z.

Definition do_move (m : move) (st : server) : result server :=
  match m with
  | Serve req req_data =>
      handler GetThreadID EncodeKey reducer_sum PageAlignedMalloc Align Promote
        CompressorRegistry_Create DepairDataHandleType DecodeKey log_key_info_
        BYTEPS_FLOAT16 req req_data st
  | Iterate i msg =>
      engine_step EncodeKey reducer_sum compress_output decompress_output i msg st
  end.

(** The moves one after the other; the process stops at a failed check. *)
Definition run_moves (ms : list move) (st : server) : result server :=
  foldM do_move ms st.

(** The responses of a trace that name key [k]: the answers to its pulls. *)
Definition answers_pull (k : Z) (e : effect) : bool :=
  match e with
  | Response _ res => bool_decide (keys res = [EncodeKey k])
  | _ => false
  end.
Definition pulls_answered (k : Z) (tr : list effect) : nat :=
  length (List.filter (answers_pull k) tr).

(** The accounts of the rounds: with [rounds k] rounds of key [k] sealed,
    the pulls answered for [k] and those the shards may still answer in the
    open round are at most [NumWorkers] per round. *)
Definition rounds_inv (rounds : Z -> nat) (st : server) : Prop :=
  shells_empty st /\ pull_keys EncodeKey st /\
  (forall sh k, sh ∈ shards st -> (pull_cnt sh k < NumWorkers st)%nat) /\
  (forall k, (pulls_answered k (trace st)
              + total_credit (NumWorkers st) k (shards st)
              <= NumWorkers st * rounds k)%nat).

(** What answering pulls of key [k] on a shard does to the accounts: the
    shard goes from [sh] to [sh'], [spent] is what the shard could still
    answer before. *)
Definition round_step (n : nat) (k : Z) (spent : nat) (sh sh' : shard)
    (st st' : server) : Prop :=
  shells_empty st' /\ pull_keys EncodeKey st' /\ same_config st st' /\
  (forall k' : Z, (pull_cnt sh' k' < n)%nat) /\
  (forall k' : Z, k' <> k -> credit n k' sh' = credit n k' sh) /\
  exists evs, trace st' = trace st ++ evs /\
    (forall k' : Z, k' <> k -> pulls_answered k' evs = 0%nat) /\
    (pulls_answered k evs + credit n k sh' <= spent)%nat.
End Rounds.

(** A move that answers no pull and leaves the shards alone. *)
Definition quiet (st st' : server) : Prop :=
  shells_empty st' /\ shards st' = shards st /\
  pull_response_map_ st' = pull_response_map_ st /\ same_config st st' /\
  exists evs, trace st' = trace st ++ evs /\ no_data evs.

(** The moves of the examples, with the stand-ins of [example_handler]. *)
Definition example_moves : list move -> server -> result server :=
  run_moves (fun _ _ => 0%nat) (fun k => k) (fun _ _ _ _ => 0)
    (fun _ a _ => a) (fun _ a => (a, 0)) (fun _ _ => 4096%N)
    (fun n => n) (fun n dt => (n, dt)) (fun _ _ _ _ => true)
    (fun c => mkType (if c =? 1 then kConfigPushPull else kDefaultPushPull) 0)
    (fun k => k) false 2.

(** Two workers push twice each (the first pushes initialise the key), the
    engine runs on the ALL_RECV message, and three pulls arrive. *)
Definition example_round : list move :=
  [Serve (example_push_req 8).1 (example_push_req 8).2;
   Serve (example_push_req 9).1 (example_push_req 9).2;
   Serve (example_push_req 8).1 (example_push_req 8).2;
   Serve (example_push_req 9).1 (example_push_req 9).2;
   Iterate 0 example_round_all_recv;
   Serve (example_pull_req 8).1 (example_pull_req 8).2;
   Serve (example_pull_req 9).1 (example_pull_req 9).2;
   Serve (example_pull_req 8).1 (example_pull_req 8).2].

End ServerSpec.

(** * Properties *)

(** ** Sequencing *)

Module ResultFacts.

Lemma foldM_app {A S : Type} (body : A -> S -> result S) (l1 l2 : list A) (st : S) :
  foldM body (l1 ++ l2) st = foldM body l1 st ≫= foldM body l2.
Proof.
  revert st. induction l1 as [|x l1 IH]; intros st; simpl; [reflexivity|].
  destruct (body x st); simpl; auto.
Qed.

Lemma bind_Ok {A B : Type} (a : A) (f : A -> result B) : Ok a ≫= f = f a.
Proof. reflexivity. Qed.

Lemma foldM_snoc {A S : Type} (body : A -> S -> result S) (l : list A) (x : A) (st : S) :
  foldM body (l ++ [x]) st = foldM body l st ≫= body x.
Proof.
  rewrite foldM_app. destruct (foldM body l st) as [s| |]; try reflexivity.
  rewrite !bind_Ok. unfold foldM. destruct (body x s); reflexivity.
Qed.

Lemma foldM_map {A B S : Type} (f : A -> B) (body : B -> S -> result S)
    (l : list A) (st : S) :
  foldM (fun i => body (f i)) l st = foldM body (map f l) st.
Proof.
  revert st. induction l as [|x l IH]; intros st; [reflexivity|].
  cbn [foldM map]. destruct (body (f x) st); simpl; auto.
Qed.

(** A loop does not return when one of its iterations cannot, as long as
    the iterations before it keep what makes that one fail. *)
Lemma foldM_stuck {A S : Type} (body : A -> S -> result S) (P : S -> Prop)
    (l1 l2 : list A) (x : A) (st : S) :
  P st ->
  (forall y s s', P s -> body y s = Ok s' -> P s') ->
  (forall s s', P s -> body x s <> Ok s') ->
  forall st', foldM body (l1 ++ x :: l2) st <> Ok st'.
Proof.
  intros HP Hkeep Hfail. revert st HP.
  induction l1 as [|y l1 IH]; intros st HP st'; cbn [app foldM].
  - destruct (body x st) as [s| |] eqn:E; try discriminate.
    destruct (Hfail _ _ HP E).
  - destruct (body y st) as [s| |] eqn:E; try discriminate.
    rewrite bind_Ok. apply IH. eapply Hkeep; eassumption.
Qed.

End ResultFacts.

(** ** Bit IO *)

Module BitIOFacts.
Import Utils BitIOSpec ResultFacts.

(** *** Bits of integers *)

(** The mask test of [BitReader::Get]. *)
Lemma land_pow2_test a n :
  0 <= n -> negb (Z.land a (2 ^ n) =? 0) = Z.testbit a n.
Proof.
  intros Hn. destruct (Z.testbit a n) eqn:E.
  - assert (H : Z.testbit (Z.land a (2 ^ n)) n = true).
    { rewrite Z.land_spec, E, Z.pow2_bits_eqb, Z.eqb_refl by lia. reflexivity. }
    destruct (Z.eqb_spec (Z.land a (2 ^ n)) 0) as [e|]; [|reflexivity].
    rewrite e, Z.bits_0 in H. discriminate.
  - assert (H : Z.land a (2 ^ n) = 0).
    { apply Z.bits_inj'. intros k Hk.
      rewrite Z.land_spec, Z.pow2_bits_eqb, Z.bits_0 by lia.
      destruct (Z.eqb_spec n k) as [->|]; [rewrite E|]; auto using andb_false_r. }
    rewrite H. reflexivity.
Qed.

Lemma testbit_int_min k : 0 <= k -> Z.testbit (- 2 ^ 31) k = (31 <=? k).
Proof.
  intros Hk. change (- 2 ^ 31) with (Z.lnot (Z.ones 31)).
  rewrite Z.lnot_spec by lia.
  destruct (Z.leb_spec 31 k).
  - rewrite Z.ones_spec_high by lia. reflexivity.
  - rewrite Z.ones_spec_low by lia. reflexivity.
Qed.

Lemma land_int_min_test a :
  a mod 2 ^ 32 = a -> negb (Z.land a (- 2 ^ 31) =? 0) = Z.testbit a 31.
Proof.
  intros Ha.
  assert (Hhigh : forall k, 32 <= k -> Z.testbit a k = false).
  { intros k Hk. rewrite <- Ha. apply Z.mod_pow2_bits_high. lia. }
  destruct (Z.testbit a 31) eqn:E.
  - assert (H : Z.testbit (Z.land a (- 2 ^ 31)) 31 = true).
    { rewrite Z.land_spec, E, testbit_int_min by lia. reflexivity. }
    destruct (Z.eqb_spec (Z.land a (- 2 ^ 31)) 0) as [e|]; [|reflexivity].
    rewrite e, Z.bits_0 in H. discriminate.
  - assert (H : Z.land a (- 2 ^ 31) = 0).
    { apply Z.bits_inj'. intros k Hk.
      rewrite Z.land_spec, testbit_int_min, Z.bits_0 by lia.
      destruct (Z.leb_spec 31 k); [|apply andb_false_r].
      destruct (Z.eq_dec k 31) as [->|]; [rewrite E|rewrite Hhigh by lia];
        reflexivity. }
    rewrite H. reflexivity.
Qed.

Lemma testbit_b2z b k : 0 <= k -> Z.testbit (Z.b2z b) k = b && (k =? 0).
Proof.
  intros Hk. destruct b; simpl Z.b2z.
  - change 1 with (2 ^ 0). rewrite Z.pow2_bits_eqb by lia.
    rewrite Z.eqb_sym. reflexivity.
  - apply Z.bits_0.
Qed.

Lemma lor_shiftl_b2z a b : Z.lor (Z.shiftl a 1) (Z.b2z b) = 2 * a + Z.b2z b.
Proof.
  symmetry. rewrite Z.shiftl_mul_pow2 by lia. change (2 ^ 1) with 2.
  replace (2 * a) with (a * 2) by lia. apply Z.add_nocarry_lor.
  apply Z.bits_inj'. intros k Hk. rewrite Z.land_spec, Z.bits_0, testbit_b2z by lia.
  destruct (Z.eqb_spec k 0) as [->|].
  - rewrite Z.mul_comm, Z.testbit_even_0. reflexivity.
  - rewrite andb_false_r. apply andb_false_r.
Qed.

Lemma mod_pow2_succ v n :
  0 <= n -> v mod 2 ^ (n + 1) = Z.b2z (Z.testbit v n) * 2 ^ n + v mod 2 ^ n.
Proof.
  intros Hn. rewrite Z.pow_add_r, Z.pow_1_r by lia.
  rewrite Z.rem_mul_r by lia. rewrite Z.testbit_spec' by lia. lia.
Qed.

Lemma log2_decompose v : 0 < v -> 2 ^ Z.log2 v + v mod 2 ^ Z.log2 v = v.
Proof.
  intros Hv. pose proof (Z.log2_spec v Hv) as [Hlo Hhi].
  pose proof (Z.log2_nonneg v).
  rewrite Z.pow_succ_r in Hhi by assumption.
  assert (Hq : v / 2 ^ Z.log2 v = 1).
  { symmetry. apply (Z.div_unique v (2 ^ Z.log2 v) 1 (v - 2 ^ Z.log2 v)); lia. }
  pose proof (Z.div_mod v (2 ^ Z.log2 v)) as Hdm.
  rewrite Hq in Hdm. lia.
Qed.

(** *** [std::log2] of a converted integer *)

Lemma digits2_pos_size p : digits2_pos p = Pos.size p.
Proof. induction p; simpl; congruence. Qed.

Lemma digits2_pos_log2 p : Zpos (digits2_pos p) = Z.log2 (Zpos p) + 1.
Proof. rewrite digits2_pos_size. destruct p; simpl; lia. Qed.

Lemma digits2_pos_iter_xO p k :
  Zpos (digits2_pos (Pos.iter xO p k)) = Zpos (digits2_pos p) + Zpos k.
Proof.
  induction k as [|k IH] using Pos.peano_ind.
  - simpl. lia.
  - rewrite Pos.iter_succ. simpl digits2_pos. lia.
Qed.

Lemma binary_round_aux_exact m e :
  Zpos (digits2_pos m) = 53 -> -1074 <= e <= 971 ->
  binary_round_aux 53 1024 false (Zpos m) e loc_Exact = S754_finite false m e.
Proof.
  intros Hd He. unfold binary_round_aux, shr_fexp.
  cbn [Zdigits2 shr_record_of_loc]. rewrite Hd.
  replace (fexp 53 1024 (53 + e) - e) with 0 by (unfold fexp, emin; lia).
  cbn [shr shr_m loc_of_shr_record round_nearest_even Zdigits2 shr_record_of_loc].
  rewrite Hd.
  replace (fexp 53 1024 (53 + e) - e) with 0 by (unfold fexp, emin; lia).
  cbn [shr shr_m].
  replace (e <=? 1024 - 53) with true by (symmetry; apply Z.leb_le; lia).
  reflexivity.
Qed.

Lemma f64_of_Z_exact p :
  Zpos (digits2_pos p) <= 53 ->
  exists m, Float.f64_of_Z (Zpos p) = S754_finite false m (Zpos (digits2_pos p) - 53)
            /\ Zpos (digits2_pos m) = 53.
Proof.
  intros Hd. unfold Float.f64_of_Z, Float.prec64, Float.emax64, binary_normalize, binary_round.
  replace (fexp 53 1024 (Zpos (digits2_pos p) + 0)) with (Zpos (digits2_pos p) - 53)
    by (unfold fexp, emin; lia).
  unfold shl_align.
  destruct (Zpos (digits2_pos p) - 53 - 0) as [|k|k] eqn:Hk; try lia.
  - exists p. rewrite binary_round_aux_exact by lia.
    split; [f_equal; lia | lia].
  - exists (Pos.iter xO p k).
    assert (Hm : Zpos (digits2_pos (Pos.iter xO p k)) = 53)
      by (rewrite digits2_pos_iter_xO; lia).
    rewrite binary_round_aux_exact by lia. auto.
Qed.

(** Small integers go through [double] unchanged. *)
Lemma small_int_table n :
  0 <= n <= 64 ->
  Float.Z_of_float INT_MIN INT_MAX (Float.f64_of_Z n) = Ok n /\
  Float.Z_of_float INT_MIN INT_MAX
    (SFadd Float.prec64 Float.emax64 (Float.f64_of_Z 1) (Float.f64_of_Z n))
  = Ok (1 + n) /\
  Float.floor (Float.f64_of_Z n) = Float.f64_of_Z n.
Proof.
  intros Hn.
  assert (H : exists k, (k <= 64)%nat /\ n = Z.of_nat k)
    by (exists (Z.to_nat n); lia).
  destruct H as (k & Hk & ->). clear Hn.
  do 65 (destruct k as [|k]; [vm_compute; repeat split; reflexivity|]). lia.
Qed.

Lemma log2_pow2_table k :
  (k < 64)%nat ->
  Float.floor (log2_rounded_down (Float.f64_of_Z (2 ^ Z.of_nat k)))
  = Float.f64_of_Z (Z.of_nat k).
Proof.
  intros Hk.
  do 64 (destruct k as [|k]; [vm_compute; reflexivity|]). lia.
Qed.

(** The logarithm of the examples meets the assumption on [std::log2]. *)
Lemma log2_rounded_down_faithful : log2_faithful log2_rounded_down.
Proof.
  intros x Hx Hcase.
  assert (Hl : 0 <= Z.log2 x < 64).
  { split; [apply Z.log2_nonneg | apply Z.log2_lt_pow2; lia]. }
  destruct Hcase as [Hlt|Hpow].
  - destruct x as [|p|p]; try lia.
    assert (Hd : Zpos (digits2_pos p) <= 53).
    { rewrite digits2_pos_log2.
      assert (Z.log2 (Zpos p) < 46) by (apply Z.log2_lt_pow2; lia). lia. }
    destruct (f64_of_Z_exact p Hd) as (m & -> & Hm).
    cbn [log2_rounded_down].
    rewrite digits2_pos_log2 in Hm.
    replace (Z.log2 (Zpos m) + (Zpos (digits2_pos p) - 53)) with (Z.log2 (Zpos p))
      by (rewrite (digits2_pos_log2 p); lia).
    apply small_int_table. lia.
  - rewrite Hpow at 1.
    replace (Z.log2 x) with (Z.of_nat (Z.to_nat (Z.log2 x))) by lia.
    apply log2_pow2_table. lia.
Qed.

(** *** Bit lists *)

Lemma low_bits_0 v : low_bits v 0 = [].
Proof. reflexivity. Qed.

Lemma low_bits_S v n :
  0 <= n -> low_bits v (n + 1) = Z.testbit v n :: low_bits v n.
Proof.
  intros Hn. unfold low_bits, downto.
  replace (Z.to_nat (n + 1 - 1 - 0 + 1)) with (S (Z.to_nat (n - 1 - 0 + 1))) by lia.
  cbn [seq map]. f_equal; [f_equal; lia|].
  rewrite <- seq_shift, !map_map. apply map_ext. intros k. f_equal. lia.
Qed.

Lemma low_bits_length v n : 0 <= n -> length (low_bits v n) = Z.to_nat n.
Proof.
  intros Hn. unfold low_bits, downto. rewrite !length_map, length_seq. lia.
Qed.

Lemma map_const_replicate {A B : Type} (c : B) (l : list A) :
  map (fun _ => c) l = replicate (length l) c.
Proof. induction l; simpl; congruence. Qed.

Lemma take_S_insert {A} (l : list A) n x :
  (n < length l)%nat -> take (S n) (<[n:=x]> l) = take n l ++ [x].
Proof.
  intros Hn. rewrite (take_S_r _ _ x) by (apply list_lookup_insert_eq; assumption).
  rewrite take_insert_ge by lia. reflexivity.
Qed.

(** *** The encoder *)

Lemma downto_bound hi lo : Forall (fun i => i <= hi) (downto hi lo).
Proof.
  unfold downto. apply List.Forall_forall. intros i Hi.
  apply in_map_iff in Hi as (k & <- & _). lia.
Qed.

Lemma shr_bits_put sizeof_T width v (l : list Z) w :
  Forall (fun i => i < width) l ->
  foldM (fun i w => b ← shr_bit width v i; Put sizeof_T b w) l w
  = put_all sizeof_T (map (fun i => Z.testbit v i) l) w.
Proof.
  revert w. induction l as [|i l IH]; intros w Hl; [reflexivity|].
  apply Forall_cons_1 in Hl as [Hi Hl].
  assert (Hb : shr_bit width v i = Ok (Z.testbit v i)).
  { unfold shr_bit. rewrite (proj2 (Z.ltb_lt _ _) Hi). reflexivity. }
  unfold put_all in *. cbn [foldM map]. rewrite Hb, bind_Ok.
  destruct (Put sizeof_T (Z.testbit v i) w); simpl; auto.
Qed.

(** Where the assumption on [std::log2] applies to the [double] that [x]
    converts to, [EliasDeltaEncode] puts the code word whose length field
    is taken from that [double]. *)
Lemma EliasDeltaEncode_spec sizeof_T std_log2 w x y :
  log2_faithful std_log2 ->
  Float.f64_of_Z x = Float.f64_of_Z y ->
  1 <= y < 2 ^ 64 -> y < 2 ^ 46 \/ y = 2 ^ Z.log2 y ->
  EliasDeltaEncode sizeof_T std_log2 w x
  = put_all sizeof_T (code_word (1 + Z.log2 y) x) w.
Proof.
  intros Hlog Hxy Hy Hcase. unfold EliasDeltaEncode.
  assert (Hl : 0 <= Z.log2 y < 64).
  { split; [apply Z.log2_nonneg | apply Z.log2_lt_pow2; lia]. }
  rewrite Hxy, (Hlog y Hy Hcase).
  destruct (small_int_table (Z.log2 y)) as (_ & -> & _); [lia|].
  rewrite bind_Ok.
  set (L := 1 + Z.log2 y).
  assert (HLL : 0 <= Z.log2 L <= 6).
  { split; [apply Z.log2_nonneg|].
    change 6 with (Z.log2 64). apply Z.log2_le_mono. lia. }
  rewrite (Hlog L) by lia.
  destruct (small_int_table (Z.log2 L)) as (-> & _ & _); [lia|].
  rewrite bind_Ok.
  unfold put_all, code_word. rewrite foldM_app.
  rewrite (foldM_map (fun _ => false) (Put sizeof_T)).
  rewrite map_const_replicate.
  replace (length (downto (Z.log2 L) 1)) with (Z.to_nat (Z.log2 L))
    by (unfold downto; rewrite length_map, length_seq; lia).
  destruct (foldM _ (replicate _ _) w) as [w1| |]; try reflexivity.
  rewrite !bind_Ok, foldM_app. unfold low_bits.
  rewrite shr_bits_put
    by (eapply Forall_impl; [apply downto_bound|]; cbn beta; intros; lia).
  replace (Z.log2 L + 1 - 1) with (Z.log2 L) by lia.
  unfold put_all.
  destruct (foldM _ (map _ _) w1) as [w2| |]; try reflexivity.
  rewrite !bind_Ok.
  rewrite shr_bits_put
    by (eapply Forall_impl; [apply downto_bound|]; cbn beta; intros; lia).
  replace (L - 1 - 1) with (L - 2) by lia.
  reflexivity.
Qed.

Section RoundTrip.
Variable sizeof_T : nat.
Local Abbreviation W := (PACKING_SIZE sizeof_T).
Local Abbreviation in_T := (in_T sizeof_T).
Local Abbreviation word_bits := (word_bits sizeof_T).
Local Abbreviation mem_bits := (mem_bits sizeof_T).
Local Abbreviation writer_inv := (writer_inv sizeof_T).
Local Abbreviation written := (written sizeof_T).
Local Abbreviation reader_inv := (reader_inv sizeof_T).
Local Abbreviation pending := (pending sizeof_T).

Lemma word_bits_length a : length (word_bits a) = W.
Proof. unfold word_bits. rewrite length_fmap, length_seq. reflexivity. Qed.

Lemma word_bits_lookup a j :
  (j < W)%nat -> word_bits a !! j = Some (Z.testbit a (Z.of_nat (W - 1 - j))).
Proof.
  intros Hj. unfold word_bits. rewrite list_lookup_fmap.
  assert (H : seq 0 W !! j = Some j) by (apply lookup_seq; lia).
  rewrite H. reflexivity.
Qed.

(** A full accumulator is the word of its bits. *)
Lemma word_bits_holds a c : holds a c -> length c = W -> word_bits a = c.
Proof.
  intros Hh Hl. apply list_eq. intros j.
  destruct (decide (j < W)%nat) as [Hj|Hj].
  - rewrite word_bits_lookup by assumption.
    destruct (lookup_lt_is_Some_2 c j) as [b Hb]; [lia|].
    rewrite Hb, <- (Hh j b Hb), Hl. reflexivity.
  - rewrite !lookup_ge_None_2; [reflexivity | lia | rewrite word_bits_length; lia].
Qed.

Lemma word_bits_drop a u :
  (u < W)%nat ->
  drop (W - S u) (word_bits a) = Z.testbit a (Z.of_nat u) :: drop (W - u) (word_bits a).
Proof.
  intros Hu.
  replace (W - u)%nat with (S (W - S u)) by lia.
  apply drop_S. rewrite word_bits_lookup by lia.
  do 3 f_equal. lia.
Qed.

Lemma mem_bits_app m1 m2 : mem_bits (m1 ++ m2) = mem_bits m1 ++ mem_bits m2.
Proof. unfold mem_bits. rewrite fmap_app, concat_app. reflexivity. Qed.

Lemma mem_bits_cons a m : mem_bits (a :: m) = word_bits a ++ mem_bits m.
Proof. reflexivity. Qed.

Lemma mem_bits_length m : length (mem_bits m) = (length m * W)%nat.
Proof.
  induction m as [|a m IH]; [reflexivity|].
  rewrite mem_bits_cons, length_app, word_bits_length, IH. simpl. lia.
Qed.

Lemma in_T_put x b : (0 < W)%nat -> in_T (Z.lor (to_T sizeof_T x) (Z.b2z b)).
Proof.
  intros HW. unfold in_T, to_T. apply Z.bits_inj'. intros k Hk.
  destruct (Z.lt_ge_cases k (Z.of_nat W)).
  - rewrite Z.mod_pow2_bits_low by lia. reflexivity.
  - rewrite Z.mod_pow2_bits_high by lia.
    rewrite Z.lor_spec, Z.mod_pow2_bits_high, testbit_b2z by lia.
    replace (k =? 0) with false by (symmetry; apply Z.eqb_neq; lia).
    rewrite andb_false_r. reflexivity.
Qed.

Lemma in_T_to_T x : in_T (to_T sizeof_T x).
Proof. unfold in_T, to_T. apply Z.mod_mod. apply Z.pow_nonzero; lia. Qed.

Lemma holds_put a c b :
  holds a c -> (length c < W)%nat ->
  holds (Z.lor (to_T sizeof_T (Z.shiftl a 1)) (Z.b2z b)) (c ++ [b]).
Proof.
  intros Hh Hl j b' Hj. rewrite length_app. simpl length.
  rewrite Z.lor_spec. unfold to_T.
  assert (Hjl : (j < length c + 1)%nat).
  { apply lookup_lt_Some in Hj. rewrite length_app in Hj. simpl in Hj. lia. }
  rewrite Z.mod_pow2_bits_low, Z.shiftl_spec, testbit_b2z by lia.
  destruct (decide (j < length c)%nat) as [Hlt|Hge].
  - rewrite lookup_app_l in Hj by assumption.
    replace (Z.of_nat (length c + 1 - 1 - j) =? 0) with false
      by (symmetry; apply Z.eqb_neq; lia).
    rewrite andb_false_r, orb_false_r, <- (Hh j b' Hj). f_equal. lia.
  - assert (j = length c) by lia. subst j.
    rewrite lookup_app_r, Nat.sub_diag in Hj by lia. simpl in Hj.
    injection Hj as ->.
    rewrite Z.testbit_neg_r by lia.
    replace (Z.of_nat (length c + 1 - 1 - length c)) with 0 by lia.
    rewrite Z.eqb_refl, andb_true_r. reflexivity.
Qed.

Lemma holds_flush a c :
  holds a c -> (length c <= W)%nat ->
  word_bits (to_T sizeof_T (Z.shiftl a (Z.of_nat (W - length c))))
  = c ++ replicate (W - length c) false.
Proof.
  intros Hh Hl. apply list_eq. intros j.
  destruct (decide (j < W)%nat) as [Hj|Hj].
  - rewrite word_bits_lookup by assumption. unfold to_T.
    rewrite Z.mod_pow2_bits_low, Z.shiftl_spec by lia.
    destruct (decide (j < length c)%nat) as [Hlt|Hge].
    + rewrite lookup_app_l by assumption.
      destruct (lookup_lt_is_Some_2 c j) as [b Hb]; [lia|].
      rewrite Hb, <- (Hh j b Hb). do 2 f_equal. lia.
    + rewrite lookup_app_r by lia.
      rewrite lookup_replicate_2 by lia.
      rewrite Z.testbit_neg_r by lia. reflexivity.
  - rewrite !lookup_ge_None_2; [reflexivity | | rewrite word_bits_length; lia].
    rewrite length_app, length_replicate. lia.
Qed.

(** *** The writer *)

Lemma Forall_insert_in_T l n x : Forall in_T l -> in_T x -> Forall in_T (<[n:=x]> l).
Proof. intros. apply Forall_insert; assumption. Qed.

(** [Put] appends one bit to the stream written. *)
Lemma Put_spec w c b :
  writer_inv w c ->
  (w_bits sizeof_T w < length (w_dptr w) * W)%nat ->
  exists w' c',
    Put sizeof_T b w = Ok w' /\ writer_inv w' c' /\
    written w' c' = written w c ++ [b] /\
    length (w_dptr w') = length (w_dptr w) /\
    w_bits sizeof_T w' = S (w_bits sizeof_T w).
Proof.
  intros [Hu Hlt Hh Hm] Hcap. unfold w_bits in Hcap.
  assert (HW : (0 < W)%nat) by lia.
  unfold Put.
  destruct (Nat.eqb_spec (S (w_used_bits w)) W) as [Hfull|Hpart].
  - assert (Hb : (w_blocks w < length (w_dptr w))%nat) by nia.
    unfold store. rewrite decide_True by assumption. rewrite bind_Ok.
    eexists _, []. split; [reflexivity|]. split; [|split; [|split]].
    + constructor; cbn [w_used_bits w_accum w_dptr length]; try lia.
      * intros j b' Hj. discriminate.
      * apply Forall_insert_in_T; [assumption | apply in_T_put; assumption].
    + unfold written. cbn [w_blocks w_dptr].
      rewrite take_S_insert, mem_bits_app, app_nil_r, <- app_assoc by assumption.
      f_equal. unfold mem_bits. simpl. rewrite app_nil_r.
      apply word_bits_holds.
      * apply holds_put; assumption.
      * rewrite length_app. simpl. lia.
    + cbn [w_dptr]. apply length_insert.
    + unfold w_bits. cbn [w_blocks w_used_bits]. lia.
  - eexists _, (c ++ [b]). split; [reflexivity|]. split; [|split; [|split]].
    + constructor; cbn [w_used_bits w_accum w_dptr]; rewrite ?length_app;
        simpl length; try lia; try assumption.
      apply holds_put; assumption.
    + unfold written. cbn [w_blocks w_dptr]. rewrite app_assoc. reflexivity.
    + reflexivity.
    + unfold w_bits. cbn [w_blocks w_used_bits]. lia.
Qed.

Lemma put_all_spec bs : forall w c,
  writer_inv w c ->
  (w_bits sizeof_T w + length bs <= length (w_dptr w) * W)%nat ->
  exists w' c',
    put_all sizeof_T bs w = Ok w' /\ writer_inv w' c' /\
    written w' c' = written w c ++ bs /\
    length (w_dptr w') = length (w_dptr w) /\
    w_bits sizeof_T w' = (w_bits sizeof_T w + length bs)%nat.
Proof.
  induction bs as [|b bs IH]; intros w c Hi Hcap.
  - exists w, c. rewrite app_nil_r, Nat.add_0_r. auto.
  - simpl length in Hcap.
    destruct (Put_spec w c b Hi) as (w1 & c1 & HP & Hi1 & Hw1 & Hl1 & Hb1); [lia|].
    destruct (IH w1 c1 Hi1) as (w2 & c2 & HP2 & Hi2 & Hw2 & Hl2 & Hb2).
    { rewrite Hl1, Hb1. lia. }
    exists w2, c2. unfold put_all in *. cbn [foldM]. rewrite HP, bind_Ok.
    split; [assumption|]. split; [assumption|]. split; [|split].
    + rewrite Hw2, Hw1, <- app_assoc. reflexivity.
    + congruence.
    + rewrite Hb2, Hb1. simpl. lia.
Qed.

(** [Flush] leaves the stream written in the buffer, padded. *)
Lemma Flush_spec w c :
  writer_inv w c ->
  (w_bits sizeof_T w <= length (w_dptr w) * W)%nat ->
  exists w' pad,
    Flush sizeof_T w = Ok w' /\ w_bits sizeof_T w' = w_bits sizeof_T w /\
    mem_bits (w_dptr w') = written w c ++ pad /\ Forall in_T (w_dptr w').
Proof.
  intros [Hu Hlt Hh Hm] Hcap. unfold w_bits in Hcap. unfold Flush.
  destruct (Nat.ltb_spec 0 (w_used_bits w)) as [Hpos|Hzero].
  - assert (Hb : (w_blocks w < length (w_dptr w))%nat) by nia.
    unfold store. rewrite decide_True by assumption. rewrite bind_Ok.
    eexists _, (replicate (W - length c) false
                ++ mem_bits (drop (S (w_blocks w)) (w_dptr w))).
    split; [reflexivity|]. split; [reflexivity|]. cbn [w_dptr]. split.
    + rewrite <- (take_drop (S (w_blocks w)) (<[_:=_]> (w_dptr w))).
      rewrite take_S_insert, drop_insert_lt by lia.
      rewrite !mem_bits_app. unfold written. rewrite <- !app_assoc. f_equal.
      rewrite app_assoc. f_equal.
      unfold mem_bits. simpl. rewrite app_nil_r, Hu.
      apply holds_flush; [assumption | lia].
    + apply Forall_insert_in_T; [assumption | apply in_T_to_T].
  - exists w, (mem_bits (drop (w_blocks w) (w_dptr w))).
    split; [reflexivity|]. split; [reflexivity|]. split; [|assumption].
    assert (Hc : c = []) by (apply nil_length_inv; lia). subst c.
    unfold written. rewrite app_nil_r, <- mem_bits_app, take_drop. reflexivity.
Qed.

(** *** The reader *)

Lemma pending_length r :
  reader_inv r -> (length (pending r) <= length (r_dptr r) * W)%nat.
Proof.
  intros [H1 H2 H3 _ _]. unfold pending.
  rewrite length_app, length_drop, word_bits_length, mem_bits_length, length_drop.
  nia.
Qed.

Hypothesis W_pos : (0 < W)%nat.
Hypothesis W_int : (W <= 32)%nat.

Lemma mask_test a u :
  (u < W)%nat -> in_T a ->
  exists mask, int_one_shl u = Ok mask /\
    negb (Z.land a mask =? 0) = Z.testbit a (Z.of_nat u).
Proof.
  intros Hu Ha. unfold int_one_shl.
  destruct (Nat.ltb_spec u 31).
  - eexists. split; [reflexivity|]. apply land_pow2_test. lia.
  - assert (u = 31%nat) by lia. subst u. simpl.
    eexists. split; [reflexivity|].
    apply land_int_min_test. unfold in_T, to_T in Ha.
    replace W with 32%nat in Ha by lia. exact Ha.
Qed.

(** With words of at most 32 bits, [Get] delivers the next bit of the
    stream. *)
Lemma Get_spec r b rest :
  reader_inv r -> pending r = b :: rest ->
  exists r', Get sizeof_T r = Ok (b, r') /\ reader_inv r' /\
             pending r' = rest /\ r_dptr r' = r_dptr r.
Proof.
  intros Hi Hp.
  assert (Hload : exists r1,
    (if (r_used_bits r =? 0)%nat then
       a ← load (r_dptr r) (r_blocks r);
       Ok (mkBitReader (r_dptr r) W (S (r_blocks r)) a)
     else Ok r) = Ok r1 /\ reader_inv r1 /\ pending r1 = b :: rest /\
    (0 < r_used_bits r1)%nat /\ r_dptr r1 = r_dptr r).
  { destruct Hi as [H1 H2 H3 H4 H5].
    destruct (Nat.eqb_spec (r_used_bits r) 0) as [Hz|Hnz].
    - unfold pending in Hp. rewrite Hz, Nat.sub_0_r in Hp.
      rewrite drop_ge in Hp by (rewrite word_bits_length; lia).
      simpl in Hp.
      destruct (drop (r_blocks r) (r_dptr r)) as [|a tl] eqn:Hd;
        [discriminate|].
      assert (Hla : r_dptr r !! r_blocks r = Some a).
      { pose proof (lookup_drop (r_dptr r) (r_blocks r) 0) as Hl.
        rewrite Hd, Nat.add_0_r in Hl. simpl in Hl. auto. }
      unfold load. rewrite Hla, bind_Ok. eexists. split; [reflexivity|].
      pose proof (lookup_lt_Some _ _ _ Hla) as Hlt.
      split; [|split; [|split]].
      + constructor; cbn [r_used_bits r_blocks r_dptr r_accum]; try lia;
          try assumption.
        intros _. eapply Forall_lookup_1 in H5; eauto.
      + unfold pending. cbn [r_used_bits r_blocks r_dptr r_accum].
        rewrite Nat.sub_diag, drop_0, <- Hp.
        rewrite (drop_S _ _ _ Hla) in Hd. injection Hd as <-.
        reflexivity.
      + cbn. lia.
      + reflexivity.
    - exists r. split; [reflexivity|]. split; [constructor; assumption|].
      split; [assumption|]. split; [lia | reflexivity]. }
  destruct Hload as (r1 & Hl & [H1 H2 H3 H4 H5] & Hp1 & Hpos & Hd).
  unfold Get. rewrite Hl, bind_Ok.
  destruct (r_used_bits r1) as [|u] eqn:Hu; [lia|]. cbn [pred].
  unfold pending in Hp1. rewrite Hu, word_bits_drop in Hp1 by lia.
  simpl in Hp1. injection Hp1 as Hb Hrest.
  destruct (mask_test (r_accum r1) u) as (mask & Hmask & Htest);
    [lia | apply H4; lia |].
  rewrite Hmask, bind_Ok, Htest, Hb.
  eexists. split; [reflexivity|]. split; [|split].
  - constructor; cbn [r_used_bits r_blocks r_dptr r_accum]; try lia;
      try assumption.
    intros _. apply H4. lia.
  - exact Hrest.
  - exact Hd.
Qed.

Lemma get_n_spec bs : forall r rest,
  reader_inv r -> pending r = bs ++ rest ->
  exists r', get_n sizeof_T (length bs) r = Ok (bs, r') /\ reader_inv r' /\
             pending r' = rest /\ r_dptr r' = r_dptr r.
Proof.
  induction bs as [|b bs IH]; intros r rest Hi Hp.
  - exists r. auto.
  - destruct (Get_spec r b (bs ++ rest) Hi Hp) as (r1 & HG & Hi1 & Hp1 & Hd1).
    destruct (IH r1 rest Hi1 Hp1) as (r2 & HG2 & Hi2 & Hp2 & Hd2).
    exists r2. cbn [length get_n]. rewrite HG, bind_Ok. cbn beta iota.
    rewrite HG2, bind_Ok. cbn beta iota.
    split; [reflexivity|]. split; [assumption|]. split; [assumption|].
    congruence.
Qed.

Lemma decode_num_spec n : forall v acc r rest,
  reader_inv r -> pending r = low_bits v (Z.of_nat n) ++ rest ->
  0 <= acc -> (acc + 1) * 2 ^ Z.of_nat n <= 2 ^ 64 ->
  exists r', repeatM n (decode_num_step sizeof_T) (acc, r)
             = Ok (acc * 2 ^ Z.of_nat n + v mod 2 ^ Z.of_nat n, r') /\
             reader_inv r' /\ pending r' = rest /\ r_dptr r' = r_dptr r.
Proof.
  induction n as [|n IH]; intros v acc r rest Hi Hp Ha Hb.
  - exists r. cbn [repeatM]. change (2 ^ Z.of_nat 0) with 1.
    rewrite Z.mod_1_r, Z.mul_1_r, Z.add_0_r. auto.
  - rewrite Nat2Z.inj_succ, <- Z.add_1_r in *.
    rewrite low_bits_S in Hp by lia. simpl in Hp.
    destruct (Get_spec r _ _ Hi Hp) as (r1 & HG & Hi1 & Hp1 & Hd1).
    assert (Hpow : 2 ^ (Z.of_nat n + 1) = 2 * 2 ^ Z.of_nat n)
      by (rewrite Z.pow_add_r, Z.pow_1_r by lia; lia).
    assert (Hpos : 0 < 2 ^ Z.of_nat n) by (apply Z.pow_pos_nonneg; lia).
    rewrite Hpow in Hb.
    destruct (IH v (2 * acc + Z.b2z (Z.testbit v (Z.of_nat n))) r1 rest Hi1 Hp1)
      as (r2 & HR & Hi2 & Hp2 & Hd2).
    { destruct (Z.testbit v (Z.of_nat n)); simpl; lia. }
    { destruct (Z.testbit v (Z.of_nat n)); simpl Z.b2z; nia. }
    assert (Hstep : decode_num_step sizeof_T (acc, r)
                    = Ok (2 * acc + Z.b2z (Z.testbit v (Z.of_nat n)), r1)).
    { unfold decode_num_step. rewrite HG, bind_Ok. cbn beta iota.
      rewrite Z.mod_small, lor_shiftl_b2z; [reflexivity|].
      rewrite Z.shiftl_mul_pow2 by lia. unfold ULONG_MOD. nia. }
    exists r2. cbn [repeatM]. rewrite Hstep, bind_Ok, HR.
    split; [|split; [assumption|split; [assumption|congruence]]].
    do 2 f_equal. rewrite mod_pow2_succ, Hpow by lia. ring.
Qed.

Lemma decode_len_spec n : forall v acc r rest,
  reader_inv r -> pending r = low_bits v (Z.of_nat n) ++ rest ->
  0 <= acc -> (acc + 1) * 2 ^ Z.of_nat n <= 2 ^ 31 ->
  exists r', repeatM n (decode_len_step sizeof_T) (acc, r)
             = Ok (acc * 2 ^ Z.of_nat n + v mod 2 ^ Z.of_nat n, r') /\
             reader_inv r' /\ pending r' = rest /\ r_dptr r' = r_dptr r.
Proof.
  induction n as [|n IH]; intros v acc r rest Hi Hp Ha Hb.
  - exists r. cbn [repeatM]. change (2 ^ Z.of_nat 0) with 1.
    rewrite Z.mod_1_r, Z.mul_1_r, Z.add_0_r. auto.
  - rewrite Nat2Z.inj_succ, <- Z.add_1_r in *.
    rewrite low_bits_S in Hp by lia. simpl in Hp.
    destruct (Get_spec r _ _ Hi Hp) as (r1 & HG & Hi1 & Hp1 & Hd1).
    assert (Hpow : 2 ^ (Z.of_nat n + 1) = 2 * 2 ^ Z.of_nat n)
      by (rewrite Z.pow_add_r, Z.pow_1_r by lia; lia).
    assert (Hpos : 0 < 2 ^ Z.of_nat n) by (apply Z.pow_pos_nonneg; lia).
    rewrite Hpow in Hb.
    destruct (IH v (2 * acc + Z.b2z (Z.testbit v (Z.of_nat n))) r1 rest Hi1 Hp1)
      as (r2 & HR & Hi2 & Hp2 & Hd2).
    { destruct (Z.testbit v (Z.of_nat n)); simpl; lia. }
    { destruct (Z.testbit v (Z.of_nat n)); simpl Z.b2z; nia. }
    assert (Hstep : decode_len_step sizeof_T (acc, r)
                    = Ok (2 * acc + Z.b2z (Z.testbit v (Z.of_nat n)), r1)).
    { unfold decode_len_step.
      replace (INT_MAX <? 2 * acc) with false
        by (symmetry; apply Z.ltb_ge; unfold INT_MAX; nia).
      rewrite HG, bind_Ok. cbn beta iota. rewrite lor_shiftl_b2z. reflexivity. }
    exists r2. cbn [repeatM]. rewrite Hstep, bind_Ok, HR.
    split; [|split; [assumption|split; [assumption|congruence]]].
    do 2 f_equal. rewrite mod_pow2_succ, Hpow by lia. ring.
Qed.

Lemma count_zeros_spec n : forall fuel r acc rest,
  reader_inv r -> pending r = replicate n false ++ true :: rest ->
  (n < fuel)%nat -> acc + Z.of_nat n <= INT_MAX ->
  exists r', count_zeros sizeof_T fuel r acc = Ok (acc + Z.of_nat n, r') /\
             reader_inv r' /\ pending r' = rest /\ r_dptr r' = r_dptr r.
Proof.
  induction n as [|n IH]; intros fuel r acc rest Hi Hp Hf Ha;
    (destruct fuel as [|fuel]; [lia|]); cbn [replicate app] in Hp;
    destruct (Get_spec r _ _ Hi Hp) as (r1 & HG & Hi1 & Hp1 & Hd1);
    cbn [count_zeros]; rewrite HG, bind_Ok; cbn beta iota.
  - exists r1. rewrite Z.add_0_r. auto.
  - replace (acc <? INT_MAX) with true by (symmetry; apply Z.ltb_lt; lia).
    destruct (IH fuel r1 (acc + 1) rest Hi1 Hp1) as (r2 & HC & Hi2 & Hp2 & Hd2);
      [lia | lia |].
    exists r2. rewrite HC.
    split; [do 2 f_equal; lia|]. split; [assumption|]. split; [assumption|].
    congruence.
Qed.

(** [EliasDeltaDecode] reads the code word of any [x] of type
    [unsigned long] back to [x]. *)
Lemma EliasDeltaDecode_spec r x rest :
  reader_inv r -> 1 <= x < 2 ^ 64 -> pending r = elias_bits x ++ rest ->
  exists r', EliasDeltaDecode sizeof_T r = Ok (x, r') /\
             reader_inv r' /\ pending r' = rest /\ r_dptr r' = r_dptr r.
Proof.
  intros Hi Hx Hp. unfold elias_bits, code_word in Hp.
  set (L := 1 + Z.log2 x) in *. set (LL := Z.log2 L) in *.
  assert (HL : 1 <= L <= 64).
  { pose proof (Z.log2_nonneg x).
    assert (Z.log2 x < 64) by (apply Z.log2_lt_pow2; lia). lia. }
  assert (HLL : 0 <= LL <= 6).
  { split; [apply Z.log2_nonneg|].
    change 6 with (Z.log2 64). apply Z.log2_le_mono. lia. }
  rewrite low_bits_S in Hp by lia.
  replace (Z.testbit L LL) with true in Hp by (symmetry; apply Z.bit_log2; lia).
  rewrite <- !app_assoc in Hp. cbn [app] in Hp.
  pose proof (pending_length r Hi) as Hlen.
  rewrite Hp, length_app, length_replicate in Hlen. simpl in Hlen.
  destruct (count_zeros_spec (Z.to_nat LL) (S (length (r_dptr r) * W)) r 0 _ Hi Hp)
    as (r1 & HC & Hi1 & Hp1 & Hd1); [lia | unfold INT_MAX; lia |].
  unfold EliasDeltaDecode. rewrite HC, bind_Ok. cbn beta iota.
  rewrite Z.add_0_l, Z2Nat.id by lia.
  replace LL with (Z.of_nat (Z.to_nat LL)) in Hp1 at 1 by lia.
  destruct (decode_len_spec (Z.to_nat LL) L 1 r1 _ Hi1 Hp1)
    as (r2 & HD & Hi2 & Hp2 & Hd2); [lia | |].
  { rewrite Z2Nat.id by lia.
    assert (2 ^ LL <= 2 ^ 6) by (apply Z.pow_le_mono_r; lia). lia. }
  rewrite HD, bind_Ok. cbn beta iota.
  rewrite Z2Nat.id, Z.mul_1_l by lia.
  unfold LL. rewrite log2_decompose by lia. fold LL.
  replace (L - 1) with (Z.of_nat (Z.to_nat (L - 1))) in Hp2 by lia.
  destruct (decode_num_spec (Z.to_nat (L - 1)) x 1 r2 _ Hi2 Hp2)
    as (r3 & HN & Hi3 & Hp3 & Hd3); [lia | |].
  { rewrite Z2Nat.id by lia. unfold L. replace (1 + Z.log2 x - 1) with (Z.log2 x) by lia.
    assert (2 ^ Z.log2 x <= 2 ^ 63) by (apply Z.pow_le_mono_r; lia). lia. }
  rewrite HN. exists r3.
  rewrite Z2Nat.id, Z.mul_1_l by lia.
  unfold L. replace (1 + Z.log2 x - 1) with (Z.log2 x) by lia.
  rewrite log2_decompose by lia.
  split; [reflexivity|]. split; [assumption|]. split; [assumption|congruence].
Qed.

End RoundTrip.

(** *** Round trips *)

Lemma writer_new_inv sizeof_T cap :
  (0 < sizeof_T)%nat ->
  writer_inv sizeof_T (BitWriter_new (repeat 0 cap)) [].
Proof.
  intros Hs. constructor; cbn [BitWriter_new w_used_bits w_accum w_dptr length].
  - reflexivity.
  - unfold PACKING_SIZE. lia.
  - intros j b Hj. discriminate.
  - apply Forall_forall. intros a Ha. apply list_elem_of_In, repeat_spec in Ha. subst a.
    unfold in_T, to_T. apply Z.mod_0_l. apply Z.pow_nonzero; lia.
Qed.

Lemma reader_new_inv sizeof_T m junk :
  Forall (in_T sizeof_T) m ->
  reader_inv sizeof_T (BitReader_new m junk) /\
  pending sizeof_T (BitReader_new m junk) = mem_bits sizeof_T m.
Proof.
  intros Hm. split.
  - constructor; cbn [BitReader_new r_used_bits r_blocks r_dptr r_accum];
      try lia; assumption.
  - unfold pending. cbn [BitReader_new r_used_bits r_blocks r_dptr r_accum].
    rewrite Nat.sub_0_r, drop_ge, drop_0 by (rewrite word_bits_length; lia).
    reflexivity.
Qed.

(** With words of one to four bytes, every bit sequence that fits the
    buffer is read back after a flush, and [bits()] is its length. *)
Lemma write_then_read_roundtrip sizeof_T cap bs :
  (0 < sizeof_T <= 4)%nat ->
  (length bs <= cap * PACKING_SIZE sizeof_T)%nat ->
  write_then_read sizeof_T cap bs = Ok (length bs, Ok bs).
Proof.
  intros Hs Hcap. unfold write_then_read.
  destruct (put_all_spec sizeof_T bs _ _ (writer_new_inv sizeof_T cap ltac:(lia)))
    as (w1 & c1 & HP & Hi1 & Hw1 & Hl1 & Hb1).
  { cbn [BitWriter_new w_dptr]. rewrite repeat_length. unfold w_bits. simpl. lia. }
  cbn [BitWriter_new w_dptr] in Hl1. rewrite repeat_length in Hl1.
  unfold w_bits at 2 in Hb1. simpl in Hb1.
  destruct (Flush_spec sizeof_T w1 c1 Hi1) as (w2 & pad & HF & Hb2 & Hm2 & Hin2).
  { rewrite Hl1, Hb1. lia. }
  rewrite HP, bind_Ok, HF, bind_Ok, Hb2, Hb1.
  destruct (reader_new_inv sizeof_T (w_dptr w2) 0 Hin2) as [Hri Hrp].
  rewrite Hm2, Hw1 in Hrp. unfold written in Hrp. cbn [w_blocks BitWriter_new take] in Hrp.
  change (mem_bits sizeof_T [] ++ []) with (@nil bool) in Hrp. cbn [app] in Hrp.
  destruct (get_n_spec sizeof_T ltac:(unfold PACKING_SIZE; lia)
              ltac:(unfold PACKING_SIZE; lia) bs _ _ Hri Hrp)
    as (r' & HG & _).
  rewrite HG. reflexivity.
Qed.

(** With words of one to four bytes, a [std::log2] as assumed and
    [x < 2^46], the bits encoded are the code word of the specification,
    and decoding returns [x]. *)
Lemma elias_roundtrip sizeof_T std_log2 cap x :
  (0 < sizeof_T <= 4)%nat -> log2_faithful std_log2 -> 1 <= x < 2 ^ 46 ->
  (length (elias_bits x) <= cap * PACKING_SIZE sizeof_T)%nat ->
  encoded_bits sizeof_T std_log2 cap x = Ok (elias_bits x) /\
  encode_then_decode sizeof_T std_log2 cap x = Ok x.
Proof.
  intros Hs Hlog Hx Hcap. unfold encoded_bits, encode_then_decode.
  rewrite (EliasDeltaEncode_spec sizeof_T std_log2 _ x x Hlog)
    by (reflexivity || lia).
  fold (elias_bits x).
  destruct (put_all_spec sizeof_T (elias_bits x) _ _
              (writer_new_inv sizeof_T cap ltac:(lia)))
    as (w1 & c1 & HP & Hi1 & Hw1 & Hl1 & Hb1).
  { cbn [BitWriter_new w_dptr]. rewrite repeat_length. unfold w_bits. simpl. lia. }
  cbn [BitWriter_new w_dptr] in Hl1. rewrite repeat_length in Hl1.
  unfold w_bits at 2 in Hb1. simpl in Hb1.
  destruct (Flush_spec sizeof_T w1 c1 Hi1) as (w2 & pad & HF & Hb2 & Hm2 & Hin2).
  { rewrite Hl1, Hb1. lia. }
  rewrite HP, !bind_Ok, HF, !bind_Ok, Hb1.
  destruct (reader_new_inv sizeof_T (w_dptr w2) 0 Hin2) as [Hri Hrp].
  rewrite Hm2, Hw1 in Hrp. unfold written in Hrp. cbn [w_blocks BitWriter_new take] in Hrp.
  change (mem_bits sizeof_T [] ++ []) with (@nil bool) in Hrp. cbn [app] in Hrp.
  assert (HW1 : (0 < PACKING_SIZE sizeof_T)%nat) by (unfold PACKING_SIZE; lia).
  assert (HW2 : (PACKING_SIZE sizeof_T <= 32)%nat) by (unfold PACKING_SIZE; lia).
  split.
  - destruct (get_n_spec sizeof_T HW1 HW2 (elias_bits x) _ _ Hri Hrp)
      as (r' & HG & _).
    rewrite HG. reflexivity.
  - destruct (EliasDeltaDecode_spec sizeof_T HW1 HW2 _ x _ Hri ltac:(lia) Hrp)
      as (r' & HD & _).
    rewrite HD. reflexivity.
Qed.

(** With words wider than an [int], the first [Get] has no defined
    result, whatever the buffer holds. *)
Lemma Get_wide_undefined sizeof_T a m junk :
  (4 < sizeof_T)%nat ->
  Get sizeof_T (BitReader_new (a :: m) junk) = Undefined.
Proof.
  intros Hs. unfold Get. cbn [BitReader_new r_used_bits r_dptr r_blocks Nat.eqb].
  change (load (a :: m) 0) with (Ok a). rewrite !bind_Ok. cbn [r_used_bits].
  unfold int_one_shl, PACKING_SIZE.
  replace (Nat.pred (sizeof_T * 8) <? 31)%nat with false
    by (symmetry; apply Nat.ltb_ge; lia).
  replace (Nat.pred (sizeof_T * 8) =? 31)%nat with false
    by (symmetry; apply Nat.eqb_neq; lia).
  reflexivity.
Qed.

(** C5, at [T = uint64_t]: the bits 0, 1 are written and flushed, [bits()]
    is 2, and the first [Get] evaluates [1 << 63] on an [int]: the read has
    no defined result, so it does not return the bits written. *)
Lemma bitreader_uint64_undefined :
  write_then_read 8 1 [false; true] = Ok (2%nat, Undefined).
Proof. vm_compute. reflexivity. Qed.

(** With 32-bit words the same bits, and a sequence that spans two words,
    read back. *)
Lemma bitreader_uint32_example :
  write_then_read 4 1 [false; true] = Ok (2%nat, Ok [false; true]) /\
  write_then_read 4 2 (bits_of_string "1011000000000000000000000000000000000101")
  = Ok (40%nat, Ok (bits_of_string "1011000000000000000000000000000000000101")).
Proof. vm_compute. split; reflexivity. Qed.

(** C4, at [x = 2^54 - 1] with 32-bit words, for every [std::log2] as
    assumed: the conversion of [x] to [double] rounds to [2^54], whose
    logarithm is 54, the length field written is 55 instead of 54, and
    decoding returns [2^55 - 1]. *)
Lemma elias_roundtrip_fails_at_large :
  forall std_log2 : Float.f64 -> Float.f64,
    log2_faithful std_log2 ->
    encode_then_decode 4 std_log2 4 (2 ^ 54 - 1) = Ok (2 ^ 55 - 1) /\
    1 + Z.log2 (2 ^ 54 - 1) = 54 /\
    (take 12 <$> encoded_bits 4 std_log2 4 (2 ^ 54 - 1))
    = Ok (bits_of_string "000001101111").
Proof.
  intros std_log2 Hlog. unfold encode_then_decode, encoded_bits.
  rewrite (EliasDeltaEncode_spec 4 std_log2 _ (2 ^ 54 - 1) (2 ^ 54) Hlog);
    [|reflexivity|lia|right; reflexivity].
  vm_compute. repeat split; reflexivity.
Qed.

Lemma elias_roundtrip_fails_at_large_witness :
  encode_then_decode 4 log2_rounded_down 4 (2 ^ 54 - 1) = Ok (2 ^ 55 - 1).
Proof.
  exact (proj1 (elias_roundtrip_fails_at_large log2_rounded_down
                  log2_rounded_down_faithful)).
Defined.

(** The three encodings the specification lists, and their round trips. *)
Lemma elias_examples std_log2 :
  log2_faithful std_log2 ->
  encoded_bits 4 std_log2 1 1 = Ok (bits_of_string "1") /\
  encoded_bits 4 std_log2 1 2 = Ok (bits_of_string "0100") /\
  encoded_bits 4 std_log2 1 5 = Ok (bits_of_string "01101") /\
  encode_then_decode 4 std_log2 1 1 = Ok 1 /\
  encode_then_decode 4 std_log2 1 2 = Ok 2 /\
  encode_then_decode 4 std_log2 1 5 = Ok 5.
Proof.
  intros Hlog.
  destruct (elias_roundtrip 4 std_log2 1 1 ltac:(lia) Hlog ltac:(lia))
    as [-> ->]; [vm_compute; lia|].
  destruct (elias_roundtrip 4 std_log2 1 2 ltac:(lia) Hlog ltac:(lia))
    as [-> ->]; [vm_compute; lia|].
  destruct (elias_roundtrip 4 std_log2 1 5 ltac:(lia) Hlog ltac:(lia))
    as [-> ->]; [vm_compute; lia|].
  vm_compute. repeat split; reflexivity.
Qed.

(** *** The layout of what the writer leaves in memory *)

Section Layout.
Variable sizeof_T : nat.
Local Abbreviation W := (PACKING_SIZE sizeof_T).
Local Abbreviation in_T := (in_T sizeof_T).
Local Abbreviation word_bits := (word_bits sizeof_T).
Local Abbreviation mem_bits := (mem_bits sizeof_T).
Local Abbreviation writer_inv := (writer_inv sizeof_T).
Local Abbreviation written := (written sizeof_T).
Local Abbreviation reader_inv := (reader_inv sizeof_T).
Local Abbreviation pending := (pending sizeof_T).

Lemma Put_tail b w w' :
  Put sizeof_T b w = Ok w' ->
  (w_blocks w <= w_blocks w')%nat /\
  drop (w_blocks w') (w_dptr w') = drop (w_blocks w') (w_dptr w).
Proof.
  unfold Put. destruct (S (w_used_bits w) =? W)%nat.
  - unfold store. destruct (decide _) as [Hlt|]; [|discriminate].
    rewrite bind_Ok. intros [= <-]. cbn [w_blocks w_dptr].
    split; [lia|]. apply drop_insert_lt. lia.
  - intros [= <-]. cbn [w_blocks w_dptr]. split; [lia|reflexivity].
Qed.

Lemma put_all_tail bs : forall w w',
  put_all sizeof_T bs w = Ok w' ->
  (w_blocks w <= w_blocks w')%nat /\
  drop (w_blocks w') (w_dptr w') = drop (w_blocks w') (w_dptr w).
Proof.
  induction bs as [|b bs IH]; intros w w' H.
  - injection H as <-. split; [lia|reflexivity].
  - unfold put_all in *. cbn [foldM] in H.
    destruct (Put sizeof_T b w) as [w1| |] eqn:HP; try discriminate.
    rewrite bind_Ok in H. destruct (IH _ _ H) as [Hle Hd].
    destruct (Put_tail _ _ _ HP) as [Hle1 Hd1].
    split; [lia|]. rewrite Hd.
    replace (w_blocks w') with (w_blocks w1 + (w_blocks w' - w_blocks w1))%nat by lia.
    rewrite <- !drop_drop, Hd1. reflexivity.
Qed.

Lemma Flush_exact w c :
  writer_inv w c ->
  (w_bits sizeof_T w <= length (w_dptr w) * W)%nat ->
  exists w',
    Flush sizeof_T w = Ok w' /\ w_bits sizeof_T w' = w_bits sizeof_T w /\
    length (w_dptr w') = length (w_dptr w) /\ Forall in_T (w_dptr w') /\
    mem_bits (w_dptr w')
    = written w c ++ replicate ((W - length c) mod W) false
      ++ mem_bits (drop (w_blocks w + (if (0 <? length c)%nat then 1 else 0))
                        (w_dptr w)).
Proof.
  intros [Hu Hlt Hh Hm] Hcap. unfold w_bits in Hcap. unfold Flush.
  rewrite Hu.
  destruct (Nat.ltb_spec 0 (length c)) as [Hpos|Hzero].
  - assert (Hb : (w_blocks w < length (w_dptr w))%nat) by nia.
    unfold store. rewrite decide_True by assumption. rewrite bind_Ok.
    eexists. split; [reflexivity|]. split; [unfold w_bits; cbn; lia|].
    cbn [w_dptr]. split; [apply length_insert|].
    split; [apply Forall_insert; [assumption | apply in_T_to_T]|].
    rewrite Nat.mod_small by lia.
    rewrite <- (take_drop (S (w_blocks w)) (<[_:=_]> (w_dptr w))).
    rewrite take_S_insert, drop_insert_lt by lia.
    rewrite !mem_bits_app. unfold BitIOSpec.written. rewrite <- !app_assoc. f_equal.
    rewrite Nat.add_1_r. rewrite app_assoc. f_equal.
    unfold BitIOSpec.mem_bits. simpl. rewrite app_nil_r.
    apply holds_flush; [assumption | lia].
  - exists w.
    split; [reflexivity|]. split; [reflexivity|]. split; [reflexivity|].
    split; [assumption|].
    assert (Hc : c = []) by (apply nil_length_inv; lia). subst c.
    cbn [length]. rewrite Nat.sub_0_r, Nat.Div0.mod_same, Nat.add_0_r.
    unfold BitIOSpec.written. cbn [replicate app]. rewrite app_nil_r, <- mem_bits_app, take_drop.
    reflexivity.
Qed.

Lemma writer_start D :
  (0 < sizeof_T)%nat -> Forall in_T D -> writer_inv (BitWriter_new D) [].
Proof.
  intros Hs HD. constructor; cbn [BitWriter_new w_used_bits w_accum w_dptr length].
  - reflexivity.
  - unfold PACKING_SIZE. lia.
  - intros j b Hj. discriminate.
  - exact HD.
Qed.

Lemma bitwriter_stream_aux D bs :
  (0 < sizeof_T)%nat -> Forall in_T D -> (length bs <= length D * W)%nat ->
  exists w,
    (put_all sizeof_T bs (BitWriter_new D) ≫= Flush sizeof_T) = Ok w /\
    w_bits sizeof_T w = length bs /\
    length (w_dptr w) = length D /\
    Forall in_T (w_dptr w) /\
    mem_bits (w_dptr w)
    = bs ++ replicate ((W - length bs mod W) mod W) false
      ++ mem_bits (drop ((length bs + W - 1) / W) D).
Proof.
  intros Hs HD Hcap.
  assert (HW : (0 < W)%nat) by (unfold PACKING_SIZE; lia).
  destruct (put_all_spec sizeof_T bs _ _ (writer_start D Hs HD))
    as (w1 & c1 & HP & Hi1 & Hw1 & Hl1 & Hb1).
  { unfold w_bits. cbn. lia. }
  cbn [BitWriter_new w_dptr] in Hl1.
  unfold w_bits at 2 in Hb1. cbn [BitWriter_new w_blocks w_used_bits] in Hb1.
  rewrite Nat.mul_0_l in Hb1. cbn [Nat.add] in Hb1.
  destruct (put_all_tail _ _ _ HP) as [_ Htail]. cbn [BitWriter_new w_dptr] in Htail.
  destruct (Flush_exact w1 c1 Hi1) as (w2 & HF & Hb2 & Hl2 & Hin2 & Hm2).
  { rewrite Hl1, Hb1. lia. }
  exists w2. rewrite HP, bind_Ok. split; [exact HF|].
  split; [lia|]. split; [lia|]. split; [exact Hin2|].
  rewrite Hm2, Hw1. unfold BitIOSpec.written at 1. cbn [BitWriter_new w_blocks take].
  change (mem_bits [] ++ []) with (@nil bool). cbn [app].
  destruct Hi1 as [Hu1 Hlt1 _ _]. unfold w_bits in Hb1. rewrite Hu1 in Hb1.
  assert (Hq : (length bs / W = w_blocks w1)%nat).
  { symmetry. apply (Nat.div_unique _ _ _ (length c1)); lia. }
  assert (Hr : (length bs mod W = length c1)%nat).
  { symmetry. apply (Nat.mod_unique _ _ (w_blocks w1)); lia. }
  rewrite Hr. f_equal. f_equal.
  assert (Hceil : ((length bs + W - 1) / W
                   = w_blocks w1 + (if (0 <? length c1)%nat then 1 else 0))%nat).
  { destruct (Nat.ltb_spec 0 (length c1)).
    - symmetry. apply (Nat.div_unique _ _ _ (length c1 - 1)); lia.
    - symmetry. apply (Nat.div_unique _ _ _ (W - 1)); lia. }
  rewrite Hceil.
  rewrite <- (drop_drop (w_dptr w1)), Htail, drop_drop. reflexivity.
Qed.

Lemma reader_bits_pending r :
  reader_inv r -> (r_bits sizeof_T r + length (pending r) = length (r_dptr r) * W)%nat.
Proof.
  intros [H1 H2 H3 _ _]. unfold r_bits, BitIOSpec.pending.
  rewrite length_app, length_drop, word_bits_length, mem_bits_length, length_drop.
  nia.
Qed.

End Layout.


Lemma bitwriter_overrun_aux sizeof_T bs : forall w,
  (w_used_bits w < PACKING_SIZE sizeof_T)%nat ->
  (w_blocks w <= length (w_dptr w))%nat ->
  (length (w_dptr w) * PACKING_SIZE sizeof_T < w_bits sizeof_T w + length bs)%nat ->
  (put_all sizeof_T bs w ≫= Flush sizeof_T) = Undefined.
Proof.
  induction bs as [|b bs IH]; intros w Hu Hb Hover; unfold w_bits in Hover.
  - cbn [length] in Hover. unfold put_all. cbn [foldM]. rewrite bind_Ok.
    unfold Flush.
    destruct (Nat.ltb_spec 0 (w_used_bits w)) as [Hpos|]; [|nia].
    unfold store. rewrite decide_False by nia. reflexivity.
  - cbn [length] in Hover. unfold put_all in *. cbn [foldM].
    destruct (Put sizeof_T b w) as [w1|msg|] eqn:HP; [| |reflexivity].
    2:{ exfalso. revert HP. unfold Put, store.
        destruct (_ =? _)%nat; [destruct (decide _)|]; discriminate. }
    rewrite bind_Ok. apply IH; revert HP; unfold Put;
      (destruct (Nat.eqb_spec (S (w_used_bits w)) (PACKING_SIZE sizeof_T)) as [Hfull|Hpart];
       [ unfold store; destruct (decide (w_blocks w < length (w_dptr w))%nat) as [Hlt|Hge];
         [|discriminate]; rewrite bind_Ok |]);
      intros [= <-]; cbn [w_used_bits w_blocks w_dptr]; rewrite ?length_insert;
      unfold w_bits; cbn [w_used_bits w_blocks]; lia.
Qed.

(** X1.  What a writer leaves in memory.  Writing the bits [bs] into a
    buffer [D] that has room for them and flushing succeeds, [bits()] is
    [length bs], and the buffer, read most significant bit first, holds
    [bs], then zeros up to the end of the word the last bit fell in, then
    the words of [D] that were not reached, untouched.  This holds for
    every word size, 8 bytes included. *)
Theorem bitwriter_layout sizeof_T (D : list Z) (bs : list bool) :
  (0 < sizeof_T)%nat -> Forall (in_T sizeof_T) D ->
  (length bs <= length D * PACKING_SIZE sizeof_T)%nat ->
  exists w,
    (put_all sizeof_T bs (BitWriter_new D) ≫= Flush sizeof_T) = Ok w /\
    w_bits sizeof_T w = length bs /\
    length (w_dptr w) = length D /\
    Forall (in_T sizeof_T) (w_dptr w) /\
    mem_bits sizeof_T (w_dptr w)
    = bs ++ replicate ((PACKING_SIZE sizeof_T - length bs mod PACKING_SIZE sizeof_T)
                       mod PACKING_SIZE sizeof_T) false
      ++ mem_bits sizeof_T
           (drop ((length bs + PACKING_SIZE sizeof_T - 1) / PACKING_SIZE sizeof_T) D).
Proof. apply bitwriter_stream_aux. Qed.

Lemma bitwriter_layout_witness :
  exists w,
    (put_all 1 [true; false; true] (BitWriter_new [255; 7]) ≫= Flush 1) = Ok w /\
    w_bits 1 w = 3%nat /\
    mem_bits 1 (w_dptr w)
    = [true; false; true] ++ replicate 5 false ++ mem_bits 1 [7].
Proof.
  destruct (bitwriter_layout 1 [255; 7] [true; false; true])
    as (w & H1 & H2 & _ & _ & H3).
  - lia.
  - repeat constructor.
  - vm_compute. lia.
  - exists w. split; [exact H1|]. split; [exact H2|exact H3].
Defined.

(** X2.  The writer does not know the size of its buffer: writing more
    bits than the buffer has room for and flushing stores past its end. *)
Theorem bitwriter_overrun sizeof_T (D : list Z) (bs : list bool) :
  (0 < sizeof_T)%nat ->
  (length D * PACKING_SIZE sizeof_T < length bs)%nat ->
  (put_all sizeof_T bs (BitWriter_new D) ≫= Flush sizeof_T) = Undefined.
Proof.
  intros Hs Hover. apply bitwriter_overrun_aux;
    cbn [BitWriter_new w_used_bits w_blocks w_dptr]; unfold w_bits, PACKING_SIZE in *;
    cbn [BitWriter_new w_used_bits w_blocks]; lia.
Qed.

Lemma bitwriter_overrun_witness :
  (put_all 1 (replicate 9 true) (BitWriter_new [0]) ≫= Flush 1) = Undefined.
Proof. apply (bitwriter_overrun 1 [0] (replicate 9 true)); vm_compute; lia. Defined.

(** X3.  For word types of at most 4 bytes, whatever the buffer held
    before and whatever the reader's accumulator starts with: the bits
    written and flushed are the bits read back, in order, and the reader then
    reports as many bits as the writer. *)
Theorem bit_stream_roundtrip sizeof_T (D : list Z) (junk : Z) (bs : list bool) :
  (0 < sizeof_T <= 4)%nat -> Forall (in_T sizeof_T) D ->
  (length bs <= length D * PACKING_SIZE sizeof_T)%nat ->
  exists w r,
    (put_all sizeof_T bs (BitWriter_new D) ≫= Flush sizeof_T) = Ok w /\
    w_bits sizeof_T w = length bs /\
    get_n sizeof_T (length bs) (BitReader_new (w_dptr w) junk) = Ok (bs, r) /\
    r_bits sizeof_T r = length bs.
Proof.
  intros Hs HD Hcap.
  destruct (bitwriter_stream_aux sizeof_T D bs ltac:(lia) HD Hcap)
    as (w & HW & Hb & Hl & Hin & Hm).
  destruct (reader_new_inv sizeof_T (w_dptr w) junk Hin) as [Hri Hrp].
  rewrite Hm in Hrp.
  destruct (get_n_spec sizeof_T ltac:(unfold PACKING_SIZE; lia)
              ltac:(unfold PACKING_SIZE; lia) bs _ _ Hri Hrp)
    as (r & HG & Hri' & Hp' & Hd').
  exists w, r. split; [exact HW|]. split; [exact Hb|]. split; [exact HG|].
  pose proof (reader_bits_pending sizeof_T r Hri') as Hbits.
  rewrite Hp', Hd' in Hbits. cbn [BitReader_new r_dptr] in Hbits.
  pose proof (f_equal (@length bool) Hm) as Hlen.
  rewrite mem_bits_length, !length_app in Hlen.
  rewrite !length_app in Hbits. lia.
Qed.

Lemma bit_stream_roundtrip_witness :
  exists w r,
    (put_all 2 [true; false; true] (BitWriter_new [65535]) ≫= Flush 2) = Ok w /\
    get_n 2 3 (BitReader_new (w_dptr w) 12345) = Ok ([true; false; true], r) /\
    r_bits 2 r = 3%nat.
Proof.
  destruct (bit_stream_roundtrip 2 [65535] 12345 [true; false; true])
    as (w & r & H1 & _ & H2 & H3).
  - lia.
  - repeat constructor.
  - vm_compute. lia.
  - exists w, r. split; [exact H1|]. split; [exact H2|exact H3].
Defined.

(** *** Streams of code words *)

Lemma elias_bits_length x :
  1 <= x -> length (elias_bits x) = elias_length x.
Proof.
  intros Hx. unfold elias_bits, code_word, elias_length.
  pose proof (Z.log2_nonneg x). pose proof (Z.log2_nonneg (1 + Z.log2 x)).
  rewrite !length_app, length_replicate, !low_bits_length by lia. lia.
Qed.

Lemma put_all_app sizeof_T bs1 bs2 w :
  put_all sizeof_T (bs1 ++ bs2) w = put_all sizeof_T bs1 w ≫= put_all sizeof_T bs2.
Proof. apply foldM_app. Qed.

Lemma encode_all_spec sizeof_T std_log2 xs : forall w,
  log2_faithful std_log2 -> Forall (fun x => 1 <= x < 2 ^ 46) xs ->
  encode_all sizeof_T std_log2 xs w
  = put_all sizeof_T (concat (map elias_bits xs)) w.
Proof.
  intros w Hlog Hxs. revert w.
  induction Hxs as [|x xs Hx Hxs IH]; intros w; [reflexivity|].
  unfold encode_all in *. cbn [foldM map concat].
  rewrite (EliasDeltaEncode_spec sizeof_T std_log2 w x x Hlog) by (reflexivity || lia).
  fold (elias_bits x). rewrite put_all_app.
  destruct (put_all sizeof_T (elias_bits x) w); simpl; auto.
Qed.

Lemma decode_n_spec sizeof_T xs : forall r rest,
  (0 < PACKING_SIZE sizeof_T <= 32)%nat ->
  reader_inv sizeof_T r -> Forall (fun x => 1 <= x < 2 ^ 64) xs ->
  pending sizeof_T r = concat (map elias_bits xs) ++ rest ->
  exists r', decode_n sizeof_T (length xs) r = Ok (xs, r') /\
             reader_inv sizeof_T r' /\ pending sizeof_T r' = rest /\
             r_dptr r' = r_dptr r.
Proof.
  intros r rest HW Hi Hxs. revert r Hi.
  induction Hxs as [|x xs Hx Hxs IH]; intros r Hi Hp.
  - exists r. auto.
  - cbn [map concat] in Hp. rewrite <- app_assoc in Hp.
    destruct (EliasDeltaDecode_spec sizeof_T ltac:(lia) ltac:(lia) r x _ Hi Hx Hp)
      as (r1 & HD & Hi1 & Hp1 & Hd1).
    destruct (IH r1 Hi1 Hp1) as (r2 & HD2 & Hi2 & Hp2 & Hd2).
    exists r2. cbn [length decode_n]. rewrite HD, bind_Ok. cbn beta iota.
    rewrite HD2, bind_Ok. cbn beta iota.
    split; [reflexivity|]. split; [assumption|]. split; [assumption|congruence].
Qed.

Lemma concat_elias_length xs :
  Forall (fun x => 1 <= x) xs ->
  length (concat (map elias_bits xs)) = sum_list (elias_length <$> xs).
Proof.
  induction 1 as [|x xs Hx Hxs IH]; [reflexivity|].
  cbn [map concat fmap list_fmap sum_list]. rewrite length_app, elias_bits_length, IH by lia.
  reflexivity.
Qed.

(** X4.  Code words are self-delimiting.  Numbers from 1 to below [2^46],
    encoded one after the other into one writer and flushed, are decoded one
    after the other in the same order from one reader; the writer reports
    the sum of the lengths of the code words ([2 * log2 (1 + log2 x) + 1 +
    log2 x] bits for [x]) and the reader has consumed exactly that many. *)
Theorem elias_stream_roundtrip sizeof_T std_log2 (D : list Z) (junk : Z) (xs : list Z) :
  (0 < sizeof_T <= 4)%nat -> log2_faithful std_log2 ->
  Forall (in_T sizeof_T) D -> Forall (fun x => 1 <= x < 2 ^ 46) xs ->
  (sum_list (elias_length <$> xs) <= length D * PACKING_SIZE sizeof_T)%nat ->
  exists w r,
    (encode_all sizeof_T std_log2 xs (BitWriter_new D) ≫= Flush sizeof_T) = Ok w /\
    w_bits sizeof_T w = sum_list (elias_length <$> xs) /\
    decode_n sizeof_T (length xs) (BitReader_new (w_dptr w) junk) = Ok (xs, r) /\
    r_bits sizeof_T r = w_bits sizeof_T w.
Proof.
  intros Hs Hlog HD Hxs Hcap.
  rewrite (encode_all_spec _ _ _ _ Hlog Hxs).
  assert (Hlen : length (concat (map elias_bits xs)) = sum_list (elias_length <$> xs)).
  { apply concat_elias_length. eapply Forall_impl; [exact Hxs|]. cbn. intros; lia. }
  destruct (bitwriter_stream_aux sizeof_T D (concat (map elias_bits xs)) ltac:(lia) HD
              ltac:(lia))
    as (w & HW & Hb & Hl & Hin & Hm).
  destruct (reader_new_inv sizeof_T (w_dptr w) junk Hin) as [Hri Hrp].
  rewrite Hm in Hrp.
  destruct (decode_n_spec sizeof_T xs _ _ ltac:(unfold PACKING_SIZE; lia) Hri
              ltac:(eapply Forall_impl; [exact Hxs|]; cbn; intros; lia) Hrp)
    as (r & HG & Hri' & Hp' & Hd').
  exists w, r. split; [exact HW|]. split; [lia|]. split; [exact HG|].
  pose proof (reader_bits_pending sizeof_T r Hri') as Hbits.
  rewrite Hp', Hd' in Hbits. cbn [BitReader_new r_dptr] in Hbits.
  pose proof (f_equal (@length bool) Hm) as Hlen'.
  rewrite mem_bits_length, !length_app in Hlen'.
  rewrite !length_app in Hbits. lia.
Qed.

Lemma elias_stream_roundtrip_witness :
  exists w r,
    (encode_all 4 log2_rounded_down [1; 2; 5; 1000] (BitWriter_new [0; 0])
       ≫= Flush 4) = Ok w /\
    w_bits 4 w = 26%nat /\
    decode_n 4 4 (BitReader_new (w_dptr w) 0) = Ok ([1; 2; 5; 1000], r).
Proof.
  destruct (elias_stream_roundtrip 4 log2_rounded_down [0; 0] 0 [1; 2; 5; 1000])
    as (w & r & H1 & H2 & H3 & _).
  - lia.
  - exact log2_rounded_down_faithful.
  - repeat constructor.
  - repeat constructor; lia.
  - vm_compute. lia.
  - exists w, r. split; [exact H1|]. split; [exact H2|exact H3].
Defined.

(** X5.  The decoder alone is right on the whole range of [unsigned
    long]: from a buffer that holds the code words of numbers from 1 to below
    [2^64], followed by anything, it returns the numbers and stops at the
    first bit after the last code word. *)
Theorem elias_decode_code_words sizeof_T (D : list Z) (junk : Z) (xs : list Z)
    (rest : list bool) :
  (0 < sizeof_T <= 4)%nat -> Forall (in_T sizeof_T) D ->
  Forall (fun x => 1 <= x < 2 ^ 64) xs ->
  mem_bits sizeof_T D = concat (map elias_bits xs) ++ rest ->
  exists r,
    decode_n sizeof_T (length xs) (BitReader_new D junk) = Ok (xs, r) /\
    r_bits sizeof_T r = sum_list (elias_length <$> xs) /\
    pending sizeof_T r = rest.
Proof.
  intros Hs HD Hxs Hm.
  destruct (reader_new_inv sizeof_T D junk HD) as [Hri Hrp].
  rewrite Hm in Hrp.
  destruct (decode_n_spec sizeof_T xs _ _ ltac:(unfold PACKING_SIZE; lia) Hri Hxs Hrp)
    as (r & HG & Hri' & Hp' & Hd').
  exists r. split; [exact HG|]. split; [|exact Hp'].
  pose proof (reader_bits_pending sizeof_T r Hri') as Hbits.
  rewrite Hp', Hd' in Hbits. cbn [BitReader_new r_dptr] in Hbits.
  pose proof (f_equal (@length bool) Hm) as Hlen'.
  rewrite mem_bits_length, !length_app in Hlen'.
  rewrite concat_elias_length in Hlen'
    by (eapply Forall_impl; [exact Hxs|]; cbn; intros; lia).
  lia.
Qed.

Lemma elias_decode_code_words_witness :
  exists r,
    decode_n 4 1 (BitReader_new [2 ^ 25; 0; 0] 0) = Ok ([2 ^ 63], r) /\
    r_bits 4 r = 76%nat.
Proof.
  destruct (elias_decode_code_words 4 [2 ^ 25; 0; 0] 0 [2 ^ 63] (replicate 20 false))
    as (r & H1 & H2 & _).
  - lia.
  - repeat constructor.
  - repeat constructor; lia.
  - vm_compute. reflexivity.
  - exists r. split; [exact H1|exact H2].
Defined.

(** *** RoundNextPow2 *)

Lemma smeared_start w : smeared 1 w w.
Proof.
  intros k Hk. split.
  - intros H. exists 0. rewrite Z.add_0_r. split; [lia|assumption].
  - intros (j & Hj & H). replace (k + j) with k in H by lia. assumption.
Qed.

Lemma smeared_step m w s :
  0 < m -> smeared m w s -> smeared (2 * m) w (Z.lor s (Z.shiftr s m)).
Proof.
  intros Hm Hs k Hk. rewrite Z.lor_spec, Z.shiftr_spec, orb_true_iff by lia.
  rewrite (Hs k Hk), (Hs (k + m)) by lia. split.
  - intros [(j & Hj & H)|(j & Hj & H)].
    + exists j. split; [lia|assumption].
    + exists (m + j). split; [lia|]. rewrite Z.add_assoc. assumption.
  - intros (j & Hj & H). destruct (Z.lt_ge_cases j m).
    + left. exists j. split; [lia|assumption].
    + right. exists (j - m). split; [lia|].
      replace (k + m + (j - m)) with (k + j) by lia. assumption.
Qed.

Lemma smeared_ones w s :
  0 < w < 2 ^ 32 -> smeared 32 w s -> 0 <= s -> s = Z.ones (Z.log2 w + 1).
Proof.
  intros Hw Hs Hs0.
  assert (Hn : 0 <= Z.log2 w < 32).
  { split; [apply Z.log2_nonneg | apply Z.log2_lt_pow2; lia]. }
  apply Z.bits_inj'. intros k Hk.
  destruct (Z.lt_ge_cases k (Z.log2 w + 1)) as [Hlt|Hge].
  - rewrite Z.ones_spec_low by lia. apply (Hs k Hk).
    exists (Z.log2 w - k). split; [lia|].
    replace (k + (Z.log2 w - k)) with (Z.log2 w) by lia.
    apply Z.bit_log2. lia.
  - rewrite Z.ones_spec_high by lia.
    destruct (Z.testbit s k) eqn:E; [|reflexivity].
    apply (Hs k Hk) in E as (j & Hj & H).
    rewrite Z.bits_above_log2 in H by lia. discriminate.
Qed.

Lemma lor_shiftr_nonneg s m : 0 <= s -> 0 <= Z.lor s (Z.shiftr s m).
Proof.
  intros Hs. apply Z.lor_nonneg. split; [assumption|].
  apply Z.shiftr_nonneg. assumption.
Qed.

Lemma smear_of w :
  0 < w < 2 ^ 32 ->
  (let v := w in
   let v := Z.lor v (Z.shiftr v 1) in
   let v := Z.lor v (Z.shiftr v 2) in
   let v := Z.lor v (Z.shiftr v 4) in
   let v := Z.lor v (Z.shiftr v 8) in
   Z.lor v (Z.shiftr v 16)) = Z.ones (Z.log2 w + 1).
Proof.
  intros Hw. cbv zeta. apply smeared_ones; [assumption| |].
  - change 32 with (2 * (2 * (2 * (2 * (2 * 1))))).
    repeat (apply smeared_step; [lia|]). apply smeared_start.
  - repeat apply lor_shiftr_nonneg. lia.
Qed.

(** X6.  [RoundNextPow2] on a 32-bit value [v]: for [1 <= v <= 2^31] the
    result is the least power of two that is at least [v] (so a power of two
    is returned as it is); for [v = 0] and for [v > 2^31] the arithmetic
    wraps around and the result is 0. *)
Theorem RoundNextPow2_spec (v : Z) :
  0 <= v < 2 ^ 32 ->
  (1 <= v <= 2 ^ 31 ->
   RoundNextPow2 v = 2 ^ Z.log2_up v /\
   v <= RoundNextPow2 v /\
   (forall n, 0 <= n -> v <= 2 ^ n -> RoundNextPow2 v <= 2 ^ n)) /\
  (v = 0 \/ 2 ^ 31 < v -> RoundNextPow2 v = 0).
Proof.
  intros Hv.
  assert (Hcore : forall w, 0 < w < 2 ^ 32 ->
            RoundNextPow2 ((w + 1) mod U32) = 2 ^ (Z.log2 w + 1) mod U32).
  { intros w Hw. unfold RoundNextPow2.
    assert (Hm : ((w + 1) mod U32 - 1) mod U32 = w).
    { unfold U32. destruct (Z.eq_dec w (2 ^ 32 - 1)) as [->|]; [reflexivity|].
      rewrite (Z.mod_small (w + 1)) by lia. rewrite Z.mod_small by lia. lia. }
    pose proof (smear_of w Hw) as Hsm. cbv zeta in Hsm.
    cbv zeta. rewrite Hm, Hsm.
    rewrite Z.ones_equiv. f_equal. lia. }
  split.
  - intros Hr.
    assert (Heq : RoundNextPow2 v = 2 ^ Z.log2_up v).
    { destruct (Z.eq_dec v 1) as [->|Hne]; [reflexivity|].
      replace v with ((v - 1 + 1) mod U32) at 1 by (unfold U32; rewrite Z.mod_small; lia).
      rewrite Hcore by lia.
      assert (Hl : Z.log2 (v - 1) < 31) by (apply Z.log2_lt_pow2; lia).
      pose proof (Z.log2_nonneg (v - 1)).
      rewrite Z.mod_small.
      - f_equal. rewrite Z.log2_up_eqn by lia. rewrite <- Z.sub_1_r. lia.
      - split; [apply Z.pow_nonneg; lia|]. unfold U32.
        apply Z.pow_lt_mono_r; lia. }
    split; [exact Heq|]. rewrite Heq. split.
    + destruct (Z.eq_dec v 1) as [->|]; [cbn; lia|].
      apply Z.log2_up_spec. lia.
    + intros n Hn Hle. apply Z.pow_le_mono_r; [lia|].
      apply Z.log2_up_le_pow2; lia.
  - intros [->|Hbig]; [reflexivity|].
    replace v with ((v - 1 + 1) mod U32) by (unfold U32; rewrite Z.mod_small; lia).
    rewrite Hcore by lia.
    assert (Hl : Z.log2 (v - 1) = 31).
    { apply Z.log2_unique; lia. }
    rewrite Hl. reflexivity.
Qed.

Lemma RoundNextPow2_spec_witness :
  RoundNextPow2 1000 = 1024 /\ RoundNextPow2 1024 = 1024 /\
  RoundNextPow2 (2 ^ 31 + 1) = 0.
Proof.
  destruct (RoundNextPow2_spec 1000 ltac:(lia)) as [H _].
  destruct (H ltac:(lia)) as [-> _].
  destruct (RoundNextPow2_spec 1024 ltac:(lia)) as [H' _].
  destruct (H' ltac:(lia)) as [-> _].
  destruct (RoundNextPow2_spec (2 ^ 31 + 1) ltac:(lia)) as [_ H''].
  rewrite H'' by (right; lia).
  repeat split; reflexivity.
Defined.

(** *** A second Flush *)

Section FlushTwice.
Variable sizeof_T : nat.
Local Abbreviation W := (PACKING_SIZE sizeof_T).
Local Abbreviation in_T := (in_T sizeof_T).
Local Abbreviation word_bits := (word_bits sizeof_T).
Local Abbreviation mem_bits := (mem_bits sizeof_T).
Local Abbreviation writer_inv := (writer_inv sizeof_T).
Local Abbreviation written := (written sizeof_T).

(** The low bits of a word are the end of its bits. *)
Lemma holds_word_tail a n :
  (n <= W)%nat -> holds a (drop (W - n) (word_bits a)).
Proof.
  intros Hn j b. rewrite length_drop, word_bits_length, lookup_drop.
  intros Hj. assert (Hlt : (W - n + j < W)%nat).
  { apply lookup_lt_Some in Hj. rewrite word_bits_length in Hj. exact Hj. }
  rewrite word_bits_lookup in Hj by exact Hlt. injection Hj as <-.
  f_equal. lia.
Qed.

Lemma Flush_again w c :
  writer_inv w c -> (0 < length c)%nat ->
  (w_blocks w < length (w_dptr w))%nat ->
  exists w1 w2 a2,
    Flush sizeof_T w = Ok w1 /\ Flush sizeof_T w1 = Ok w2 /\
    w_bits sizeof_T w2 = w_bits sizeof_T w /\
    w_dptr w2 = <[w_blocks w := a2]> (w_dptr w) /\
    word_bits a2
    = drop (W - length c) (c ++ replicate (W - length c) false)
      ++ replicate (W - length c) false.
Proof.
  intros [Hu Hlt Hh Hm] Hpos Hb.
  set (a1 := to_T sizeof_T (Z.shiftl (w_accum w) (Z.of_nat (W - length c)))).
  set (a2 := to_T sizeof_T (Z.shiftl a1 (Z.of_nat (W - length c)))).
  assert (Ha1 : word_bits a1 = c ++ replicate (W - length c) false)
    by (apply holds_flush; [assumption|lia]).
  exists (mkBitWriter (<[w_blocks w := a1]> (w_dptr w)) a1 (w_used_bits w) (w_blocks w)),
         (mkBitWriter (<[w_blocks w := a2]> (w_dptr w)) a2 (w_used_bits w) (w_blocks w)),
         a2.
  split.
  { unfold Flush. rewrite Hu.
    destruct (Nat.ltb_spec 0 (length c)) as [_|]; [|lia].
    unfold store. rewrite decide_True by assumption. reflexivity. }
  split.
  { unfold Flush. cbn [w_used_bits w_accum w_dptr w_blocks]. rewrite Hu.
    destruct (Nat.ltb_spec 0 (length c)) as [_|]; [|lia].
    unfold store. rewrite decide_True by (rewrite length_insert; assumption).
    rewrite bind_Ok, list_insert_insert_eq. reflexivity. }
  split; [reflexivity|]. split; [reflexivity|].
  pose proof (holds_word_tail a1 (length c) ltac:(lia)) as Hh1.
  pose proof (holds_flush sizeof_T _ _ Hh1) as Hf.
  rewrite length_drop, word_bits_length in Hf.
  replace (W - (W - (W - length c)))%nat with (W - length c)%nat in Hf by lia.
  unfold a2. rewrite Hf by lia. rewrite Ha1. reflexivity.
Qed.
End FlushTwice.

(** X24.  [Flush] is not to be called twice.  When the bits written do not
    fill the last word, a second [Flush] shifts the word again and stores
    it over the first: of its [u] bits only the last [2u - W] are left
    (none when [2u <= W]), moved to the front of the word; [bits()] and the
    other words are as after the first [Flush]. *)
Theorem flush_twice sizeof_T (D : list Z) (bs : list bool) :
  (0 < sizeof_T)%nat -> Forall (in_T sizeof_T) D ->
  (length bs <= length D * PACKING_SIZE sizeof_T)%nat ->
  (0 < length bs mod PACKING_SIZE sizeof_T)%nat ->
  let u := (length bs mod PACKING_SIZE sizeof_T)%nat in
  let pad := (PACKING_SIZE sizeof_T - u)%nat in
  exists w,
    ((put_all sizeof_T bs (BitWriter_new D) ≫= Flush sizeof_T) ≫= Flush sizeof_T) = Ok w /\
    w_bits sizeof_T w = length bs /\
    mem_bits sizeof_T (w_dptr w)
    = take (length bs - u) bs
      ++ (drop pad (drop (length bs - u) bs ++ replicate pad false)
          ++ replicate pad false)
      ++ mem_bits sizeof_T (drop (length bs / PACKING_SIZE sizeof_T + 1) D).
Proof.
  intros Hs HD Hcap Hu u pad.
  assert (HW : (0 < PACKING_SIZE sizeof_T)%nat) by (unfold PACKING_SIZE; lia).
  destruct (put_all_spec sizeof_T bs _ _ (writer_start sizeof_T D Hs HD))
    as (w1 & c1 & HP & Hi1 & Hw1 & Hl1 & Hb1).
  { unfold w_bits. cbn. lia. }
  cbn [BitWriter_new w_dptr] in Hl1.
  unfold w_bits at 2 in Hb1. cbn [BitWriter_new w_blocks w_used_bits] in Hb1.
  rewrite Nat.mul_0_l in Hb1. cbn [Nat.add] in Hb1.
  destruct (put_all_tail _ _ _ _ HP) as [_ Htail]. cbn [BitWriter_new w_dptr] in Htail.
  assert (Hw1' : written sizeof_T w1 c1 = bs) by (rewrite Hw1; reflexivity).
  clear Hw1. rename Hw1' into Hw1.
  pose proof Hi1 as [Hu1 Hlt1 _ Hin1]. unfold w_bits in Hb1. rewrite Hu1 in Hb1.
  assert (Hq : (length bs / PACKING_SIZE sizeof_T = w_blocks w1)%nat).
  { symmetry. apply (Nat.div_unique _ _ _ (length c1)); lia. }
  assert (Hr : (length bs mod PACKING_SIZE sizeof_T = length c1)%nat).
  { symmetry. apply (Nat.mod_unique _ _ (w_blocks w1)); lia. }
  subst u pad. rewrite Hr in *.
  assert (Hblk : (w_blocks w1 < length (w_dptr w1))%nat) by nia.
  destruct (Flush_again sizeof_T w1 c1 Hi1 Hu Hblk)
    as (w2 & w3 & a2 & HF1 & HF2 & Hb3 & Hd3 & Ha2).
  exists w3. rewrite HP, bind_Ok, HF1, bind_Ok. split; [exact HF2|].
  split; [rewrite Hb3; unfold w_bits; lia|].
  rewrite Hd3.
  rewrite <- (take_drop (S (w_blocks w1)) (<[_:=_]> (w_dptr w1))).
  rewrite take_S_insert, drop_insert_lt by lia.
  rewrite !mem_bits_app.
  assert (Hlen : length (mem_bits sizeof_T (take (w_blocks w1) (w_dptr w1)))
                 = (length bs - length c1)%nat).
  { rewrite mem_bits_length, length_take. nia. }
  assert (Htake : take (length bs - length c1) bs
                  = mem_bits sizeof_T (take (w_blocks w1) (w_dptr w1))).
  { rewrite <- Hlen. rewrite <- Hw1 at 1. unfold BitIOSpec.written.
    rewrite take_app_length. reflexivity. }
  assert (Hdrop : drop (length bs - length c1) bs = c1).
  { rewrite <- Hlen. rewrite <- Hw1 at 1. unfold BitIOSpec.written.
    rewrite drop_app_length. reflexivity. }
  rewrite Htake, Hdrop, <- !app_assoc. f_equal.
  change (mem_bits sizeof_T [a2]) with (word_bits sizeof_T a2 ++ []).
  rewrite app_nil_r, Ha2, <- !app_assoc. do 2 f_equal.
  rewrite Hq. replace (S (w_blocks w1)) with (w_blocks w1 + 1)%nat by lia.
  rewrite <- (drop_drop (w_dptr w1)), Htail, drop_drop. reflexivity.
Qed.

Lemma flush_twice_witness :
  exists w,
    ((put_all 1 [true; true; true] (BitWriter_new [0; 7]) ≫= Flush 1) ≫= Flush 1) = Ok w /\
    mem_bits 1 (w_dptr w) = replicate 8 false ++ mem_bits 1 [7].
Proof.
  destruct (flush_twice 1 [0; 7] [true; true; true]) as (w & H1 & _ & H2).
  - lia.
  - repeat constructor.
  - vm_compute. lia.
  - vm_compute. lia.
  - exists w. split; [exact H1|]. rewrite H2. reflexivity.
Defined.

End BitIOFacts.

(** ** Hyper-parameters *)

Module HyperParamFacts.
Import Utils Compressors HyperParamSpec.

(** C9.  [HyperParamFinder] aborts when the name is absent and required,
    aborts when the name is present and the predicate rejects the value
    extracted from its text, and otherwise returns the value: the one
    extracted when the name is present, the initial [T()] when it is absent
    and optional. *)
Theorem HyperParamFinder_outcomes :
  forall (T : Type) (F : Fundamental T) (E : Extract T)
         (kwargs : gmap string string) (name : string) (optional : bool)
         (check : T -> bool),
    (kwargs !! name = None -> optional = false ->
     exists msg, (HyperParamFinder kwargs name optional check).2 = Fatal msg) /\
    (forall text, kwargs !! name = Some text ->
     check (extract is_same_bool text) = false ->
     exists msg, (HyperParamFinder kwargs name optional check).2 = Fatal msg) /\
    (forall text, kwargs !! name = Some text ->
     check (extract is_same_bool text) = true ->
     (HyperParamFinder kwargs name optional check).2
     = Ok (extract is_same_bool text)) /\
    (kwargs !! name = None -> optional = true ->
     (HyperParamFinder kwargs name optional check).2 = Ok T_default).
Proof.
  intros T F E kwargs name optional check. unfold HyperParamFinder.
  repeat split.
  - intros -> ->. simpl. eauto.
  - intros text -> Hc. rewrite Hc. simpl. eauto.
  - intros text -> Hc. rewrite Hc. reflexivity.
  - intros -> ->. reflexivity.
Qed.

(** The four outcomes on concrete arguments. *)
Lemma HyperParamFinder_outcomes_witness :
  (exists msg,
     (HyperParamFinder (H0:=extract_unsigned_model) ∅ "seed" false unsigned_ne0).2
     = Fatal msg) /\
  (exists msg,
     (HyperParamFinder (H0:=extract_unsigned_model) {["seed" := "0"]} "seed" true
        unsigned_ne0).2 = Fatal msg) /\
  (HyperParamFinder (H0:=extract_unsigned_model) {["seed" := "42"]} "seed" true
     unsigned_ne0).2 = Ok 42 /\
  (HyperParamFinder (H0:=extract_unsigned_model) ∅ "seed" true unsigned_ne0).2
    = Ok 0.
Proof.
  split; [|split; [|split]].
  - destruct (HyperParamFinder_outcomes Z _ extract_unsigned_model
                ∅ "seed" false unsigned_ne0) as (H & _).
    apply H; reflexivity.
  - destruct (HyperParamFinder_outcomes Z _ extract_unsigned_model
                {["seed" := "0"]} "seed" true unsigned_ne0) as (_ & H & _).
    apply (H "0"); reflexivity.
  - destruct (HyperParamFinder_outcomes Z _ extract_unsigned_model
                {["seed" := "42"]} "seed" true unsigned_ne0) as (_ & _ & H & _).
    apply (H "42"); reflexivity.
  - destruct (HyperParamFinder_outcomes Z _ extract_unsigned_model
                ∅ "seed" true unsigned_ne0) as (_ & _ & _ & H).
    apply H; reflexivity.
Defined.

(** C10.  When the name is absent and the parameter optional, the call
    returns [T()] and does nothing else: the predicate is not invoked and
    nothing is logged, whatever the predicate is.  For the optional seed of
    sparse_ef this gives 0, a value its predicate [x != 0] rejects, and the
    constructor then leaves the generator as [std::random_device] seeded
    it. *)
Theorem HyperParamFinder_optional_absent :
  (forall (T : Type) (F : Fundamental T) (E : Extract T)
          (kwargs : gmap string string) (name : string) (check : T -> bool),
      kwargs !! name = None ->
      HyperParamFinder kwargs name true check = ([], Ok T_default)) /\
  (forall (getDataTypeLength : DataType -> result nat)
          (inner : Type) (Ef : Extract Float.f32) (Eu : Extract Z)
          (kwargs : gmap string string) (size : nat) (dtype : DataType)
          (cptr : inner) (buf : ptr) (rd1 rd2 : Z) (lr : lr_file)
          (obj : SparseErrorFeedbackCompressor inner),
      kwargs !! "seed" = None ->
      HyperParamFinder kwargs "seed" true unsigned_ne0 = ([], Ok 0) /\
      unsigned_ne0 0 = false /\
      (sparse_ef_register getDataTypeLength kwargs size
         dtype (Some cptr) buf rd1 rd2 lr = Ok obj ->
       se_rng obj = mkRng rd1 rd2)).
Proof.
  split.
  - intros T F E kwargs name check Hn. unfold HyperParamFinder.
    rewrite Hn. reflexivity.
  - intros gl inner Ef Eu kwargs size dtype cptr buf rd1 rd2 lr obj Hn.
    assert (Hs : HyperParamFinder kwargs "seed" true unsigned_ne0 = ([], Ok 0)).
    { unfold HyperParamFinder. rewrite Hn. reflexivity. }
    split; [exact Hs|]. split; [reflexivity|].
    unfold sparse_ef_register. rewrite Hs.
    destruct (HyperParamFinder kwargs "compressor_k" false float_gt0).2
      as [factor| |]; simpl; try discriminate.
    destruct (sparse_ef_k gl factor size dtype) as [k| |]; simpl; try discriminate.
    unfold Sparse_new. simpl. destruct lr; try discriminate.
    intros [= <-]. reflexivity.
Qed.

(** Registration of sparse_ef with [compressor_k = 0.5] and no seed, for a
    float tensor of 16 bytes: k is 2 and the generator keeps the state
    [(11, 22)] drawn from [std::random_device]. *)
Lemma HyperParamFinder_optional_absent_witness :
  HyperParamFinder (H0:=extract_unsigned_model) {["compressor_k" := "0.5"]}
    "seed" true unsigned_ne0 = ([], Ok 0) /\
  sparse_ef_register sizes (extract_float:=extract_float_model)
    (extract_unsigned:=extract_unsigned_model) {["compressor_k" := "0.5"]}
    16 BYTEPS_FLOAT32 (Some tt) 7%N 11 22 (LrMapped 0x3fb999999999999a)
  = Ok (mkSparse 7%N (Float.lit64 1 1) (Float.lit64 1 1) 2 (mkRng 11 22) [] tt).
Proof.
  split.
  - apply (proj1 HyperParamFinder_optional_absent). reflexivity.
  - vm_compute. reflexivity.
Defined.

(** *** Serialize and Deserialize *)

Lemma list_ascii_of_string_app a b :
  list_ascii_of_string (a +:+ b) = list_ascii_of_string a ++ list_ascii_of_string b.
Proof. induction a as [|c a IH]; [reflexivity|]. simpl. f_equal. exact IH. Qed.

Lemma skip_ws_word c cs : isspace c = false -> skip_ws (c :: cs) = c :: cs.
Proof. intros H. cbn. rewrite H. reflexivity. Qed.

Lemma read_word_spec w rest :
  Forall (fun c => isspace c = false) w ->
  (rest = [] \/ exists rest', rest = " "%char :: rest') ->
  read_word (w ++ rest) = (w, rest).
Proof.
  intros Hw Hrest. induction Hw as [|c w Hc Hw IH].
  - destruct Hrest as [->|(rest' & ->)]; reflexivity.
  - cbn. rewrite Hc, IH. reflexivity.
Qed.

Lemma extract_string_word s rest :
  is_word s ->
  (rest = [] \/ exists rest', rest = " "%char :: rest') ->
  extract_string (mkIs (" "%char :: list_ascii_of_string s ++ rest) false)
  = (s, mkIs rest false).
Proof.
  intros [Hne Hw] Hrest. unfold extract_string. cbn [is_fail is_rest skip_ws].
  change (isspace " ") with true. cbn iota.
  destruct (list_ascii_of_string s) as [|c w] eqn:Hs.
  { destruct s; [congruence|discriminate]. }
  inversion Hw as [|? ? Hc Hw']; subst.
  rewrite <- app_comm_cons, skip_ws_word by exact Hc.
  rewrite app_comm_cons, read_word_spec by (assumption || constructor; assumption).
  rewrite <- Hs, string_of_list_ascii_of_string. reflexivity.
Qed.

Lemma entries_text_head l :
  entries_text l = [] \/ exists rest', entries_text l = " "%char :: rest'.
Proof. destruct l as [|kv l]; [left; reflexivity|right; eexists; reflexivity]. Qed.

Lemma serialize_text l s0 :
  list_ascii_of_string
    (fold_left (fun os kwarg => os +:+ " " +:+ kwarg.1 +:+ " " +:+ kwarg.2) l s0)
  = list_ascii_of_string s0 ++ entries_text l.
Proof.
  revert s0. induction l as [|kv l IH]; intros s0.
  - cbn. rewrite app_nil_r. reflexivity.
  - cbn [fold_left]. rewrite IH. unfold entries_text. cbn [map concat].
    rewrite !list_ascii_of_string_app. cbn [list_ascii_of_string].
    rewrite <- !app_assoc. cbn [app]. rewrite <- !app_assoc. reflexivity.
Qed.

Lemma Deserialize_loop_failed n rest m :
  Deserialize_loop n (mkIs rest true) m
  = match n with O => m | _ => <[EmptyString := EmptyString]> m end.
Proof.
  revert m. induction n as [|n IH]; intros m; [reflexivity|].
  cbn [Deserialize_loop extract_string is_fail]. rewrite IH.
  destruct n; [reflexivity|]. apply insert_insert_eq.
Qed.

Lemma Deserialize_loop_entries l : forall n m,
  Forall (fun kv => is_word kv.1 /\ is_word kv.2) l ->
  Deserialize_loop n (mkIs (entries_text l) false) m
  = if (n <=? length l)%nat then assign_all (take n l) m
    else <[EmptyString := EmptyString]> (assign_all l m).
Proof.
  induction l as [|[k v] l IH]; intros n m Hl.
  - destruct n as [|n]; [reflexivity|].
    cbn [Deserialize_loop entries_text map concat extract_string is_fail is_rest skip_ws].
    rewrite Deserialize_loop_failed. cbn [length Nat.leb assign_all fold_left].
    destruct n; [reflexivity|]. apply insert_insert_eq.
  - inversion Hl as [|? ? [Hk Hv] Hl']; subst. cbn [fst snd] in Hk, Hv.
    destruct n as [|n]; [reflexivity|].
    cbn [Deserialize_loop]. unfold entries_text. cbn [map concat fst snd].
    fold (entries_text l). rewrite <- app_comm_cons, <- app_assoc, <- app_comm_cons.
    rewrite (extract_string_word k) by (auto; right; eexists; reflexivity).
    rewrite (extract_string_word v) by (auto using entries_text_head).
    rewrite IH by assumption. cbn [length Nat.leb take assign_all fold_left fst snd].
    reflexivity.
Qed.

Lemma assign_all_list_to_map l :
  NoDup (l.*1) -> assign_all l ∅ = list_to_map l.
Proof.
  intros Hnd. unfold assign_all. rewrite <- fold_left_rev_right.
  transitivity (list_to_map (rev l) : gmap string string).
  - induction (rev l) as [|[k v] r IH]; [reflexivity|]. cbn. rewrite IH. reflexivity.
  - assert (Hp : rev l ≡ₚ l) by (symmetry; apply Permutation_rev).
    apply list_to_map_proper; [rewrite Hp; exact Hnd|exact Hp].
Qed.

Section Serialization.
Variable iterate : gmap string string -> list (string * string).
Variable extract_size_t : istringstream -> nat * istringstream.

(** X21.  [Deserialize] on a text made of a count [n] and a list of
    entries whose keys and values are words: it reads the first [n] entries
    and ignores the rest, a later entry replacing an earlier one with the
    same key; when the count exceeds the number of entries, every missing
    entry is read as the empty key with the empty value. *)
Theorem Deserialize_entries (n : nat) (l : list (string * string)) :
  reads_decimal extract_size_t ->
  Forall (fun kv => is_word kv.1 /\ is_word kv.2) l ->
  Deserialize extract_size_t
    (fold_left (fun os kwarg => os +:+ " " +:+ kwarg.1 +:+ " " +:+ kwarg.2) l (pretty n))
  = if (n <=? length l)%nat then assign_all (take n l) ∅
    else <[EmptyString := EmptyString]> (assign_all l ∅).
Proof.
  intros Hdec Hl. unfold Deserialize. rewrite serialize_text.
  rewrite Hdec by apply entries_text_head.
  apply Deserialize_loop_entries. exact Hl.
Qed.

(** X22.  [Deserialize] undoes [Serialize] on every map whose keys and
    values are words (not empty, without white space), in whatever order the
    map is iterated. *)
Theorem Deserialize_Serialize (kwargs : gmap string string) :
  iterates_all iterate -> reads_decimal extract_size_t ->
  (forall k v, kwargs !! k = Some v -> is_word k /\ is_word v) ->
  Deserialize extract_size_t (Serialize iterate kwargs) = kwargs.
Proof.
  intros Hit Hdec Hw. unfold Deserialize, Serialize. rewrite serialize_text.
  rewrite Hdec by apply entries_text_head.
  rewrite Deserialize_loop_entries.
  - assert (Hlen : base.size kwargs = length (iterate kwargs)).
    { rewrite <- length_map_to_list. symmetry. apply Permutation_length, Hit. }
    rewrite Hlen, Nat.leb_refl, firstn_all.
    rewrite assign_all_list_to_map.
    + rewrite (list_to_map_proper _ (map_to_list kwargs)).
      * apply list_to_map_to_list.
      * rewrite (Hit kwargs). apply NoDup_fst_map_to_list.
      * apply Hit.
    + rewrite (Hit kwargs). apply NoDup_fst_map_to_list.
  - rewrite (Hit kwargs). apply Forall_forall. intros [k v] Hin.
    apply elem_of_map_to_list in Hin. apply (Hw k v Hin).
Qed.
End Serialization.

Lemma decimal_digit_pretty d :
  (d < 10)%N -> decimal_digit (pretty_N_char d) = Some (N.to_nat d).
Proof.
  intros Hd.
  assert (d = 0 \/ d = 1 \/ d = 2 \/ d = 3 \/ d = 4 \/ d = 5 \/ d = 6 \/ d = 7
          \/ d = 8 \/ d = 9)%N as Hc by lia.
  repeat (destruct Hc as [->|Hc]; [reflexivity|]). subst. reflexivity.
Qed.

Lemma isspace_pretty d : isspace (pretty_N_char d) = false.
Proof. destruct d as [|p]; [reflexivity|]. do 4 (destruct p as [p|p|]; try reflexivity). Qed.

Lemma pretty_N_go_head x : forall s,
  (0 < x)%N ->
  exists c cs, list_ascii_of_string (pretty_N_go x s) = c :: cs /\ isspace c = false.
Proof.
  induction (N.lt_wf_0 x) as [x _ IH]. intros s Hx.
  rewrite pretty_N_go_step by exact Hx.
  destruct (N.eq_dec (x / 10)%N 0%N) as [Hz|Hnz].
  - rewrite Hz, pretty_N_go_0. cbn [list_ascii_of_string].
    eexists _, _. split; [reflexivity|apply isspace_pretty].
  - apply IH; [apply N.div_lt; lia|apply N.neq_0_lt_0; exact Hnz].
Qed.

Lemma read_decimal_pretty_go rest x : forall s acc seen,
  (0 < x)%N ->
  exists acc',
    read_decimal (list_ascii_of_string (pretty_N_go x s) ++ rest) acc seen
    = read_decimal (list_ascii_of_string s ++ rest) acc' true /\
    (acc = 0%nat -> acc' = N.to_nat x).
Proof.
  induction (N.lt_wf_0 x) as [x _ IH]. intros s acc seen Hx.
  rewrite pretty_N_go_step by exact Hx.
  assert (Hd : (x mod 10 < 10)%N) by (apply N.mod_lt; lia).
  pose proof (N.div_mod x 10 ltac:(lia)) as Hdm.
  destruct (N.eq_dec (x / 10)%N 0%N) as [Hz|Hnz].
  - rewrite Hz, pretty_N_go_0. cbn [list_ascii_of_string app read_decimal].
    rewrite (decimal_digit_pretty _ Hd). eexists. split; [reflexivity|].
    intros ->. lia.
  - destruct (IH (x / 10)%N ltac:(apply N.div_lt; lia)
                (String (pretty_N_char (x mod 10)%N) s) acc seen
                ltac:(apply N.neq_0_lt_0; exact Hnz))
      as (acc1 & Hrun & Hacc).
    rewrite Hrun. cbn [list_ascii_of_string app read_decimal].
    rewrite (decimal_digit_pretty _ Hd). eexists. split; [reflexivity|].
    intros Ha. rewrite (Hacc Ha). lia.
Qed.

Lemma read_decimal_stop rest acc seen :
  (rest = [] \/ exists rest', rest = " "%char :: rest') ->
  read_decimal rest acc seen = (acc, seen, rest).
Proof. intros [->|(rest' & ->)]; reflexivity. Qed.

Lemma extract_size_t_model_decimal : reads_decimal extract_size_t_model.
Proof.
  intros n rest Hrest. unfold extract_size_t_model. cbn [is_fail is_rest].
  unfold pretty at 1, pretty_nat, pretty at 1, pretty_N.
  destruct (decide (N.of_nat n = 0%N)) as [Hz|Hnz].
  - assert (n = 0%nat) as -> by lia. cbn [list_ascii_of_string app skip_ws].
    change (isspace "0") with false. cbn iota. cbn [read_decimal].
    change (decimal_digit "0") with (Some 0%nat). cbn iota.
    rewrite read_decimal_stop by exact Hrest. reflexivity.
  - destruct (read_decimal_pretty_go rest (N.of_nat n) EmptyString 0%nat false
                ltac:(lia)) as (acc' & Hrun & Hacc).
    destruct (pretty_N_go_head (N.of_nat n) EmptyString ltac:(lia))
      as (c & cs & Hhead & Hc).
    assert (Hskip : skip_ws (list_ascii_of_string (pretty_N_go (N.of_nat n) "") ++ rest)
                    = list_ascii_of_string (pretty_N_go (N.of_nat n) "") ++ rest).
    { rewrite Hhead. cbn [app skip_ws]. rewrite Hc. reflexivity. }
    rewrite Hskip, Hrun. cbn [list_ascii_of_string app].
    rewrite read_decimal_stop by exact Hrest. rewrite (Hacc eq_refl), Nat2N.id.
    reflexivity.
Qed.

Lemma map_to_list_iterates_all : iterates_all map_to_list.
Proof. intros kwargs. reflexivity. Qed.

Lemma Deserialize_entries_witness :
  Deserialize extract_size_t_model "3 k 2 seed 7"
  = {[ "k"%string := "2"%string; "seed"%string := "7"%string;
       EmptyString := EmptyString ]}.
Proof.
  assert (Hw : Forall (fun kv : string * string => is_word kv.1 /\ is_word kv.2)
                 [("k"%string, "2"%string); ("seed"%string, "7"%string)]).
  { repeat constructor; cbn; congruence. }
  pose proof (Deserialize_entries extract_size_t_model 3
                [("k"%string, "2"%string); ("seed"%string, "7"%string)]
                extract_size_t_model_decimal Hw) as H.
  etransitivity; [|etransitivity; [exact H|]]; vm_compute; reflexivity.
Defined.

Lemma Deserialize_Serialize_witness :
  Deserialize extract_size_t_model
    (Serialize map_to_list {[ "compressor_k"%string := "0.01"%string;
                              "seed"%string := "2020"%string ]})
  = {[ "compressor_k"%string := "0.01"%string; "seed"%string := "2020"%string ]}.
Proof.
  apply (Deserialize_Serialize map_to_list extract_size_t_model).
  - exact map_to_list_iterates_all.
  - exact extract_size_t_model_decimal.
  - intros k v Hkv.
    apply elem_of_map_to_list in Hkv. vm_compute in Hkv.
    repeat (apply elem_of_cons in Hkv as [Hkv|Hkv];
            [injection Hkv as -> ->; split; split; try discriminate;
             repeat constructor|]).
    inversion Hkv.
Defined.

End HyperParamFacts.

(** ** The reducers *)

Module ReducerFacts.
Import Utils.
Export ResultFacts ReducerSpec.

(** IEEE addition and multiplication are commutative. *)
Lemma SFadd_comm prec emax (x y : spec_float) :
  SFadd prec emax x y = SFadd prec emax y x.
Proof.
  destruct x as [sx|sx| |sx mx ex], y as [sy|sy| |sy my ey]; simpl;
    try reflexivity; try (destruct sx, sy; reflexivity).
  rewrite (Z.min_comm ey ex). f_equal. apply Z.add_comm.
Qed.

Lemma SFmul_comm prec emax (x y : spec_float) :
  SFmul prec emax x y = SFmul prec emax y x.
Proof.
  destruct x as [sx|sx| |sx mx ex], y as [sy|sy| |sy my ey]; simpl;
    try reflexivity; try (rewrite xorb_comm; reflexivity).
  rewrite xorb_comm, Pos.mul_comm, Z.add_comm. reflexivity.
Qed.

(** *** Loops whose iterations run concurrently *)

(** The footprints are race free exactly when no access of one conflicts
    with an access of a later one. *)
Lemma race_free_spec (fps : list (list access)) :
  race_free fps = true <->
  (forall i j fi fj a b, (i < j)%nat -> fps !! i = Some fi -> fps !! j = Some fj ->
     In a fi -> In b fj -> conflict a b = false).
Proof.
  induction fps as [|fp rest IH]; cbn [race_free].
  - split; [|reflexivity]. intros _ i j fi fj a b _ Hi. discriminate.
  - rewrite andb_true_iff, IH. unfold independent. rewrite forallb_forall. split.
    + intros [Hfp Hrest] i j fi fj a b Hij Hi Hj Ha Hb.
      destruct j as [|j]; [lia|]. cbn in Hj. destruct i as [|i].
      * injection Hi as <-.
        apply list_elem_of_lookup_2, list_elem_of_In in Hj.
        specialize (Hfp _ Hj). rewrite forallb_forall in Hfp.
        specialize (Hfp _ Ha). rewrite forallb_forall in Hfp.
        specialize (Hfp _ Hb). apply negb_true_iff in Hfp. exact Hfp.
      * cbn in Hi. apply (Hrest i j fi fj a b); auto. lia.
    + intros H. split.
      * intros o Ho. apply list_elem_of_In, list_elem_of_lookup_1 in Ho as [j Hj].
        apply forallb_forall. intros a Ha. apply forallb_forall. intros b Hb.
        apply negb_true_iff. apply (H 0%nat (Datatypes.S j) fp o a b); auto. lia.
      * intros i j fi fj a b Hij Hi Hj.
        apply (H (Datatypes.S i) (Datatypes.S j) fi fj a b); auto. lia.
Qed.

Lemma sparse_footprint_lookup dst src idx n i fi :
  (sparse_footprint dst src idx <$> seq 0 n) !! i = Some fi ->
  (i < n)%nat /\ fi = sparse_footprint dst src idx i.
Proof.
  rewrite list_lookup_fmap. intros H.
  destruct (seq 0 n !! i) as [x|] eqn:E; [|discriminate].
  apply lookup_seq in E as [-> Hlt]. injection H as <-. auto.
Qed.

(** Iterations that pick the same index race on that element of [src]. *)
Lemma sparse_footprints_race dst src idx :
  picked_twice idx ->
  race_free (sparse_footprint dst src idx <$> seq 0 (length idx)) = false.
Proof.
  intros (i & j & a & Hij & Hi & Hj).
  destruct (race_free _) eqn:E; [|reflexivity].
  rewrite race_free_spec in E.
  assert (Hlt : (j < length idx)%nat) by (eapply lookup_lt_Some; exact Hj).
  specialize (E i j (sparse_footprint dst src idx i) (sparse_footprint dst src idx j)
                (Writes src (Z.to_nat a)) (Writes src (Z.to_nat a)) Hij).
  rewrite <- E.
  - cbn [conflict]. rewrite N.eqb_refl, Nat.eqb_refl. reflexivity.
  - rewrite list_lookup_fmap, lookup_seq_lt by lia. reflexivity.
  - rewrite list_lookup_fmap, lookup_seq_lt by lia. reflexivity.
  - unfold sparse_footprint. rewrite nth_lookup, Hi. cbn. auto.
  - unfold sparse_footprint. rewrite nth_lookup, Hj. cbn. auto.
Qed.

(** Iterations that pick different indices of a source other than the
    destination do not. *)
Lemma sparse_footprints_race_free dst src idx :
  dst <> src -> NoDup (Z.to_nat <$> idx) ->
  race_free (sparse_footprint dst src idx <$> seq 0 (length idx)) = true.
Proof.
  intros Hne Hnd. apply race_free_spec. intros i j fi fj a b Hij Hi Hj Ha Hb.
  apply sparse_footprint_lookup in Hi as [Hil ->].
  apply sparse_footprint_lookup in Hj as [Hjl ->].
  assert (Hpick : Z.to_nat (nth i idx 0) <> Z.to_nat (nth j idx 0)).
  { intros Heq.
    destruct (lookup_lt_is_Some_2 idx i Hil) as [x Hx].
    destruct (lookup_lt_is_Some_2 idx j Hjl) as [y Hy].
    rewrite !nth_lookup, Hx, Hy in Heq. cbn in Heq.
    assert (i = j); [|lia].
    apply (NoDup_lookup _ i j (Z.to_nat x) Hnd); rewrite list_lookup_fmap.
    - rewrite Hx. reflexivity.
    - rewrite Hy, Heq. reflexivity. }
  assert (E1 : (dst =? src)%N = false) by (apply N.eqb_neq; exact Hne).
  assert (E2 : (src =? dst)%N = false) by (apply N.eqb_neq; congruence).
  assert (E3 : (i =? j)%nat = false) by (apply Nat.eqb_neq; lia).
  assert (E4 : Nat.eqb (Z.to_nat (nth i idx 0)) (Z.to_nat (nth j idx 0)) = false)
    by (apply Nat.eqb_neq; exact Hpick).
  unfold sparse_footprint in Ha, Hb. cbn [In] in Ha, Hb.
  destruct Ha as [<-|[<-|[<-|[<-|[]]]]], Hb as [<-|[<-|[<-|[<-|[]]]]];
    cbn [conflict]; rewrite ?E1, ?E2, ?E3, ?E4, ?andb_false_r; reflexivity.
Qed.

Section Elementwise.
Context {half_t : Type} {T : Type} {S : Scalar (half_t:=half_t) T}.
Local Abbreviation heap := (gmap N (buffer (half_t:=half_t))).

Lemma scale_add_add_scaled alpha m g : scale_add alpha m g = add_scaled g alpha m.
Proof.
  unfold scale_add, add_scaled. f_equal.
  destruct s_arith; simpl; apply SFadd_comm.
Qed.

Lemma add_scaled_r_add_scaled a b alpha : add_scaled_r a b alpha = add_scaled a alpha b.
Proof.
  unfold add_scaled_r, add_scaled. do 2 f_equal.
  destruct s_arith; simpl; apply SFmul_comm.
Qed.

Lemma insert_take_drop (R D : list T) (k : nat) (r : T) :
  length R = length D -> R !! k = Some r ->
  <[k := r]> (take k R ++ drop k D) = take (Datatypes.S k) R ++ drop (Datatypes.S k) D.
Proof.
  intros Hlen Hr.
  assert (Hk : (k < length R)%nat) by (eapply lookup_lt_Some; eauto).
  rewrite insert_app_r_alt by (rewrite length_take; lia).
  rewrite length_take, Nat.min_l, Nat.sub_diag by lia.
  destruct (drop k D) as [|d0 D'] eqn:HD.
  { apply (f_equal length) in HD. rewrite length_drop in HD. simpl in HD. lia. }
  simpl. rewrite (take_S_r _ _ _ Hr), <- app_assoc. simpl.
  f_equal. f_equal.
  assert (HD' : drop 1 (drop k D) = D') by (rewrite HD; reflexivity).
  rewrite drop_drop in HD'. replace (k + 1)%nat with (Datatypes.S k) in HD' by lia.
  congruence.
Qed.

Lemma lookup_take_drop (R D : list T) (k : nat) :
  length R = length D -> (take k R ++ drop k D) !! k = D !! k.
Proof.
  intros Hlen. destruct (decide (k < length R)%nat).
  - rewrite lookup_app_r by (rewrite length_take; lia).
    rewrite length_take, Nat.min_l, Nat.sub_diag by lia.
    rewrite lookup_drop. f_equal. lia.
  - rewrite !lookup_ge_None_2; [reflexivity|lia|].
    rewrite length_app, length_take, length_drop. lia.
Qed.

(** The loop of [_sum] with three pointers that may alias: iteration [i]
    reads and writes index [i] only, so it sees the original elements. *)
Lemma _sum3_spec (h : heap) (dst src1 src2 : ptr) (len : nat) (alpha : Float.f32)
    (D A B R : list T) :
  lawful ->
  h !! dst = Some (s_inj D) -> h !! src1 = Some (s_inj A) ->
  h !! src2 = Some (s_inj B) ->
  (len / s_sizeof <= length D)%nat ->
  elementwise (len / s_sizeof) (fun a b => add_scaled a alpha b) D A B R ->
  _sum3 h dst src1 src2 len alpha = Ok (<[dst := s_inj R]> h).
Proof.
  intros (Hpi & Hip & _) Hd Ha Hb Hn (Hlen & Hpt & Hrest).
  unfold _sum3. set (n := (len / s_sizeof)%nat) in *.
  set (body := fun (i : nat) (h0 : heap) => _).
  assert (Hloop : forall k, (k <= n)%nat ->
            foldM body (seq 0 k) h = Ok (<[dst := s_inj (take k R ++ drop k D)]> h)).
  { induction k as [|k IH]; intros Hk.
    - change (foldM body (seq 0 0) h) with (Ok h).
      rewrite take_0, drop_0, app_nil_l, insert_id; auto.
    - rewrite seq_S, foldM_snoc, IH, bind_Ok by lia. rewrite Nat.add_0_l.
      destruct (Hpt k ltac:(lia)) as (a & b & r & Hak & Hbk & Hrk & Hf).
      set (hk := <[dst := s_inj (take k R ++ drop k D)]> h).
      assert (Hrd : forall p L, h !! p = Some (s_inj L) ->
                rd hk p k = load L k).
      { intros p L Hp. unfold rd, hk.
        destruct (decide (p = dst)) as [->|Hne].
        - rewrite lookup_insert_eq, Hpi.
          assert (L = D) as ->.
          { rewrite Hd in Hp. injection Hp as Hp. apply (f_equal s_proj) in Hp.
            rewrite !Hpi in Hp. congruence. }
          unfold load. rewrite lookup_take_drop by exact Hlen. reflexivity.
        - rewrite lookup_insert_ne by congruence. rewrite Hp, Hpi. reflexivity. }
      unfold body at 1. rewrite (Hrd _ _ Ha), (Hrd _ _ Hb).
      unfold load. rewrite Hak, Hbk, !bind_Ok, Hf, bind_Ok.
      unfold wr, hk. rewrite lookup_insert_eq, Hpi. unfold store.
      rewrite decide_True
        by (rewrite length_app, length_take, length_drop; lia).
      rewrite bind_Ok, insert_insert_eq.
      rewrite (insert_take_drop R D k r Hlen Hrk). reflexivity. }
  rewrite (Hloop n (Nat.le_refl n)). do 3 f_equal.
  apply list_eq. intros i.
  destruct (decide (i < n)%nat).
  - rewrite lookup_app_l by (rewrite length_take; lia).
    rewrite lookup_take_lt by lia. reflexivity.
  - rewrite lookup_app_r by (rewrite length_take; lia).
    rewrite length_take, Nat.min_l by lia.
    rewrite lookup_drop, Hrest by lia. f_equal. lia.
Qed.

Lemma _sum_spec (h : heap) (dst src : ptr) (len : nat) (alpha : Float.f32)
    (D B R : list T) :
  lawful ->
  h !! dst = Some (s_inj D) -> h !! src = Some (s_inj B) ->
  (len / s_sizeof <= length D)%nat ->
  elementwise (len / s_sizeof) (fun a b => add_scaled a alpha b) D D B R ->
  _sum h dst src len alpha = Ok (<[dst := s_inj R]> h).
Proof. intros. eapply (_sum3_spec h dst dst src); eauto. Qed.

Lemma zero_at_length S0 js : length (zero_at S0 js) = length S0.
Proof.
  unfold zero_at. revert S0. induction js as [|j js IH]; intros S0; simpl; auto.
  rewrite IH, length_insert. reflexivity.
Qed.

Lemma zero_at_snoc S0 js j : zero_at S0 (js ++ [j]) = <[j := s_zero]> (zero_at S0 js).
Proof. unfold zero_at. rewrite foldl_app. reflexivity. Qed.

(** An element of the source is zero once its position has been picked,
    and untouched before. *)
Lemma zero_at_lookup S0 js p :
  zero_at S0 js !! p
  = if decide (p ∈ js) then (fun _ => s_zero) <$> S0 !! p else S0 !! p.
Proof.
  induction js as [|j js IH] using rev_ind.
  - rewrite decide_False by (apply not_elem_of_nil). reflexivity.
  - rewrite zero_at_snoc.
    destruct (decide (p = j)) as [->|Hne].
    + rewrite decide_True by (apply elem_of_app; right; apply list_elem_of_singleton; reflexivity).
      destruct (decide (j < length S0)%nat) as [Hlt|Hge].
      * rewrite list_lookup_insert_eq by (rewrite zero_at_length; lia).
        destruct (lookup_lt_is_Some_2 S0 j Hlt) as [x ->]. reflexivity.
      * rewrite list_insert_ge by (rewrite zero_at_length; lia).
        rewrite !lookup_ge_None_2; try reflexivity; rewrite ?zero_at_length; lia.
    + rewrite list_lookup_insert_ne by congruence. rewrite IH.
      destruct (decide (p ∈ js)) as [Hin|Hnin].
      * rewrite decide_True by (apply elem_of_app; left; exact Hin). reflexivity.
      * rewrite decide_False; [reflexivity|].
        rewrite elem_of_app, list_elem_of_singleton. tauto.
Qed.

Lemma rd_lookup (h : heap) (p : ptr) (i : nat) (L : list T) :
  lawful -> h !! p = Some (s_inj L) -> rd h p i = load L i.
Proof. intros (Hpi & _) Hp. unfold rd. rewrite Hp, Hpi. reflexivity. Qed.

Lemma wr_lookup (h : heap) (p : ptr) (i : nat) (v : T) (L : list T) :
  lawful -> h !! p = Some (s_inj L) -> (i < length L)%nat ->
  wr h p i v = Ok (<[p := s_inj (<[i := v]> L)]> h).
Proof.
  intros (Hpi & _) Hp Hi. unfold wr, store. rewrite Hp, Hpi.
  rewrite decide_True by exact Hi. reflexivity.
Qed.

Lemma _sparse_sum_spec (h : heap) (dst src : ptr) (len : nat) (alpha : Float.f32)
    (idx : list Z) (D S0 D' : list T) :
  lawful -> dst <> src -> NoDup (Z.to_nat <$> idx) ->
  h !! dst = Some (s_inj D) -> h !! src = Some (s_inj S0) ->
  sparse_result alpha idx D S0 D' ->
  _sparse_sum h dst src len alpha idx
  = Ok (<[src := s_inj (zero_at S0 (Z.to_nat <$> idx))]> (<[dst := s_inj D']> h)).
Proof.
  intros Hlaw Hne Hnd Hd Hs (Hlen & Hpt & Hrest).
  unfold _sparse_sum, omp_parallel_for. cbv zeta.
  fold (sparse_footprint dst src idx).
  rewrite (sparse_footprints_race_free dst src idx Hne Hnd).
  set (body := fun (i : nat) (h0 : heap) => _).
  assert (Hloop : forall k, (k <= length idx)%nat ->
            foldM body (seq 0 k) h
            = Ok (<[src := s_inj (zero_at S0 (Z.to_nat <$> take k idx))]>
                    (<[dst := s_inj (take k D' ++ drop k D)]> h))).
  { induction k as [|k IH]; intros Hk.
    - change (foldM body (seq 0 0) h) with (Ok h).
      rewrite !take_0, drop_0, app_nil_l. unfold zero_at. simpl foldl.
      rewrite (insert_id h dst) by exact Hd. rewrite insert_id by exact Hs.
      reflexivity.
    - rewrite seq_S, foldM_snoc, IH, bind_Ok by lia. rewrite Nat.add_0_l.
      destruct (lookup_lt_is_Some_2 idx k ltac:(lia)) as [j Hj].
      destruct (Hpt k j Hj) as (d & s & r & Hdk & Hsk & Hrk & Hf).
      set (Zk := zero_at S0 (Z.to_nat <$> take k idx)) in *.
      set (Dk := take k D' ++ drop k D).
      set (hk := <[src := s_inj Zk]> (<[dst := s_inj Dk]> h)).
      assert (Hkd : (k < length D)%nat) by (eapply lookup_lt_Some; eauto).
      assert (Hjs : (Z.to_nat j < length Zk)%nat) by (eapply lookup_lt_Some; eauto).
      assert (HDk : Dk !! k = Some d)
        by (unfold Dk; rewrite lookup_take_drop by exact Hlen; exact Hdk).
      assert (Hk1 : hk !! dst = Some (s_inj Dk)).
      { unfold hk. rewrite lookup_insert_ne by congruence. apply lookup_insert_eq. }
      assert (Hk2 : hk !! src = Some (s_inj Zk)) by apply lookup_insert_eq.
      assert (Hl1 : load idx k = Ok j) by (unfold load; rewrite Hj; reflexivity).
      assert (Hl2 : load Dk k = Ok d) by (unfold load; rewrite HDk; reflexivity).
      assert (Hl3 : load Zk (Z.to_nat j) = Ok s)
        by (unfold load; rewrite Hsk; reflexivity).
      unfold body. rewrite Hl1, bind_Ok.
      rewrite (rd_lookup hk dst k Dk Hlaw Hk1), Hl2, bind_Ok.
      rewrite (rd_lookup hk src _ Zk Hlaw Hk2), Hl3, bind_Ok.
      rewrite add_scaled_r_add_scaled, Hf, bind_Ok.
      rewrite (wr_lookup hk dst k r Dk Hlaw Hk1)
        by (unfold Dk; rewrite length_app, length_take, length_drop; lia).
      rewrite bind_Ok.
      rewrite (wr_lookup _ src _ s_zero Zk Hlaw)
        by (try exact Hjs; rewrite lookup_insert_ne by congruence; exact Hk2).
      unfold Dk. rewrite (insert_take_drop D' D k r Hlen Hrk).
      rewrite (take_S_r _ _ _ Hj), fmap_app.
      change (Z.to_nat <$> [j]) with [Z.to_nat j].
      rewrite zero_at_snoc. fold Zk.
      f_equal. apply map_eq. intros q. unfold hk.
      destruct (decide (q = src)) as [->|Hq1]; [rewrite !lookup_insert_eq; reflexivity|].
      rewrite !(lookup_insert_ne _ src q) by congruence.
      destruct (decide (q = dst)) as [->|Hq2]; [rewrite !lookup_insert_eq; reflexivity|].
      rewrite !(lookup_insert_ne _ dst q) by congruence.
      rewrite !(lookup_insert_ne _ src q) by congruence.
      rewrite !(lookup_insert_ne _ dst q) by congruence. reflexivity. }
  rewrite (Hloop (length idx) (Nat.le_refl _)).
  rewrite firstn_all. do 4 f_equal.
  apply list_eq. intros i.
  destruct (decide (i < length idx)%nat) as [Hi|Hi].
  - destruct (lookup_lt_is_Some_2 idx i Hi) as [j Hj].
    destruct (Hpt i j Hj) as (d & s & r & Hdk & Hsk & Hrk & Hf).
    apply lookup_lt_Some in Hrk.
    rewrite lookup_app_l by (rewrite length_take; lia).
    rewrite lookup_take_lt by lia. reflexivity.
  - destruct (decide (length idx <= length D')%nat).
    + rewrite lookup_app_r by (rewrite length_take; lia).
      rewrite length_take, Nat.min_l by lia.
      rewrite lookup_drop, Hrest by lia. f_equal. lia.
    + rewrite take_ge by lia. rewrite drop_ge by lia. rewrite app_nil_r.
      reflexivity.
Qed.

(** With no index picked twice, every iteration reads the source as it
    was. *)
Lemma sparse_update_result alpha (idx : list Z) (D S0 D' : list T) :
  NoDup (Z.to_nat <$> idx) ->
  sparse_update alpha idx D S0 D' -> sparse_result alpha idx D S0 D'.
Proof.
  intros Hnd (Hlen & Hpt & Hrest). split; [exact Hlen|]. split; [|exact Hrest].
  intros i j Hij. destruct (Hpt i j Hij) as (d & s & r & H1 & H2 & H3 & H4).
  exists d, s, r. split; [exact H1|]. split; [|auto].
  rewrite zero_at_lookup, decide_False; [exact H2|].
  intros Hin. apply list_elem_of_lookup_1 in Hin as [i' Hi'].
  rewrite list_lookup_fmap in Hi'.
  destruct (take i idx !! i') as [x|] eqn:Ex; [|discriminate].
  injection Hi' as Hi'.
  assert (Hlt : (i' < i)%nat).
  { apply lookup_lt_Some in Ex. rewrite length_take in Ex. lia. }
  rewrite lookup_take_lt in Ex by exact Hlt.
  assert (i' = i); [|lia].
  apply (NoDup_lookup _ i' i (Z.to_nat j) Hnd); rewrite list_lookup_fmap.
  - rewrite Ex. cbn. congruence.
  - rewrite Hij. reflexivity.
Qed.

Lemma _sparse_sum_distinct (h : heap) (dst src : ptr) (len : nat) (alpha : Float.f32)
    (idx : list Z) (D S0 D' : list T) :
  lawful -> dst <> src -> NoDup (Z.to_nat <$> idx) ->
  h !! dst = Some (s_inj D) -> h !! src = Some (s_inj S0) ->
  sparse_update alpha idx D S0 D' ->
  _sparse_sum h dst src len alpha idx
  = Ok (<[src := s_inj (zero_at S0 (Z.to_nat <$> idx))]> (<[dst := s_inj D']> h)).
Proof.
  intros Hlaw Hne Hnd Hd Hs Hup.
  apply (_sparse_sum_spec h dst src len alpha idx D S0 D'); auto.
  apply sparse_update_result; assumption.
Qed.

(** An index picked twice makes two iterations race. *)
Lemma _sparse_sum_race (h : heap) (dst src : ptr) (len : nat) (alpha : Float.f32)
    (idx : list Z) :
  picked_twice idx -> _sparse_sum h dst src len alpha idx = Undefined.
Proof.
  intros Hrep. unfold _sparse_sum, omp_parallel_for. cbv zeta.
  fold (sparse_footprint dst src idx).
  rewrite (sparse_footprints_race dst src idx Hrep). reflexivity.
Qed.

Lemma elementwise_ext (n : nat) (f f' : T -> T -> result T) (D A B R : list T) :
  (forall a b, f a b = f' a b) ->
  elementwise n f D A B R -> elementwise n f' D A B R.
Proof.
  intros Hf (Hl & Hp & Hr). split; [exact Hl|]. split; [|exact Hr].
  intros i Hi. destruct (Hp i Hi) as (a & b & r & ? & ? & ? & ?).
  exists a, b, r. rewrite <- Hf. auto.
Qed.

Lemma elementwise_flip (n : nat) (f : T -> T -> result T) (D A B R : list T) :
  elementwise n f D A B R -> elementwise n (fun b a => f a b) D B A R.
Proof.
  intros (Hl & Hp & Hr). split; [exact Hl|]. split; [|exact Hr].
  intros i Hi. destruct (Hp i Hi) as (a & b & r & ? & ? & ? & ?).
  exists b, a, r. auto.
Qed.

End Elementwise.

Section Dispatch.
Context {half_t : Type} {scalar_half : Scalar (half_t:=half_t) half_t}.

Lemma sum_dispatch d T (S : Scalar (half_t:=half_t) T) h dst src len alpha :
  dtype_scalar d T S ->
  sum h dst src len d alpha = _sum (H:=S) h dst src len alpha.
Proof. destruct 1; reflexivity. Qed.

Lemma sum3_dispatch d T (S : Scalar (half_t:=half_t) T) h dst src1 src2 len alpha :
  dtype_scalar d T S ->
  sum3 h dst src1 src2 len d alpha = _sum3 (H:=S) h dst src1 src2 len alpha.
Proof. destruct 1; reflexivity. Qed.

Lemma sparse_sum_dispatch d T (S : Scalar (half_t:=half_t) T) h dst src size alpha idx :
  dtype_scalar d T S -> is_floating d = true ->
  sparse_sum h dst src size d alpha idx
  = _sparse_sum (H:=S) h dst src (size / s_sizeof) alpha idx.
Proof. destruct 1; simpl; intros; try discriminate; reflexivity. Qed.

End Dispatch.

Lemma lawful_float {half_t : Type} : lawful (half_t:=half_t) (S:=scalar_float).
Proof.
  repeat split; simpl; try lia. intros b l0; destruct b; simpl; congruence.
Qed.

Lemma lawful_double {half_t : Type} : lawful (half_t:=half_t) (S:=scalar_double).
Proof.
  repeat split; simpl; try lia. intros b l0; destruct b; simpl; congruence.
Qed.

(** *** Sizes the buffers do not have *)

Section Bounds.
Context {half_t : Type} {T : Type} {S : Scalar (half_t:=half_t) T}.
Local Abbreviation heap := (gmap N (buffer (half_t:=half_t))).

Lemma wr_extent (h h' : heap) (p dst : ptr) (i n : nat) (v : T) :
  lawful (S:=S) -> extent dst n h -> wr h p i v = Ok h' ->
  extent dst n h' /\ (p = dst -> (i < n)%nat).
Proof.
  intros (Hpi & Hip & _) (D & HD & Hn). unfold wr.
  destruct (h !! p) as [b|] eqn:Hp; [|discriminate].
  destruct (s_proj b) as [l|] eqn:Hb; [|discriminate].
  unfold store. destruct (decide (i < length l)%nat) as [Hi|]; [|discriminate].
  rewrite bind_Ok. intros [= <-].
  destruct (decide (p = dst)) as [->|Hne].
  - assert (l = D) as ->.
    { rewrite HD in Hp. injection Hp as <-. rewrite Hpi in Hb. congruence. }
    split; [|intros _; lia].
    exists (<[i := v]> D). rewrite lookup_insert_eq, length_insert. auto.
  - split; [|congruence]. exists D. rewrite lookup_insert_ne by congruence. auto.
Qed.

Lemma _sum3_out_of_bounds (h : heap) (dst src1 src2 : ptr) (len : nat)
    (alpha : Float.f32) (D : list T) :
  lawful (S:=S) -> h !! dst = Some (s_inj D) ->
  (length D < len / s_sizeof)%nat ->
  forall h', _sum3 h dst src1 src2 len alpha <> Ok h'.
Proof.
  intros Hlaw HD Hlt. unfold _sum3.
  replace (len / s_sizeof)%nat
    with (length D + Datatypes.S (len / s_sizeof - Datatypes.S (length D)))%nat by lia.
  rewrite seq_app. cbn [seq]. rewrite Nat.add_0_l.
  apply (foldM_stuck _ (extent dst (length D))).
  - exists D. auto.
  - intros y s s' Hs. destruct (rd s src1 y); try discriminate. rewrite bind_Ok.
    destruct (rd s src2 y); try discriminate. rewrite bind_Ok.
    destruct (add_scaled _ _ _); try discriminate. rewrite bind_Ok.
    intros Hw. apply (wr_extent _ _ _ _ _ _ _ Hlaw Hs Hw).
  - intros s s' Hs. destruct (rd s src1 _); try discriminate. rewrite bind_Ok.
    destruct (rd s src2 _); try discriminate. rewrite bind_Ok.
    destruct (add_scaled _ _ _); try discriminate. rewrite bind_Ok.
    intros Hw. destruct (wr_extent _ _ _ _ _ _ _ Hlaw Hs Hw) as [_ Hi].
    specialize (Hi eq_refl). lia.
Qed.

Lemma _sum_out_of_bounds (h : heap) (dst src : ptr) (len : nat)
    (alpha : Float.f32) (D : list T) :
  lawful (S:=S) -> h !! dst = Some (s_inj D) ->
  (length D < len / s_sizeof)%nat ->
  forall h', _sum h dst src len alpha <> Ok h'.
Proof. intros. eapply (_sum3_out_of_bounds h dst dst src); eauto. Qed.

Lemma _sparse_sum_out_of_bounds (h : heap) (dst src : ptr) (len : nat)
    (alpha : Float.f32) (idx : list Z) (D : list T) :
  lawful (S:=S) -> h !! dst = Some (s_inj D) ->
  (length D < length idx)%nat ->
  forall h', _sparse_sum h dst src len alpha idx <> Ok h'.
Proof.
  intros Hlaw HD Hlt. unfold _sparse_sum, omp_parallel_for. cbv zeta.
  destruct (race_free _); [|discriminate].
  replace (length idx)
    with (length D + Datatypes.S (length idx - Datatypes.S (length D)))%nat by lia.
  rewrite seq_app. cbn [seq]. rewrite Nat.add_0_l.
  apply (foldM_stuck _ (extent dst (length D))).
  - exists D. auto.
  - intros y s s' Hs. destruct (load idx y); try discriminate. rewrite bind_Ok.
    destruct (rd s dst y); try discriminate. rewrite bind_Ok.
    destruct (rd s src _); try discriminate. rewrite bind_Ok.
    destruct (add_scaled_r _ _ _); try discriminate. rewrite bind_Ok.
    destruct (wr s dst y _) as [s1| |] eqn:Hw; try discriminate. rewrite bind_Ok.
    intros Hw2. destruct (wr_extent _ _ _ _ _ _ _ Hlaw Hs Hw) as [Hs1 _].
    apply (wr_extent _ _ _ _ _ _ _ Hlaw Hs1 Hw2).
  - intros s s' Hs. destruct (load idx _); try discriminate. rewrite bind_Ok.
    destruct (rd s dst _); try discriminate. rewrite bind_Ok.
    destruct (rd s src _); try discriminate. rewrite bind_Ok.
    destruct (add_scaled_r _ _ _); try discriminate. rewrite bind_Ok.
    destruct (wr s dst _ _) as [s1| |] eqn:Hw; try discriminate.
    destruct (wr_extent _ _ _ _ _ _ _ Hlaw Hs Hw) as [_ Hi].
    specialize (Hi eq_refl). lia.
Qed.
End Bounds.

Section BoundsDispatch.
Context {half_t : Type} {scalar_half : Scalar (half_t:=half_t) half_t}.

(** X16.  The reducers trust the sizes they are given.  [sum] (with two or
    with three operands) over more elements than the destination holds, and
    [sparse_sum] with more indices than the destination holds elements,
    write past its end: they never return normally. *)
Theorem reducers_out_of_bounds d T (S : Scalar (half_t:=half_t) T)
    (h : gmap N buffer) (dst : ptr) (D : list T) :
  dtype_scalar d T S -> lawful (S:=S) -> h !! dst = Some (s_inj D) ->
  (forall src len alpha h',
     (length D < len / s_sizeof)%nat -> sum h dst src len d alpha <> Ok h') /\
  (forall src1 src2 len alpha h',
     (length D < len / s_sizeof)%nat -> sum3 h dst src1 src2 len d alpha <> Ok h') /\
  (forall src size alpha idx h',
     (length D < length idx)%nat -> sparse_sum h dst src size d alpha idx <> Ok h').
Proof.
  intros Hd Hlaw HD. split; [|split].
  - intros src len alpha h' Hlt. rewrite (sum_dispatch _ _ _ _ _ _ _ _ Hd).
    eapply _sum_out_of_bounds; eassumption.
  - intros src1 src2 len alpha h' Hlt. rewrite (sum3_dispatch _ _ _ _ _ _ _ _ _ Hd).
    eapply _sum3_out_of_bounds; eassumption.
  - intros src size alpha idx h' Hlt.
    destruct (is_floating d) eqn:Hf.
    + rewrite (sparse_sum_dispatch d T S) by assumption.
      eapply _sparse_sum_out_of_bounds; eassumption.
    + destruct d; try discriminate; cbn; discriminate.
Qed.
End BoundsDispatch.

Lemma reducers_out_of_bounds_witness :
  let h : gmap N (buffer (half_t:=spec_float)) :=
    {[ 1%N := BufF32 [Float.lit32 1 0; Float.lit32 2 0];
       2%N := BufF32 [Float.lit32 5 1; Float.lit32 25 2; Float.lit32 1 0] ]} in
  sum (scalar_half:=scalar_half_model) h 1%N 2%N 12 BYTEPS_FLOAT32 (Float.lit32 1 0)
  = Undefined.
Proof.
  intros h.
  destruct (reducers_out_of_bounds (scalar_half:=scalar_half_model) BYTEPS_FLOAT32
              Float.f32 scalar_float h 1%N [Float.lit32 1 0; Float.lit32 2 0])
    as (H & _ & _).
  - constructor.
  - apply lawful_float.
  - reflexivity.
  - specialize (H 2%N 12%nat (Float.lit32 1 0)).
    destruct (sum h 1%N 2%N 12 BYTEPS_FLOAT32 (Float.lit32 1 0)) as [h'|msg|] eqn:E.
    + destruct (H h'); [vm_compute; lia|reflexivity].
    + vm_compute in E. discriminate.
    + reflexivity.
Defined.

End ReducerFacts.

(** ** The decorators *)

Module CompressorFacts.
Import Utils Compressors ReducerFacts CompressorSpec.

(** C6.  On a gradient [G] and a momentum buffer [M] of element type [T]
    (the type the dtype tag selects), with [n = size / sizeof(T)] elements
    in range: [UpdateMom] leaves [M'] with [M'[i] = mu * M[i] + G[i]] in the
    momentum buffer, [UpdateGradient] then leaves [G'] with
    [G'[i] = G[i] + mu * M'[i]] in the gradient buffer, [Compress] is these
    two in this order followed by the inner [Compress] on the updated heap
    with the same tensors, and [Decompress] is the inner [Decompress] on the
    same arguments. *)
Theorem nesterov_compress_order :
  forall (half_t : Type) (scalar_half : Scalar (half_t:=half_t) half_t)
         (inner : Type)
         (inner_Compress inner_Decompress :
            inner -> gmap N buffer -> tensor_t -> tensor_t ->
            result (inner * gmap N buffer * tensor_t))
         (T : Type) (S : Scalar (half_t:=half_t) T) (this : Momentum inner)
         (h : gmap N buffer) (grad output compressed : tensor_t)
         (G M M' G' : list T),
    dtype_scalar (dtype grad) T S -> lawful (S:=S) ->
    data grad <> m_buf this ->
    h !! data grad = Some (s_inj G) -> h !! m_buf this = Some (s_inj M) ->
    (size grad / s_sizeof <= length G)%nat ->
    (size grad / s_sizeof <= length M)%nat ->
    elementwise (size grad / s_sizeof) (scale_add (m_mu this)) M M G M' ->
    elementwise (size grad / s_sizeof)
      (fun g m => add_scaled g (m_mu this) m) G G M' G' ->
    let h1 := <[m_buf this := s_inj M']> h in
    let h2 := <[data grad := s_inj G']> h1 in
    Nesterov_UpdateMom this h grad = Ok h1 /\
    Nesterov_UpdateGradient this h1 grad = Ok h2 /\
    Nesterov_Compress inner_Compress this h grad output
    = ('(c, h', out) ← inner_Compress (m_cptr this) h2 grad output;
       Ok (mkMomentum (m_buf this) (m_mu this) c, h', out)) /\
    Nesterov_Decompress inner_Decompress this h compressed output
    = ('(c, h', out) ← inner_Decompress (m_cptr this) h compressed output;
       Ok (mkMomentum (m_buf this) (m_mu this) c, h', out)).
Proof.
  intros half_t Sh inner iC iD T S this h grad output compressed G M M' G'
         Hd Hlaw Hne Hg Hm HnG HnM HM' HG' h1 h2.
  assert (H1 : Nesterov_UpdateMom this h grad = Ok h1).
  { unfold Nesterov_UpdateMom. rewrite (sum3_dispatch _ _ _ _ _ _ _ _ _ Hd).
    apply (_sum3_spec h (m_buf this) (data grad) (m_buf this) _ _ M G M M');
      auto.
    apply elementwise_flip in HM'.
    eapply elementwise_ext; [|exact HM']. intros a b. apply scale_add_add_scaled. }
  assert (H2 : Nesterov_UpdateGradient this h1 grad = Ok h2).
  { unfold Nesterov_UpdateGradient. rewrite (sum_dispatch _ _ _ _ _ _ _ _ Hd).
    apply (_sum_spec h1 (data grad) (m_buf this) _ _ G M' G'); auto.
    - unfold h1. rewrite lookup_insert_ne by congruence. exact Hg.
    - unfold h1. apply lookup_insert_eq. }
  repeat split; auto.
  unfold Nesterov_Compress, Momentum_Compress. rewrite H1, bind_Ok, H2, bind_Ok.
  reflexivity.
Qed.

(** Discharges [elementwise n f D A B R] on concrete lists. *)
Ltac elementwise_cases i :=
  first [ lia | reflexivity
        | destruct i as [|i];
          [ first [ lia | reflexivity
                  | eexists _, _, _; repeat split; vm_compute; reflexivity ]
          | elementwise_cases i ] ].
Ltac elementwise_by_computation :=
  split; [reflexivity|];
  split; intros i Hi; cbv in Hi; elementwise_cases i.

(** One step on floats with [mu = 0.5], [M = [0.5, 0.25]], [G = [1, 2]]:
    [M' = [1.25, 2.125]] and [G' = [1.625, 3.0625]]. *)
Lemma nesterov_compress_order_witness :
  let h : gmap N (buffer (half_t:=spec_float)) :=
    {[ 1%N := BufF32 [Float.lit32 1 0; Float.lit32 2 0];
       2%N := BufF32 [Float.lit32 5 1; Float.lit32 25 2] ]} in
  let this := mkMomentum 2%N (Float.lit32 5 1) tt in
  let grad := mkTensor 1%N 8 BYTEPS_FLOAT32 in
  Nesterov_Compress (scalar_half:=scalar_half_model) identity_inner this h grad grad
  = Ok (this,
        <[1%N := BufF32 [Float.lit32 1625 3; Float.lit32 30625 4]]>
          (<[2%N := BufF32 [Float.lit32 125 2; Float.lit32 2125 3]]> h),
        grad).
Proof.
  intros h this grad.
  destruct (nesterov_compress_order spec_float scalar_half_model unit
              identity_inner identity_inner Float.f32 scalar_float this h
              grad grad grad
              [Float.lit32 1 0; Float.lit32 2 0]
              [Float.lit32 5 1; Float.lit32 25 2]
              [Float.lit32 125 2; Float.lit32 2125 3]
              [Float.lit32 1625 3; Float.lit32 30625 4])
    as (_ & _ & H & _).
  - constructor.
  - apply lawful_float.
  - vm_compute. discriminate.
  - reflexivity.
  - reflexivity.
  - vm_compute. lia.
  - vm_compute. lia.
  - elementwise_by_computation.
  - elementwise_by_computation.
  - rewrite H. reflexivity.
Defined.

(** C7.  [UpdateGradient] of the corrected error feedback reads [cur_lr]
    as the double held by the 8 mapped bytes [mm], replaces the first
    [n = size / sizeof(T)] elements of the gradient by
    [G[i] + (prev_lr / cur_lr) * E[i]] where [E] is the error buffer (the
    quotient is computed in double and passed as the [float alpha]), and
    leaves [prev_lr = cur_lr].  With [prev_lr = 0.1], [cur_lr = 0.2],
    [E = [0.4, 0.4]] and [G = [1, 1]] the gradient becomes [[1.2, 1.2]] and
    [prev_lr] 0.2, for float and for double tensors. *)
Theorem corrected_update_gradient :
  (forall (half_t : Type) (scalar_half : Scalar (half_t:=half_t) half_t)
          (inner : Type) (T : Type) (S : Scalar (half_t:=half_t) T)
          (this : CorrectedErrorFeedbackCompressor inner) (mm : Z)
          (h : gmap N buffer) (grad : tensor_t) (G E G' : list T),
      dtype_scalar (dtype grad) T S -> lawful (S:=S) ->
      h !! data grad = Some (s_inj G) -> h !! ce_buf this = Some (s_inj E) ->
      (size grad / s_sizeof <= length G)%nat ->
      elementwise (size grad / s_sizeof)
        (fun g e => add_scaled g (lr_ratio (ce_pre_lr this) (Float.f64_of_bits mm)) e)
        G G E G' ->
      Corrected_UpdateGradient this mm h grad
      = Ok (mkCorrected (ce_buf this) (Float.f64_of_bits mm) (Float.f64_of_bits mm)
              (ce_cptr this),
            <[data grad := s_inj G']> h)) /\
  (let h : gmap N (buffer (half_t:=spec_float)) :=
     {[ 1%N := BufF32 [Float.lit32 1 0; Float.lit32 1 0];
        2%N := BufF32 [Float.lit32 4 1; Float.lit32 4 1] ]} in
   Corrected_UpdateGradient (scalar_half:=scalar_half_model)
     (mkCorrected 2%N (Float.lit64 1 1) (Float.lit64 1 1) tt)
     0x3FC999999999999A h (mkTensor 1%N 8 BYTEPS_FLOAT32)
   = Ok (mkCorrected 2%N (Float.lit64 2 1) (Float.lit64 2 1) tt,
         <[1%N := BufF32 [Float.lit32 12 1; Float.lit32 12 1]]> h)) /\
  (let h : gmap N (buffer (half_t:=spec_float)) :=
     {[ 1%N := BufF64 [Float.lit64 1 0; Float.lit64 1 0];
        2%N := BufF64 [Float.lit64 4 1; Float.lit64 4 1] ]} in
   Corrected_UpdateGradient (scalar_half:=scalar_half_model)
     (mkCorrected 2%N (Float.lit64 1 1) (Float.lit64 1 1) tt)
     0x3FC999999999999A h (mkTensor 1%N 16 BYTEPS_FLOAT64)
   = Ok (mkCorrected 2%N (Float.lit64 2 1) (Float.lit64 2 1) tt,
         <[1%N := BufF64 [Float.lit64 12 1; Float.lit64 12 1]]> h)).
Proof.
  split; [|split].
  - intros half_t Sh inner T S this mm h grad G E G' Hd Hlaw Hg He Hn HG'.
    unfold Corrected_UpdateGradient.
    rewrite (sum_dispatch _ _ _ _ _ _ _ _ Hd).
    rewrite (_sum_spec h (data grad) (ce_buf this) _ _ G E G'); auto.
  - vm_compute. reflexivity.
  - vm_compute. reflexivity.
Qed.

(** The general statement applied to the float example. *)
Lemma corrected_update_gradient_witness :
  let h : gmap N (buffer (half_t:=spec_float)) :=
    {[ 1%N := BufF32 [Float.lit32 1 0; Float.lit32 1 0];
       2%N := BufF32 [Float.lit32 4 1; Float.lit32 4 1] ]} in
  Corrected_UpdateGradient (scalar_half:=scalar_half_model)
    (mkCorrected 2%N (Float.lit64 1 1) (Float.lit64 1 1) tt)
    0x3FC999999999999A h (mkTensor 1%N 8 BYTEPS_FLOAT32)
  = Ok (mkCorrected 2%N (Float.f64_of_bits 0x3FC999999999999A)
          (Float.f64_of_bits 0x3FC999999999999A) tt,
        <[1%N := BufF32 [Float.lit32 12 1; Float.lit32 12 1]]> h).
Proof.
  intros h.
  apply (proj1 corrected_update_gradient spec_float scalar_half_model unit
           Float.f32 scalar_float
           (mkCorrected 2%N (Float.lit64 1 1) (Float.lit64 1 1) tt)
           0x3FC999999999999A h (mkTensor 1%N 8 BYTEPS_FLOAT32)
           [Float.lit32 1 0; Float.lit32 1 0]
           [Float.lit32 4 1; Float.lit32 4 1]
           [Float.lit32 12 1; Float.lit32 12 1]).
  - constructor.
  - apply lawful_float.
  - reflexivity.
  - reflexivity.
  - vm_compute. lia.
  - elementwise_by_computation.
Defined.

(** Every draw is the next output of the generator modulo [len], whatever
    was drawn before. *)
Lemma draw_spec (k : nat) (len : Z) (rng : xorshift128p_state) (acc : list Z) :
  0 < len <= U32 ->
  draw k len rng acc
  = Ok (rng_after k rng, acc ++ ((fun r => r mod len) <$> outputs k rng)).
Proof.
  intros Hlen. revert rng acc. induction k as [|k IH]; intros rng acc.
  - cbn [draw outputs rng_after fmap list_fmap]. rewrite app_nil_r. reflexivity.
  - cbn [draw outputs rng_after]. unfold Randint.
    destruct (xorshift128p rng) as [r rng'] eqn:Hx. cbn [snd].
    assert (HU : U32 < U64) by (vm_compute; reflexivity).
    rewrite Z.sub_0_r, (Z.mod_small len U64) by lia.
    destruct (len =? 0) eqn:E; [apply Z.eqb_eq in E; lia|].
    rewrite bind_Ok, IH, <- app_assoc.
    pose proof (Z.mod_pos_bound r len ltac:(lia)) as Hr.
    rewrite Z.add_0_r, (Z.mod_small (r mod len) U64), (Z.mod_small (r mod len) U32) by lia.
    reflexivity.
Qed.

Lemma outputs_length k rng : length (outputs k rng) = k.
Proof.
  revert rng. induction k as [|k IH]; intros rng; simpl; [reflexivity|].
  destruct (xorshift128p rng). simpl. rewrite IH. reflexivity.
Qed.

(** An index list that is not duplicate free holds an index at two
    positions. *)
Lemma not_NoDup_picked_twice (l : list Z) : ~ NoDup l -> picked_twice l.
Proof.
  induction l as [|x l IH]; intros H; [destruct H; constructor|].
  destruct (decide (x ∈ l)) as [Hin|Hnin].
  - apply list_elem_of_lookup_1 in Hin as [j Hj].
    exists 0%nat, (Datatypes.S j), x. repeat split; [lia|exact Hj].
  - destruct IH as (i & j & a & Hij & Hi & Hj).
    + intros Hnd. apply H. constructor; assumption.
    + exists (Datatypes.S i), (Datatypes.S j), a. repeat split; [lia|exact Hi|exact Hj].
Qed.

(** More picks than there are elements: one element is picked twice. *)
Lemma more_picks_than_elements (n : nat) (l : list Z) :
  Forall (fun j => 0 <= j < Z.of_nat n) l -> (n < length l)%nat -> picked_twice l.
Proof.
  intros Hr Hlen. apply not_NoDup_picked_twice. intros Hnd.
  assert (Hsub : l ⊆+ (Z.of_nat <$> seq 0 n)).
  { apply NoDup_submseteq; [exact Hnd|]. intros x Hx.
    rewrite Forall_forall in Hr. specialize (Hr x Hx).
    apply list_elem_of_fmap. exists (Z.to_nat x). split; [lia|].
    apply elem_of_seq. lia. }
  apply submseteq_length in Hsub. rewrite length_fmap, length_seq in Hsub. lia.
Qed.

Lemma picked_twice_app_r (acc l : list Z) : picked_twice l -> picked_twice (acc ++ l).
Proof.
  intros (i & j & a & Hij & Hi & Hj).
  exists (length acc + i)%nat, (length acc + j)%nat, a.
  rewrite !lookup_app_r, !Nat.add_sub' by lia. repeat split; [lia|exact Hi|exact Hj].
Qed.

(** C8.  The iterations of the loop of [sparse_sum] run concurrently, and
    the indices [UpdateGradient] hands it are drawn with replacement.
    (1) For a floating dtype, an index list that holds an index at two
    positions makes two iterations race on that element of [src]: the call
    is undefined, whatever the buffers hold.  (2) In the server build,
    [UpdateGradient] is undefined as soon as two of the [k] outputs of the
    generator agree modulo the number of elements of the gradient; with [k]
    larger than that number they do, from every state of the generator. *)
Theorem sparse_sum_repeated_index_races :
  (forall (half_t : Type) (scalar_half : Scalar (half_t:=half_t) half_t)
          (d : DataType) (h : gmap N buffer) (dst src : ptr) (size : nat)
          (alpha : Float.f32) (idx : list Z),
      is_floating d = true -> picked_twice idx ->
      sparse_sum h dst src size d alpha idx = Undefined) /\
  (forall (half_t : Type) (scalar_half : Scalar (half_t:=half_t) half_t)
          (getDataTypeLength : DataType -> result nat) (inner : Type)
          (this : SparseErrorFeedbackCompressor inner) (mm : Z)
          (h : gmap N buffer) (grad : tensor_t) (esize : nat),
      getDataTypeLength (dtype grad) = Ok esize -> (0 < esize)%nat ->
      is_floating (dtype grad) = true ->
      0 < Z.of_nat (size grad / esize) <= U32 ->
      picked_twice ((fun r => r mod Z.of_nat (size grad / esize))
                      <$> outputs (Z.to_nat (se_k this)) (se_rng this)) \/
      Z.of_nat (size grad / esize) < se_k this ->
      Sparse_UpdateGradient getDataTypeLength true this mm h grad = Undefined).
Proof.
  assert (Hrace : forall (half_t : Type) (scalar_half : Scalar (half_t:=half_t) half_t)
            (d : DataType) (h : gmap N buffer) (dst src : ptr) (size : nat)
            (alpha : Float.f32) (idx : list Z),
            is_floating d = true -> picked_twice idx ->
            sparse_sum h dst src size d alpha idx = Undefined).
  { intros half_t Sh d h dst src size alpha idx Hfl Hrep.
    destruct d; try discriminate; cbn [sparse_sum]; apply _sparse_sum_race, Hrep. }
  split; [exact Hrace|].
  intros half_t Sh gl inner this mm h grad esize Hgl Hes Hfl Hlen Hk.
  unfold Sparse_UpdateGradient. cbn [negb]. rewrite Hgl, bind_Ok.
  destruct (esize =? 0)%nat eqn:E; [apply Nat.eqb_eq in E; lia|].
  rewrite (draw_spec _ _ _ _ Hlen), bind_Ok.
  rewrite Hrace; [reflexivity|exact Hfl|].
  apply picked_twice_app_r. destruct Hk as [Hrep|Hk]; [exact Hrep|].
  apply (more_picks_than_elements (size grad / esize)).
  - apply Forall_fmap, Forall_forall. intros r _. cbn.
    apply Z.mod_pos_bound. lia.
  - rewrite length_fmap, outputs_length. lia.
Qed.

(** [sparse_sum] on floats with the indices [[2, 0, 2]];
    [UpdateGradient] with [k = 2] on a gradient of three floats, from the
    generator state [(11, 22)], whose first two outputs are both multiples
    of 3; and with [k = 2] on a gradient of one float. *)
Lemma sparse_sum_repeated_index_races_witness :
  let h : gmap N (buffer (half_t:=spec_float)) :=
    {[ 1%N := BufF32 [Float.lit32 1 0; Float.lit32 1 0; Float.lit32 1 0];
       2%N := BufF32 [Float.lit32 5 1; Float.lit32 25 2; Float.lit32 125 3] ]} in
  sparse_sum (scalar_half:=scalar_half_model) h 1%N 2%N 12 BYTEPS_FLOAT32
    (Float.lit32 1 0) [2; 0; 2] = Undefined /\
  Sparse_UpdateGradient (scalar_half:=scalar_half_model) HyperParamSpec.sizes true
    (mkSparse 2%N (Float.lit64 1 1) (Float.lit64 1 1) 2 (mkRng 11 22) [] tt)
    0x3FC999999999999A h (mkTensor 1%N 12 BYTEPS_FLOAT32) = Undefined /\
  Sparse_UpdateGradient (scalar_half:=scalar_half_model) HyperParamSpec.sizes true
    (mkSparse 2%N (Float.lit64 1 1) (Float.lit64 1 1) 2 (mkRng 5 7) [] tt)
    0x3FC999999999999A h (mkTensor 1%N 4 BYTEPS_FLOAT32) = Undefined.
Proof.
  intros h. split; [|split].
  - apply (proj1 sparse_sum_repeated_index_races spec_float scalar_half_model
             BYTEPS_FLOAT32 h 1%N 2%N 12%nat (Float.lit32 1 0) [2; 0; 2]).
    + reflexivity.
    + exists 0%nat, 2%nat, 2. repeat split. lia.
  - apply (proj2 sparse_sum_repeated_index_races spec_float scalar_half_model
             HyperParamSpec.sizes unit
             (mkSparse 2%N (Float.lit64 1 1) (Float.lit64 1 1) 2 (mkRng 11 22) [] tt)
             0x3FC999999999999A h (mkTensor 1%N 12 BYTEPS_FLOAT32) 4%nat).
    + reflexivity.
    + lia.
    + reflexivity.
    + vm_compute. split; [reflexivity|discriminate].
    + left. exists 0%nat, 1%nat, 0. repeat split. lia.
  - apply (proj2 sparse_sum_repeated_index_races spec_float scalar_half_model
             HyperParamSpec.sizes unit
             (mkSparse 2%N (Float.lit64 1 1) (Float.lit64 1 1) 2 (mkRng 5 7) [] tt)
             0x3FC999999999999A h (mkTensor 1%N 4 BYTEPS_FLOAT32) 4%nat).
    + reflexivity.
    + lia.
    + reflexivity.
    + vm_compute. split; [reflexivity|discriminate].
    + right. vm_compute. reflexivity.
Defined.

(** X26.  With no index picked twice and a source other than the
    destination, [sparse_sum] on a floating dtype with element type [T]
    leaves [D[i] + alpha * S0[idx[i]]] at every position [i] of the index
    list, keeps the rest of [dst], and zeroes the picked elements of [src].
    For any other dtype the call is fatal. *)
Theorem sparse_sum_distinct_indices :
  (forall (half_t : Type) (scalar_half : Scalar (half_t:=half_t) half_t)
          (T : Type) (S : Scalar (half_t:=half_t) T) (d : DataType)
          (h : gmap N buffer) (dst src : ptr) (size : nat) (alpha : Float.f32)
          (idx : list Z) (D S0 D' : list T),
      dtype_scalar d T S -> is_floating d = true -> lawful (S:=S) ->
      dst <> src -> NoDup idx -> Forall (fun j => 0 <= j) idx ->
      h !! dst = Some (s_inj D) -> h !! src = Some (s_inj S0) ->
      sparse_update alpha idx D S0 D' ->
      sparse_sum h dst src size d alpha idx
      = Ok (<[src := s_inj (zero_at S0 (Z.to_nat <$> idx))]>
              (<[dst := s_inj D']> h))) /\
  (forall (half_t : Type) (scalar_half : Scalar (half_t:=half_t) half_t)
          (d : DataType) (h : gmap N buffer) (dst src : ptr) (size : nat)
          (alpha : Float.f32) (idx : list Z),
      is_floating d = false ->
      sparse_sum h dst src size d alpha idx = Fatal "Unsupported data type").
Proof.
  split.
  - intros half_t Sh T S d h dst src size alpha idx D S0 D'
           Hd Hfl Hlaw Hne Hnd Hpos Hdst Hsrc Hres.
    rewrite (sparse_sum_dispatch d T S) by assumption.
    apply (_sparse_sum_distinct h dst src _ alpha idx D S0 D'); auto.
    apply NoDup_fmap_2_strong; [|exact Hnd].
    intros x y Hx Hy Hxy. rewrite Forall_forall in Hpos.
    pose proof (Hpos x Hx). pose proof (Hpos y Hy). lia.
  - intros half_t Sh d h dst src size alpha idx Hfl.
    destruct d; simpl in Hfl; try discriminate; reflexivity.
Qed.

(** [sparse_sum] on floats with [alpha = 1], [dst = [1, 1, 1]],
    [src = [0.5, 0.25, 0.125]] and the indices [[2, 0, 1]]. *)
Lemma sparse_sum_distinct_indices_witness :
  let h : gmap N (buffer (half_t:=spec_float)) :=
    {[ 1%N := BufF32 [Float.lit32 1 0; Float.lit32 1 0; Float.lit32 1 0];
       2%N := BufF32 [Float.lit32 5 1; Float.lit32 25 2; Float.lit32 125 3] ]} in
  sparse_sum (scalar_half:=scalar_half_model) h 1%N 2%N 12 BYTEPS_FLOAT32
    (Float.lit32 1 0) [2; 0; 1]
  = Ok (<[2%N := BufF32 [S754_zero false; S754_zero false; S754_zero false]]>
          (<[1%N := BufF32 [Float.lit32 1125 3; Float.lit32 15 1; Float.lit32 125 2]]> h)).
Proof.
  intros h.
  apply (proj1 sparse_sum_distinct_indices spec_float scalar_half_model
           Float.f32 scalar_float BYTEPS_FLOAT32 h 1%N 2%N 12%nat
           (Float.lit32 1 0) [2; 0; 1]
           [Float.lit32 1 0; Float.lit32 1 0; Float.lit32 1 0]
           [Float.lit32 5 1; Float.lit32 25 2; Float.lit32 125 3]
           [Float.lit32 1125 3; Float.lit32 15 1; Float.lit32 125 2]).
  - constructor.
  - reflexivity.
  - apply lawful_float.
  - discriminate.
  - repeat constructor; rewrite ?elem_of_cons, ?elem_of_nil; intuition discriminate.
  - repeat constructor; lia.
  - reflexivity.
  - reflexivity.
  - split; [reflexivity|]. split.
    + intros i j Hij.
      destruct i as [|[|[|i]]]; try discriminate; injection Hij as <-;
        eexists _, _, _; repeat split; vm_compute; reflexivity.
    + intros i Hi. destruct i as [|[|[|i]]]; simpl in Hi; try lia; reflexivity.
Defined.

Section SparseServer.
Context {half_t : Type} {scalar_half : Scalar (half_t:=half_t) half_t}.
Variable getDataTypeLength : DataType -> result nat.
Context {inner : Type}.

(** X28.  In the server build, [UpdateGradient] of the sparse error
    feedback, with its index list empty as the constructor and every call
    leave it, draws [k] indices: the next [k] outputs of the generator,
    each modulo the number of elements, so each in range whatever was drawn
    before.  When they are pairwise different it adds
    [(prev_lr / cur_lr) * E[idx[i]]] to position [i] of the gradient, zeroes
    the picked elements of the error buffer, advances the generator by [k]
    steps, leaves the index list empty and sets [prev_lr = cur_lr]. *)
Theorem sparse_update_server_build (T : Type) (S : Scalar (half_t:=half_t) T)
    (this : SparseErrorFeedbackCompressor inner) (mm : Z)
    (h : gmap N buffer) (grad : tensor_t) (esize : nat) (G E G' : list T) :
  getDataTypeLength (dtype grad) = Ok esize -> (0 < esize)%nat ->
  dtype_scalar (dtype grad) T S -> is_floating (dtype grad) = true ->
  lawful (S:=S) ->
  se_selected_idx this = [] ->
  0 < Z.of_nat (size grad / esize) <= U32 ->
  let len := Z.of_nat (size grad / esize) in
  let k := Z.to_nat (se_k this) in
  let idx := (fun r => r mod len) <$> outputs k (se_rng this) in
  let cur_lr := Float.f64_of_bits mm in
  length idx = k /\
  Forall (fun j => 0 <= j < len) idx /\
  (NoDup idx -> data grad <> se_buf this ->
   h !! data grad = Some (s_inj G) -> h !! se_buf this = Some (s_inj E) ->
   sparse_update (lr_ratio (se_pre_lr this) cur_lr) idx G E G' ->
   Sparse_UpdateGradient getDataTypeLength true this mm h grad
   = Ok (mkSparse (se_buf this) cur_lr cur_lr (se_k this)
           (rng_after k (se_rng this)) [] (se_cptr this),
         <[se_buf this := s_inj (zero_at E (Z.to_nat <$> idx))]>
           (<[data grad := s_inj G']> h))).
Proof.
  intros Hgl Hes Hd Hfl Hlaw Hsel Hlen len k idx cur_lr.
  assert (Hrange : Forall (fun j => 0 <= j < len) idx).
  { unfold idx. apply Forall_fmap, Forall_forall. intros r _. cbn.
    apply Z.mod_pos_bound. unfold len. lia. }
  split; [unfold idx; rewrite length_fmap; apply outputs_length|].
  split; [exact Hrange|].
  intros Hnd Hne Hg He Hup.
  unfold Sparse_UpdateGradient. cbn [negb]. rewrite Hgl, bind_Ok.
  destruct (esize =? 0)%nat eqn:Ez; [apply Nat.eqb_eq in Ez; lia|].
  rewrite (draw_spec _ _ _ _ Hlen), Hsel, bind_Ok. cbn [app]. fold len k idx.
  rewrite (sparse_sum_dispatch _ T S) by assumption.
  rewrite (_sparse_sum_distinct h (data grad) (se_buf this) _ _ idx G E G'); auto.
  apply NoDup_fmap_2_strong; [|exact Hnd].
  intros x y Hx Hy Hxy. rewrite Forall_forall in Hrange.
  pose proof (Hrange x Hx). pose proof (Hrange y Hy). lia.
Qed.
End SparseServer.

(** [k = 2] on a gradient of three floats, from the generator state
    [(5, 7)]: the indices 0 and 1 are drawn; [prev_lr / cur_lr = 0.5]. *)
Lemma sparse_update_server_build_witness :
  let h : gmap N (buffer (half_t:=spec_float)) :=
    {[ 1%N := BufF32 [Float.lit32 1 0; Float.lit32 1 0; Float.lit32 1 0];
       2%N := BufF32 [Float.lit32 4 1; Float.lit32 4 1; Float.lit32 4 1] ]} in
  Sparse_UpdateGradient (scalar_half:=scalar_half_model) HyperParamSpec.sizes true
    (mkSparse 2%N (Float.lit64 1 1) (Float.lit64 1 1) 2 (mkRng 5 7) [] tt)
    0x3FC999999999999A h (mkTensor 1%N 12 BYTEPS_FLOAT32)
  = Ok (mkSparse 2%N (Float.f64_of_bits 0x3FC999999999999A)
          (Float.f64_of_bits 0x3FC999999999999A) 2 (mkRng 41943362 16777349) [] tt,
        <[2%N := BufF32 [S754_zero false; S754_zero false; Float.lit32 4 1]]>
          (<[1%N := BufF32 [Float.lit32 12 1; Float.lit32 12 1; Float.lit32 1 0]]> h)).
Proof.
  intros h.
  apply (sparse_update_server_build (scalar_half:=scalar_half_model) HyperParamSpec.sizes
           Float.f32 scalar_float
           (mkSparse 2%N (Float.lit64 1 1) (Float.lit64 1 1) 2 (mkRng 5 7) [] tt)
           0x3FC999999999999A h (mkTensor 1%N 12 BYTEPS_FLOAT32) 4%nat
           [Float.lit32 1 0; Float.lit32 1 0; Float.lit32 1 0]
           [Float.lit32 4 1; Float.lit32 4 1; Float.lit32 4 1]
           [Float.lit32 12 1; Float.lit32 12 1; Float.lit32 1 0]).
  - reflexivity.
  - lia.
  - constructor.
  - reflexivity.
  - apply lawful_float.
  - reflexivity.
  - vm_compute. split; [reflexivity|discriminate].
  - vm_compute. repeat constructor; rewrite ?elem_of_cons, ?elem_of_nil; intuition discriminate.
  - discriminate.
  - reflexivity.
  - reflexivity.
  - split; [reflexivity|]. split.
    + intros i j Hij. vm_compute in Hij.
      destruct i as [|[|i]]; try discriminate; injection Hij as <-;
        eexists _, _, _; repeat split; vm_compute; reflexivity.
    + intros i Hi. vm_compute in Hi.
      destruct i as [|[|[|i]]]; try lia; reflexivity.
Defined.

(** *** The sparse error feedback: registration and edge cases *)

Lemma Z_of_float_range lo hi x z : Float.Z_of_float lo hi x = Ok z -> lo <= z <= hi.
Proof.
  unfold Float.Z_of_float. destruct (Float.trunc x) as [t|]; [|discriminate].
  destruct (lo <=? t) eqn:E1; [|discriminate]. destruct (t <=? hi) eqn:E2; [|discriminate].
  intros [= <-]. lia.
Qed.

(** A binary32 number that is positive and not below 1 truncates to at
    least 1. *)
Lemma trunc_ge_one (x : Float.f32) z :
  valid_binary Float.prec32 Float.emax32 x = true ->
  float_gt0 x = true -> SFltb x (Float.f32_of_Z 1) = false ->
  Float.trunc x = Some z -> 1 <= z.
Proof.
  intros Hv Hpos Hge Ht.
  destruct x as [s|s| |s m e].
  - destruct s; vm_compute in Hpos; discriminate.
  - cbn in Ht. discriminate.
  - cbn in Ht. discriminate.
  - destruct s; [vm_compute in Hpos; discriminate|].
    change (Float.f32_of_Z 1) with (S754_finite false 8388608 (-23)) in Hge.
    unfold SFltb, SFcompare in Hge.
    cbn [valid_binary] in Hv. unfold bounded, canonical_mantissa, fexp, emin in Hv.
    apply andb_true_iff in Hv as [Hc _]. apply Z.eqb_eq in Hc.
    unfold Float.prec32, Float.emax32 in Hc. rewrite BitIOFacts.digits2_pos_log2 in Hc.
    pose proof (Z.log2_spec (Zpos m) ltac:(lia)) as [Hlo _].
    cbn [Float.trunc cond_Zopp] in Ht. injection Ht as <-.
    destruct (Z.compare_spec e (-23)) as [->|Hlt|Hgt].
    + rewrite Pos.compare_cont_spec in Hge.
      assert (Hm : 2 ^ 23 <= Z.pos m).
      { change (2 ^ 23) with 8388608.
        destruct (Pos.compare_spec m 8388608); [lia|discriminate|lia]. }
      destruct (Z.leb_spec 0 (-23)); [lia|]. change (- (-23)) with 23.
      apply Z.div_le_lower_bound; lia.
    + discriminate.
    + assert (Hl : Z.log2 (Zpos m) = 23) by lia. rewrite Hl in Hlo.
      destruct (Z.leb_spec 0 e).
      * assert (0 < 2 ^ e) by (apply Z.pow_pos_nonneg; lia).
        assert (2 ^ 23 <= Z.pos m) by exact Hlo.
        change (2 ^ 23) with 8388608 in *. nia.
      * apply Z.div_le_lower_bound; [apply Z.pow_pos_nonneg; lia|].
        rewrite Z.mul_1_r. etransitivity; [|exact Hlo].
        apply Z.pow_le_mono_r; lia.
Qed.

Section SparseEF.
Context {half_t : Type} {scalar_half : Scalar (half_t:=half_t) half_t}.
Variable getDataTypeLength : DataType -> result nat.
Context {inner : Type}.
Context {extract_float : Extract Float.f32} {extract_unsigned : Extract Z}.

Lemma sparse_ef_k_range factor size dtype k :
  valid_binary Float.prec32 Float.emax32 factor = true ->
  float_gt0 factor = true ->
  sparse_ef_k getDataTypeLength factor size dtype = Ok k -> 1 <= k < U32.
Proof.
  intros Hv Hpos. unfold sparse_ef_k.
  destruct (SFltb factor (Float.f32_of_Z 1)) eqn:Hlt.
  - destruct (getDataTypeLength dtype) as [esize| |]; try discriminate.
    rewrite bind_Ok.
    destruct (Float.Z_of_float 0 (U32 - 1) _) as [k0| |] eqn:Hk; try discriminate.
    rewrite bind_Ok. apply Z_of_float_range in Hk.
    destruct (Z.eqb_spec k0 0); intros [= <-]; unfold U32 in *; lia.
  - intros Hk. pose proof (Z_of_float_range _ _ _ _ Hk) as Hr.
    unfold Float.Z_of_float in Hk.
    destruct (Float.trunc factor) as [t|] eqn:Ht; [|discriminate].
    destruct ((0 <=? t) && (t <=? U32 - 1)); [|discriminate].
    injection Hk as <-. pose proof (trunc_ge_one factor t Hv Hpos Hlt Ht). lia.
Qed.

(** X17.  A sparse_ef compressor that registers samples at least one index:
    its [k] is never 0 (and fits 32 bits), whatever [compressor_k] says; it
    starts with no index selected and with both learning rates equal to the
    mapped one. *)
Theorem sparse_ef_registered_k kwargs size dtype cptr buf rd1 rd2 lr
    (c : SparseErrorFeedbackCompressor inner) :
  (forall text, kwargs !! "compressor_k"%string = Some text ->
     valid_binary Float.prec32 Float.emax32
       (extract (Extract:=extract_float) false text) = true) ->
  sparse_ef_register getDataTypeLength kwargs size dtype cptr buf rd1 rd2 lr = Ok c ->
  1 <= se_k c < U32 /\ se_selected_idx c = [] /\ se_buf c = buf /\
  exists bits, lr = LrMapped bits /\
    se_pre_lr c = Float.f64_of_bits bits /\ se_cur_lr c = Float.f64_of_bits bits.
Proof.
  intros Hvalid. unfold sparse_ef_register.
  destruct cptr as [c0|]; [|discriminate].
  unfold HyperParamFinder.
  destruct (kwargs !! "compressor_k"%string) as [text|] eqn:Hkw;
    [|cbn [negb snd]; unfold mbind, result_bind; discriminate].
  specialize (Hvalid text eq_refl).
  destruct (float_gt0 (extract is_same_bool text)) eqn:Hpos;
    [|cbn [negb snd]; unfold mbind, result_bind; discriminate].
  cbn [negb snd]. rewrite bind_Ok.
  destruct (sparse_ef_k _ _ _ _) as [k| |] eqn:Hk; try discriminate.
  rewrite bind_Ok. apply sparse_ef_k_range in Hk; [|exact Hvalid|exact Hpos].
  match goal with
  | |- context [(?p).2 ≫= _] => destruct (p.2) as [seed| |]; try discriminate
  end.
  rewrite bind_Ok. unfold Sparse_new.
  destruct lr as [| |bits]; try discriminate.
  intros [= <-]. cbn. repeat split; try lia. exists bits. auto.
Qed.

(** X18.  On the server, [UpdateGradient] of the sparse error feedback
    cannot handle a gradient with no element: with [k >= 1] the first index
    is drawn by a remainder modulo 0. *)
Theorem sparse_update_empty_gradient (this : SparseErrorFeedbackCompressor inner)
    (mm : Z) (h : gmap N buffer) (grad : tensor_t) (esize : nat) :
  getDataTypeLength (dtype grad) = Ok esize -> (size grad < esize)%nat ->
  1 <= se_k this ->
  Sparse_UpdateGradient getDataTypeLength true this mm h grad = Undefined.
Proof.
  intros He Hs Hk. unfold Sparse_UpdateGradient. cbn [negb]. rewrite He, bind_Ok.
  destruct (Nat.eqb_spec esize 0); [reflexivity|].
  rewrite Nat.div_small by exact Hs.
  destruct (Z.to_nat (se_k this)) as [|k'] eqn:E; [lia|].
  cbn [draw]. unfold Randint. destruct (xorshift128p (se_rng this)). reflexivity.
Qed.

(** X19.  In a worker build [UpdateGradient] of the sparse error feedback
    is the dense one: it reads [cur_lr] from the mapping, replaces the first
    [size / sizeof(T)] elements of the gradient by
    [G[i] + (prev_lr / cur_lr) * E[i]], sets [prev_lr = cur_lr], and draws
    no index: the generator and the index list are left as they are. *)
Theorem sparse_update_worker_build (T : Type) (S : Scalar (half_t:=half_t) T)
    (this : SparseErrorFeedbackCompressor inner) (mm : Z)
    (h : gmap N buffer) (grad : tensor_t) (G E G' : list T) :
  dtype_scalar (dtype grad) T S -> lawful (S:=S) ->
  h !! data grad = Some (s_inj G) -> h !! se_buf this = Some (s_inj E) ->
  (size grad / s_sizeof <= length G)%nat ->
  elementwise (size grad / s_sizeof)
    (fun g e => add_scaled g (lr_ratio (se_pre_lr this) (Float.f64_of_bits mm)) e)
    G G E G' ->
  Sparse_UpdateGradient getDataTypeLength false this mm h grad
  = Ok (mkSparse (se_buf this) (Float.f64_of_bits mm) (Float.f64_of_bits mm)
          (se_k this) (se_rng this) (se_selected_idx this) (se_cptr this),
        <[data grad := s_inj G']> h).
Proof.
  intros Hd Hlaw Hg He Hn HG'. unfold Sparse_UpdateGradient. cbn [negb].
  rewrite (sum_dispatch _ _ _ _ _ _ _ _ Hd).
  rewrite (_sum_spec h (data grad) (se_buf this) _ _ G E G'); auto.
Qed.
End SparseEF.

Lemma sparse_ef_registered_k_witness :
  exists c,
    sparse_ef_register HyperParamSpec.sizes (extract_float:=extract_float_model)
      (extract_unsigned:=extract_unsigned_model) {["compressor_k"%string := "0.001"%string]}
      40 BYTEPS_FLOAT32 (Some tt) 7%N 11 22 (LrMapped 0x3fb999999999999a) = Ok c /\
    1 <= se_k c < U32.
Proof.
  destruct (sparse_ef_register HyperParamSpec.sizes (extract_float:=extract_float_model)
              (extract_unsigned:=extract_unsigned_model) {["compressor_k"%string := "0.001"%string]}
              40 BYTEPS_FLOAT32 (Some tt) 7%N 11 22 (LrMapped 0x3fb999999999999a))
    as [c| |] eqn:E; [|vm_compute in E; discriminate|vm_compute in E; discriminate].
  exists c. split; [reflexivity|].
  refine (proj1 (sparse_ef_registered_k HyperParamSpec.sizes (extract_float:=extract_float_model)
                   (extract_unsigned:=extract_unsigned_model) _ _ _ _ _ _ _ _ c _ E)).
  intros text Ht.
  assert (text = "0.001"%string) as ->.
  { revert Ht. clear. intros Ht. vm_compute in Ht. congruence. }
  vm_compute. reflexivity.
Defined.

Lemma sparse_update_empty_gradient_witness :
  Sparse_UpdateGradient (scalar_half:=scalar_half_model) HyperParamSpec.sizes true
    (mkSparse 2%N (Float.lit64 1 1) (Float.lit64 1 1) 1 (mkRng 11 22) [] tt)
    0x3FC999999999999A (∅ : gmap N (buffer (half_t:=spec_float)))
    (mkTensor 1%N 3 BYTEPS_FLOAT32) = Undefined.
Proof.
  apply (sparse_update_empty_gradient (scalar_half:=scalar_half_model) HyperParamSpec.sizes
           (mkSparse 2%N (Float.lit64 1 1) (Float.lit64 1 1) 1 (mkRng 11 22) [] tt)
           0x3FC999999999999A ∅ (mkTensor 1%N 3 BYTEPS_FLOAT32) 4).
  - reflexivity.
  - vm_compute. lia.
  - vm_compute. discriminate.
Defined.

Lemma sparse_update_worker_build_witness :
  let h : gmap N (buffer (half_t:=spec_float)) :=
    {[ 1%N := BufF32 [Float.lit32 1 0; Float.lit32 1 0];
       2%N := BufF32 [Float.lit32 4 1; Float.lit32 4 1] ]} in
  Sparse_UpdateGradient (scalar_half:=scalar_half_model) HyperParamSpec.sizes false
    (mkSparse 2%N (Float.lit64 1 1) (Float.lit64 1 1) 3 (mkRng 11 22) [5] tt)
    0x3FC999999999999A h (mkTensor 1%N 8 BYTEPS_FLOAT32)
  = Ok (mkSparse 2%N (Float.f64_of_bits 0x3FC999999999999A)
          (Float.f64_of_bits 0x3FC999999999999A) 3 (mkRng 11 22) [5] tt,
        <[1%N := BufF32 [Float.lit32 12 1; Float.lit32 12 1]]> h).
Proof.
  intros h.
  apply (sparse_update_worker_build (scalar_half:=scalar_half_model) HyperParamSpec.sizes
           Float.f32 scalar_float
           (mkSparse 2%N (Float.lit64 1 1) (Float.lit64 1 1) 3 (mkRng 11 22) [5] tt)
           0x3FC999999999999A h (mkTensor 1%N 8 BYTEPS_FLOAT32)
           [Float.lit32 1 0; Float.lit32 1 0]
           [Float.lit32 4 1; Float.lit32 4 1]
           [Float.lit32 12 1; Float.lit32 12 1]).
  - constructor.
  - apply lawful_float.
  - reflexivity.
  - reflexivity.
  - vm_compute. lia.
  - elementwise_by_computation.
Defined.

(** X20.  [Randint(low, high)] with [low < high] returns the next output of
    the generator reduced modulo [high - low] and shifted by [low]: a value
    in [[low, high)], whatever the state; the generator advances by one
    step.  With [low = high] the remainder is taken modulo 0. *)
Theorem Randint_range (low high : Z) (st : xorshift128p_state) :
  0 <= low <= high -> high < U64 ->
  if low =? high then Randint low high st = Undefined
  else exists r,
      Randint low high st = Ok (r, (xorshift128p st).2) /\
      r = low + (xorshift128p st).1 mod (high - low) /\
      low <= r < high.
Proof.
  intros Hl Hh. unfold Randint.
  destruct (xorshift128p st) as [out st'] eqn:E. cbn [fst snd].
  destruct (Z.eqb_spec low high) as [->|Hne].
  - rewrite Z.sub_diag, Z.mod_0_l by (unfold U64; lia). reflexivity.
  - rewrite (Z.mod_small (high - low)) by lia.
    destruct (Z.eqb_spec (high - low) 0) as [|_]; [lia|].
    pose proof (Z.mod_pos_bound out (high - low) ltac:(lia)) as Hm.
    exists (low + out mod (high - low)).
    split; [|split; [reflexivity|lia]].
    rewrite Z.mod_small by lia. do 2 f_equal. lia.
Qed.

Lemma Randint_range_witness :
  exists r, Randint 10 20 (mkRng 1 2) = Ok (r, (xorshift128p (mkRng 1 2)).2) /\
            10 <= r < 20.
Proof.
  pose proof (Randint_range 10 20 (mkRng 1 2) ltac:(lia) ltac:(unfold U64; lia)) as H.
  change (10 =? 20) with false in H. cbn iota in H.
  destruct H as (r & H1 & _ & H2). exists r. split; [exact H1|exact H2].
Defined.

(** *** xorshift128+ *)

Lemma testbit_high x i : 0 <= x < U64 -> 64 <= i -> Z.testbit x i = false.
Proof.
  intros Hx Hi. destruct (Z.eq_dec x 0) as [->|]; [apply Z.testbit_0_l|].
  apply Z.bits_above_log2; [lia|].
  assert (Z.log2 x < 64) by (apply Z.log2_lt_pow2; unfold U64 in Hx; lia). lia.
Qed.

Lemma bits_lt_U64 x :
  0 <= x -> (forall i, 64 <= i -> Z.testbit x i = false) -> x < U64.
Proof.
  intros Hx Hb. destruct (Z.eq_dec x 0) as [->|]; [reflexivity|].
  unfold U64. apply Z.log2_lt_pow2; [lia|].
  destruct (Z_lt_le_dec (Z.log2 x) 64) as [|Hge]; [assumption|].
  pose proof (Z.bit_log2 x ltac:(lia)) as Hbit. rewrite Hb in Hbit by lia. discriminate.
Qed.

Lemma lxor_range x y : 0 <= x < U64 -> 0 <= y < U64 -> 0 <= Z.lxor x y < U64.
Proof.
  intros Hx Hy. assert (0 <= Z.lxor x y) by (apply Z.lxor_nonneg; lia).
  split; [assumption|]. apply bits_lt_U64; [assumption|].
  intros i Hi. rewrite Z.lxor_spec, !testbit_high by assumption. reflexivity.
Qed.

Lemma shiftr_range x n : 0 <= x < U64 -> 0 <= n -> 0 <= Z.shiftr x n < U64.
Proof.
  intros Hx Hn. rewrite Z.shiftr_div_pow2 by assumption.
  assert (0 < 2 ^ n) by (apply Z.pow_pos_nonneg; lia).
  split; [apply Z.div_pos; lia|].
  apply Z.le_lt_trans with x; [|lia]. apply Z.div_le_upper_bound; nia.
Qed.

(** [x ^= x << 23] on 64 bits, and [x ^= x >> 17], lose nothing. *)
Lemma xor_shl_inj x y :
  0 <= x < U64 -> 0 <= y < U64 ->
  Z.lxor x (Z.shiftl x 23 mod U64) = Z.lxor y (Z.shiftl y 23 mod U64) -> x = y.
Proof.
  intros Hx Hy Heq. apply Z.bits_inj'. intros i Hi.
  induction i as [i IH] using (well_founded_induction (Z.lt_wf 0)).
  destruct (Z_lt_le_dec i 64) as [Hlt|Hge];
    [|rewrite !testbit_high by assumption; reflexivity].
  pose proof (f_equal (fun z => Z.testbit z i) Heq) as Hb. cbn beta in Hb.
  unfold U64 in Hb. rewrite !Z.lxor_spec, !Z.mod_pow2_bits_low in Hb by lia.
  rewrite !Z.shiftl_spec in Hb by lia.
  destruct (Z_lt_le_dec i 23) as [Hs|Hs].
  - rewrite !(Z.testbit_neg_r _ (i - 23)) in Hb by lia.
    rewrite !xorb_false_r in Hb. exact Hb.
  - rewrite (IH (i - 23)) in Hb by lia.
    destruct (Z.testbit x i), (Z.testbit y i), (Z.testbit y (i - 23));
      cbn in Hb; congruence.
Qed.

Lemma xor_shr_inj x y n :
  0 < n -> 0 <= x < U64 -> 0 <= y < U64 ->
  Z.lxor x (Z.shiftr x n) = Z.lxor y (Z.shiftr y n) -> x = y.
Proof.
  intros Hn Hx Hy Heq. apply Z.bits_inj'. intros i Hi.
  assert (Hdown : forall k : nat, forall j, 64 - Z.of_nat k <= j -> 0 <= j ->
            Z.testbit x j = Z.testbit y j).
  { induction k as [|k IH]; intros j Hj Hj0.
    - rewrite !testbit_high by (assumption || lia). reflexivity.
    - pose proof (f_equal (fun z => Z.testbit z j) Heq) as Hb. cbn beta in Hb.
      rewrite !Z.lxor_spec, !Z.shiftr_spec in Hb by lia.
      destruct (Z_lt_le_dec j 64) as [Hlt|Hge];
        [|rewrite !testbit_high by assumption; reflexivity].
      destruct (Z_lt_le_dec (j + n) 64) as [Hl2|Hg2].
      + rewrite (IH (j + n)) in Hb by lia.
        destruct (Z.testbit x j), (Z.testbit y j), (Z.testbit y (j + n));
          cbn in Hb; congruence.
      + rewrite !(testbit_high _ (j + n)) in Hb by assumption.
        rewrite !xorb_false_r in Hb. exact Hb. }
  apply (Hdown 64%nat); lia.
Qed.

Lemma xorshift128p_wf st : rng_wf st -> rng_wf (xorshift128p st).2.
Proof.
  intros [Ha Hb]. unfold xorshift128p. cbn [snd rng_wf rng_a rng_b]. cbv zeta.
  split; [exact Hb|].
  assert (H1 : 0 <= Z.lxor (rng_a st) (Z.shiftl (rng_a st) 23 mod U64) < U64).
  { apply lxor_range; [assumption|]. apply Z.mod_pos_bound. reflexivity. }
  assert (H2 : 0 <= Z.lxor (Z.lxor (rng_a st) (Z.shiftl (rng_a st) 23 mod U64))
                      (Z.shiftr (Z.lxor (rng_a st) (Z.shiftl (rng_a st) 23 mod U64)) 17)
               < U64).
  { apply lxor_range; [assumption|]. apply shiftr_range; [assumption|lia]. }
  apply lxor_range; [assumption|].
  apply lxor_range; [assumption|]. apply shiftr_range; [assumption|lia].
Qed.

Lemma xorshift128p_inj st1 st2 :
  rng_wf st1 -> rng_wf st2 ->
  (xorshift128p st1).2 = (xorshift128p st2).2 -> st1 = st2.
Proof.
  intros [Ha1 Hb1] [Ha2 Hb2]. destruct st1 as [a1 b1], st2 as [a2 b2].
  cbn [rng_a rng_b] in *. unfold xorshift128p. cbn [snd rng_a rng_b]. cbv zeta.
  intros [= -> Ht].
  assert (Hc : forall T C, Z.lxor (Z.lxor T C) C = T).
  { intros T C. rewrite Z.lxor_assoc, Z.lxor_nilpotent, Z.lxor_0_r. reflexivity. }
  apply (f_equal (fun z => Z.lxor z (Z.lxor b2 (Z.shiftr b2 26)))) in Ht.
  cbn beta in Ht. rewrite !Hc in Ht.
  apply xor_shr_inj in Ht.
  - apply xor_shl_inj in Ht; [congruence|assumption..].
  - lia.
  - apply lxor_range; [assumption|]. apply Z.mod_pos_bound. reflexivity.
  - apply lxor_range; [assumption|]. apply Z.mod_pos_bound. reflexivity.
Qed.

(** X23.  The state update of xorshift128+ is one-to-one on pairs of 64-bit
    words, and the state [(0, 0)] is its own successor (every output is then
    0).  So a generator that starts from another state never reaches
    [(0, 0)]: in particular one seeded with a number that is not 0. *)
Theorem xorshift128p_never_stuck (k : nat) (st : xorshift128p_state) :
  rng_wf st -> st <> mkRng 0 0 ->
  rng_wf (rng_after k st) /\ rng_after k st <> mkRng 0 0 /\
  rng_after k (mkRng 0 0) = mkRng 0 0 /\
  outputs k (mkRng 0 0) = repeat 0 k.
Proof.
  revert st. induction k as [|k IH]; intros st Hwf Hne.
  - cbn. auto.
  - cbn [rng_after outputs].
    assert (Hz : xorshift128p (mkRng 0 0) = (0, mkRng 0 0)) by reflexivity.
    destruct (IH (xorshift128p st).2) as (H1 & H2 & H3 & H4).
    + apply xorshift128p_wf, Hwf.
    + intros Heq. apply Hne. apply xorshift128p_inj.
      * exact Hwf.
      * split; cbn; unfold U64; lia.
      * rewrite Heq, Hz. reflexivity.
    + rewrite Hz. cbn [snd repeat]. rewrite H3, H4. auto.
Qed.

Lemma xorshift128p_never_stuck_witness :
  rng_after 5 (set_seed 2021 (mkRng 11 22)) <> mkRng 0 0.
Proof.
  apply (xorshift128p_never_stuck 5 (set_seed 2021 (mkRng 11 22))).
  - split; cbn; unfold U64; lia.
  - discriminate.
Defined.

(** *** Every output can be drawn *)

Lemma undo_shl23_range y : 0 <= undo_shl23 y < U64.
Proof. unfold undo_shl23. apply Z.mod_pos_bound. reflexivity. Qed.

Lemma undo_shl23_spec y :
  0 <= y < U64 ->
  Z.lxor (undo_shl23 y) (Z.shiftl (undo_shl23 y) 23 mod U64) = y.
Proof.
  intros Hy. apply Z.bits_inj'. intros i Hi.
  destruct (Z_lt_le_dec i 64) as [Hlt|Hge].
  - unfold undo_shl23, U64.
    rewrite Z.lxor_spec, !Z.mod_pow2_bits_low by lia.
    rewrite Z.shiftl_spec by lia.
    destruct (Z_lt_le_dec i 23) as [Hs|Hs].
    + rewrite (Z.testbit_neg_r _ (i - 23)) by lia.
      rewrite !Z.lxor_spec, !Z.shiftl_spec by lia.
      rewrite (Z.testbit_neg_r y (i - 23)), (Z.testbit_neg_r y (i - 46)) by lia.
      destruct (Z.testbit y i); reflexivity.
    + rewrite Z.mod_pow2_bits_low by lia.
      rewrite !Z.lxor_spec, !Z.shiftl_spec by lia.
      replace (i - 23 - 23) with (i - 46) by lia.
      replace (i - 23 - 46) with (i - 69) by lia.
      rewrite (Z.testbit_neg_r y (i - 69)) by lia.
      destruct (Z.testbit y i), (Z.testbit y (i - 23)), (Z.testbit y (i - 46));
        reflexivity.
  - rewrite (testbit_high y) by assumption.
    apply testbit_high; [|exact Hge].
    apply lxor_range; [apply undo_shl23_range|]. apply Z.mod_pos_bound. reflexivity.
Qed.

Lemma undo_shr17_range y : 0 <= y < U64 -> 0 <= undo_shr17 y < U64.
Proof.
  intros Hy. unfold undo_shr17.
  repeat (apply lxor_range; [first [assumption|apply shiftr_range; [assumption|lia]]|]).
  apply shiftr_range; [assumption|lia].
Qed.

Lemma undo_shr17_spec y :
  0 <= y < U64 -> Z.lxor (undo_shr17 y) (Z.shiftr (undo_shr17 y) 17) = y.
Proof.
  intros Hy. apply Z.bits_inj'. intros i Hi. unfold undo_shr17.
  rewrite !Z.lxor_spec, !Z.shiftr_spec, !Z.lxor_spec, !Z.shiftr_spec by lia.
  replace (i + 17 + 17) with (i + 34) by lia.
  replace (i + 17 + 34) with (i + 51) by lia.
  replace (i + 17 + 51) with (i + 68) by lia.
  rewrite (testbit_high y (i + 68)) by (assumption || lia).
  destruct (Z.testbit y i), (Z.testbit y (i + 17)), (Z.testbit y (i + 34)),
    (Z.testbit y (i + 51)); reflexivity.
Qed.

Lemma xorshift128p_output a b :
  (xorshift128p (mkRng a b)).1
  = (Z.lxor (Z.lxor (Z.lxor a (Z.shiftl a 23 mod U64))
                    (Z.shiftr (Z.lxor a (Z.shiftl a 23 mod U64)) 17))
            (Z.lxor b (Z.shiftr b 26)) + b) mod U64.
Proof. reflexivity. Qed.

Lemma lxor_cancel_r x c : Z.lxor (Z.lxor x c) c = x.
Proof. rewrite Z.lxor_assoc, Z.lxor_nilpotent, Z.lxor_0_r. reflexivity. Qed.

Lemma add_mod_cancel x y b :
  0 <= x < U64 -> 0 <= y < U64 -> (x + b) mod U64 = (y + b) mod U64 -> x = y.
Proof.
  intros Hx Hy H.
  assert (Hback : forall z, 0 <= z < U64 -> z = ((z + b) mod U64 - b) mod U64).
  { intros z Hz. rewrite Zminus_mod_idemp_l. replace (z + b - b) with z by lia.
    symmetry. apply Z.mod_small. exact Hz. }
  rewrite (Hback x Hx), H, <- (Hback y Hy). reflexivity.
Qed.

Lemma shl23_range a : 0 <= a < U64 -> 0 <= Z.lxor a (Z.shiftl a 23 mod U64) < U64.
Proof.
  intros Ha. apply lxor_range; [assumption|]. apply Z.mod_pos_bound. reflexivity.
Qed.

Lemma shr_xor_range x n : 0 <= x < U64 -> 0 <= n -> 0 <= Z.lxor x (Z.shiftr x n) < U64.
Proof. intros Hx Hn. apply lxor_range; [assumption|]. apply shiftr_range; assumption. Qed.

(** X27.  For every second state word [b], the output of the generator is
    a one-to-one map of the first state word onto the 64-bit words:
    [first_word_for b o] is the one first word from which it outputs [o].
    So [Randint(0, n)] returns any given index below [n] from that state. *)
Theorem xorshift128p_output_bijective (b o : Z) :
  0 <= b < U64 -> 0 <= o < U64 ->
  let a := first_word_for b o in
  0 <= a < U64 /\
  (xorshift128p (mkRng a b)).1 = o /\
  (forall a', 0 <= a' < U64 -> (xorshift128p (mkRng a' b)).1 = o -> a' = a) /\
  (forall n, 0 < n < U64 -> o < n ->
     exists rng', Randint 0 n (mkRng a b) = Ok (o, rng')).
Proof.
  intros Hb Ho a.
  pose proof (shr_xor_range b 26 Hb ltac:(lia)) as Hg.
  assert (Ht : 0 <= (o - b) mod U64 < U64) by (apply Z.mod_pos_bound; reflexivity).
  pose proof (lxor_range _ _ Ht Hg) as Hy.
  assert (Ha : 0 <= a < U64) by apply undo_shl23_range.
  assert (Hout : (xorshift128p (mkRng a b)).1 = o).
  { rewrite xorshift128p_output. unfold a, first_word_for. cbv zeta.
    rewrite undo_shl23_spec by (apply undo_shr17_range; exact Hy).
    rewrite undo_shr17_spec by exact Hy.
    rewrite lxor_cancel_r, Zplus_mod_idemp_l.
    replace (o - b + b) with o by lia. apply Z.mod_small. exact Ho. }
  split; [exact Ha|]. split; [exact Hout|]. split.
  - intros a' Ha' Hout'. rewrite <- Hout, !xorshift128p_output in Hout'.
    apply add_mod_cancel in Hout'.
    + apply (f_equal (fun z => Z.lxor z (Z.lxor b (Z.shiftr b 26)))) in Hout'.
      cbn beta in Hout'. rewrite !lxor_cancel_r in Hout'.
      apply xor_shr_inj in Hout'; [|lia|apply shl23_range; assumption..].
      apply xor_shl_inj in Hout'; assumption.
    + apply lxor_range; [|exact Hg].
      apply shr_xor_range; [apply shl23_range; assumption|lia].
    + apply lxor_range; [|exact Hg].
      apply shr_xor_range; [apply shl23_range; assumption|lia].
  - intros n Hn Hon. unfold Randint.
    destruct (xorshift128p (mkRng a b)) as [r rng'] eqn:E. cbn [fst] in Hout. subst r.
    rewrite Z.sub_0_r, (Z.mod_small n U64) by lia.
    destruct (n =? 0) eqn:En; [apply Z.eqb_eq in En; lia|].
    exists rng'. rewrite Z.add_0_r, (Z.mod_small o n), (Z.mod_small o U64) by lia.
    reflexivity.
Qed.

Lemma xorshift128p_output_bijective_witness :
  0 <= first_word_for 22 5 < U64 /\
  (xorshift128p (mkRng (first_word_for 22 5) 22)).1 = 5 /\
  exists rng', Randint 0 12 (mkRng (first_word_for 22 5) 22) = Ok (5, rng').
Proof.
  destruct (xorshift128p_output_bijective 22 5) as (H1 & H2 & _ & H4).
  - unfold U64. lia.
  - unfold U64. lia.
  - split; [exact H1|]. split; [exact H2|]. apply H4; unfold U64; lia.
Defined.

End CompressorFacts.

(** ** Top-K *)

Module TopkFacts.
Import Utils Topk ReducerFacts TopkSpec.

Section TopkFacts.
Context {T : Type}.
Variable abs_lt : T -> T -> bool.
Local Abbreviation beats := (beats abs_lt).
Local Abbreviation asymmetric_on := (asymmetric_on abs_lt).
Local Abbreviation cotransitive_on := (cotransitive_on abs_lt).
Local Abbreviation increasing := (increasing (T:=T)).

Lemma increasing_tail c cands : increasing (c :: cands) -> increasing cands.
Proof. intros H p q a b Hpq Ha Hb. apply (H (S p) (S q)); auto. lia. Qed.

Lemma increasing_head c cands x :
  increasing (c :: cands) -> x ∈ cands -> (c.1 < x.1)%nat.
Proof.
  intros H Hx. apply list_elem_of_lookup in Hx as [q Hq].
  apply (H 0%nat (S q)); auto. lia.
Qed.

Lemma increasing_filter (P : nat * T -> Prop) `{forall x, Decision (P x)} cands :
  increasing cands -> increasing (filter P cands).
Proof.
  induction cands as [|c cands IH]; intros Hinc; [exact Hinc|].
  rewrite filter_cons. specialize (IH (increasing_tail _ _ Hinc)).
  destruct (decide (P c)) as [HP|HP]; [|exact IH].
  intros p q a b Hpq Ha Hb.
  destruct q as [|q]; [lia|]. destruct p as [|p].
  - injection Ha as <-. apply (increasing_head _ _ _ Hinc).
    change (filter P cands !! q = Some b) in Hb.
    apply list_elem_of_lookup_2 in Hb. apply list_elem_of_filter in Hb. tauto.
  - apply (IH p q); auto. lia.
Qed.

Lemma increasing_inj cands a b :
  increasing cands -> a ∈ cands -> b ∈ cands -> a.1 = b.1 -> a = b.
Proof.
  intros Hinc Ha Hb Hab.
  apply list_elem_of_lookup in Ha as [ia Hia].
  apply list_elem_of_lookup in Hb as [ib Hib].
  destruct (Nat.lt_trichotomy ia ib) as [Hlt|[->|Hlt]].
  - pose proof (Hinc ia ib a b Hlt Hia Hib). lia.
  - congruence.
  - pose proof (Hinc ib ia b a Hlt Hib Hia). lia.
Qed.

Lemma largest_None cands : largest abs_lt cands = None -> cands = [].
Proof.
  destruct cands as [|c rest]; [reflexivity|]. simpl.
  destruct (largest abs_lt rest); [destruct (abs_lt _ _)|]; discriminate.
Qed.

Lemma largest_spec cands b :
  increasing cands ->
  asymmetric_on cands.*2 -> cotransitive_on cands.*2 ->
  largest abs_lt cands = Some b ->
  b ∈ cands /\ forall c, c ∈ cands -> c <> b -> beats b c.
Proof.
  revert b. induction cands as [|c rest IH]; intros b Hinc Hasym Hcot; [discriminate|].
  assert (Hasym' : asymmetric_on rest.*2).
  { intros x y Hx Hy. apply Hasym; rewrite fmap_cons; right; assumption. }
  assert (Hcot' : cotransitive_on rest.*2).
  { intros x y z Hx Hy Hz. apply Hcot; rewrite fmap_cons; right; assumption. }
  simpl. destruct (largest abs_lt rest) as [b0|] eqn:Hl.
  - destruct (IH b0 (increasing_tail _ _ Hinc) Hasym' Hcot' eq_refl) as [Hin Hmax].
    assert (Hcv : c.2 ∈ (c :: rest).*2) by (rewrite fmap_cons; left).
    assert (Hrv : forall x, x ∈ rest -> x.2 ∈ (c :: rest).*2).
    { intros x Hx. rewrite fmap_cons. right. apply list_elem_of_fmap. eauto. }
    destruct (abs_lt c.2 b0.2) eqn:Hcb; intros [= <-].
    + split; [right; exact Hin|]. intros x Hx Hne.
      apply elem_of_cons in Hx as [->|Hx]; [left; exact Hcb|auto].
    + split; [left|]. intros x Hx Hne.
      apply elem_of_cons in Hx as [->|Hx]; [congruence|].
      right. split; [|apply (increasing_head _ _ _ Hinc Hx)].
      destruct (abs_lt c.2 x.2) eqn:Hcx; [|reflexivity]. exfalso.
      destruct (Hcot c.2 b0.2 x.2 Hcv (Hrv _ Hin) (Hrv _ Hx) Hcx) as [H1|H1];
        [congruence|].
      pose proof (Hasym _ _ (Hrv _ Hin) (Hrv _ Hx) H1) as H2.
      destruct (decide (x.1 = b0.1)) as [Hxb|Hxb].
      * apply (increasing_inj rest x b0 (increasing_tail _ _ Hinc) Hx Hin) in Hxb.
        congruence.
      * destruct (Hmax x Hx ltac:(congruence)) as [H3|[H3 _]]; congruence.
  - intros [= <-]. apply largest_None in Hl as ->.
    split; [left|]. intros x Hx Hne. apply elem_of_cons in Hx as [->|Hx]; [congruence|].
    inversion Hx.
Qed.

Lemma filter_all (P : nat * T -> Prop) `{forall x, Decision (P x)} cands :
  Forall P cands -> filter P cands = cands.
Proof.
  induction 1 as [|c rest Hc _ IH]; [reflexivity|].
  rewrite filter_cons_True by exact Hc. rewrite IH. reflexivity.
Qed.

Lemma filter_other_length cands b :
  increasing cands -> b ∈ cands ->
  Datatypes.S (length (filter (fun c : nat * T => c.1 <> b.1) cands)) = length cands.
Proof.
  induction cands as [|c rest IH]; intros Hinc Hb; [inversion Hb|].
  rewrite filter_cons. destruct (decide (c.1 <> b.1)) as [Hne|Heq].
  - apply elem_of_cons in Hb as [->|Hb]; [congruence|].
    simpl. rewrite (IH (increasing_tail _ _ Hinc) Hb). reflexivity.
  - assert (Hcb : c.1 = b.1) by (destruct (decide (c.1 = b.1)); tauto).
    simpl. f_equal. f_equal. apply filter_all.
    apply Forall_forall. intros x Hx.
    pose proof (increasing_head _ _ _ Hinc Hx). lia.
Qed.

Lemma select_spec k cands :
  increasing cands -> asymmetric_on cands.*2 -> cotransitive_on cands.*2 ->
  length (select abs_lt k cands) = Nat.min k (length cands) /\
  (forall p, p ∈ select abs_lt k cands -> p ∈ cands) /\
  NoDup (select abs_lt k cands).*1 /\
  (forall p u, p ∈ select abs_lt k cands -> u ∈ cands ->
     u.1 ∉ (select abs_lt k cands).*1 -> beats p u).
Proof.
  revert cands. induction k as [|k IH]; intros cands Hinc Hasym Hcot.
  { simpl. split; [reflexivity|]. split; [intros p Hp; inversion Hp|].
    split; [constructor|]. intros p u Hp; inversion Hp. }
  cbn [select]. destruct (largest abs_lt cands) as [b|] eqn:Hl.
  2:{ apply largest_None in Hl as ->. cbn [length].
      split; [lia|]. split; [intros p Hp; inversion Hp|].
      split; [constructor|]. intros p u Hp; inversion Hp. }
  destruct (largest_spec cands b Hinc Hasym Hcot Hl) as [Hb Hmax].
  set (cands' := filter (fun c : nat * T => c.1 <> b.1) cands).
  assert (Hsub : forall x, x ∈ cands' -> x ∈ cands /\ x.1 <> b.1).
  { intros x Hx. apply list_elem_of_filter in Hx. tauto. }
  assert (Hsubv : forall x, x ∈ cands'.*2 -> x ∈ cands.*2).
  { intros x Hx. apply list_elem_of_fmap in Hx as (y & -> & Hy).
    apply list_elem_of_fmap. exists y. split; [reflexivity|]. apply Hsub, Hy. }
  destruct (IH cands') as (Hlen & Hin & Hnd & Hbeat).
  { apply increasing_filter, Hinc. }
  { intros x y Hx Hy. apply Hasym; auto. }
  { intros x y z Hx Hy Hz. apply Hcot; auto. }
  split; [|split; [|split]].
  - cbn [length]. rewrite Hlen.
    pose proof (filter_other_length cands b Hinc Hb) as Hfl.
    fold cands' in Hfl. lia.
  - intros p Hp. apply elem_of_cons in Hp as [->|Hp]; [exact Hb|].
    apply Hsub, Hin, Hp.
  - rewrite fmap_cons. constructor; [|exact Hnd].
    intros Hb1. apply list_elem_of_fmap in Hb1 as (y & Hy1 & Hy).
    apply Hin, Hsub in Hy. destruct Hy as [_ Hy]. congruence.
  - intros p u Hp Hu Hnot. rewrite fmap_cons, not_elem_of_cons in Hnot.
    destruct Hnot as [Hub Hnot].
    apply elem_of_cons in Hp as [->|Hp].
    + apply Hmax; [exact Hu|]. intros ->. congruence.
    + apply Hbeat; auto. apply list_elem_of_filter. split; [exact Hub|exact Hu].
Qed.

(** The candidates of [Compress]: every entry of the gradient with its
    index. *)
Lemma cands_lookup (grad : list T) i v :
  (i, v) ∈ imap (fun i v => (i, v)) grad <-> grad !! i = Some v.
Proof.
  rewrite list_elem_of_lookup. split.
  - intros [q Hq]. rewrite list_lookup_imap in Hq.
    destruct (grad !! q) as [w|] eqn:E; simpl in Hq; [|discriminate].
    injection Hq as <- <-. exact E.
  - intros Hi. exists i. rewrite list_lookup_imap, Hi. reflexivity.
Qed.

Lemma cands_increasing (grad : list T) : increasing (imap (fun i v => (i, v)) grad).
Proof.
  intros q1 q2 a b Hlt Ha Hb. rewrite list_lookup_imap in Ha, Hb.
  destruct (grad !! q1); simpl in Ha; [|discriminate].
  destruct (grad !! q2); simpl in Hb; [|discriminate].
  injection Ha as <-. injection Hb as <-. exact Hlt.
Qed.

Lemma cands_values (grad : list T) x :
  x ∈ (imap (fun i v => (i, v)) grad).*2 -> x ∈ grad.
Proof.
  intros Hx. apply list_elem_of_fmap in Hx as ([i v] & -> & Hy).
  apply cands_lookup in Hy. eapply list_elem_of_lookup_2, Hy.
Qed.

(** Scattering pairs of distinct, in-range indices into [init]. *)
Lemma scatter_spec (ps : list (nat * T)) (init : list T) :
  NoDup ps.*1 -> (forall p, p ∈ ps -> (p.1 < length init)%nat) ->
  exists dst, foldM (fun p dst => store dst p.1 p.2) ps init = Ok dst /\
    length dst = length init /\
    (forall i v, (i, v) ∈ ps -> dst !! i = Some v) /\
    (forall i, i ∉ ps.*1 -> dst !! i = init !! i).
Proof.
  revert init. induction ps as [|[i v] ps IH]; intros init Hnd Hrange.
  { exists init. repeat split; auto. intros i v Hin. inversion Hin. }
  rewrite fmap_cons in Hnd. apply NoDup_cons in Hnd as [Hi Hnd].
  assert (Hlt : (i < length init)%nat) by (apply (Hrange (i, v)); left).
  destruct (IH (<[i := v]> init) Hnd) as (dst & Hrun & Hlen & Hsel & Hrest).
  { intros q Hq. rewrite length_insert. apply Hrange. right. exact Hq. }
  assert (Hst : store init i v = Ok (<[i := v]> init))
    by (unfold store; rewrite decide_True by exact Hlt; reflexivity).
  exists dst. cbn [foldM fst snd]. rewrite Hst, bind_Ok.
  split; [exact Hrun|]. split; [rewrite Hlen; apply length_insert|]. split.
  - intros j w Hjw. apply elem_of_cons in Hjw as [[= -> ->]|Hjw]; [|auto].
    rewrite Hrest by exact Hi. apply list_lookup_insert_eq. exact Hlt.
  - intros j Hj. rewrite fmap_cons, not_elem_of_cons in Hj. destruct Hj as [Hji Hj].
    cbn [fst] in Hji.
    rewrite Hrest by exact Hj. apply list_lookup_insert_ne. congruence.
Qed.

End TopkFacts.


Lemma strict_weak_orderb_spec {T : Type} (abs_lt : T -> T -> bool) (l : list T) :
  strict_weak_orderb abs_lt l = true ->
  asymmetric_on abs_lt l /\ cotransitive_on abs_lt l.
Proof.
  unfold strict_weak_orderb. rewrite forallb_forall. intros H. split.
  - intros a b Ha Hb Hab. apply list_elem_of_In in Ha, Hb.
    specialize (H a Ha). rewrite forallb_forall in H. specialize (H b Hb).
    apply andb_prop in H as [H _]. rewrite Hab in H. simpl in H.
    apply negb_true_iff in H. exact H.
  - intros a b c Ha Hb Hc Hac. apply list_elem_of_In in Ha, Hb, Hc.
    specialize (H a Ha). rewrite forallb_forall in H. specialize (H b Hb).
    apply andb_prop in H as [_ H]. rewrite forallb_forall in H.
    specialize (H c Hc). rewrite Hac in H. simpl in H.
    apply orb_prop in H. exact H.
Qed.

(** C3.  For a gradient of [n <= 2^32] scalars and [k <= n], on which the
    comparison of absolute values is a strict weak order: [Compress] yields
    [k] pairs of distinct indices, each the (index, value) of an entry of
    the gradient with the index in the range of u32; no entry left out has
    a larger absolute value than a selected one, and one of equal absolute
    value has a larger index; the reported length is
    [k * (sizeof(u32) + sizeof(scalar))]; [Decompress] into [n] scalars
    returns the selected values at their indices and zero elsewhere.  On
    [[0.1, -0.9, 0.3, 0.8]] with [k = 2] the pairs are [(1, -0.9)] and
    [(3, 0.8)] and the decompressed vector is [[0, -0.9, 0, 0.8]]. *)
Theorem topk_compress_decompress :
  (forall (T : Type) (abs_lt : T -> T -> bool) (zero : T) (sizeof_scalar : nat)
          (grad : list T) (k : nat),
      (k <= length grad)%nat -> Z.of_nat (length grad) <= 2 ^ 32 ->
      asymmetric_on abs_lt grad -> cotransitive_on abs_lt grad ->
      let c := Compress abs_lt sizeof_scalar k grad in
      length (pairs c) = k /\
      c_size c = (k * (sizeof_u32 + sizeof_scalar))%nat /\
      NoDup (pairs c).*1 /\
      (forall i v, (i, v) ∈ pairs c ->
         grad !! i = Some v /\ 0 <= Z.of_nat i < 2 ^ 32) /\
      (forall i v j w, (i, v) ∈ pairs c -> grad !! j = Some w ->
         j ∉ (pairs c).*1 ->
         abs_lt v w = false /\ (abs_lt w v = false -> (i < j)%nat)) /\
      exists dst, Decompress zero c (length grad) = Ok dst /\
        length dst = length grad /\
        (forall i v, (i, v) ∈ pairs c -> dst !! i = Some v) /\
        (forall j, (j < length grad)%nat -> j ∉ (pairs c).*1 ->
           dst !! j = Some zero)) /\
  (let c := Compress float_abs_lt 4 2 example_grad in
   c = mkCompressed [(1%nat, Float.lit32 (-9) 1); (3%nat, Float.lit32 8 1)] 16 /\
   Decompress (S754_zero false) c 4
   = Ok [S754_zero false; Float.lit32 (-9) 1; S754_zero false; Float.lit32 8 1]).
Proof.
  split; [|vm_compute; split; reflexivity].
  intros T abs_lt zero sizeof_scalar grad k Hk Hn Hasym Hcot c.
  set (cands := imap (fun i v => (i, v)) grad).
  destruct (select_spec abs_lt k cands) as (Hlen & Hin & Hnd & Hbeat).
  { apply cands_increasing. }
  { intros a b Ha Hb. apply Hasym; apply cands_values; assumption. }
  { intros a b d Ha Hb Hd. apply Hcot; apply cands_values; assumption. }
  assert (Hsel : forall i v, (i, v) ∈ pairs c -> grad !! i = Some v).
  { intros i v Hp. apply cands_lookup, Hin, Hp. }
  split; [|split; [|split; [|split; [|split]]]].
  - unfold c, Compress. cbn [pairs]. fold cands. rewrite Hlen.
    unfold cands. rewrite length_imap. lia.
  - reflexivity.
  - exact Hnd.
  - intros i v Hp. split; [apply Hsel, Hp|].
    pose proof (lookup_lt_Some _ _ _ (Hsel i v Hp)). lia.
  - intros i v j w Hp Hj Hnot.
    assert (Hb : beats abs_lt (i, v) (j, w)).
    { apply Hbeat; [exact Hp| apply cands_lookup; exact Hj | exact Hnot]. }
    destruct Hb as [Hb|[Hb1 Hb2]]; cbn [fst snd] in *.
    + split; [|congruence].
      apply Hasym; [| |exact Hb]; eapply list_elem_of_lookup_2; eauto.
    + split; [exact Hb1|intros _; exact Hb2].
  - destruct (scatter_spec (pairs c) (replicate (length grad) zero) Hnd)
      as (dst & Hrun & Hdl & Hd1 & Hd2).
    { intros [i v] Hp. rewrite length_replicate. cbn [fst].
      apply (lookup_lt_Some grad i v), Hsel, Hp. }
    exists dst. split; [exact Hrun|]. split; [rewrite Hdl; apply length_replicate|].
    split; [exact Hd1|]. intros j Hj Hnot. rewrite Hd2 by exact Hnot.
    apply lookup_replicate_2. exact Hj.
Qed.

(** The general statement on the example gradient. *)
Lemma topk_compress_decompress_witness :
  let c := Compress float_abs_lt 4 2 example_grad in
  length (pairs c) = 2%nat /\ c_size c = 16%nat /\
  exists dst, Decompress (S754_zero false) c 4 = Ok dst /\ length dst = 4%nat.
Proof.
  destruct (strict_weak_orderb_spec float_abs_lt example_grad) as [Ha Hc];
    [vm_compute; reflexivity|].
  destruct (proj1 topk_compress_decompress spec_float float_abs_lt
              (S754_zero false) 4%nat example_grad 2%nat)
    as (H1 & H2 & _ & _ & _ & dst & H3 & H4 & _).
  - vm_compute. lia.
  - vm_compute. discriminate.
  - exact Ha.
  - exact Hc.
  - intros c. split; [exact H1|]. split; [exact H2|].
    exists dst. split; [exact H3|exact H4].
Defined.

End TopkFacts.

(** ** The server *)

Module ServerFacts.
Import Utils Server ReducerFacts ServerSpec.

(** Projects the fields of an updated server state. *)
Ltac srv :=
  repeat progress
    (unfold updates_of, set_request, set_merged;
     cbn [sync_mode_ is_engine_blocking_ NumWorkers lb_factor_ timestamp_
          store_ update_buf_ fp16_copy_ compressor_map_ push_response_map_
          pull_response_map_ shards trace request merged
          emit set_update_buf set_timestamp set_push_response_map
          set_pull_response_map set_shards
          default from_option Datatypes.id];
     rewrite ?lookup_insert_eq).

Section Handlers.
Variable GetThreadID : Z -> Z -> nat.
Variable EncodeKey : Z -> Z.
Variable reducer_sum : ptr -> ptr -> nat -> Z -> Z.
Local Abbreviation pull_payload := (pull_payload EncodeKey).
Local Abbreviation run_pull_op := (run_pull_op GetThreadID EncodeKey).

Lemma SendPushResponse_trace k req st :
  trace (SendPushResponse k req st) = trace st ++ [Response req (push_shell st k)].
Proof.
  unfold SendPushResponse, push_shell.
  destruct (push_response_map_ st !! k); reflexivity.
Qed.

Lemma SendPushResponse_fields k req st :
  update_buf_ (SendPushResponse k req st) = update_buf_ st /\
  sync_mode_ (SendPushResponse k req st) = sync_mode_ st /\
  is_engine_blocking_ (SendPushResponse k req st) = is_engine_blocking_ st /\
  NumWorkers (SendPushResponse k req st) = NumWorkers st /\
  timestamp_ (SendPushResponse k req st) = timestamp_ st /\
  shards (SendPushResponse k req st) = shards st.
Proof.
  unfold SendPushResponse.
  destruct (push_response_map_ st !! k); repeat split; reflexivity.
Qed.

(** A push in sync mode with a non-blocking engine, arriving when
    [pending] requests are buffered for the key. *)
Lemma push_sync_nonblocking k ty n stored recved req req_data mixed st w :
  sync_mode_ st = true -> is_engine_blocking_ st = false ->
  push_workload st k stored = Ok w ->
  let pending := request (updates_of st k) in
  let tid := GetThreadID k w in
  let first_op := match pending with [] => COPY_FIRST | _ => SUM_RECV end in
  let msg := mkMsg (timestamp_ st) ty k (tensor stored) recved n first_op
               req_data req mixed in
  let all := mkMsg (timestamp_ st + 1) (mkType (requestType ty) (a_dtype stored))
               k (tensor stored) (tensor stored) (a_len stored) ALL_RECV
               req_data req mixed in
  exists st',
    BytePSHandlePush GetThreadID reducer_sum k ty n stored recved req req_data
      mixed st = Ok st' /\
    NumWorkers st' = NumWorkers st /\
    if (length (pending ++ [req]) =? NumWorkers st)%nat then
      trace st' = trace st ++ [QueuePush tid msg; Response req (push_shell st k);
                               QueuePush tid all; QueueClearCounter tid k] /\
      request (updates_of st' k) = []
    else
      trace st' = trace st ++ [QueuePush tid msg; Response req (push_shell st k)] /\
      request (updates_of st' k) = pending ++ [req].
Proof.
  intros Hsync Hblk Hw pending tid first_op msg all.
  destruct st as [sm eb N lb ts store ub fp cm prm plm sh tr].
  cbn [sync_mode_ is_engine_blocking_] in Hsync, Hblk. subst sm eb.
  unfold BytePSHandlePush.
  match goal with
  | |- context [push_workload ?s k stored] =>
      change (push_workload s k stored) with
        (push_workload (mkServer true false N lb ts store ub fp cm prm plm sh tr)
           k stored)
  end.
  rewrite Hw, bind_Ok. fold tid. clear Hw.
  unfold push_shell, SendPushResponse. subst pending first_op msg all.
  destruct (ub !! k) as [[pend mrg]|] eqn:Hub; srv; rewrite ?Hub; srv;
    cbn [UpdateBuf_empty request merged].
  1: destruct pend as [|p0 pending']; cbn [negb].
  all: rewrite bind_Ok; srv.
  all: destruct (prm !! k) as [shell|] eqn:Hs; srv.
  all: match goal with |- context [(?a =? ?b)%nat] => destruct (a =? b)%nat eqn:HN end.
  all: cbn [andb negb]; eexists; (split; [reflexivity|]); srv.
  all: repeat split; rewrite <- ?app_assoc; reflexivity.
Qed.


(** *** Pull bookkeeping *)

Lemma SendPullResponse_spec k m st :
  tensor (merged (updates_of st k)) <> 0%N ->
  exists st',
    SendPullResponse EncodeKey k m st = Ok st' /\
    trace st' = trace st ++ [Response m (pull_payload st k)] /\
    pull_payload st' k = pull_payload st k /\
    updates_of st' k = updates_of st k /\
    shards st' = shards st /\ NumWorkers st' = NumWorkers st /\
    sync_mode_ st' = sync_mode_ st /\
    is_engine_blocking_ st' = is_engine_blocking_ st.
Proof.
  intros Hm. unfold SendPullResponse, pull_payload.
  destruct st as [sm eb N lb ts store ub fp cm prm plm sh tr].
  unfold updates_of in Hm. cbn [update_buf_] in Hm. srv.
  destruct (ub !! k) as [u|] eqn:Hu; cbn [default from_option Datatypes.id] in Hm; srv.
  2:{ exfalso. apply Hm. reflexivity. }
  destruct (tensor (merged u) =? 0)%N eqn:E; [apply N.eqb_eq in E; congruence|].
  destruct (plm !! k) as [old|] eqn:Hp; eexists; (split; [reflexivity|]); srv;
    repeat split; reflexivity.
Qed.

Lemma mark_served_fields k s sh :
  push_finished (mark_served k s sh) k = push_finished sh k /\
  pull_cnt (mark_served k s sh) k = Datatypes.S (pull_cnt sh k) /\
  seen_sender (mark_served k s sh) k = {[s]} ∪ seen_sender sh k.
Proof.
  unfold push_finished, pull_cnt, seen_sender, mark_served; simpl.
  rewrite !lookup_insert_eq. auto.
Qed.

Lemma reset_flags_fields k sh :
  push_finished (reset_flags k sh) k = false /\
  pull_cnt (reset_flags k sh) k = 0%nat /\
  seen_sender (reset_flags k sh) k = ∅.
Proof.
  unfold push_finished, pull_cnt, seen_sender, reset_flags; simpl.
  rewrite !lookup_insert_eq. auto.
Qed.

Lemma set_q_fields k q sh :
  push_finished (set_q_pull_reqmeta k q sh) k = push_finished sh k /\
  pull_cnt (set_q_pull_reqmeta k q sh) k = pull_cnt sh k /\
  seen_sender (set_q_pull_reqmeta k q sh) k = seen_sender sh k.
Proof. auto. Qed.

Lemma flush_pulls_spec (n : nat) (k : Z) (it : list KVMeta) :
  forall (kept : list KVMeta) (sh : shard) (st : server),
    NumWorkers st = n ->
    tensor (merged (updates_of st k)) <> 0%N ->
    pull_cnt sh k = size (seen_sender sh k) -> (pull_cnt sh k < n)%nat ->
    exists sh' st' served,
      flush_pulls EncodeKey k it kept sh st = Ok (sh', st') /\
      trace st' = trace st ++ ((fun m => Response m (pull_payload st k)) <$> served) /\
      sublist served it /\
      served_once sh k served /\
      bookkeeping_after n sh sh' k served (push_finished sh k) /\
      pull_payload st' k = pull_payload st k /\
      updates_of st' k = updates_of st k /\
      shards st' = shards st /\ NumWorkers st' = n /\
      sync_mode_ st' = sync_mode_ st /\
      is_engine_blocking_ st' = is_engine_blocking_ st.
Proof.
  induction it as [|m rest IH]; intros kept sh st HN Hm Hcnt Hlt.
  { exists (set_q_pull_reqmeta k kept sh), st, []. cbn [flush_pulls].
    split; [reflexivity|]. split; [rewrite app_nil_r; reflexivity|].
    split; [constructor|]. split; [split; [constructor|intros ? H; inversion H]|].
    split; [|repeat split; auto].
    unfold bookkeeping_after. cbn [length]. rewrite Nat.add_0_r.
    split; [lia|]. destruct (Nat.eqb_spec (pull_cnt sh k) n); [lia|].
    repeat split; auto. set_solver. }
  cbn [flush_pulls]. destruct (decide (sender m ∈ seen_sender sh k)) as [Hin|Hnin].
  - rewrite bind_Ok. rewrite HN.
    destruct (Nat.eqb_spec (pull_cnt sh k) n) as [|_]; [lia|].
    destruct (IH (kept ++ [m]) sh st HN Hm Hcnt Hlt)
      as (sh' & st' & served & Hrun & Htr & Hsub & Hso & Hbk & Hrest).
    exists sh', st', served. split; [exact Hrun|]. split; [exact Htr|].
    split; [apply sublist_cons; exact Hsub|]. auto.
  - destruct (SendPullResponse_spec k m st Hm)
      as (st1 & Hsend & Htr1 & Hpay1 & Hup1 & Hsh1 & HN1 & Hsy1 & Hbl1).
    rewrite Hsend, !bind_Ok.
    destruct (mark_served_fields k (sender m) sh) as (Hf1 & Hc1 & Hs1).
    rewrite HN1, HN, Hc1.
    assert (Hsize : size ({[sender m]} ∪ seen_sender sh k)
                    = Datatypes.S (size (seen_sender sh k))).
    { rewrite size_union by set_solver. rewrite size_singleton. reflexivity. }
    destruct (Nat.eqb_spec (Datatypes.S (pull_cnt sh k)) n) as [Heq|Hneq].
    + exists (set_q_pull_reqmeta k (kept ++ rest) (reset_flags k (mark_served k (sender m) sh))),
             st1, [m].
      split; [reflexivity|]. split; [exact Htr1|].
      split; [apply sublist_skip, sublist_nil_l|].
      split.
      { split; [repeat constructor; set_solver|].
        intros x Hx. apply list_elem_of_singleton in Hx as ->. exact Hnin. }
      split; [|rewrite HN1, HN in *; repeat split; auto; congruence].
      unfold bookkeeping_after. cbn [length].
      split; [lia|].
      destruct (Nat.eqb_spec (pull_cnt sh k + 1) n); [|lia].
      apply reset_flags_fields.
    + destruct (IH kept (mark_served k (sender m) sh) st1)
        as (sh' & st' & served & Hrun & Htr & Hsub & [Hnd Hns] & [Hle Hbk] & Hpay
            & Hup & Hshd & HN' & Hsy & Hbl).
      { congruence. }
      { rewrite Hup1. exact Hm. }
      { rewrite Hc1, Hs1, Hsize, Hcnt. reflexivity. }
      { rewrite Hc1. lia. }
      exists sh', st', (m :: served).
      split; [exact Hrun|].
      split.
      { rewrite Htr, Htr1, Hpay1, <- app_assoc. reflexivity. }
      split; [apply sublist_skip; exact Hsub|].
      split.
      { split.
        - rewrite fmap_cons. constructor; [|exact Hnd].
          intros Hx. apply list_elem_of_fmap in Hx as (y & Hy & Hys).
          apply Hns in Hys. rewrite Hs1 in Hys. set_solver.
        - intros x Hx. apply elem_of_cons in Hx as [->|Hx]; [exact Hnin|].
          apply Hns in Hx. rewrite Hs1 in Hx. set_solver. }
      split.
      { unfold bookkeeping_after. rewrite Hc1 in Hle, Hbk. cbn [length].
        replace (pull_cnt sh k + Datatypes.S (length served))%nat
          with (Datatypes.S (pull_cnt sh k) + length served)%nat by lia.
        split; [exact Hle|].
        destruct (Datatypes.S (pull_cnt sh k) + length served =? n)%nat;
          [exact Hbk|].
        destruct Hbk as (Hb1 & Hb2 & Hb3). rewrite Hb1, Hb2, Hb3, Hf1, Hs1.
        repeat split; auto. rewrite fmap_cons. set_solver. }
      rewrite Hpay, Hup, Hshd, Hsy, Hbl. repeat split; auto; congruence.
Qed.

Lemma init_flags_fields n k sh :
  pull_inv n sh k ->
  push_finished (init_flags k sh) k = push_finished sh k /\
  pull_cnt (init_flags k sh) k = pull_cnt sh k /\
  seen_sender (init_flags k sh) k = seen_sender sh k.
Proof.
  intros (Hc & Hlt & Hz). unfold init_flags.
  destruct (is_push_finished_ sh !! k) as [b|] eqn:E; [auto|].
  assert (Hpf : push_finished sh k = false) by (unfold push_finished; rewrite E; reflexivity).
  specialize (Hz Hpf). rewrite Hz in Hc. symmetry in Hc.
  apply size_empty_iff in Hc. apply leibniz_equiv in Hc.
  unfold push_finished, pull_cnt, seen_sender in *; simpl.
  rewrite !lookup_insert_eq, E. simpl. rewrite Hz, Hc. auto.
Qed.

Lemma set_push_finished_fields k b sh :
  push_finished (set_push_finished k b sh) k = b /\
  pull_cnt (set_push_finished k b sh) k = pull_cnt sh k /\
  seen_sender (set_push_finished k b sh) k = seen_sender sh k.
Proof.
  unfold push_finished, pull_cnt, seen_sender, set_push_finished; simpl.
  rewrite lookup_insert_eq. auto.
Qed.

Lemma store_lookup {A : Type} (l : list A) (i : nat) (x y : A) :
  l !! i = Some x -> store l i y = Ok (<[i := y]> l).
Proof.
  intros H. unfold store. rewrite decide_True; [reflexivity|].
  eapply lookup_lt_Some, H.
Qed.

(** The invariant after the bookkeeping advanced. *)
Lemma pull_inv_after n sh sh' k served fin :
  pull_inv n sh k -> served_once sh k served ->
  bookkeeping_after n sh sh' k served fin ->
  (fin = false -> served = [] /\ push_finished sh k = false) ->
  pull_inv n sh' k.
Proof.
  intros (Hc & Hlt & Hz) (Hnd & Hns) (Hle & Hbk) Hfin. unfold pull_inv.
  destruct (Nat.eqb_spec (pull_cnt sh k + length served) n) as [Heq|Hneq].
  - destruct Hbk as (-> & -> & ->). rewrite size_empty. repeat split; auto. lia.
  - destruct Hbk as (Hb1 & Hb2 & Hb3). rewrite Hb1, Hb2, Hb3.
    split; [|split; [lia|]].
    + rewrite size_union.
      * rewrite size_list_to_set by exact Hnd. rewrite length_fmap. lia.
      * intros x Hx1 Hx2. apply elem_of_list_to_set in Hx1.
        apply list_elem_of_fmap in Hx1 as (y & -> & Hy). apply (Hns y Hy Hx2).
    + intros ->. destruct (Hfin eq_refl) as [-> Hpf]. simpl. rewrite Hz; auto.
Qed.

Lemma pull_step (i : nat) (k : Z) (op : pull_op) (st : server) (sh : shard) :
  sync_mode_ st = true -> is_engine_blocking_ st = false ->
  GetThreadID k 0 = i -> shards st !! i = Some sh ->
  pull_inv (NumWorkers st) sh k ->
  tensor (merged (updates_of st k)) <> 0%N ->
  pull_op_ready k op ->
  exists st' sh' served,
    run_pull_op i k op st = Ok st' /\
    shards st' = <[i := sh']> (shards st) /\
    NumWorkers st' = NumWorkers st /\
    updates_of st' k = updates_of st k /\
    trace st' = trace st ++ ((fun m => Response m (pull_payload st k)) <$> served) /\
    served_once sh k served /\
    bookkeeping_after (NumWorkers st) sh sh' k served (finished_after sh k op) /\
    pull_inv (NumWorkers st) sh' k.
Proof.
  intros Hsync Hblk Htid Hsh Hinv Hm Hready.
  destruct (init_flags_fields _ _ _ Hinv) as (Hi1 & Hi2 & Hi3).
  pose proof Hinv as (Hc & Hlt & Hz).
  destruct op as [ty stored req|msg]; cbn [run_pull_op pull_op_ready finished_after] in *.
  - unfold BytePSHandlePull.
    destruct (tensor stored =? 0)%N eqn:E; [apply N.eqb_eq in E; congruence|].
    rewrite Hblk, Hsync, Htid. cbn [orb negb]. unfold load at 1. rewrite Hsh, bind_Ok.
    rewrite Hi1, Hi3.
    destruct (push_finished sh k) eqn:Hpf;
      [destruct (decide (sender req ∉ seen_sender sh k)) as [Hnin|Hin]|].
    + rewrite bool_decide_eq_true_2 by exact Hnin. cbn [andb].
      destruct (SendPullResponse_spec k req st Hm)
        as (st1 & Hsend & Htr1 & Hpay1 & Hup1 & Hsh1 & HN1 & Hsy1 & Hbl1).
      rewrite Hsend, !bind_Ok.
      destruct (mark_served_fields k (sender req) (init_flags k sh)) as (Hf1 & Hc1 & Hs1).
      rewrite Hi1 in Hf1. rewrite Hi2 in Hc1. rewrite Hi3 in Hs1.
      rewrite Hsh1, (store_lookup _ _ _ _ Hsh), bind_Ok.
      eexists _, _, [req]. split; [reflexivity|].
      split; [reflexivity|]. split; [exact HN1|]. split; [exact Hup1|].
      split; [exact Htr1|].
      assert (Hso : served_once sh k [req]).
      { split; [repeat constructor; set_solver|].
        intros x Hx. apply list_elem_of_singleton in Hx as ->. exact Hnin. }
      split; [exact Hso|].
      assert (Hbk : bookkeeping_after (NumWorkers st) sh
                (if (pull_cnt (mark_served k (sender req) (init_flags k sh)) k
                     =? NumWorkers st1)%nat
                 then reset_flags k (mark_served k (sender req) (init_flags k sh))
                 else mark_served k (sender req) (init_flags k sh)) k [req] true).
      { unfold bookkeeping_after. cbn [length]. rewrite Hc1, HN1.
        replace (pull_cnt sh k + 1)%nat with (Datatypes.S (pull_cnt sh k)) by lia.
        split; [lia|].
        destruct (Nat.eqb_spec (Datatypes.S (pull_cnt sh k)) (NumWorkers st)).
        - apply reset_flags_fields.
        - rewrite Hf1, Hc1, Hs1. repeat split; auto. cbn. set_solver. }
      split; [exact Hbk|].
      eapply pull_inv_after; eauto; discriminate.
    + rewrite bool_decide_eq_false_2 by exact Hin. cbn [andb].
      rewrite !bind_Ok, (store_lookup _ _ _ _ Hsh), bind_Ok.
      eexists _, _, []. split; [reflexivity|].
      split; [reflexivity|]. split; [reflexivity|]. split; [reflexivity|].
      split; [cbn; rewrite app_nil_r; reflexivity|].
      assert (Hso : served_once sh k []).
      { split; [constructor|]. intros x Hx. inversion Hx. }
      split; [exact Hso|].
      assert (Hbk : bookkeeping_after (NumWorkers st) sh
                (set_q_pull_reqmeta k (q_pull_reqmeta (init_flags k sh) k ++ [req])
                   (init_flags k sh)) k [] true).
      { unfold bookkeeping_after. cbn [length]. rewrite Nat.add_0_r.
        split; [lia|]. destruct (Nat.eqb_spec (pull_cnt sh k) (NumWorkers st)); [lia|].
        destruct (set_q_fields k (q_pull_reqmeta (init_flags k sh) k ++ [req])
                    (init_flags k sh)) as (-> & -> & ->).
        rewrite Hi1, Hi2, Hi3. repeat split; auto. cbn. set_solver. }
      split; [exact Hbk|].
      eapply pull_inv_after; eauto; discriminate.
    + cbn [andb]. rewrite !bind_Ok, (store_lookup _ _ _ _ Hsh), bind_Ok.
      eexists _, _, []. split; [reflexivity|].
      split; [reflexivity|]. split; [reflexivity|]. split; [reflexivity|].
      split; [cbn; rewrite app_nil_r; reflexivity|].
      assert (Hso : served_once sh k []).
      { split; [constructor|]. intros x Hx. inversion Hx. }
      split; [exact Hso|].
      assert (Hbk : bookkeeping_after (NumWorkers st) sh
                (set_q_pull_reqmeta k (q_pull_reqmeta (init_flags k sh) k ++ [req])
                   (init_flags k sh)) k [] false).
      { unfold bookkeeping_after. cbn [length]. rewrite Nat.add_0_r.
        split; [lia|]. destruct (Nat.eqb_spec (pull_cnt sh k) (NumWorkers st)); [lia|].
        destruct (set_q_fields k (q_pull_reqmeta (init_flags k sh) k ++ [req])
                    (init_flags k sh)) as (-> & -> & ->).
        rewrite Hi1, Hi2, Hi3. repeat split; auto. cbn. set_solver. }
      split; [exact Hbk|].
      eapply pull_inv_after; eauto.
  - subst k. unfold all_recv_case. unfold load at 1. rewrite Hsh, bind_Ok.
    set (sh0 := set_push_finished (key msg) true (init_flags (key msg) sh)).
    destruct (set_push_finished_fields (key msg) true (init_flags (key msg) sh))
      as (Hp1 & Hp2 & Hp3).
    fold sh0 in Hp1, Hp2, Hp3. rewrite Hi2 in Hp2. rewrite Hi3 in Hp3.
    destruct (flush_pulls_spec (NumWorkers st) (key msg)
                (q_pull_reqmeta sh0 (key msg)) [] sh0 st eq_refl Hm)
      as (sh' & st' & served & Hrun & Htr & Hsub & [Hnd Hns] & [Hle Hbk] & Hpay
          & Hup & Hshd & HN' & Hsy & Hbl).
    { rewrite Hp2, Hp3. exact Hc. }
    { rewrite Hp2. exact Hlt. }
    rewrite Hrun, bind_Ok, Hshd, (store_lookup _ _ _ _ Hsh), bind_Ok.
    exists (set_shards (<[i := sh']> (shards st)) st'), sh', served.
    split; [reflexivity|]. split; [reflexivity|]. split; [exact HN'|].
    split; [exact Hup|]. split; [exact Htr|].
    assert (Hso : served_once sh (key msg) served).
    { split; [exact Hnd|]. intros x Hx. rewrite <- Hp3. apply Hns, Hx. }
    split; [exact Hso|].
    assert (Hbk' : bookkeeping_after (NumWorkers st) sh sh' (key msg) served true).
    { unfold bookkeeping_after. rewrite Hp2 in Hle, Hbk. split; [exact Hle|].
      destruct (pull_cnt sh (key msg) + length served =? NumWorkers st)%nat;
        [exact Hbk|].
      rewrite Hp1, Hp3 in Hbk. exact Hbk. }
    split; [exact Hbk'|].
    eapply pull_inv_after; eauto; discriminate.
Qed.

(** The engine step of an ALL_RECV message, for a key without compressor
    and in full precision: [updates.merged] is pointed at the buffer of the
    message, then the [case ALL_RECV] runs. *)
Lemma engine_step_all_recv compress_output decompress_output i msg st :
  ops msg = ALL_RECV -> dst msg <> 0%N -> src msg <> 0%N ->
  key msg ∉ compressor_map_ st -> mixed_precision msg = false ->
  engine_step EncodeKey reducer_sum compress_output decompress_output i msg st
  = all_recv_case EncodeKey i msg
      (set_merged (key msg)
         (mkArray (src msg) (len msg) (a_dtype (merged (updates_of st (key msg))))
            (tmp_sarray (merged (updates_of st (key msg))))) st).
Proof.
  intros Hops Hd Hs Hc Hm. unfold engine_step.
  destruct (N.eqb_spec (dst msg) 0); [congruence|].
  destruct (N.eqb_spec (src msg) 0); [congruence|].
  rewrite decide_False by exact Hc. rewrite Hops, Hm, bind_Ok.
  cbn beta iota. rewrite Hops. reflexivity.
Qed.

(** The parked pulls answered by that step carry the buffer of the
    message: the sum the engine has just completed. *)
Lemma engine_all_recv_answers compress_output decompress_output i msg st sh :
  sync_mode_ st = true -> is_engine_blocking_ st = false ->
  GetThreadID (key msg) 0 = i -> shards st !! i = Some sh ->
  pull_inv (NumWorkers st) sh (key msg) ->
  ops msg = ALL_RECV -> dst msg <> 0%N -> src msg <> 0%N ->
  key msg ∉ compressor_map_ st -> mixed_precision msg = false ->
  exists st' sh' served resp,
    engine_step EncodeKey reducer_sum compress_output decompress_output i msg st
    = Ok st' /\
    shards st' = <[i := sh']> (shards st) /\
    trace st' = trace st ++ ((fun m => Response m resp) <$> served) /\
    vals resp = mkSArray (src msg) (len msg) /\ lens resp = [len msg] /\
    served_once sh (key msg) served /\
    bookkeeping_after (NumWorkers st) sh sh' (key msg) served true /\
    pull_inv (NumWorkers st) sh' (key msg).
Proof.
  intros Hsync Hblk Htid Hsh Hinv Hops Hd Hs Hc Hm.
  rewrite engine_step_all_recv by assumption.
  set (st1 := set_merged (key msg) _ st).
  assert (Hmerged : merged (updates_of st1 (key msg))
                    = mkArray (src msg) (len msg)
                        (a_dtype (merged (updates_of st (key msg))))
                        (tmp_sarray (merged (updates_of st (key msg))))).
  { unfold st1. srv. reflexivity. }
  destruct (pull_step i (key msg) (AllRecv msg) st1 sh)
    as (st' & sh' & served & Hrun & Hshd & HN & Hup & Htr & Hso & Hbk & Hinv');
    try assumption; try reflexivity.
  { rewrite Hmerged. exact Hs. }
  exists st', sh', served, (pull_payload st1 (key msg)).
  split; [exact Hrun|]. split; [exact Hshd|]. split; [exact Htr|].
  unfold ServerSpec.pull_payload. rewrite Hmerged.
  split; [reflexivity|]. split; [reflexivity|].
  split; [exact Hso|]. split; [exact Hbk|exact Hinv'].
Qed.

End Handlers.

(** C2 as stated fails with one worker: the first push of a step is then
    also the N-th, [pending_requests] is empty, and the message enqueued for
    it is COPY_FIRST; no SUM_RECV is enqueued. *)
Lemma nth_push_single_worker_copy_first :
  exists st', example_push 1 [] 9 = Ok st' /\
    length (request (updates_of (example_server 1 []) 7)) = (1 - 1)%nat /\
    enqueued_ops (trace st') = [COPY_FIRST; ALL_RECV] /\
    SUM_RECV ∉ enqueued_ops (trace st').
Proof.
  eexists. split; [vm_compute; reflexivity|]. split; [reflexivity|].
  split; [reflexivity|]. cbn. intros H.
  repeat (apply elem_of_cons in H as [H|H]; [discriminate|]). inversion H.
Qed.

(** C2, amended.  In sync mode with a non-blocking engine, for a push that
    finds [N - 1] requests buffered for the key: the handler enqueues one
    message for the push on the shard of the key (SUM_RECV when
    [N >= 2], COPY_FIRST when [N = 1]), acks the push, enqueues ALL_RECV
    on the same shard, clears the counter of the key in that queue, and
    empties [pending_requests].  For a push that finds fewer than [N]
    requests buffered, the buffer holds at most [N] requests when the new
    one is appended and fewer than [N] when the handler returns. *)
Theorem nth_push_seals_merge :
  forall (GetThreadID : Z -> Z -> nat) (reducer_sum : ptr -> ptr -> nat -> Z -> Z)
         (k : Z) (ty : DataHandleType) (n : nat) (stored : BytePSArray)
         (recved : ptr) (req : KVMeta) (req_data : KVPairs) (mixed : bool)
         (st : server) (w : Z),
    sync_mode_ st = true -> is_engine_blocking_ st = false ->
    push_workload st k stored = Ok w ->
    (length (request (updates_of st k)) < NumWorkers st)%nat ->
    let pending := request (updates_of st k) in
    let tid := GetThreadID k w in
    exists st',
      BytePSHandlePush GetThreadID reducer_sum k ty n stored recved req req_data
        mixed st = Ok st' /\
      (length (pending ++ [req]) <= NumWorkers st)%nat /\
      (length (request (updates_of st' k)) < NumWorkers st)%nat /\
      (length pending = (NumWorkers st - 1)%nat ->
       let op := if (NumWorkers st =? 1)%nat then COPY_FIRST else SUM_RECV in
       trace st' = trace st ++
         [QueuePush tid (mkMsg (timestamp_ st) ty k (tensor stored) recved n op
                           req_data req mixed);
          Response req (push_shell st k);
          QueuePush tid (mkMsg (timestamp_ st + 1)
                           (mkType (requestType ty) (a_dtype stored)) k
                           (tensor stored) (tensor stored) (a_len stored)
                           ALL_RECV req_data req mixed);
          QueueClearCounter tid k] /\
       request (updates_of st' k) = []).
Proof.
  intros GetThreadID reducer_sum k ty n stored recved req req_data mixed st w
         Hsync Hblk Hw Hlt pending tid.
  destruct (push_sync_nonblocking GetThreadID reducer_sum k ty n stored recved
              req req_data mixed st w Hsync Hblk Hw) as (st' & Hrun & HN & Hcase).
  fold pending in Hcase. fold tid in Hcase.
  exists st'. split; [exact Hrun|].
  assert (Hlen : length (pending ++ [req]) = Datatypes.S (length pending))
    by (rewrite length_app; simpl; lia).
  fold pending in Hlt.
  split; [lia|].
  destruct (length (pending ++ [req]) =? NumWorkers st)%nat eqn:E.
  - apply Nat.eqb_eq in E. destruct Hcase as [Htr Hreq].
    split; [rewrite Hreq; simpl; lia|]. intros _ op.
    split; [|exact Hreq]. rewrite Htr. subst op.
    destruct pending as [|p0 pending']; simpl in Hlen, E.
    + replace (NumWorkers st) with 1%nat by lia. reflexivity.
    + destruct (NumWorkers st =? 1)%nat eqn:E1; [apply Nat.eqb_eq in E1; simpl in *; lia|].
      reflexivity.
  - apply Nat.eqb_neq in E. destruct Hcase as [Htr Hreq].
    split; [rewrite Hreq; lia|]. intros Hp. lia.
Qed.

(** Two workers, the second push of the step. *)
Lemma nth_push_seals_merge_witness :
  exists st', example_push 2 [mkMeta 0 true 8] 9 = Ok st' /\
    enqueued_ops (trace st') = [SUM_RECV; ALL_RECV] /\
    request (updates_of st' 7) = [].
Proof.
  destruct (nth_push_seals_merge (fun _ _ => 0%nat) (fun _ _ _ _ => 0) 7
              (mkType kDefaultPushPull 0) 16 (mkArray 64%N 16 0 KVPairs_empty)
              128%N (mkMeta 0 true 9) (mkKV [7] (mkSArray 128%N 16) [16%nat])
              false (example_server 2 [mkMeta 0 true 8]) 16)
    as (st' & Hrun & _ & _ & Hn).
  - reflexivity.
  - reflexivity.
  - vm_compute. reflexivity.
  - vm_compute. lia.
  - exists st'. split; [exact Hrun|].
    destruct (Hn eq_refl) as [Htr Hreq]. split; [|exact Hreq].
    rewrite Htr. reflexivity.
Defined.

(** C1.  In sync mode with a non-blocking engine, on the shard [i] of key
    [k] with [N] workers, for a pull request of the key and for the ALL_RECV
    case of the engine alike: if the bookkeeping invariant holds and the
    merged buffer is set, the operation returns, changes shard [i] only, and
    - answers a list [served] of requests whose senders are distinct and
      were not yet served in this step ([seen_sender]);
    - every answer carries the merged buffer of the key: the pointer
      [updates.merged.tensor] and the length [updates.merged.len];
    - [pull_cnt + length served] does not exceed [N]; when it equals [N]
      the state is reset ([is_push_finished = false], [pull_cnt = 0],
      [seen_sender] empty), otherwise [pull_cnt] and [seen_sender] record
      the senders served and nothing is reset;
    - the invariant holds again. *)
Theorem pull_bookkeeping_preserved :
  forall (GetThreadID : Z -> Z -> nat) (EncodeKey : Z -> Z)
         (i : nat) (k : Z) (op : pull_op) (st : server) (sh : shard),
    sync_mode_ st = true -> is_engine_blocking_ st = false ->
    GetThreadID k 0 = i -> shards st !! i = Some sh ->
    pull_inv (NumWorkers st) sh k ->
    tensor (merged (updates_of st k)) <> 0%N ->
    pull_op_ready k op ->
    exists st' sh' served,
      run_pull_op GetThreadID EncodeKey i k op st = Ok st' /\
      shards st' = <[i := sh']> (shards st) /\
      trace st' = trace st ++
        ((fun m => Response m (pull_payload EncodeKey st k)) <$> served) /\
      vals (pull_payload EncodeKey st k)
        = mkSArray (tensor (merged (updates_of st k)))
                   (a_len (merged (updates_of st k))) /\
      lens (pull_payload EncodeKey st k) = [a_len (merged (updates_of st k))] /\
      merged (updates_of st' k) = merged (updates_of st k) /\
      served_once sh k served /\
      bookkeeping_after (NumWorkers st) sh sh' k served (finished_after sh k op) /\
      NumWorkers st' = NumWorkers st /\
      pull_inv (NumWorkers st) sh' k.
Proof.
  intros GetThreadID EncodeKey i k op st sh Hsync Hblk Htid Hsh Hinv Hm Hready.
  destruct (pull_step GetThreadID EncodeKey i k op st sh Hsync Hblk Htid Hsh
              Hinv Hm Hready)
    as (st' & sh' & served & Hrun & Hshd & HN & Hup & Htr & Hso & Hbk & Hinv').
  exists st', sh', served. rewrite Hup.
  split; [exact Hrun|]. split; [exact Hshd|]. split; [exact Htr|].
  split; [reflexivity|]. split; [reflexivity|]. split; [reflexivity|].
  split; [exact Hso|]. split; [exact Hbk|]. split; [exact HN|exact Hinv'].
Qed.

(** Senders 8 and 9 are answered once each with the merged buffer
    (address 64, 16 bytes), the state is reset, and the second pull of
    sender 8 stays parked for the next step. *)
Lemma all_recv_example :
  exists st' sh',
    all_recv_case (fun k => k) 0 example_all_recv example_parked = Ok st' /\
    trace st' = [Response (mkMeta 0 false 8) (mkKV [7] (mkSArray 64%N 16) [16%nat]);
                 Response (mkMeta 0 false 9) (mkKV [7] (mkSArray 64%N 16) [16%nat])] /\
    shards st' = [sh'] /\
    push_finished sh' 7 = false /\ pull_cnt sh' 7 = 0%nat /\
    seen_sender sh' 7 = ∅ /\
    q_pull_reqmeta sh' 7 = [mkMeta 0 false 8].
Proof.
  eexists _, _. split; [vm_compute; reflexivity|].
  repeat split; vm_compute; reflexivity.
Qed.

Lemma pull_bookkeeping_preserved_witness :
  exists st' sh' served,
    all_recv_case (fun k => k) 0 example_all_recv example_parked = Ok st' /\
    shards st' = [sh'] /\
    served_once (mkShard ∅ ∅ ∅ {[ 7 := [mkMeta 0 false 8; mkMeta 0 false 9;
                                         mkMeta 0 false 8] ]}) 7 served /\
    pull_inv 2 sh' 7.
Proof.
  destruct (pull_bookkeeping_preserved (fun _ _ => 0%nat) (fun k => k) 0 7
              (AllRecv example_all_recv) example_parked
              (mkShard ∅ ∅ ∅ {[ 7 := [mkMeta 0 false 8; mkMeta 0 false 9;
                                       mkMeta 0 false 8] ]}))
    as (st' & sh' & served & Hrun & Hshd & _ & _ & _ & _ & Hso & _ & _ & Hinv).
  - reflexivity.
  - reflexivity.
  - reflexivity.
  - reflexivity.
  - split; [reflexivity|]. split; [vm_compute; lia|]. reflexivity.
  - vm_compute. discriminate.
  - reflexivity.
  - exists st', sh', served. split; [exact Hrun|]. split; [exact Hshd|].
    split; [exact Hso|exact Hinv].
Defined.

(** *** Initialisation, configuration and dispatch *)

Ltac srv2 :=
  repeat progress
    (unfold updates_of, set_request, set_merged;
     cbn [sync_mode_ is_engine_blocking_ NumWorkers lb_factor_ timestamp_
          store_ update_buf_ fp16_copy_ compressor_map_ push_response_map_
          pull_response_map_ shards trace request merged
          emit set_update_buf set_timestamp set_push_response_map
          set_pull_response_map set_shards set_store set_fp16_copy
          set_compressor_map GetStore GetFP16Copy fst snd
          default from_option Datatypes.id];
     rewrite ?lookup_insert_eq).

Lemma SendPushResponse_shell k req st :
  push_shell (SendPushResponse k req st) k = push_shell st k.
Proof.
  unfold SendPushResponse, push_shell.
  destruct (push_response_map_ st !! k) eqn:E; srv2; rewrite ?E; reflexivity.
Qed.

Lemma SendPushResponse_other k req st :
  update_buf_ (SendPushResponse k req st) = update_buf_ st /\
  store_ (SendPushResponse k req st) = store_ st /\
  fp16_copy_ (SendPushResponse k req st) = fp16_copy_ st /\
  compressor_map_ (SendPushResponse k req st) = compressor_map_ st /\
  same_config st (SendPushResponse k req st).
Proof.
  unfold SendPushResponse, same_config.
  destruct (push_response_map_ st !! k); repeat split; reflexivity.
Qed.

Lemma respond_all_spec k reqs : forall st,
  trace (respond_all k reqs st)
  = trace st ++ ((fun r => Response r (push_shell st k)) <$> reqs) /\
  update_buf_ (respond_all k reqs st) = update_buf_ st /\
  store_ (respond_all k reqs st) = store_ st /\
  fp16_copy_ (respond_all k reqs st) = fp16_copy_ st /\
  compressor_map_ (respond_all k reqs st) = compressor_map_ st /\
  same_config st (respond_all k reqs st).
Proof.
  induction reqs as [|r reqs IH]; intros st.
  - cbn. rewrite app_nil_r. unfold same_config. repeat split; reflexivity.
  - unfold respond_all in *. cbn [fold_left fmap list_fmap].
    destruct (IH (SendPushResponse k r st)) as (H1 & H2 & H3 & H4 & H5 & H6).
    destruct (SendPushResponse_other k r st) as (G2 & G3 & G4 & G5 & G6).
    rewrite H1, H2, H3, H4, H5, SendPushResponse_trace, SendPushResponse_shell,
      <- app_assoc.
    split; [reflexivity|]. repeat (split; [assumption|]).
    unfold same_config in *. intuition congruence.
Qed.

Lemma updates_of_insert st k u k' (st0 : server) :
  update_buf_ st = <[k := u]> (update_buf_ st0) ->
  updates_of st k' = if decide (k' = k) then u else updates_of st0 k'.
Proof.
  intros H. unfold updates_of. rewrite H.
  destruct (decide (k' = k)) as [->|Hne].
  - rewrite lookup_insert_eq. reflexivity.
  - rewrite lookup_insert_ne by congruence. reflexivity.
Qed.

Lemma buffer_and_respond_spec k req st :
  let st' := buffer_and_respond k req st in
  let pending := request (updates_of st k) in
  trace st' = trace st ++ acks_after (NumWorkers st) pending req (push_shell st k) /\
  request (updates_of st' k) = pending_after (NumWorkers st) pending req /\
  (forall k', merged (updates_of st' k') = merged (updates_of st k')) /\
  (forall k', k' <> k -> updates_of st' k' = updates_of st k') /\
  store_ st' = store_ st /\ fp16_copy_ st' = fp16_copy_ st /\
  compressor_map_ st' = compressor_map_ st /\ same_config st st'.
Proof.
  intros st' pending. subst st'. unfold buffer_and_respond, acks_after, pending_after.
  set (st1 := set_update_buf (<[k:=updates_of st k]> (update_buf_ st)) st).
  set (st2 := set_request k (request (updates_of st1 k) ++ [req]) st1).
  assert (H1 : forall k', updates_of st1 k' = updates_of st k').
  { intros k'. rewrite (updates_of_insert st1 k (updates_of st k) k' st) by reflexivity.
    destruct (decide (k' = k)) as [->|]; reflexivity. }
  assert (H2 : forall k', updates_of st2 k'
                 = if decide (k' = k)
                   then mkUpdate (pending ++ [req]) (merged (updates_of st k))
                   else updates_of st k').
  { intros k'. unfold st2, set_request.
    rewrite (updates_of_insert _ k _ k' st1) by reflexivity.
    rewrite !H1. reflexivity. }
  assert (Hreq2 : request (updates_of st2 k) = pending ++ [req]).
  { rewrite H2, decide_True by reflexivity. reflexivity. }
  rewrite Hreq2.
  change (NumWorkers st2) with (NumWorkers st).
  destruct (length (pending ++ [req]) <? NumWorkers st)%nat.
  - rewrite app_nil_r. split; [reflexivity|]. split; [exact Hreq2|].
    split; [|split].
    + intros k'. rewrite H2. destruct (decide (k' = k)) as [->|]; reflexivity.
    + intros k' Hne. rewrite H2, decide_False by assumption. reflexivity.
    + unfold same_config. repeat split; reflexivity.
  - destruct (respond_all_spec k (pending ++ [req]) st2) as (T1 & T2 & T3 & T4 & T5 & T6).
    set (st3 := respond_all k (pending ++ [req]) st2) in *.
    assert (H3 : forall k', updates_of st3 k' = updates_of st2 k').
    { intros k'. unfold updates_of. rewrite T2. reflexivity. }
    assert (H4 : forall k', updates_of (set_request k [] st3) k'
                   = if decide (k' = k)
                     then mkUpdate [] (merged (updates_of st k))
                     else updates_of st k').
    { intros k'. unfold set_request.
      rewrite (updates_of_insert _ k _ k' st3) by reflexivity.
      assert (Hm : merged (updates_of st3 k) = merged (updates_of st k)).
      { rewrite H3, H2. destruct (decide (k = k)); [reflexivity|congruence]. }
      rewrite Hm, H3, H2.
      destruct (decide (k' = k)); reflexivity. }
    split.
    { change (trace (set_request k [] st3)) with (trace st3). rewrite T1. reflexivity. }
    split; [rewrite H4, decide_True by reflexivity; reflexivity|].
    split; [|split].
    + intros k'. rewrite H4. destruct (decide (k' = k)) as [->|]; reflexivity.
    + intros k' Hne. rewrite H4, decide_False by assumption. reflexivity.
    + change (store_ (set_request k [] st3)) with (store_ st3).
      change (fp16_copy_ (set_request k [] st3)) with (fp16_copy_ st3).
      change (compressor_map_ (set_request k [] st3)) with (compressor_map_ st3).
      rewrite T3, T4, T5. repeat (split; [reflexivity|]).
      unfold same_config in *. cbn. intuition.
Qed.

Section Config.
Variable Align : nat -> nat.
Variable CompressorRegistry_Create : KVPairs -> nat -> nat -> Z -> bool.
Local Abbreviation BytePSHandleConfigReq :=
  (BytePSHandleConfigReq Align CompressorRegistry_Create).

Lemma config_req_spec k ty req req_data st :
  let pending := request (updates_of st k) in
  let stored := default BytePSArray_empty (store_ st !! k) in
  (k ∈ compressor_map_ st \/
   exists l0 ls, lens req_data = l0 :: ls /\
     CompressorRegistry_Create req_data l0 (Align (a_len stored)) (a_dtype stored) = true) ->
  exists st',
    BytePSHandleConfigReq k ty req req_data st = Ok st' /\
    compressor_map_ st' = {[k]} ∪ compressor_map_ st /\
    trace st' = trace st ++ acks_after (NumWorkers st) pending req (push_shell st k) /\
    request (updates_of st' k) = pending_after (NumWorkers st) pending req /\
    (forall k', merged (updates_of st' k') = merged (updates_of st k')) /\
    same_config st st'.
Proof.
  intros pending stored Hacc. unfold Server.BytePSHandleConfigReq.
  destruct (decide (k ∈ compressor_map_ st)) as [Hin|Hnin].
  - rewrite bind_Ok.
    destruct (buffer_and_respond_spec k req st) as (H1 & H2 & H3 & _ & _ & _ & H7 & H8).
    eexists. split; [reflexivity|]. rewrite H7.
    split; [set_solver|]. auto.
  - destruct Hacc as [Hin|(l0 & ls & Hl & Hc)]; [contradiction|].
    rewrite Hl. change (load (l0 :: ls) 0) with (Ok l0). rewrite bind_Ok.
    cbn [GetStore]. fold stored. rewrite Hc, bind_Ok.
    set (st1 := set_compressor_map _ _).
    destruct (buffer_and_respond_spec k req st1) as (H1 & H2 & H3 & _ & _ & _ & H7 & H8).
    eexists. split; [reflexivity|]. rewrite H7.
    split; [reflexivity|]. auto.
Qed.

Lemma config_req_rejected k ty req req_data st l0 ls :
  k ∉ compressor_map_ st -> lens req_data = l0 :: ls ->
  CompressorRegistry_Create req_data l0
    (Align (a_len (default BytePSArray_empty (store_ st !! k))))
    (a_dtype (default BytePSArray_empty (store_ st !! k))) = false ->
  BytePSHandleConfigReq k ty req req_data st
  = Fatal "Check failed: compressor_ptr != nullptr".
Proof.
  intros Hnin Hl Hc. unfold Server.BytePSHandleConfigReq.
  rewrite decide_False by assumption.
  rewrite Hl. change (load (l0 :: ls) 0) with (Ok l0). rewrite bind_Ok.
  cbn [GetStore]. rewrite Hc. reflexivity.
Qed.


(** What [BytePSHandleConfigReq] has done when it returns. *)
Lemma config_inv k ty req req_data st st' :
  BytePSHandleConfigReq k ty req req_data st = Ok st' ->
  let pending := request (updates_of st k) in
  compressor_map_ st' = {[k]} ∪ compressor_map_ st /\
  trace st' = trace st ++ acks_after (NumWorkers st) pending req (push_shell st k) /\
  request (updates_of st' k) = pending_after (NumWorkers st) pending req /\
  (forall k', merged (updates_of st' k') = merged (updates_of st k')) /\
  (forall k', k' <> k -> updates_of st' k' = updates_of st k') /\
  same_config st st'.
Proof.
  intros Hrun pending. revert Hrun. unfold Server.BytePSHandleConfigReq.
  destruct (decide (k ∈ compressor_map_ st)) as [Hin|Hnin].
  - rewrite bind_Ok. intros [= <-].
    destruct (buffer_and_respond_spec k req st) as (H1 & H2 & H3 & H4 & _ & _ & H7 & H8).
    rewrite H7. split; [set_solver|]. auto.
  - destruct (lens req_data) as [|l0 ls]; [discriminate|].
    change (load (l0 :: ls) 0) with (Ok l0). rewrite bind_Ok.
    cbn [GetStore].
    destruct (CompressorRegistry_Create _ _ _ _); [|discriminate].
    rewrite bind_Ok. intros [= <-].
    set (st1 := set_compressor_map _ _).
    destruct (buffer_and_respond_spec k req st1) as (H1 & H2 & H3 & H4 & _ & _ & H7 & H8).
    rewrite H7. split; [reflexivity|]. auto.
Qed.
End Config.

Section Init.
Variable PageAlignedMalloc : server -> nat -> ptr.
Variable Align : nat -> nat.
Variable Promote : nat -> Z -> nat * Z.
Local Abbreviation BytePSHanleInit :=
  (BytePSHanleInit PageAlignedMalloc Align Promote).

Lemma init_prefix k ty n (st : server) :
  let st_a := if sync_mode_ st && bool_decide (update_buf_ st !! k = None)
              then set_update_buf
                     (<[k := mkUpdate [] (mkArray 0%N n (dtype ty) KVPairs_empty)]>
                        (update_buf_ st)) st
              else st in
  request (updates_of st_a k) = request (updates_of st k) /\
  tensor (merged (updates_of st_a k)) = tensor (merged (updates_of st k)) /\
  (forall k', k' <> k -> updates_of st_a k' = updates_of st k') /\
  trace st_a = trace st /\ store_ st_a = store_ st /\
  fp16_copy_ st_a = fp16_copy_ st /\
  push_response_map_ st_a = push_response_map_ st /\
  same_config st st_a.
Proof.
  cbv zeta. unfold same_config.
  destruct (sync_mode_ st && bool_decide (update_buf_ st !! k = None)) eqn:E;
    [|repeat split; reflexivity].
  apply andb_true_iff in E as [_ E]. apply bool_decide_eq_true in E.
  split; [|split; [|split]]; [| | |repeat split; reflexivity].
  - unfold updates_of at 2. rewrite E. srv2. reflexivity.
  - unfold updates_of at 2. rewrite E. srv2. reflexivity.
  - intros k' Hne. unfold updates_of. cbn [update_buf_ set_update_buf].
    rewrite lookup_insert_ne by congruence. reflexivity.
Qed.

(** What [BytePSHanleInit] has done when it returns. *)
Lemma init_inv k ty n stored req req_data mixed st st' :
  BytePSHanleInit k ty n stored req req_data mixed st = Ok st' ->
  let pending := request (updates_of st k) in
  (forall k', tensor (merged (updates_of st' k')) = tensor (merged (updates_of st k'))) /\
  (forall k', k' <> k -> updates_of st' k' = updates_of st k') /\
  request (updates_of st' k) = pending_after (NumWorkers st) pending req /\
  trace st' = trace st ++ acks_after (NumWorkers st) pending req (push_shell st k) /\
  same_config st st' /\
  if (length (pending ++ [req]) <? NumWorkers st)%nat
  then store_ st' = store_ st /\ fp16_copy_ st' = fp16_copy_ st
  else exists p n' dt,
         p <> 0%N /\
         store_ st' = <[k := mkArray p n' dt (tmp_sarray stored)]> (store_ st) /\
         (n', dt) = (if mixed then Promote n (dtype ty) else (n, dtype ty)) /\
         if mixed
         then exists q, q <> 0%N /\
                fp16_copy_ st'
                = <[k := mkArray q n (dtype ty)
                           (tmp_sarray (default BytePSArray_empty (fp16_copy_ st !! k)))]>
                    (fp16_copy_ st)
         else fp16_copy_ st' = fp16_copy_ st.
Proof.
  intros Hrun pending. revert Hrun. unfold Server.BytePSHanleInit.
  unfold pending_after, acks_after.
  destruct (init_prefix k ty n st) as (Ha1 & Ha0 & Hao & Ha2 & Ha3 & Ha4 & Ha6 & Ha5).
  set (st_a := if sync_mode_ st && bool_decide (update_buf_ st !! k = None)
               then _ else st) in *.
  set (st_b := set_update_buf (<[k:=updates_of st_a k]> (update_buf_ st_a)) st_a).
  assert (Hb : forall k', updates_of st_b k' = updates_of st_a k').
  { intros k'. rewrite (updates_of_insert st_b k (updates_of st_a k) k' st_a) by reflexivity.
    destruct (decide (k' = k)) as [->|]; reflexivity. }
  rewrite Hb, Ha1. fold pending.
  set (st_c := set_request k (pending ++ [req]) st_b).
  assert (Hc : forall k', updates_of st_c k'
                 = if decide (k' = k)
                   then mkUpdate (pending ++ [req]) (merged (updates_of st_a k))
                   else updates_of st k').
  { intros k'. unfold st_c, set_request.
    rewrite (updates_of_insert _ k _ k' st_b) by reflexivity. rewrite !Hb.
    destruct (decide (k' = k)); [reflexivity|]. apply Hao. assumption. }
  assert (Hck : request (updates_of st_c k) = pending ++ [req]).
  { rewrite Hc, decide_True by reflexivity. reflexivity. }
  rewrite Hck. change (NumWorkers st_c) with (NumWorkers st_a).
  destruct Ha5 as (S1 & S2 & S3). rewrite S3.
  destruct (length (pending ++ [req]) <? NumWorkers st)%nat eqn:Hcmp.
  { intros [= <-]. rewrite app_nil_r.
    split.
    { intros k'. rewrite Hc. destruct (decide (k' = k)) as [->|]; [exact Ha0|reflexivity]. }
    split; [intros k' Hne; rewrite Hc, decide_False by assumption; reflexivity|].
    split; [exact Hck|]. split; [exact Ha2|].
    split; [unfold same_config; auto|]. auto. }
  assert (Hfin : forall (st_e : server) p n' dt,
            update_buf_ st_e = update_buf_ st_c ->
            push_response_map_ st_e = push_response_map_ st ->
            trace st_e = trace st -> store_ st_e = store_ st ->
            same_config st st_e ->
            (let st_f := set_store (<[k:=mkArray p n' dt (tmp_sarray stored)]> (store_ st_e)) st_e in
             if (p =? 0)%N then Fatal "Check failed: stored->tensor"
             else Ok (set_request k [] (respond_all k (request (updates_of st_f k)) st_f)))
            = Ok st' ->
            p <> 0%N /\
            store_ st' = <[k := mkArray p n' dt (tmp_sarray stored)]> (store_ st) /\
            fp16_copy_ st' = fp16_copy_ st_e /\
            trace st' = trace st
                ++ ((fun r => Response r (push_shell st k)) <$> (pending ++ [req])) /\
            (forall k', updates_of st' k'
               = if decide (k' = k)
                 then mkUpdate [] (merged (updates_of st_a k))
                 else updates_of st k') /\
            same_config st st').
  { intros st_e p n' dt Hu Hprm Htr Hst Hcfg. cbv zeta.
    destruct (N.eqb_spec p 0) as [|Hp]; [discriminate|].
    set (st_f := set_store _ st_e).
    assert (Hf : forall k', updates_of st_f k' = updates_of st_c k').
    { intros k'. unfold updates_of, st_f. cbn [update_buf_ set_store]. rewrite Hu.
      reflexivity. }
    rewrite Hf, Hck.
    destruct (respond_all_spec k (pending ++ [req]) st_f) as (T1 & T2 & T3 & T4 & T5 & T6).
    set (st_g := respond_all k (pending ++ [req]) st_f) in *.
    assert (Hg : forall k', updates_of st_g k' = updates_of st_c k').
    { intros k'. unfold updates_of. rewrite T2. apply Hf. }
    intros [= <-]. split; [exact Hp|].
    change (store_ (set_request k [] st_g)) with (store_ st_g).
    change (fp16_copy_ (set_request k [] st_g)) with (fp16_copy_ st_g).
    change (trace (set_request k [] st_g)) with (trace st_g).
    rewrite T3, T4, T1.
    split; [unfold st_f; cbn [store_ set_store]; rewrite Hst; reflexivity|].
    split; [reflexivity|].
    split.
    { unfold st_f. cbn [trace set_store]. rewrite Htr. do 2 f_equal.
      unfold push_shell. cbn [push_response_map_ set_store]. rewrite Hprm. reflexivity. }
    split.
    { intros k'. unfold set_request.
      rewrite (updates_of_insert _ k _ k' st_g) by reflexivity.
      destruct (decide (k' = k)) as [->|Hne].
      - rewrite Hg, Hc. destruct (decide (k = k)); [reflexivity|congruence].
      - rewrite Hg, Hc. destruct (decide (k' = k)); [congruence|reflexivity]. }
    unfold same_config in *. cbn. destruct T6 as (U1 & U2 & U3).
    cbn in U1, U2, U3. intuition congruence. }
  assert (Hwrap : forall p n' dt fp,
            p <> 0%N ->
            store_ st' = <[k := mkArray p n' dt (tmp_sarray stored)]> (store_ st) ->
            trace st' = trace st
                ++ ((fun r => Response r (push_shell st k)) <$> (pending ++ [req])) ->
            (forall k', updates_of st' k'
               = if decide (k' = k)
                 then mkUpdate [] (merged (updates_of st_a k))
                 else updates_of st k') ->
            same_config st st' ->
            (n', dt) = (if mixed then Promote n (dtype ty) else (n, dtype ty)) ->
            (if mixed
             then exists q, q <> 0%N /\
                    fp16_copy_ st'
                    = <[k := mkArray q n (dtype ty)
                               (tmp_sarray (default BytePSArray_empty (fp16_copy_ st !! k)))]>
                        (fp16_copy_ st)
             else fp16_copy_ st' = fp16_copy_ st) = fp ->
            fp ->
            (forall k', tensor (merged (updates_of st' k')) = tensor (merged (updates_of st k'))) /\
            (forall k', k' <> k -> updates_of st' k' = updates_of st k') /\
            request (updates_of st' k) = [] /\
            trace st' = trace st
                ++ ((fun r => Response r (push_shell st k)) <$> (pending ++ [req])) /\
            same_config st st' /\
            exists p n' dt,
              p <> 0%N /\
              store_ st' = <[k := mkArray p n' dt (tmp_sarray stored)]> (store_ st) /\
              (n', dt) = (if mixed then Promote n (dtype ty) else (n, dtype ty)) /\
              fp).
  { intros p n' dt fp Hp F1 F3 F4 F5 Hnd <- Hfp.
    split.
    { intros k'. rewrite F4. destruct (decide (k' = k)) as [->|]; [exact Ha0|reflexivity]. }
    split; [intros k' Hne; rewrite F4, decide_False by assumption; reflexivity|].
    split; [rewrite F4, decide_True by reflexivity; reflexivity|].
    split; [exact F3|]. split; [exact F5|].
    exists p, n', dt. auto. }
  destruct mixed.
  - cbn [GetFP16Copy].
    set (copy := default BytePSArray_empty (fp16_copy_ st_c !! k)).
    set (st_d := set_fp16_copy (<[k:=copy]> (fp16_copy_ st_c)) st_c).
    set (q := PageAlignedMalloc st_d n).
    destruct (N.eqb_spec q 0) as [|Hq]; [discriminate|].
    destruct (Promote n (dtype ty)) as [n' dt] eqn:HP. rewrite bind_Ok.
    cbn beta iota.
    set (st_e := set_fp16_copy _ st_d).
    intros Hrun.
    destruct (Hfin st_e _ n' dt eq_refl Ha6 Ha2 Ha3 ltac:(unfold same_config; auto) Hrun)
      as (Hp & F1 & F2 & F3 & F4 & F5).
    eapply Hwrap; eauto.
    exists q. split; [exact Hq|]. rewrite F2. unfold st_e, st_d.
    cbn [fp16_copy_ set_fp16_copy]. rewrite insert_insert_eq.
    unfold copy. change (fp16_copy_ st_c) with (fp16_copy_ st_a). rewrite Ha4.
    reflexivity.
  - rewrite bind_Ok. cbn beta iota. intros Hrun.
    destruct (Hfin st_c _ n (dtype ty) eq_refl Ha6 Ha2 Ha3 ltac:(unfold same_config; auto) Hrun)
      as (Hp & F1 & F2 & F3 & F4 & F5).
    eapply Hwrap; eauto. rewrite F2. exact Ha4.
Qed.

(** It returns unless an allocation fails. *)
Lemma init_returns k ty n stored req req_data mixed st :
  (length (request (updates_of st k) ++ [req]) < NumWorkers st)%nat \/
  (forall s sz, PageAlignedMalloc s sz <> 0%N) ->
  exists st', BytePSHanleInit k ty n stored req req_data mixed st = Ok st'.
Proof.
  intros Hcase. unfold Server.BytePSHanleInit.
  destruct (init_prefix k ty n st) as (Ha1 & Ha0 & Hao & Ha2 & Ha3 & Ha4 & Ha6 & Ha5).
  set (st_a := if sync_mode_ st && bool_decide (update_buf_ st !! k = None)
               then _ else st) in *.
  set (st_b := set_update_buf (<[k:=updates_of st_a k]> (update_buf_ st_a)) st_a).
  assert (Hb : updates_of st_b k = updates_of st_a k).
  { unfold st_b. srv2. reflexivity. }
  rewrite Hb, Ha1.
  set (st_c := set_request k (request (updates_of st k) ++ [req]) st_b).
  assert (Hck : request (updates_of st_c k) = request (updates_of st k) ++ [req]).
  { unfold st_c. srv2. reflexivity. }
  rewrite Hck. change (NumWorkers st_c) with (NumWorkers st_a).
  destruct Ha5 as (S1 & S2 & S3). rewrite S3.
  destruct (Nat.ltb_spec (length (request (updates_of st k) ++ [req])) (NumWorkers st))
    as [Hlt|Hge]; [eexists; reflexivity|].
  destruct Hcase as [Hlt|Hm]; [lia|].
  destruct mixed.
  - cbn [GetFP16Copy].
    match goal with |- context [(PageAlignedMalloc ?s ?z =? 0)%N] =>
      destruct (N.eqb_spec (PageAlignedMalloc s z) 0) as [E|_]; [destruct (Hm _ _ E)|] end.
    destruct (Promote n (dtype ty)) as [n' dt]. rewrite bind_Ok. cbn beta iota.
    match goal with |- context [(PageAlignedMalloc ?s ?z =? 0)%N] =>
      destruct (N.eqb_spec (PageAlignedMalloc s z) 0) as [E|_]; [destruct (Hm _ _ E)|] end.
    eexists; reflexivity.
  - rewrite bind_Ok. cbn beta iota.
    match goal with |- context [(PageAlignedMalloc ?s ?z =? 0)%N] =>
      destruct (N.eqb_spec (PageAlignedMalloc s z) 0) as [E|_]; [destruct (Hm _ _ E)|] end.
    eexists; reflexivity.
Qed.
End Init.

Section Push.
Variable GetThreadID : Z -> Z -> nat.
Variable reducer_sum : ptr -> ptr -> nat -> Z -> Z.

Lemma push_any_mode k ty n stored recved req req_data mixed st st' :
  BytePSHandlePush GetThreadID reducer_sum k ty n stored recved req req_data mixed st
  = Ok st' ->
  let pending := request (updates_of st k) in
  exists evs,
    trace st' = trace st ++ evs /\
    List.filter is_response evs = [Response req (push_shell st k)] /\
    (forall k', tensor (merged (updates_of st' k')) = tensor (merged (updates_of st k'))) /\
    (forall k', k' <> k -> updates_of st' k' = updates_of st k') /\
    same_config st st' /\ store_ st' = store_ st /\
    ((length pending < NumWorkers st)%nat ->
     (length (request (updates_of st' k)) < NumWorkers st)%nat) /\
    (sync_mode_ st = false -> enqueued_ops evs = [] /\ request (updates_of st' k) = []) /\
    (is_engine_blocking_ st = true -> Forall (fun o => o = COPY_FIRST) (enqueued_ops evs)).
Proof.
  intros Hrun pending. subst pending. revert Hrun.
  destruct st as [sm eb N lb ts store ub fp cm prm plm sh tr].
  unfold BytePSHandlePush.
  match goal with
  | |- context [push_workload ?s k stored] =>
      destruct (push_workload s k stored) as [w| |] eqn:Hw; try discriminate
  end.
  rewrite bind_Ok. clear Hw.
  unfold push_shell, SendPushResponse, same_config.
  assert (Hother : forall (u : UpdateBuf) k', k' <> k ->
            default UpdateBuf_empty (<[k:=u]> ub !! k') = default UpdateBuf_empty (ub !! k')).
  { intros u k' Hne. rewrite lookup_insert_ne by congruence. reflexivity. }
  destruct (ub !! k) as [[pend mrg]|] eqn:Hub; srv; rewrite ?Hub; srv;
    cbn [UpdateBuf_empty request merged].
  1: destruct pend as [|p0 pending'].
  all: destruct sm, eb; cbn [negb andb]; try discriminate.
  all: repeat match goal with
       | |- context [reducer_sum ?a ?b ?c ?d <? 0] =>
           destruct (reducer_sum a b c d <? 0); try discriminate
       end.
  all: rewrite ?bind_Ok; srv.
  all: destruct (prm !! k) as [shell|] eqn:Hs; srv.
  all: repeat match goal with
       | |- context [(?a =? ?b)%nat] => destruct (Nat.eqb_spec a b)
       end.
  all: cbn [andb negb]; intros [= <-]; srv.
  all: eexists; (split; [rewrite <- ?app_assoc; reflexivity|]).
  all: split; [reflexivity|].
  all: split; [intros k'; destruct (decide (k' = k)) as [->|Hne];
               [srv; rewrite ?Hub; reflexivity
               |srv; rewrite ?lookup_insert_ne by congruence; reflexivity]|].
  all: split; [intros k' Hne; srv; rewrite ?lookup_insert_ne by congruence; reflexivity|].
  all: split; [repeat split; reflexivity|].
  all: split; [reflexivity|].
  all: split; [cbn [length app] in *; rewrite ?length_app in *; cbn [length] in *; lia|].
  all: split; [intros Hsm; try discriminate; split; reflexivity|].
  all: intros Heb; try discriminate; repeat constructor.
Qed.

Lemma push_blocking_events k ty n stored recved req req_data mixed st st' :
  sync_mode_ st = true -> is_engine_blocking_ st = true ->
  BytePSHandlePush GetThreadID reducer_sum k ty n stored recved req req_data mixed st
  = Ok st' ->
  let m := merged (updates_of st k) in
  (request (updates_of st k) <> [] ->
   ReducerSum (tensor m) recved n (a_dtype m) ∈ trace st') /\
  (S (length (request (updates_of st k))) = NumWorkers st ->
   ReducerCopy (tensor stored) (tensor m) n ∈ trace st').
Proof.
  intros Hsync Hblk Hrun m. subst m. revert Hrun.
  destruct st as [sm eb N lb ts store ub fp cm prm plm sh tr].
  cbn in Hsync, Hblk. subst sm eb.
  unfold BytePSHandlePush.
  match goal with
  | |- context [push_workload ?s k stored] =>
      destruct (push_workload s k stored) as [w| |] eqn:Hw; try discriminate
  end.
  rewrite bind_Ok. clear Hw.
  unfold SendPushResponse.
  destruct (ub !! k) as [[pend mrg]|] eqn:Hub; srv; rewrite ?Hub; srv;
    cbn [UpdateBuf_empty request merged].
  1: destruct pend as [|p0 pending'].
  all: cbn [negb andb].
  all: repeat match goal with
       | |- context [reducer_sum ?a ?b ?c ?d <? 0] =>
           destruct (reducer_sum a b c d <? 0); try discriminate
       end.
  all: rewrite ?bind_Ok; srv.
  all: destruct (prm !! k) as [shell|] eqn:Hs; srv.
  all: repeat match goal with
       | |- context [(?a =? ?b)%nat] => destruct (Nat.eqb_spec a b)
       end.
  all: cbn [andb negb]; intros [= <-]; srv.
  all: split; [intros Hne; try congruence|intros HN; cbn [length app] in *;
               rewrite ?length_app in *; cbn [length] in *; try lia].
  all: rewrite ?elem_of_app, ?elem_of_cons; auto 10.
Qed.
End Push.

Lemma enqueued_ops_app a b : enqueued_ops (a ++ b) = enqueued_ops a ++ enqueued_ops b.
Proof. unfold enqueued_ops. apply omap_app. Qed.

Lemma enqueued_ops_in i msg evs :
  QueuePush i msg ∈ evs -> ops msg ∈ enqueued_ops evs.
Proof.
  intros H. unfold enqueued_ops. apply list_elem_of_omap.
  exists (QueuePush i msg). split; [assumption|reflexivity].
Qed.

Lemma enqueued_ops_responses (f : KVMeta -> effect) (l : list KVMeta) :
  (forall r, exists res, f r = Response r res) -> enqueued_ops (f <$> l) = [].
Proof.
  intros Hf. induction l as [|r l IH]; [reflexivity|].
  cbn [fmap list_fmap]. unfold enqueued_ops in *. cbn [omap list_omap].
  destruct (Hf r) as [res ->]. exact IH.
Qed.

Lemma acks_after_ops n pending req shell :
  enqueued_ops (acks_after n pending req shell) = [].
Proof.
  unfold acks_after. destruct (_ <? _)%nat; [reflexivity|].
  apply enqueued_ops_responses. intros r. eexists; reflexivity.
Qed.

Lemma pending_after_length n pending req :
  (length pending < n)%nat -> (length (pending_after n pending req) < n)%nat.
Proof.
  intros H. unfold pending_after.
  destruct (Nat.ltb_spec (length (pending ++ [req])) n); [assumption|cbn; lia].
Qed.

Section Pull.
Variable EncodeKey : Z -> Z.

Lemma SendPullResponse_inv k req st st' :
  SendPullResponse EncodeKey k req st = Ok st' ->
  tensor (merged (updates_of st k)) <> 0%N /\
  (forall k', updates_of st' k' = updates_of st k') /\
  same_config st st' /\ shards st' = shards st /\
  exists res, trace st' = trace st ++ [Response req res].
Proof.
  unfold SendPullResponse. cbv zeta.
  destruct (N.eqb_spec (tensor (merged (updates_of st k))) 0) as [|Hne]; [discriminate|].
  cbn [pull_response_map_ set_update_buf].
  assert (Hu : forall (st1 : server),
            update_buf_ st1 = <[k := updates_of st k]> (update_buf_ st) ->
            forall k', updates_of st1 k' = updates_of st k').
  { intros st1 H1 k'. rewrite (updates_of_insert st1 k _ k' st H1).
    destruct (decide (k' = k)) as [->|]; reflexivity. }
  destruct (pull_response_map_ st !! k); intros [= <-].
  all: split; [exact Hne|]; split; [apply Hu; reflexivity|].
  all: split; [repeat split; reflexivity|]; split; [reflexivity|].
  all: eexists; reflexivity.
Qed.

Lemma SendPullResponse_null k req st :
  tensor (merged (updates_of st k)) = 0%N ->
  SendPullResponse EncodeKey k req st = Fatal "init key first".
Proof.
  intros H. unfold SendPullResponse. cbv zeta. rewrite H. reflexivity.
Qed.

Lemma flush_pulls_frame k it : forall kept sh st sh' st',
  flush_pulls EncodeKey k it kept sh st = Ok (sh', st') ->
  (forall k', updates_of st' k' = updates_of st k') /\
  same_config st st' /\
  exists evs, trace st' = trace st ++ evs /\ enqueued_ops evs = [].
Proof.
  induction it as [|m rest IH]; intros kept sh st sh' st'.
  - cbn. intros [= _ <-]. split; [reflexivity|]. split; [repeat split; reflexivity|].
    exists []. rewrite app_nil_r. split; reflexivity.
  - cbn [flush_pulls].
    destruct (decide (sender m ∈ seen_sender sh k)).
    + rewrite bind_Ok.
      destruct (pull_cnt sh k =? NumWorkers st)%nat.
      * intros [= _ <-]. split; [reflexivity|]. split; [repeat split; reflexivity|].
        exists []. rewrite app_nil_r. split; reflexivity.
      * apply IH.
    + destruct (SendPullResponse EncodeKey k m st) as [st1| |] eqn:E; try discriminate.
      apply SendPullResponse_inv in E as (_ & H1 & H2 & Hsh & res & H3).
      rewrite !bind_Ok.
      destruct (pull_cnt _ k =? NumWorkers st1)%nat.
      * intros [= _ <-]. split; [exact H1|]. split; [exact H2|].
        eexists; split; [exact H3|reflexivity].
      * intros H. apply IH in H as (G1 & G2 & evs & G3 & G4).
        split; [intros k'; rewrite G1; apply H1|].
        split; [unfold same_config in *; intuition congruence|].
        exists (Response m res :: evs). rewrite G3, H3, <- app_assoc.
        split; [reflexivity|exact G4].
Qed.
End Pull.

Section PullHandler.
Variable GetThreadID : Z -> Z -> nat.
Variable EncodeKey : Z -> Z.

Lemma pull_frame k ty stored req st st' :
  BytePSHandlePull GetThreadID EncodeKey k ty stored req st = Ok st' ->
  (forall k', updates_of st' k' = updates_of st k') /\
  same_config st st' /\
  exists evs, trace st' = trace st ++ evs /\ enqueued_ops evs = [].
Proof.
  unfold BytePSHandlePull.
  destruct (tensor stored =? 0)%N; [discriminate|].
  destruct (is_engine_blocking_ st || negb (sync_mode_ st)).
  { intros H. apply SendPullResponse_inv in H as (_ & H1 & H2 & _ & res & H3).
    split; [exact H1|]. split; [exact H2|]. eexists; split; [exact H3|reflexivity]. }
  destruct (load (shards st) (GetThreadID k 0)) as [sh| |]; try discriminate.
  rewrite bind_Ok.
  destruct (push_finished (init_flags k sh) k
            && bool_decide (sender req ∉ seen_sender (init_flags k sh) k)).
  - destruct (SendPullResponse EncodeKey k req st) as [st1| |] eqn:E; try discriminate.
    apply SendPullResponse_inv in E as (_ & H1 & H2 & Hsh & res & H3).
    rewrite !bind_Ok.
    destruct (store (shards st1) (GetThreadID k 0) _) as [l| |]; try discriminate.
    rewrite bind_Ok. intros [= <-].
    split; [exact H1|]. split; [exact H2|].
    eexists; split; [exact H3|reflexivity].
  - rewrite bind_Ok.
    destruct (store (shards st) (GetThreadID k 0) _) as [l| |]; try discriminate.
    rewrite bind_Ok. intros [= <-].
    split; [reflexivity|]. split; [repeat split; reflexivity|].
    exists []. rewrite app_nil_r. split; reflexivity.
Qed.

Lemma pull_null k ty stored req st :
  (is_engine_blocking_ st || negb (sync_mode_ st)) = true ->
  tensor (merged (updates_of st k)) = 0%N ->
  exists m, BytePSHandlePull GetThreadID EncodeKey k ty stored req st = Fatal m.
Proof.
  intros Hmode Hnull. unfold BytePSHandlePull.
  destruct (tensor stored =? 0)%N; [eexists; reflexivity|].
  rewrite Hmode, SendPullResponse_null by assumption. eexists; reflexivity.
Qed.

End PullHandler.

Section Engine.
Variable EncodeKey : Z -> Z.
Variable reducer_sum : ptr -> ptr -> nat -> Z -> Z.
Variable compress_output : Z -> SArray -> ptr -> SArray.
Variable decompress_output : Z -> SArray -> SArray * Z.

Lemma all_recv_case_frame i msg st st' :
  all_recv_case EncodeKey i msg st = Ok st' ->
  (forall k', updates_of st' k' = updates_of st k') /\
  same_config st st' /\
  exists evs, trace st' = trace st ++ evs /\ enqueued_ops evs = [].
Proof.
  unfold all_recv_case.
  destruct (load (shards st) i) as [sh| |]; try discriminate. rewrite bind_Ok.
  destruct (flush_pulls _ _ _ _ _ _) as [[sh1 st1]| |] eqn:E; try discriminate.
  rewrite bind_Ok. apply flush_pulls_frame in E as (H1 & H2 & evs & H3 & H4).
  destruct (store (shards st1) i sh1) as [l| |]; try discriminate.
  rewrite bind_Ok. intros [= <-].
  split; [exact H1|]. split; [exact H2|]. exists evs. split; assumption.
Qed.

Lemma set_merged_request k m st k' :
  request (updates_of (set_merged k m st) k') = request (updates_of st k').
Proof.
  unfold set_merged. rewrite (updates_of_insert _ k _ k' st) by reflexivity.
  destruct (decide (k' = k)) as [->|]; reflexivity.
Qed.

(** An iteration of the engine thread never touches the buffered requests
    and queues nothing; unless the message is ALL_RECV it leaves the update
    buffers alone. *)
Lemma engine_step_frame i msg st st' :
  engine_step EncodeKey reducer_sum compress_output decompress_output i msg st = Ok st' ->
  (forall k', request (updates_of st' k') = request (updates_of st k')) /\
  same_config st st' /\
  (exists evs, trace st' = trace st ++ evs /\ enqueued_ops evs = []) /\
  (ops msg <> ALL_RECV -> update_buf_ st' = update_buf_ st).
Proof.
  unfold engine_step.
  destruct (dst msg =? 0)%N; [discriminate|].
  destruct (src msg =? 0)%N; [discriminate|].
  destruct (decide (key msg ∈ compressor_map_ st)) as [Hc|Hc].
  - destruct (ops msg) eqn:Hop.
    + destruct (load (lens (sarray msg)) 0) as [cl| |]; try discriminate.
      rewrite bind_Ok. destruct (len msg <? cl)%nat; [discriminate|].
      destruct (decompress_output (key msg) (mkSArray (src msg) cl)) as [d dt].
      rewrite bind_Ok. cbn [ops mixed_precision dst src len type dtype].
      intros [= <-]. split; [reflexivity|]. split; [repeat split; reflexivity|].
      split; [|reflexivity]. eexists; split; [cbn [trace emit set_merged set_update_buf]; rewrite <- ?app_assoc; reflexivity|reflexivity].
    + destruct (load (lens (sarray msg)) 0) as [cl| |]; try discriminate.
      rewrite bind_Ok. destruct (len msg <? cl)%nat; [discriminate|].
      destruct (decompress_output (key msg) (mkSArray (src msg) cl)) as [d dt].
      rewrite bind_Ok. cbn [ops mixed_precision dst src len type dtype].
      destruct (reducer_sum _ _ _ _ <? 0); [discriminate|].
      intros [= <-]. split; [reflexivity|]. split; [repeat split; reflexivity|].
      split; [|reflexivity]. eexists.
      split; [cbn [trace emit set_merged set_update_buf]; rewrite <- ?app_assoc; reflexivity|reflexivity].
    + rewrite bind_Ok, Hop. intros H.
      apply all_recv_case_frame in H as (H1 & H2 & evs & H3 & H4).
      split; [intros k'; rewrite H1, set_merged_request; reflexivity|].
      split; [exact H2|]. split; [|congruence].
      eexists. split; [rewrite H3; cbn [trace set_merged set_update_buf emit];
                       rewrite <- app_assoc; reflexivity|].
      exact H4.
    + destruct (load (lens (sarray msg)) 0) as [cl| |]; try discriminate.
      rewrite bind_Ok. destruct (len msg <? cl)%nat; [discriminate|].
      destruct (decompress_output (key msg) (mkSArray (src msg) cl)) as [d dt].
      rewrite bind_Ok. cbn [ops]. discriminate.
  - destruct (ops msg) eqn:Hop.
    + rewrite bind_Ok, Hop. destruct (mixed_precision msg); intros [= <-].
      all: split; [reflexivity|]; split; [repeat split; reflexivity|].
      all: split; [|reflexivity]; eexists; split; [cbn [trace emit set_merged set_update_buf]; rewrite <- ?app_assoc; reflexivity|reflexivity].
    + rewrite bind_Ok, Hop. destruct (mixed_precision msg).
      * intros [= <-]. split; [reflexivity|]. split; [repeat split; reflexivity|].
        split; [|reflexivity]. eexists; split; [cbn [trace emit set_merged set_update_buf]; rewrite <- ?app_assoc; reflexivity|reflexivity].
      * destruct (reducer_sum _ _ _ _ <? 0); [discriminate|].
        intros [= <-]. split; [reflexivity|]. split; [repeat split; reflexivity|].
        split; [|reflexivity]. eexists; split; [cbn [trace emit set_merged set_update_buf]; rewrite <- ?app_assoc; reflexivity|reflexivity].
    + destruct (mixed_precision msg).
      * rewrite bind_Ok, Hop. intros H.
        apply all_recv_case_frame in H as (H1 & H2 & evs & H3 & H4).
        split; [intros k'; rewrite H1, set_merged_request; reflexivity|].
        split; [exact H2|]. split; [|congruence].
        eexists. split; [rewrite H3; cbn [trace set_merged set_update_buf emit];
                         rewrite <- app_assoc; reflexivity|].
        exact H4.
      * rewrite bind_Ok, Hop. intros H.
        apply all_recv_case_frame in H as (H1 & H2 & evs & H3 & H4).
        split; [intros k'; rewrite H1, set_merged_request; reflexivity|].
        split; [exact H2|]. split; [|congruence].
        eexists. split; [exact H3|exact H4].
    + rewrite bind_Ok, Hop. discriminate.
Qed.
End Engine.


Section Invariants.
Variable GetThreadID : Z -> Z -> nat.
Variable EncodeKey : Z -> Z.
Variable reducer_sum : ptr -> ptr -> nat -> Z -> Z.
Variable compress_output : Z -> SArray -> ptr -> SArray.
Variable decompress_output : Z -> SArray -> SArray * Z.
Variable PageAlignedMalloc : server -> nat -> ptr.
Variable Align : nat -> nat.
Variable Promote : nat -> Z -> nat * Z.
Variable CompressorRegistry_Create : KVPairs -> nat -> nat -> Z -> bool.
Variable DepairDataHandleType : Z -> DataHandleType.
Variable DecodeKey : Z -> Z.
Variable log_key_info_ : bool.
Variable BYTEPS_FLOAT16 : Z.

Local Abbreviation handler :=
  (handler GetThreadID EncodeKey reducer_sum PageAlignedMalloc Align Promote
     CompressorRegistry_Create DepairDataHandleType DecodeKey log_key_info_
     BYTEPS_FLOAT16).
Local Abbreviation server_step :=
  (server_step GetThreadID EncodeKey reducer_sum compress_output decompress_output
     PageAlignedMalloc Align Promote CompressorRegistry_Create
     DepairDataHandleType DecodeKey log_key_info_ BYTEPS_FLOAT16).

Lemma config_served k ty req req_data st st' :
  BytePSHandleConfigReq Align CompressorRegistry_Create k ty req req_data st = Ok st' ->
  request_served k st st'.
Proof.
  intros H. apply config_inv in H as (_ & H2 & H3 & H4 & H5 & H6).
  eexists. split; [exact H2|]. split; [exact H6|]. split; [exact H5|].
  split; [rewrite H3; apply pending_after_length|].
  intros _ Hnull. split; [intros k'; rewrite H4; apply Hnull|].
  rewrite acks_after_ops. constructor.
Qed.

Lemma init_served k ty n stored req req_data mixed st st' :
  BytePSHanleInit PageAlignedMalloc Align Promote k ty n stored req req_data mixed st
  = Ok st' ->
  request_served k st st'.
Proof.
  intros H. apply init_inv in H as (H1 & H2 & H3 & H4 & H5 & _).
  eexists. split; [exact H4|]. split; [exact H5|]. split; [exact H2|].
  split; [rewrite H3; apply pending_after_length|].
  intros _ Hnull. split; [intros k'; rewrite H1; apply Hnull|].
  rewrite acks_after_ops. constructor.
Qed.

Lemma push_served k ty n stored recved req req_data mixed st st' :
  BytePSHandlePush GetThreadID reducer_sum k ty n stored recved req req_data mixed st
  = Ok st' ->
  request_served k st st'.
Proof.
  intros H. apply push_any_mode in H as (evs & H1 & _ & H3 & H4 & H5 & _ & H7 & H8 & H9).
  exists evs. split; [exact H1|]. split; [exact H5|]. split; [exact H4|].
  split; [exact H7|].
  intros Hmode Hnull. split; [intros k'; rewrite H3; apply Hnull|].
  destruct (is_engine_blocking_ st) eqn:Hb; [apply H9; reflexivity|].
  destruct (sync_mode_ st) eqn:Hs; [discriminate|].
  destruct (H8 eq_refl) as [-> _]. constructor.
Qed.

Lemma pull_served k ty stored req st st' :
  BytePSHandlePull GetThreadID EncodeKey k ty stored req st = Ok st' ->
  request_served k st st'.
Proof.
  intros H. pose proof H as H0. apply pull_frame in H as (H1 & H2 & evs & H3 & H4).
  exists evs. split; [exact H3|]. split; [exact H2|].
  split; [intros k' _; apply H1|]. split; [rewrite H1; auto|].
  intros Hmode Hnull.
  destruct (pull_null GetThreadID EncodeKey k ty stored req st Hmode (Hnull k)) as [m Hm].
  congruence.
Qed.

(** Every request the handler serves is served for the key it names. *)
Lemma handle_served req req_data st st' :
  handler req req_data st = Ok st' ->
  exists k0, keys req_data = [k0] /\ request_served (DecodeKey k0) st st'.
Proof.
  unfold ServerSpec.handler, BytePSHandler. cbv zeta.
  destruct (keys req_data) as [|k0 [|k1 ks]] eqn:Hk; cbn [length Nat.eqb negb];
    try discriminate.
  match goal with
  | |- context [if ?c then _ else Ok tt] => destruct c
  end.
  2: rewrite bind_Ok.
  1: destruct (negb (length (lens req_data) =? 1)%nat); [discriminate|];
     destruct (load (lens req_data) 0) as [l0| |]; try discriminate;
     rewrite bind_Ok;
     destruct (negb (sa_size (vals req_data) =? l0)%nat); [discriminate|];
     rewrite bind_Ok.
  all: change (load [k0] 0) with (Ok k0); rewrite bind_Ok.
  all: intros H; exists k0; split; [reflexivity|].
  all: destruct (requestType (DepairDataHandleType (cmd req)));
       try discriminate; try (eapply config_served; exact H).
  all: revert H; unfold BytePSHandleDefaultReq; cbn [GetStore].
  all: destruct (push req);
       [|intros H; apply pull_served in H; exact H].
  all: destruct (negb (length (lens req_data) =? 1)%nat); [discriminate|].
  all: destruct (load (lens req_data) 0) as [l1| |]; try discriminate; rewrite bind_Ok.
  all: destruct (negb (sa_size (vals req_data) =? l1)%nat); [discriminate|].
  all: destruct (tensor (default BytePSArray_empty (store_ st !! DecodeKey k0)) =? 0)%N;
       intros H; [apply init_served in H|apply push_served in H]; exact H.
Qed.

Lemma step_config st st' : server_step st st' -> same_config st st'.
Proof.
  intros [(req & rd & H)|(i & msg & _ & H)].
  - apply handle_served in H as (k0 & _ & evs & _ & H & _). exact H.
  - apply engine_step_frame in H as (_ & H & _). exact H.
Qed.

Lemma step_buffers_open st st' :
  buffers_open st -> server_step st st' -> buffers_open st'.
Proof.
  intros Hopen Hstep. pose proof (step_config st st' Hstep) as (_ & _ & HN).
  destruct Hstep as [(req & rd & H)|(i & msg & _ & H)]; intros k; rewrite HN.
  - apply handle_served in H as (k0 & _ & evs & _ & _ & Hother & Hk & _).
    destruct (decide (k = DecodeKey k0)) as [->|Hne].
    + apply Hk, Hopen.
    + rewrite Hother by assumption. apply Hopen.
  - apply engine_step_frame in H as (H & _). rewrite H. apply Hopen.
Qed.

Lemma step_nothing_merged st st' :
  (is_engine_blocking_ st || negb (sync_mode_ st)) = true ->
  nothing_merged st -> server_step st st' -> nothing_merged st'.
Proof.
  intros Hmode [Hnull Hq] [(req & rd & H)|(i & msg & Hin & H)].
  - apply handle_served in H as (k0 & _ & evs & Htr & _ & _ & _ & Hm).
    destruct (Hm Hmode Hnull) as [Hnull' Hops].
    split; [exact Hnull'|].
    intros i msg Hin. rewrite Htr in Hin. apply elem_of_app in Hin as [Hin|Hin].
    + eapply Hq, Hin.
    + apply enqueued_ops_in in Hin. rewrite Forall_forall in Hops. apply Hops, Hin.
  - apply engine_step_frame in H as (_ & _ & (evs & Htr & Hops) & Hub).
    assert (Hne : ops msg <> ALL_RECV) by (rewrite (Hq i msg Hin); discriminate).
    split.
    + intros k. unfold updates_of. rewrite (Hub Hne). apply Hnull.
    + intros j m Hj. rewrite Htr in Hj. apply elem_of_app in Hj as [Hj|Hj].
      * eapply Hq, Hj.
      * apply enqueued_ops_in in Hj. rewrite Hops in Hj. inversion Hj.
Qed.


Lemma run_config st st' : rtc server_step st st' -> same_config st st'.
Proof.
  induction 1 as [st|st st1 st2 Hstep _ IH]; [repeat split; reflexivity|].
  apply step_config in Hstep. unfold same_config in *. intuition congruence.
Qed.

Lemma run_buffers_open st st' :
  buffers_open st -> rtc server_step st st' -> buffers_open st'.
Proof.
  intros Hopen Hrun. induction Hrun as [st|st st1 st2 Hstep _ IH]; [exact Hopen|].
  apply IH. eapply step_buffers_open; eassumption.
Qed.

Lemma run_nothing_merged st st' :
  (is_engine_blocking_ st || negb (sync_mode_ st)) = true ->
  nothing_merged st -> rtc server_step st st' -> nothing_merged st'.
Proof.
  intros Hmode Hnm Hrun. induction Hrun as [st|st st1 st2 Hstep _ IH]; [exact Hnm|].
  apply IH.
  - destruct (step_config _ _ Hstep) as (-> & -> & _). exact Hmode.
  - eapply step_nothing_merged; eassumption.
Qed.
End Invariants.

Lemma example_run_steps reqs : forall st st',
  example_run reqs st = Ok st' -> rtc example_step st st'.
Proof.
  induction reqs as [|[r d] reqs IH]; intros st st'.
  - intros [= <-]. apply rtc_refl.
  - unfold example_run. cbn [foldM fst snd].
    destruct (example_handler r d st) as [st1| |] eqn:E; try discriminate.
    rewrite bind_Ok. intros H.
    eapply rtc_l; [|apply IH; exact H].
    left. exists r, d. exact E.
Qed.

Lemma fresh_buffers_open sync blocking n :
  (0 < n)%nat -> buffers_open (example_fresh sync blocking n).
Proof. intros Hn k. unfold updates_of. cbn. rewrite lookup_empty. cbn. exact Hn. Qed.

Lemma fresh_nothing_merged sync blocking n :
  nothing_merged (example_fresh sync blocking n).
Proof.
  split.
  - intros k. unfold updates_of. cbn. rewrite lookup_empty. reflexivity.
  - intros i msg H. cbn in H. inversion H.
Qed.

Section EngineThread.
Variable GetThreadID : Z -> Z -> nat.
Variable EncodeKey : Z -> Z.
Variable reducer_sum : ptr -> ptr -> nat -> Z -> Z.
Variable compress_output : Z -> SArray -> ptr -> SArray.
Variable decompress_output : Z -> SArray -> SArray * Z.

Lemma engine_thread_frame_aux i queue : forall st st',
  BytePSServerEngineThread EncodeKey reducer_sum compress_output decompress_output
    i queue st = Ok st' ->
  (forall k, request (updates_of st' k) = request (updates_of st k)) /\
  same_config st st' /\
  exists evs, trace st' = trace st ++ evs /\ enqueued_ops evs = [].
Proof.
  induction queue as [|msg queue IH]; intros st st'.
  - intros [= <-]. split; [reflexivity|]. split; [repeat split; reflexivity|].
    exists []. rewrite app_nil_r. split; reflexivity.
  - cbn [BytePSServerEngineThread].
    assert (Hgo : (engine_step EncodeKey reducer_sum compress_output decompress_output
                     i msg st
                   ≫= BytePSServerEngineThread EncodeKey reducer_sum compress_output
                        decompress_output i queue) = Ok st' ->
            (forall k, request (updates_of st' k) = request (updates_of st k)) /\
            same_config st st' /\
            exists evs, trace st' = trace st ++ evs /\ enqueued_ops evs = []).
    { destruct (engine_step _ _ _ _ i msg st) as [st1| |] eqn:E; try discriminate.
      rewrite bind_Ok. intros H.
      apply engine_step_frame in E as (E1 & E2 & (evs1 & E3 & E4) & _).
      apply IH in H as (H1 & H2 & evs2 & H3 & H4).
      split; [intros k; rewrite H1; apply E1|].
      split; [unfold same_config in *; intuition congruence|].
      exists (evs1 ++ evs2). rewrite H3, E3, <- app_assoc.
      split; [reflexivity|]. rewrite enqueued_ops_app, E4, H4. reflexivity. }
    destruct (ops msg); try exact Hgo.
    intros [= <-]. split; [reflexivity|]. split; [repeat split; reflexivity|].
    exists []. rewrite app_nil_r. split; reflexivity.
Qed.

(** X13.  Whatever its queue holds, the engine thread changes no buffered
    request and none of the settings, and it queues no message; it stops at
    the first TERMINATE message and leaves the rest of the queue unread. *)
Theorem engine_thread_frame i queue rest stop st st' :
  ops stop = TERMINATE ->
  BytePSServerEngineThread EncodeKey reducer_sum compress_output decompress_output
    i queue st = Ok st' ->
  BytePSServerEngineThread EncodeKey reducer_sum compress_output decompress_output
    i (queue ++ stop :: rest) st = Ok st' /\
  (forall k, request (updates_of st' k) = request (updates_of st k)) /\
  same_config st st' /\
  exists evs, trace st' = trace st ++ evs /\ enqueued_ops evs = [].
Proof.
  intros Hstop Hrun. split; [|eapply engine_thread_frame_aux; exact Hrun].
  clear - Hstop Hrun. revert st Hrun.
  induction queue as [|msg queue IH]; intros st.
  - cbn [BytePSServerEngineThread app]. rewrite Hstop. auto.
  - cbn [BytePSServerEngineThread app].
    destruct (ops msg); try exact (fun H => H).
    all: destruct (engine_step _ _ _ _ i msg st) as [st1| |]; try discriminate.
    all: rewrite !bind_Ok; apply IH.
Qed.

(** X14.  An ALL_RECV message seals the merged buffer of its key: the output
    of the compressor of the key, else the half-precision copy, else the buffer
    of the message.  The parked pulls the iteration answers all carry that
    buffer, each sender is answered once, and the bookkeeping is reset when
    the last worker has been served. *)
Theorem all_recv_answers_sealed_buffer i msg st sh :
  sync_mode_ st = true -> is_engine_blocking_ st = false ->
  GetThreadID (key msg) 0 = i -> shards st !! i = Some sh ->
  pull_inv (NumWorkers st) sh (key msg) ->
  ops msg = ALL_RECV -> dst msg <> 0%N -> src msg <> 0%N ->
  sa_data (sealed_buffer compress_output st msg) <> 0%N ->
  exists st' sh' served resp before,
    engine_step EncodeKey reducer_sum compress_output decompress_output i msg st
    = Ok st' /\
    shards st' = <[i := sh']> (shards st) /\
    trace st' = trace st ++ before ++ ((fun m => Response m resp) <$> served) /\
    Forall (fun e => is_response e = false) before /\ enqueued_ops before = [] /\
    vals resp = sealed_buffer compress_output st msg /\
    lens resp = [sa_size (sealed_buffer compress_output st msg)] /\
    merged (updates_of st' (key msg))
    = mkArray (sa_data (sealed_buffer compress_output st msg))
              (sa_size (sealed_buffer compress_output st msg))
              (a_dtype (merged (updates_of st (key msg))))
              (tmp_sarray (merged (updates_of st (key msg)))) /\
    served_once sh (key msg) served /\
    bookkeeping_after (NumWorkers st) sh sh' (key msg) served true /\
    pull_inv (NumWorkers st) sh' (key msg).
Proof.
  intros Hsync Hblk Htid Hsh Hinv Hops Hd Hs Hbuf.
  set (buf := sealed_buffer compress_output st msg) in *.
  set (m := merged (updates_of st (key msg))).
  assert (Hgen : forall (st0 : server) before,
            trace st0 = trace st ++ before -> shards st0 = shards st ->
            same_config st st0 ->
            Forall (fun e => is_response e = false) before ->
            enqueued_ops before = [] ->
            exists st' sh' served resp before,
              all_recv_case EncodeKey i msg
                (set_merged (key msg)
                   (mkArray (sa_data buf) (sa_size buf) (a_dtype m) (tmp_sarray m)) st0)
              = Ok st' /\
              shards st' = <[i := sh']> (shards st) /\
              trace st' = trace st ++ before ++ ((fun m => Response m resp) <$> served) /\
              Forall (fun e => is_response e = false) before /\
              enqueued_ops before = [] /\
              vals resp = buf /\ lens resp = [sa_size buf] /\
              merged (updates_of st' (key msg))
              = mkArray (sa_data buf) (sa_size buf) (a_dtype m) (tmp_sarray m) /\
              served_once sh (key msg) served /\
              bookkeeping_after (NumWorkers st) sh sh' (key msg) served true /\
              pull_inv (NumWorkers st) sh' (key msg)).
  { intros st0 before Htr Hshd (C1 & C2 & C3) Hnr Hnq.
    set (st1 := set_merged (key msg) _ st0).
    assert (Hmerged : merged (updates_of st1 (key msg))
                      = mkArray (sa_data buf) (sa_size buf) (a_dtype m) (tmp_sarray m)).
    { unfold st1. srv. reflexivity. }
    destruct (pull_step GetThreadID EncodeKey i (key msg) (AllRecv msg) st1 sh)
      as (st' & sh' & served & Hrun & Hshd' & HN & Hup & Htr' & Hso & Hbk & Hinv').
    - change (sync_mode_ st1) with (sync_mode_ st0). rewrite C1. exact Hsync.
    - change (is_engine_blocking_ st1) with (is_engine_blocking_ st0). rewrite C2.
      exact Hblk.
    - exact Htid.
    - change (shards st1) with (shards st0). rewrite Hshd. exact Hsh.
    - change (NumWorkers st1) with (NumWorkers st0). rewrite C3. exact Hinv.
    - rewrite Hmerged. exact Hbuf.
    - reflexivity.
    - change (NumWorkers st1) with (NumWorkers st0) in *. rewrite C3 in *.
      exists st', sh', served, (pull_payload EncodeKey st1 (key msg)), before.
      split; [exact Hrun|].
      split; [rewrite Hshd'; change (shards st1) with (shards st0); rewrite Hshd;
              reflexivity|].
      split; [rewrite Htr'; change (trace st1) with (trace st0); rewrite Htr, <- app_assoc;
              reflexivity|].
      split; [exact Hnr|]. split; [exact Hnq|].
      unfold ServerSpec.pull_payload. rewrite Hmerged.
      split; [destruct buf; reflexivity|]. split; [reflexivity|].
      split; [rewrite Hup; exact Hmerged|].
      split; [exact Hso|]. split; [exact Hbk|exact Hinv']. }
  unfold engine_step.
  destruct (N.eqb_spec (dst msg) 0); [congruence|].
  destruct (N.eqb_spec (src msg) 0); [congruence|].
  subst buf. unfold sealed_buffer in *.
  destruct (decide (key msg ∈ compressor_map_ st)) as [Hc|Hc].
  - rewrite Hops, bind_Ok. cbn beta iota. rewrite Hops.
    eapply (Hgen _ [_]); try reflexivity.
    + repeat split; reflexivity.
    + repeat constructor.
  - rewrite Hops. destruct (mixed_precision msg).
    + rewrite bind_Ok. cbn beta iota. rewrite Hops.
      eapply (Hgen _ [_]); try reflexivity.
      * repeat split; reflexivity.
      * repeat constructor.
    + rewrite bind_Ok. cbn beta iota. rewrite Hops.
      eapply (Hgen _ []); try reflexivity.
      * rewrite app_nil_r. reflexivity.
      * repeat split; reflexivity.
      * constructor.
Qed.
End EngineThread.

Section Run.
Variable GetThreadID : Z -> Z -> nat.
Variable EncodeKey : Z -> Z.
Variable reducer_sum : ptr -> ptr -> nat -> Z -> Z.
Variable compress_output : Z -> SArray -> ptr -> SArray.
Variable decompress_output : Z -> SArray -> SArray * Z.
Variable PageAlignedMalloc : server -> nat -> ptr.
Variable Align : nat -> nat.
Variable Promote : nat -> Z -> nat * Z.
Variable CompressorRegistry_Create : KVPairs -> nat -> nat -> Z -> bool.
Variable DepairDataHandleType : Z -> DataHandleType.
Variable DecodeKey : Z -> Z.
Variable log_key_info_ : bool.
Variable BYTEPS_FLOAT16 : Z.

Local Abbreviation handler :=
  (handler GetThreadID EncodeKey reducer_sum PageAlignedMalloc Align Promote
     CompressorRegistry_Create DepairDataHandleType DecodeKey log_key_info_
     BYTEPS_FLOAT16).
Local Abbreviation server_step :=
  (server_step GetThreadID EncodeKey reducer_sum compress_output decompress_output
     PageAlignedMalloc Align Promote CompressorRegistry_Create
     DepairDataHandleType DecodeKey log_key_info_ BYTEPS_FLOAT16).
Local Abbreviation step_buffers_open :=
  (step_buffers_open GetThreadID EncodeKey reducer_sum compress_output decompress_output
     PageAlignedMalloc Align Promote CompressorRegistry_Create
     DepairDataHandleType DecodeKey log_key_info_ BYTEPS_FLOAT16).
Local Abbreviation step_config :=
  (step_config GetThreadID EncodeKey reducer_sum compress_output decompress_output
     PageAlignedMalloc Align Promote CompressorRegistry_Create
     DepairDataHandleType DecodeKey log_key_info_ BYTEPS_FLOAT16).
Local Abbreviation step_nothing_merged :=
  (step_nothing_merged GetThreadID EncodeKey reducer_sum compress_output decompress_output
     PageAlignedMalloc Align Promote CompressorRegistry_Create
     DepairDataHandleType DecodeKey log_key_info_ BYTEPS_FLOAT16).

(** X7.  A configuration request for a key registers its compressor the
    first time and never again.  The request is buffered; when the last of
    the workers has sent one, all of them are acknowledged in the order they
    arrived and the buffer is emptied. *)
Theorem config_request_served k ty req req_data st :
  let pending := request (updates_of st k) in
  let stored := default BytePSArray_empty (store_ st !! k) in
  (k ∈ compressor_map_ st \/
   exists l0 ls, lens req_data = l0 :: ls /\
     CompressorRegistry_Create req_data l0 (Align (a_len stored)) (a_dtype stored) = true) ->
  exists st',
    BytePSHandleConfigReq Align CompressorRegistry_Create k ty req req_data st = Ok st' /\
    compressor_map_ st' = {[k]} ∪ compressor_map_ st /\
    trace st' = trace st ++ acks_after (NumWorkers st) pending req (push_shell st k) /\
    request (updates_of st' k) = pending_after (NumWorkers st) pending req /\
    (forall k', merged (updates_of st' k') = merged (updates_of st k')) /\
    (forall k', k' <> k -> updates_of st' k' = updates_of st k') /\
    same_config st st'.
Proof.
  intros pending stored Hacc.
  destruct (config_req_spec Align CompressorRegistry_Create k ty req req_data st Hacc)
    as (st' & Hrun & _).
  exists st'. split; [exact Hrun|]. exact (config_inv _ _ _ _ _ _ _ _ Hrun).
Qed.

(** X8.  The first push of a key initialises it.  The handler buffers the
    requests until every worker has sent one, without answering or
    allocating; with the last one it allocates the store of the key (and the
    half-precision copy under mixed precision, the store then being sized
    as [Promote] says), acknowledges all the requests in the order they
    arrived and empties the buffer.  It returns as long as no allocation
    yields the null pointer. *)
Theorem init_request_served k ty n stored req req_data mixed st :
  (forall s sz, PageAlignedMalloc s sz <> 0%N) ->
  let pending := request (updates_of st k) in
  exists st',
    BytePSHanleInit PageAlignedMalloc Align Promote k ty n stored req req_data mixed st
    = Ok st' /\
    (forall k', tensor (merged (updates_of st' k')) = tensor (merged (updates_of st k'))) /\
    (forall k', k' <> k -> updates_of st' k' = updates_of st k') /\
    request (updates_of st' k) = pending_after (NumWorkers st) pending req /\
    trace st' = trace st ++ acks_after (NumWorkers st) pending req (push_shell st k) /\
    same_config st st' /\
    if (length (pending ++ [req]) <? NumWorkers st)%nat
    then store_ st' = store_ st /\ fp16_copy_ st' = fp16_copy_ st
    else exists p n' dt,
           p <> 0%N /\
           store_ st' = <[k := mkArray p n' dt (tmp_sarray stored)]> (store_ st) /\
           (n', dt) = (if mixed then Promote n (dtype ty) else (n, dtype ty)) /\
           if mixed
           then exists q, q <> 0%N /\
                  fp16_copy_ st'
                  = <[k := mkArray q n (dtype ty)
                             (tmp_sarray (default BytePSArray_empty (fp16_copy_ st !! k)))]>
                      (fp16_copy_ st)
           else fp16_copy_ st' = fp16_copy_ st.
Proof.
  intros Hm pending.
  destruct (init_returns PageAlignedMalloc Align Promote k ty n stored req req_data
              mixed st (or_intror Hm)) as [st' Hrun].
  exists st'. split; [exact Hrun|].
  exact (init_inv _ _ _ _ _ _ _ _ _ _ _ _ Hrun).
Qed.

(** X9.  In every mode, a push the handler returns from is acknowledged
    exactly once, with the response shell of the key, and leaves the store
    and the merged buffers where they are.  In asynchronous mode it queues
    nothing for the engine and keeps no request buffered; with a blocking
    engine the only messages it queues are COPY_FIRST. *)
Theorem push_acked_once k ty n stored recved req req_data mixed st st' :
  BytePSHandlePush GetThreadID reducer_sum k ty n stored recved req req_data mixed st
  = Ok st' ->
  exists evs,
    trace st' = trace st ++ evs /\
    List.filter is_response evs = [Response req (push_shell st k)] /\
    (forall k', tensor (merged (updates_of st' k')) = tensor (merged (updates_of st k'))) /\
    store_ st' = store_ st /\ same_config st st' /\
    (sync_mode_ st = false ->
     enqueued_ops evs = [] /\ request (updates_of st' k) = []) /\
    (is_engine_blocking_ st = true ->
     Forall (fun o => o = COPY_FIRST) (enqueued_ops evs)).
Proof.
  intros H. apply push_any_mode in H as (evs & H1 & H2 & H3 & _ & H5 & H6 & _ & H8 & H9).
  exists evs. auto 10.
Qed.

(** X10.  In every state the server can reach, every key has fewer buffered
    requests than there are workers. *)
Theorem request_buffer_bounded st st' :
  buffers_open st -> rtc server_step st st' ->
  buffers_open st' /\ NumWorkers st' = NumWorkers st.
Proof.
  intros Hopen Hrun. split.
  - eapply run_buffers_open; eassumption.
  - apply run_config in Hrun as (_ & _ & H). exact H.
Qed.

(** X11.  With a blocking engine, or in asynchronous mode, no merged buffer is
    ever set, so the server answers no pull: every pull request fails a check. *)
Theorem pull_unanswered_without_engine st st' req req_data :
  (is_engine_blocking_ st || negb (sync_mode_ st)) = true ->
  nothing_merged st -> rtc server_step st st' ->
  push req = false ->
  requestType (DepairDataHandleType (cmd req)) = kDefaultPushPull \/
  requestType (DepairDataHandleType (cmd req)) = kCompressedPushPull ->
  exists m, handler req req_data st' = Fatal m.
Proof.
  intros Hmode Hnm Hrun Hpull Hty.
  pose proof (run_nothing_merged _ _ _ _ _ _ _ _ _ _ _ _ _ _ _ Hmode Hnm Hrun) as [Hnull _].
  assert (Hmode' : (is_engine_blocking_ st' || negb (sync_mode_ st')) = true).
  { apply run_config in Hrun as (-> & -> & _). exact Hmode. }
  unfold ServerSpec.handler, BytePSHandler. cbv zeta.
  destruct (negb (length (keys req_data) =? 1)%nat) eqn:Hk; [eexists; reflexivity|].
  rewrite Hpull, andb_false_r, bind_Ok.
  destruct (keys req_data) as [|k0 ks]; [discriminate|].
  change (load (k0 :: ks) 0) with (Ok k0). rewrite bind_Ok.
  assert (Hd : exists m,
            BytePSHandleDefaultReq GetThreadID EncodeKey reducer_sum PageAlignedMalloc
              Align Promote BYTEPS_FLOAT16 (DecodeKey k0)
              (DepairDataHandleType (cmd req)) req req_data st' = Fatal m).
  { unfold BytePSHandleDefaultReq. cbn [GetStore]. rewrite Hpull.
    apply pull_null; [exact Hmode'|apply Hnull]. }
  destruct Hty as [-> | ->]; exact Hd.
Qed.

(** X12.  With a blocking engine the merged buffer of a key is still the null
    pointer when the handler uses it: a push that finds requests buffered
    has the reducer sum into the null pointer, and the push that completes a
    step has it copy from the null pointer into the store. *)
Theorem blocking_push_reduces_null st st' st'' k ty n stored recved req req_data mixed :
  sync_mode_ st = true -> is_engine_blocking_ st = true ->
  nothing_merged st -> rtc server_step st st' ->
  BytePSHandlePush GetThreadID reducer_sum k ty n stored recved req req_data mixed st'
  = Ok st'' ->
  (request (updates_of st' k) <> [] ->
   ReducerSum 0%N recved n (a_dtype (merged (updates_of st' k))) ∈ trace st'') /\
  (S (length (request (updates_of st' k))) = NumWorkers st' ->
   ReducerCopy (tensor stored) 0%N n ∈ trace st'').
Proof.
  intros Hsync Hblk Hnm Hrun Hpush.
  assert (Hmode : (is_engine_blocking_ st || negb (sync_mode_ st)) = true)
    by (rewrite Hblk; reflexivity).
  pose proof (run_nothing_merged _ _ _ _ _ _ _ _ _ _ _ _ _ _ _ Hmode Hnm Hrun) as [Hnull _].
  apply run_config in Hrun as (Hs & Hb & _).
  rewrite <- Hs in Hsync. rewrite <- Hb in Hblk.
  pose proof (push_blocking_events _ _ _ _ _ _ _ _ _ _ _ _ Hsync Hblk Hpush) as H.
  cbv zeta in H. rewrite (Hnull k) in H. exact H.
Qed.

End Run.

Lemma engine_thread_frame_witness :
  exists st',
    BytePSServerEngineThread (fun k => k) (fun _ _ _ _ => 0) example_compress_output
      (fun _ a => (a, 0)) 0
      ([example_copy_first] ++ example_terminate :: [example_all_recv])
      (example_server 2 []) = Ok st' /\
    enqueued_ops (trace st') = [] /\ NumWorkers st' = 2%nat.
Proof.
  destruct (BytePSServerEngineThread (fun k => k) (fun _ _ _ _ => 0)
              example_compress_output (fun _ a => (a, 0)) 0 [example_copy_first]
              (example_server 2 [])) as [st'| |] eqn:E;
    [|vm_compute in E; discriminate|vm_compute in E; discriminate].
  destruct (engine_thread_frame (fun k => k) (fun _ _ _ _ => 0) example_compress_output
              (fun _ a => (a, 0)) 0 [example_copy_first] [example_all_recv]
              example_terminate (example_server 2 []) st' eq_refl E)
    as (Hrun & _ & (_ & _ & HN) & evs & Htr & Hq).
  exists st'. split; [exact Hrun|]. split; [rewrite Htr; exact Hq|exact HN].
Defined.

Lemma all_recv_answers_sealed_buffer_witness :
  exists st' resp,
    engine_step (fun k => k) (fun _ _ _ _ => 0) example_compress_output
      (fun _ a => (a, 0)) 0 example_all_recv example_parked_compressed = Ok st' /\
    vals resp = mkSArray 96%N 8 /\
    tensor (merged (updates_of st' 7)) = 96%N.
Proof.
  destruct (all_recv_answers_sealed_buffer (fun _ _ => 0%nat) (fun k => k)
              (fun _ _ _ _ => 0) example_compress_output (fun _ a => (a, 0)) 0
              example_all_recv example_parked_compressed
              (mkShard ∅ ∅ ∅ {[ 7 := [mkMeta 0 false 8; mkMeta 0 false 9;
                                       mkMeta 0 false 8] ]}))
    as (st' & sh' & served & resp & before & Hrun & _ & _ & _ & _ & Hv & _ & Hm & _).
  - reflexivity.
  - reflexivity.
  - reflexivity.
  - reflexivity.
  - split; [reflexivity|]. split; [vm_compute; lia|]. reflexivity.
  - reflexivity.
  - vm_compute. discriminate.
  - vm_compute. discriminate.
  - vm_compute. discriminate.
  - exists st', resp. split; [exact Hrun|]. split; [exact Hv|].
    change (key example_all_recv) with 7 in Hm. rewrite Hm. reflexivity.
Defined.

Lemma config_request_served_witness :
  exists st',
    BytePSHandleConfigReq (fun n => n) (fun _ _ _ _ => true) 7
      (mkType kConfigPushPull 0) (mkMeta 1 true 9)
      (mkKV [7] (mkSArray 128%N 4) [4%nat]) (example_server 2 [mkMeta 1 true 8])
    = Ok st' /\
    7 ∈ compressor_map_ st' /\
    trace st' = [Response (mkMeta 1 true 8) KVPairs_empty;
                 Response (mkMeta 1 true 9) KVPairs_empty] /\
    request (updates_of st' 7) = [].
Proof.
  destruct (config_request_served (fun n => n) (fun _ _ _ _ => true) 7
              (mkType kConfigPushPull 0) (mkMeta 1 true 9)
              (mkKV [7] (mkSArray 128%N 4) [4%nat]) (example_server 2 [mkMeta 1 true 8]))
    as (st' & Hrun & Hc & Htr & Hreq & _).
  - right. exists 4%nat, []. split; reflexivity.
  - exists st'. split; [exact Hrun|]. split; [rewrite Hc; set_solver|].
    split; [rewrite Htr; reflexivity|rewrite Hreq; reflexivity].
Defined.

Lemma init_request_served_witness :
  exists st',
    BytePSHanleInit (fun _ _ => 4096%N) (fun n => n) (fun n dt => (n, dt)) 7
      (mkType kDefaultPushPull 0) 16 BytePSArray_empty (mkMeta 0 true 9)
      (mkKV [7] (mkSArray 128%N 16) [16%nat]) false
      (set_request 7 [mkMeta 0 true 8] (example_fresh true false 2)) = Ok st' /\
    store_ st' !! 7 = Some (mkArray 4096%N 16 0 KVPairs_empty) /\
    trace st' = [Response (mkMeta 0 true 8) KVPairs_empty;
                 Response (mkMeta 0 true 9) KVPairs_empty] /\
    request (updates_of st' 7) = [].
Proof.
  destruct (init_request_served (fun _ _ => 4096%N) (fun n => n) (fun n dt => (n, dt)) 7
              (mkType kDefaultPushPull 0) 16 BytePSArray_empty (mkMeta 0 true 9)
              (mkKV [7] (mkSArray 128%N 16) [16%nat]) false
              (set_request 7 [mkMeta 0 true 8] (example_fresh true false 2)))
    as (st' & Hrun & _ & _ & Hreq & Htr & _ & Hst).
  - intros _ _. discriminate.
  - exists st'. split; [exact Hrun|].
    destruct Hst as (p & n' & dt & Hp & Hs & Hnd & _).
    assert (Hp' : p = 4096%N).
    { clear - Hrun Hs. vm_compute in Hrun. injection Hrun as <-. vm_compute in Hs.
      injection Hs as ->. reflexivity. }
    injection Hnd as -> ->. subst p.
    split; [rewrite Hs, lookup_insert_eq; reflexivity|].
    split; [rewrite Htr; reflexivity|rewrite Hreq; reflexivity].
Defined.

Lemma push_acked_once_witness :
  exists st',
    example_push 2 [mkMeta 0 true 8] 9 = Ok st' /\
    List.filter is_response (trace st') = [Response (mkMeta 0 true 9) KVPairs_empty] /\
    store_ st' = store_ (example_server 2 [mkMeta 0 true 8]).
Proof.
  destruct (example_push 2 [mkMeta 0 true 8] 9) as [st'| |] eqn:E;
    [|vm_compute in E; discriminate|vm_compute in E; discriminate].
  destruct (push_acked_once (fun _ _ => 0%nat) (fun _ _ _ _ => 0) 7
              (mkType kDefaultPushPull 0) 16 (mkArray 64%N 16 0 KVPairs_empty) 128%N
              (mkMeta 0 true 9) (mkKV [7] (mkSArray 128%N 16) [16%nat]) false
              (example_server 2 [mkMeta 0 true 8]) st' E)
    as (evs & Htr & Hf & _ & Hs & _).
  exists st'. split; [reflexivity|]. split; [rewrite Htr; exact Hf|exact Hs].
Defined.

Lemma request_buffer_bounded_witness :
  exists st',
    example_run [example_push_req 8; example_push_req 9; example_push_req 8]
      (example_fresh true false 2) = Ok st' /\
    buffers_open st' /\ NumWorkers st' = 2%nat.
Proof.
  destruct (example_run [example_push_req 8; example_push_req 9; example_push_req 8]
              (example_fresh true false 2)) as [st'| |] eqn:E;
    [|vm_compute in E; discriminate|vm_compute in E; discriminate].
  exists st'. split; [reflexivity|].
  apply (request_buffer_bounded (fun _ _ => 0%nat) (fun k => k) (fun _ _ _ _ => 0)
           (fun _ a _ => a) (fun _ a => (a, 0)) (fun _ _ => 4096%N)
           (fun n => n) (fun n dt => (n, dt)) (fun _ _ _ _ => true)
           (fun c => mkType (if c =? 1 then kConfigPushPull else kDefaultPushPull) 0)
           (fun k => k) false 2 (example_fresh true false 2) st').
  - apply fresh_buffers_open. lia.
  - apply example_run_steps in E. exact E.
Defined.

Lemma pull_unanswered_without_engine_witness :
  exists st',
    example_run [example_push_req 8; example_push_req 9;
                 example_push_req 8; example_push_req 9]
      (example_fresh true true 2) = Ok st' /\
    store_ st' !! 7 = Some (mkArray 4096%N 16 0 KVPairs_empty) /\
    exists m, example_handler (example_pull_req 8).1 (example_pull_req 8).2 st' = Fatal m.
Proof.
  destruct (example_run [example_push_req 8; example_push_req 9;
                         example_push_req 8; example_push_req 9]
              (example_fresh true true 2)) as [st'| |] eqn:E;
    [|vm_compute in E; discriminate|vm_compute in E; discriminate].
  exists st'. split; [reflexivity|].
  split; [clear - E; vm_compute in E; injection E as <-; reflexivity|].
  apply (pull_unanswered_without_engine (fun _ _ => 0%nat) (fun k => k)
           (fun _ _ _ _ => 0) (fun _ a _ => a) (fun _ a => (a, 0)) (fun _ _ => 4096%N)
           (fun n => n) (fun n dt => (n, dt)) (fun _ _ _ _ => true)
           (fun c => mkType (if c =? 1 then kConfigPushPull else kDefaultPushPull) 0)
           (fun k => k) false 2 (example_fresh true true 2) st').
  - reflexivity.
  - apply fresh_nothing_merged.
  - apply example_run_steps in E. exact E.
  - reflexivity.
  - left. reflexivity.
Defined.

Lemma blocking_push_reduces_null_witness :
  exists st' st'',
    example_run [example_push_req 8; example_push_req 9; example_push_req 8]
      (example_fresh true true 2) = Ok st' /\
    BytePSHandlePush (fun _ _ => 0%nat) (fun _ _ _ _ => 0) 7
      (mkType kDefaultPushPull 0) 16 (mkArray 4096%N 16 0 KVPairs_empty) 128%N
      (mkMeta 0 true 9) (mkKV [7] (mkSArray 128%N 16) [16%nat]) false st' = Ok st'' /\
    ReducerSum 0%N 128%N 16 0 ∈ trace st'' /\
    ReducerCopy 4096%N 0%N 16 ∈ trace st''.
Proof.
  destruct (example_run [example_push_req 8; example_push_req 9; example_push_req 8]
              (example_fresh true true 2)) as [st'| |] eqn:E;
    [|vm_compute in E; discriminate|vm_compute in E; discriminate].
  destruct (BytePSHandlePush (fun _ _ => 0%nat) (fun _ _ _ _ => 0) 7
              (mkType kDefaultPushPull 0) 16 (mkArray 4096%N 16 0 KVPairs_empty) 128%N
              (mkMeta 0 true 9) (mkKV [7] (mkSArray 128%N 16) [16%nat]) false st')
    as [st''| |] eqn:E2.
  2,3: exfalso; clear - E E2; vm_compute in E; injection E as <-; vm_compute in E2;
       discriminate.
  exists st', st''. split; [reflexivity|]. split; [exact E2|].
  destruct (blocking_push_reduces_null (fun _ _ => 0%nat) (fun k => k)
              (fun _ _ _ _ => 0) (fun _ a _ => a) (fun _ a => (a, 0)) (fun _ _ => 4096%N)
              (fun n => n) (fun n dt => (n, dt)) (fun _ _ _ _ => true)
              (fun c => mkType (if c =? 1 then kConfigPushPull else kDefaultPushPull) 0)
              (fun k => k) false 2 (example_fresh true true 2) st' st'' 7
              (mkType kDefaultPushPull 0) 16 (mkArray 4096%N 16 0 KVPairs_empty) 128%N
              (mkMeta 0 true 9) (mkKV [7] (mkSArray 128%N 16) [16%nat]) false)
    as [H1 H2].
  - reflexivity.
  - reflexivity.
  - apply fresh_nothing_merged.
  - apply example_run_steps in E. exact E.
  - exact E2.
  - assert (Hst : request (updates_of st' 7) = [mkMeta 0 true 8]
                  /\ a_dtype (merged (updates_of st' 7)) = 0 /\ NumWorkers st' = 2%nat).
    { clear - E. vm_compute in E. injection E as <-. repeat split; reflexivity. }
    destruct Hst as (Hr & Hd & HN). rewrite Hr, Hd, HN in *.
    split; [apply H1; discriminate|apply H2; reflexivity].
Defined.

Section WellFormed.
Variable GetThreadID : Z -> Z -> nat.
Variable EncodeKey : Z -> Z.
Variable reducer_sum : ptr -> ptr -> nat -> Z -> Z.
Variable PageAlignedMalloc : server -> nat -> ptr.
Variable Align : nat -> nat.
Variable Promote : nat -> Z -> nat * Z.
Variable CompressorRegistry_Create : KVPairs -> nat -> nat -> Z -> bool.
Variable DepairDataHandleType : Z -> DataHandleType.
Variable DecodeKey : Z -> Z.
Variable log_key_info_ : bool.
Variable BYTEPS_FLOAT16 : Z.

Local Abbreviation handler :=
  (handler GetThreadID EncodeKey reducer_sum PageAlignedMalloc Align Promote
     CompressorRegistry_Create DepairDataHandleType DecodeKey log_key_info_
     BYTEPS_FLOAT16).

(** X15.  The handler returns only from well-formed requests: exactly one
    key, not a row-sparse request; a default or compressed push carries
    exactly one length and as many value bytes; a default or compressed pull
    names a key whose store is allocated; a configuration
    request for a key without compressor carries a length, and the registry
    accepted it. *)
Theorem served_request_wellformed req req_data st st' :
  handler req req_data st = Ok st' ->
  exists k0,
    keys req_data = [k0] /\
    let k := DecodeKey k0 in
    let stored := default BytePSArray_empty (store_ st !! k) in
    match requestType (DepairDataHandleType (cmd req)) with
    | kRowSparsePushPull => False
    | kConfigPushPull =>
        k ∈ compressor_map_ st \/
        exists l0 ls, lens req_data = l0 :: ls /\
          CompressorRegistry_Create req_data l0 (Align (a_len stored)) (a_dtype stored)
          = true
    | _ =>
        if push req
        then lens req_data = [sa_size (vals req_data)]
        else tensor stored <> 0%N
    end.
Proof.
  unfold ServerSpec.handler, BytePSHandler. cbv zeta.
  destruct (keys req_data) as [|k0 [|k1 ks]] eqn:Hk; cbn [length Nat.eqb negb];
    try discriminate.
  intros H. exists k0. split; [reflexivity|].
  assert (Hrun :
    match requestType (DepairDataHandleType (cmd req)) with
    | kConfigPushPull =>
        BytePSHandleConfigReq Align CompressorRegistry_Create (DecodeKey k0)
          (DepairDataHandleType (cmd req)) req req_data st
    | kRowSparsePushPull => Fatal "Not implemented."
    | _ =>
        BytePSHandleDefaultReq GetThreadID EncodeKey reducer_sum PageAlignedMalloc
          Align Promote BYTEPS_FLOAT16 (DecodeKey k0)
          (DepairDataHandleType (cmd req)) req req_data st
    end = Ok st').
  { revert H.
    match goal with
    | |- context [if ?c then _ else Ok tt] => destruct c
    end.
    2: rewrite bind_Ok.
    1: destruct (negb (length (lens req_data) =? 1)%nat); [discriminate|];
       destruct (load (lens req_data) 0) as [l0| |]; try discriminate;
       rewrite bind_Ok;
       destruct (negb (sa_size (vals req_data) =? l0)%nat); [discriminate|];
       rewrite bind_Ok.
    all: change (load [k0] 0) with (Ok k0); rewrite bind_Ok.
    all: destruct (requestType (DepairDataHandleType (cmd req))); exact (fun H => H). }
  clear H.
  assert (Hdef :
    BytePSHandleDefaultReq GetThreadID EncodeKey reducer_sum PageAlignedMalloc
      Align Promote BYTEPS_FLOAT16 (DecodeKey k0)
      (DepairDataHandleType (cmd req)) req req_data st = Ok st' ->
    if push req
    then lens req_data = [sa_size (vals req_data)]
    else tensor (default BytePSArray_empty (store_ st !! DecodeKey k0)) <> 0%N).
  { unfold BytePSHandleDefaultReq. cbn [GetStore].
    destruct (push req).
    - destruct (lens req_data) as [|l0 [|l1 ls]]; cbn [length Nat.eqb negb];
        try discriminate.
      change (load [l0] 0) with (Ok l0). rewrite bind_Ok.
      destruct (Nat.eqb_spec (sa_size (vals req_data)) l0) as [->|]; [|discriminate].
      reflexivity.
    - unfold BytePSHandlePull.
      destruct (N.eqb_spec
                  (tensor (default BytePSArray_empty (store_ st !! DecodeKey k0))) 0)
        as [|Hs]; [discriminate|].
      intros _. exact Hs. }
  cbv zeta.
  destruct (requestType (DepairDataHandleType (cmd req))); try discriminate;
    try (apply Hdef; exact Hrun).
  clear Hdef. revert Hrun. unfold BytePSHandleConfigReq.
  destruct (decide (DecodeKey k0 ∈ compressor_map_ st)) as [Hin|Hnin]; [auto|].
  destruct (lens req_data) as [|l0 ls]; [discriminate|].
  change (load (l0 :: ls) 0) with (Ok l0). rewrite bind_Ok. cbn [GetStore].
  destruct (CompressorRegistry_Create _ _ _ _) eqn:Hc; [|discriminate].
  intros _. right. exists l0, ls. split; [reflexivity|exact Hc].
Qed.
End WellFormed.

Lemma served_request_wellformed_witness :
  exists st',
    example_handler (example_push_req 8).1 (example_push_req 8).2
      (example_fresh true false 2) = Ok st' /\
    lens (example_push_req 8).2 = [sa_size (vals (example_push_req 8).2)].
Proof.
  destruct (example_handler (example_push_req 8).1 (example_push_req 8).2
              (example_fresh true false 2)) as [st'| |] eqn:E;
    [|vm_compute in E; discriminate|vm_compute in E; discriminate].
  exists st'. split; [reflexivity|].
  destruct (served_request_wellformed (fun _ _ => 0%nat) (fun k => k)
              (fun _ _ _ _ => 0) (fun _ _ => 4096%N)
              (fun n => n) (fun n dt => (n, dt)) (fun _ _ _ _ => true)
              (fun c => mkType (if c =? 1 then kConfigPushPull else kDefaultPushPull) 0)
              (fun k => k) false 2 _ _ _ _ E) as (k0 & _ & H).
  exact H.
Defined.

(** *** Data leaves the server only after ALL_RECV *)

Lemma sealed_for_app k tr evs : sealed_for k tr -> sealed_for k (tr ++ evs).
Proof.
  intros (i & msg & Hin & H). exists i, msg. split; [|exact H].
  apply elem_of_app. left. exact Hin.
Qed.

Section Answers.
Variable EncodeKey : Z -> Z.
Local Abbreviation pull_keys := (pull_keys EncodeKey).
Local Abbreviation answers := (answers EncodeKey).
Local Abbreviation data_after_seal := (data_after_seal EncodeKey).

(** A move that answers nothing and leaves the memoised responses and the
    merged buffers alone. *)
Lemma answers_silent k sealing st st' evs :
  shells_empty st -> pull_keys st ->
  trace st' = trace st ++ evs -> Forall (fun e => is_response e = false) evs ->
  push_response_map_ st' = push_response_map_ st ->
  pull_response_map_ st' = pull_response_map_ st ->
  (forall k', tensor (merged (updates_of st' k')) = tensor (merged (updates_of st k'))) ->
  answers k sealing st st'.
Proof.
  intros Hs Hp Htr Hev Hpush Hpull Hm. exists evs. split; [exact Htr|].
  split; [intros k' r; rewrite Hpush; apply Hs|].
  split; [intros k' r; rewrite Hpull; apply Hp|].
  split.
  - intros req res Hin. rewrite Forall_forall in Hev. specialize (Hev _ Hin).
    discriminate.
  - intros k' H. left. rewrite <- Hm. exact H.
Qed.

Lemma answers_refl k sealing st :
  shells_empty st -> pull_keys st -> answers k sealing st st.
Proof.
  intros Hs Hp. apply (answers_silent k sealing st st []); auto.
  rewrite app_nil_r. reflexivity.
Qed.

Lemma answers_trans k sealing st1 st2 st3 :
  answers k sealing st1 st2 -> answers k sealing st2 st3 -> answers k sealing st1 st3.
Proof.
  intros (e1 & T1 & S1 & P1 & R1 & M1) (e2 & T2 & S2 & P2 & R2 & M2).
  exists (e1 ++ e2). split; [rewrite T2, T1, app_assoc; reflexivity|].
  split; [exact S2|]. split; [exact P2|]. split.
  - intros req res Hin. apply elem_of_app in Hin as [Hin|Hin]; [exact (R1 _ _ Hin)|].
    destruct (R2 _ _ Hin) as [?|[Hk [?|Hne]]]; auto.
    right. split; [exact Hk|]. destruct (M1 _ Hne) as [?|[? _]]; auto.
  - intros k' H. destruct (M2 _ H) as [H'|?]; auto.
Qed.

(** With [sealing] the move may do more. *)
Lemma answers_sealing k st st' : answers k false st st' -> answers k true st st'.
Proof.
  intros (e & T & S & P & R & M). exists e. repeat (split; [assumption|]). split.
  - intros req res Hin. destruct (R _ _ Hin) as [?|[? _]]; auto.
  - intros k' H. destruct (M _ H) as [?|[? _]]; [auto|discriminate].
Qed.

Lemma SendPushResponse_answers k k0 sealing req st :
  shells_empty st -> pull_keys st ->
  answers k0 sealing st (SendPushResponse k req st).
Proof.
  intros Hs Hp. exists [Response req (push_shell st k)].
  split; [apply SendPushResponse_trace|].
  assert (Hshell : push_shell st k = KVPairs_empty).
  { unfold push_shell. destruct (push_response_map_ st !! k) as [r|] eqn:E;
      [apply (Hs _ _ E)|reflexivity]. }
  unfold SendPushResponse.
  destruct (push_response_map_ st !! k) as [r|] eqn:E.
  - split; [exact Hs|]. split; [exact Hp|]. split.
    + intros req' res Hin. apply list_elem_of_singleton in Hin. injection Hin as -> ->.
      left. exact Hshell.
    + intros k' H. left. exact H.
  - split.
    { intros k' r. cbn [push_response_map_ emit set_push_response_map].
      destruct (decide (k' = k)) as [->|Hne].
      - rewrite lookup_insert_eq. congruence.
      - rewrite lookup_insert_ne by congruence. apply Hs. }
    split; [exact Hp|]. split.
    + intros req' res Hin. apply list_elem_of_singleton in Hin. injection Hin as -> ->.
      left. exact Hshell.
    + intros k' H. left. exact H.
Qed.

Lemma respond_all_answers k k0 sealing reqs : forall st,
  shells_empty st -> pull_keys st ->
  answers k0 sealing st (respond_all k reqs st).
Proof.
  induction reqs as [|r reqs IH]; intros st Hs Hp.
  - apply answers_refl; assumption.
  - unfold respond_all in *. cbn [fold_left].
    pose proof (SendPushResponse_answers k k0 sealing r st Hs Hp) as H1.
    eapply answers_trans; [exact H1|].
    destruct H1 as (_ & _ & S1 & P1 & _). apply IH; assumption.
Qed.

Lemma answers_post k sealing st st' :
  answers k sealing st st' -> shells_empty st' /\ pull_keys st'.
Proof. intros (_ & _ & S & P & _). split; assumption. Qed.

(** Writing [update_buf_[k]] without changing the tensor of its merged
    buffer. *)
Lemma answers_insert k0 sealing k u st st' :
  shells_empty st -> pull_keys st ->
  update_buf_ st' = <[k := u]> (update_buf_ st) ->
  tensor (merged u) = tensor (merged (updates_of st k)) ->
  trace st' = trace st ->
  push_response_map_ st' = push_response_map_ st ->
  pull_response_map_ st' = pull_response_map_ st ->
  answers k0 sealing st st'.
Proof.
  intros Hs Hp Hu Ht Htr Hpush Hpull.
  apply (answers_silent k0 sealing st st' []); auto.
  - rewrite app_nil_r. exact Htr.
  - intros k'. rewrite (updates_of_insert st' k u k' st Hu).
    destruct (decide (k' = k)) as [->|]; [exact Ht|reflexivity].
Qed.

Lemma answers_touch k0 sealing k st :
  shells_empty st -> pull_keys st ->
  answers k0 sealing st (set_update_buf (<[k := updates_of st k]> (update_buf_ st)) st).
Proof.
  intros Hs Hp. apply (answers_insert k0 sealing k (updates_of st k)); auto.
Qed.

Lemma answers_set_request k0 sealing k r st :
  shells_empty st -> pull_keys st -> answers k0 sealing st (set_request k r st).
Proof.
  intros Hs Hp.
  apply (answers_insert k0 sealing k (mkUpdate r (merged (updates_of st k)))); auto.
Qed.

(** Writing the merged buffer of the key that is sealed. *)
Lemma answers_set_merged k m st :
  shells_empty st -> pull_keys st -> answers k true st (set_merged k m st).
Proof.
  intros Hs Hp. exists []. split; [rewrite app_nil_r; reflexivity|].
  split; [exact Hs|]. split; [exact Hp|]. split.
  - intros req res Hin. inversion Hin.
  - intros k' H. destruct (decide (k' = k)) as [->|Hne]; [right; auto|].
    left. revert H. unfold set_merged.
    rewrite (updates_of_insert _ k _ k' st) by reflexivity.
    rewrite decide_False by assumption. auto.
Qed.

Lemma answers_emit k sealing e st :
  shells_empty st -> pull_keys st -> is_response e = false ->
  answers k sealing st (emit e st).
Proof.
  intros Hs Hp He. apply (answers_silent k sealing st _ [e]); auto.
Qed.

Lemma buffer_and_respond_answers k k0 sealing req st :
  shells_empty st -> pull_keys st ->
  answers k0 sealing st (buffer_and_respond k req st).
Proof.
  intros Hs Hp. unfold buffer_and_respond.
  pose proof (answers_touch k0 sealing k st Hs Hp) as A1.
  set (st1 := set_update_buf _ st) in *.
  destruct (answers_post _ _ _ _ A1) as [S1 P1].
  pose proof (answers_set_request k0 sealing k (request (updates_of st1 k) ++ [req])
                st1 S1 P1) as A2.
  set (st2 := set_request k _ st1) in *.
  destruct (answers_post _ _ _ _ A2) as [S2 P2].
  pose proof (answers_trans _ _ _ _ _ A1 A2) as A12.
  destruct (_ <? _)%nat; [exact A12|].
  pose proof (respond_all_answers k k0 sealing (request (updates_of st2 k)) st2 S2 P2) as A3.
  set (st3 := respond_all k _ st2) in *.
  destruct (answers_post _ _ _ _ A3) as [S3 P3].
  eapply answers_trans; [exact A12|]. eapply answers_trans; [exact A3|].
  apply answers_set_request; assumption.
Qed.

Section AnswersConfig.
Variable Align : nat -> nat.
Variable CompressorRegistry_Create : KVPairs -> nat -> nat -> Z -> bool.

Lemma config_answers k ty req req_data st st' :
  shells_empty st -> pull_keys st ->
  BytePSHandleConfigReq Align CompressorRegistry_Create k ty req req_data st = Ok st' ->
  answers k false st st'.
Proof.
  intros Hs Hp. unfold BytePSHandleConfigReq.
  destruct (decide (k ∈ compressor_map_ st)) as [Hin|Hnin].
  - rewrite bind_Ok. intros [= <-]. apply buffer_and_respond_answers; assumption.
  - destruct (lens req_data) as [|l0 ls]; [discriminate|].
    change (load (l0 :: ls) 0) with (Ok l0). rewrite bind_Ok.
    cbn [GetStore].
    destruct (CompressorRegistry_Create _ _ _ _); [|discriminate].
    rewrite bind_Ok. intros [= <-].
    set (st1 := set_compressor_map _ _).
    exact (buffer_and_respond_answers k k false req st1 Hs Hp).
Qed.
End AnswersConfig.

Section AnswersInit.
Variable PageAlignedMalloc : server -> nat -> ptr.
Variable Align : nat -> nat.
Variable Promote : nat -> Z -> nat * Z.

Lemma init_answers k ty n stored req req_data mixed st st' :
  shells_empty st -> pull_keys st ->
  BytePSHanleInit PageAlignedMalloc Align Promote k ty n stored req req_data mixed st
  = Ok st' ->
  answers k false st st'.
Proof.
  intros Hs Hp. unfold BytePSHanleInit.
  set (st_a := if sync_mode_ st && bool_decide (update_buf_ st !! k = None)
               then _ else st).
  assert (Aa : answers k false st st_a).
  { subst st_a.
    destruct (sync_mode_ st && bool_decide (update_buf_ st !! k = None)) eqn:E;
      [|apply answers_refl; assumption].
    apply andb_true_iff in E as [_ E]. apply bool_decide_eq_true in E.
    eapply (answers_insert k false k); try reflexivity; try assumption.
    unfold updates_of. rewrite E. reflexivity. }
  destruct (answers_post _ _ _ _ Aa) as [Sa Pa].
  pose proof (answers_touch k false k st_a Sa Pa) as Ab.
  set (st_b := set_update_buf (<[k:=updates_of st_a k]> (update_buf_ st_a)) st_a) in *.
  destruct (answers_post _ _ _ _ Ab) as [Sb Pb].
  pose proof (answers_set_request k false k (request (updates_of st_b k) ++ [req])
                st_b Sb Pb) as Ac.
  set (st_c := set_request k _ st_b) in *.
  destruct (answers_post _ _ _ _ Ac) as [Sc Pc].
  pose proof (answers_trans _ _ _ _ _ Aa (answers_trans _ _ _ _ _ Ab Ac)) as A.
  destruct (_ <? _)%nat; [intros [= <-]; exact A|].
  assert (Hfin : forall (st_e : server) p n' dt,
            update_buf_ st_e = update_buf_ st_c ->
            push_response_map_ st_e = push_response_map_ st_c ->
            pull_response_map_ st_e = pull_response_map_ st_c ->
            trace st_e = trace st_c ->
            (let st_f := set_store (<[k:=mkArray p n' dt (tmp_sarray stored)]> (store_ st_e)) st_e in
             if (p =? 0)%N then Fatal "Check failed: stored->tensor"
             else Ok (set_request k [] (respond_all k (request (updates_of st_f k)) st_f)))
            = Ok st' ->
            answers k false st st').
  { intros st_e p n' dt Hu Hpush Hpull Htr. cbv zeta.
    destruct (p =? 0)%N; [discriminate|].
    set (st_f := set_store _ st_e). intros [= <-].
    assert (Af : answers k false st_c st_f).
    { apply (answers_silent k false st_c st_f []); auto.
      - rewrite app_nil_r. exact Htr.
      - intros k'. unfold updates_of. cbn [st_f update_buf_ set_store]. rewrite Hu.
        reflexivity. }
    destruct (answers_post _ _ _ _ Af) as [Sf Pf].
    pose proof (respond_all_answers k k false (request (updates_of st_f k)) st_f Sf Pf) as Ag.
    destruct (answers_post _ _ _ _ Ag) as [Sg Pg].
    eapply answers_trans; [exact A|]. eapply answers_trans; [exact Af|].
    eapply answers_trans; [exact Ag|]. apply answers_set_request; assumption. }
  destruct mixed.
  - cbn [GetFP16Copy].
    match goal with |- context [(PageAlignedMalloc ?s ?z =? 0)%N] =>
      destruct (PageAlignedMalloc s z =? 0)%N; [discriminate|] end.
    destruct (Promote n (dtype ty)) as [n' dt]. rewrite bind_Ok. cbn beta iota.
    apply Hfin; reflexivity.
  - rewrite bind_Ok. cbn beta iota. apply Hfin; reflexivity.
Qed.
End AnswersInit.

Section AnswersPush.
Variable GetThreadID : Z -> Z -> nat.
Variable reducer_sum : ptr -> ptr -> nat -> Z -> Z.

Lemma push_maps k ty n stored recved req req_data mixed st st' :
  BytePSHandlePush GetThreadID reducer_sum k ty n stored recved req req_data mixed st
  = Ok st' ->
  pull_response_map_ st' = pull_response_map_ st /\
  push_response_map_ st'
  = match push_response_map_ st !! k with
    | Some _ => push_response_map_ st
    | None => <[k := KVPairs_empty]> (push_response_map_ st)
    end.
Proof.
  destruct st as [sm eb N lb ts store ub fp cm prm plm sh tr].
  unfold BytePSHandlePush.
  match goal with
  | |- context [push_workload ?s k stored] =>
      destruct (push_workload s k stored) as [w| |] eqn:Hw; try discriminate
  end.
  rewrite bind_Ok. clear Hw.
  unfold SendPushResponse.
  destruct (ub !! k) as [[pend mrg]|] eqn:Hub; srv; rewrite ?Hub; srv;
    cbn [UpdateBuf_empty request merged].
  1: destruct pend as [|p0 pending'].
  all: destruct sm, eb; cbn [negb andb]; try discriminate.
  all: repeat match goal with
       | |- context [reducer_sum ?a ?b ?c ?d <? 0] =>
           destruct (reducer_sum a b c d <? 0); try discriminate
       end.
  all: rewrite ?bind_Ok; srv.
  all: destruct (prm !! k) as [shell|] eqn:Hs; srv.
  all: repeat match goal with
       | |- context [(?a =? ?b)%nat] => destruct (Nat.eqb_spec a b)
       end.
  all: cbn [andb negb]; intros [= <-]; srv.
  all: split; reflexivity.
Qed.

Lemma push_answers k ty n stored recved req req_data mixed st st' :
  shells_empty st -> pull_keys st ->
  BytePSHandlePush GetThreadID reducer_sum k ty n stored recved req req_data mixed st
  = Ok st' ->
  answers k false st st'.
Proof.
  intros Hs Hp Hrun.
  destruct (push_maps _ _ _ _ _ _ _ _ _ _ Hrun) as [Hpull Hpush].
  apply push_any_mode in Hrun as (evs & H1 & H2 & H3 & _).
  assert (Hshell : push_shell st k = KVPairs_empty).
  { unfold push_shell. destruct (push_response_map_ st !! k) as [r|] eqn:E;
      [apply (Hs _ _ E)|reflexivity]. }
  exists evs. split; [exact H1|]. split.
  { intros k' r. rewrite Hpush. destruct (push_response_map_ st !! k) eqn:E; [apply Hs|].
    destruct (decide (k' = k)) as [->|Hne].
    - rewrite lookup_insert_eq. congruence.
    - rewrite lookup_insert_ne by congruence. apply Hs. }
  split; [intros k' r; rewrite Hpull; apply Hp|]. split.
  - intros req' res Hin. left.
    assert (Hf : In (Response req' res) (List.filter is_response evs)).
    { apply filter_In. split; [apply list_elem_of_In; exact Hin|reflexivity]. }
    rewrite H2 in Hf. destruct Hf as [Hf|[]]. injection Hf as _ <-. exact Hshell.
  - intros k' H. left. rewrite <- H3. exact H.
Qed.
End AnswersPush.

Lemma SendPullResponse_answers k req st st' :
  shells_empty st -> pull_keys st ->
  SendPullResponse EncodeKey k req st = Ok st' ->
  answers k false st st'.
Proof.
  intros Hs Hp. unfold SendPullResponse. cbv zeta.
  destruct (N.eqb_spec (tensor (merged (updates_of st k))) 0) as [|Hne]; [discriminate|].
  cbn [pull_response_map_ set_update_buf].
  assert (Hu : forall (st1 : server),
            update_buf_ st1 = <[k := updates_of st k]> (update_buf_ st) ->
            forall k', updates_of st1 k' = updates_of st k').
  { intros st1 H1 k'. rewrite (updates_of_insert st1 k _ k' st H1).
    destruct (decide (k' = k)) as [->|]; reflexivity. }
  assert (Hins : forall (m : gmap Z KVPairs) r, keys r = [EncodeKey k] ->
            (forall k' r', m !! k' = Some r' -> keys r' = [EncodeKey k']) ->
            forall k' r', <[k := r]> m !! k' = Some r' -> keys r' = [EncodeKey k']).
  { intros m r Hr Hm k' r'. destruct (decide (k' = k)) as [->|Hne'].
    - rewrite lookup_insert_eq. intros [= <-]. exact Hr.
    - rewrite lookup_insert_ne by congruence. apply Hm. }
  destruct (pull_response_map_ st !! k) as [old|] eqn:E; intros [= <-].
  all: eexists; split; [reflexivity|]; split; [exact Hs|].
  all: split; [intros k' r';
               cbn [pull_response_map_ emit set_pull_response_map set_update_buf];
               apply Hins; [|exact Hp]; cbn [keys]; try reflexivity; apply (Hp _ _ E)|].
  all: split; [|intros k' H; left; erewrite Hu in H by reflexivity; exact H].
  all: intros req' res Hin; apply list_elem_of_singleton in Hin; injection Hin as _ ->.
  all: right; split; [cbn [keys]; try reflexivity; apply (Hp _ _ E)|right; exact Hne].
Qed.

Lemma flush_pulls_answers k it : forall kept sh st sh' st',
  shells_empty st -> pull_keys st ->
  flush_pulls EncodeKey k it kept sh st = Ok (sh', st') ->
  answers k false st st'.
Proof.
  induction it as [|m rest IH]; intros kept sh st sh' st' Hs Hp.
  - cbn. intros [= _ <-]. apply answers_refl; assumption.
  - cbn [flush_pulls].
    destruct (decide (sender m ∈ seen_sender sh k)).
    + rewrite bind_Ok.
      destruct (pull_cnt sh k =? NumWorkers st)%nat.
      * intros [= _ <-]. apply answers_refl; assumption.
      * apply IH; assumption.
    + destruct (SendPullResponse EncodeKey k m st) as [st1| |] eqn:E; try discriminate.
      apply SendPullResponse_answers in E; [|assumption..].
      destruct (answers_post _ _ _ _ E) as [S1 P1].
      rewrite !bind_Ok.
      destruct (pull_cnt _ k =? NumWorkers st1)%nat.
      * intros [= _ <-]. exact E.
      * intros H. apply IH in H; [|assumption..].
        eapply answers_trans; eassumption.
Qed.

Section AnswersPull.
Variable GetThreadID : Z -> Z -> nat.

Lemma pull_answers k ty stored req st st' :
  shells_empty st -> pull_keys st ->
  BytePSHandlePull GetThreadID EncodeKey k ty stored req st = Ok st' ->
  answers k false st st'.
Proof.
  intros Hs Hp. unfold BytePSHandlePull.
  destruct (tensor stored =? 0)%N; [discriminate|].
  destruct (is_engine_blocking_ st || negb (sync_mode_ st)).
  { apply SendPullResponse_answers; assumption. }
  destruct (load (shards st) (GetThreadID k 0)) as [sh| |]; try discriminate.
  rewrite bind_Ok.
  destruct (push_finished (init_flags k sh) k
            && bool_decide (sender req ∉ seen_sender (init_flags k sh) k)).
  - destruct (SendPullResponse EncodeKey k req st) as [st1| |] eqn:E; try discriminate.
    apply SendPullResponse_answers in E; [|assumption..].
    rewrite !bind_Ok.
    destruct (store (shards st1) (GetThreadID k 0) _) as [l| |]; try discriminate.
    rewrite bind_Ok. intros [= <-]. exact E.
  - rewrite bind_Ok.
    destruct (store (shards st) (GetThreadID k 0) _) as [l| |]; try discriminate.
    rewrite bind_Ok. intros [= <-]. exact (answers_refl k false st Hs Hp).
Qed.
End AnswersPull.

Section AnswersEngine.
Variable reducer_sum : ptr -> ptr -> nat -> Z -> Z.
Variable compress_output : Z -> SArray -> ptr -> SArray.
Variable decompress_output : Z -> SArray -> SArray * Z.

Lemma all_recv_case_answers i msg st st' :
  shells_empty st -> pull_keys st ->
  all_recv_case EncodeKey i msg st = Ok st' ->
  answers (key msg) false st st'.
Proof.
  intros Hs Hp. unfold all_recv_case.
  destruct (load (shards st) i) as [sh| |]; try discriminate. rewrite bind_Ok.
  destruct (flush_pulls _ _ _ _ _ _) as [[sh1 st1]| |] eqn:E; try discriminate.
  rewrite bind_Ok. apply flush_pulls_answers in E; [|assumption..].
  destruct (store (shards st1) i sh1) as [l| |]; try discriminate.
  rewrite bind_Ok. intros [= <-]. exact E.
Qed.

(** Only an ALL_RECV message sets a merged buffer, that of its key, and
    only the pulls of that key are answered. *)
Lemma engine_step_answers i msg st st' :
  shells_empty st -> pull_keys st ->
  engine_step EncodeKey reducer_sum compress_output decompress_output i msg st = Ok st' ->
  answers (key msg) (match ops msg with ALL_RECV => true | _ => false end) st st'.
Proof.
  intros Hs Hp. unfold engine_step.
  destruct (dst msg =? 0)%N; [discriminate|].
  destruct (src msg =? 0)%N; [discriminate|].
  assert (Hseal : forall e m st0,
            is_response e = false ->
            all_recv_case EncodeKey i msg (set_merged (key msg) m (emit e st)) = Ok st0 ->
            answers (key msg) true st st0).
  { intros e m st0 He H.
    pose proof (answers_emit (key msg) true e st Hs Hp He) as A1.
    destruct (answers_post _ _ _ _ A1) as [S1 P1].
    pose proof (answers_set_merged (key msg) m _ S1 P1) as A2.
    destruct (answers_post _ _ _ _ A2) as [S2 P2].
    apply all_recv_case_answers in H; [|assumption..].
    eapply answers_trans; [exact A1|]. eapply answers_trans; [exact A2|].
    apply answers_sealing. exact H. }
  destruct (decide (key msg ∈ compressor_map_ st)) as [Hc|Hc].
  - destruct (ops msg) eqn:Hop.
    + destruct (load (lens (sarray msg)) 0) as [cl| |]; try discriminate.
      rewrite bind_Ok. destruct (len msg <? cl)%nat; [discriminate|].
      destruct (decompress_output (key msg) (mkSArray (src msg) cl)) as [d dt].
      rewrite bind_Ok. cbn [ops mixed_precision dst src len type dtype key].
      intros [= <-].
      eapply answers_trans; apply answers_emit; auto.
    + destruct (load (lens (sarray msg)) 0) as [cl| |]; try discriminate.
      rewrite bind_Ok. destruct (len msg <? cl)%nat; [discriminate|].
      destruct (decompress_output (key msg) (mkSArray (src msg) cl)) as [d dt].
      rewrite bind_Ok. cbn [ops mixed_precision dst src len type dtype key].
      destruct (reducer_sum _ _ _ _ <? 0); [discriminate|].
      intros [= <-].
      eapply answers_trans; apply answers_emit; auto.
    + rewrite bind_Ok, Hop. apply Hseal. reflexivity.
    + destruct (load (lens (sarray msg)) 0) as [cl| |]; try discriminate.
      rewrite bind_Ok. destruct (len msg <? cl)%nat; [discriminate|].
      destruct (decompress_output (key msg) (mkSArray (src msg) cl)) as [d dt].
      rewrite bind_Ok. cbn [ops]. discriminate.
  - destruct (ops msg) eqn:Hop.
    + rewrite bind_Ok, Hop. destruct (mixed_precision msg); intros [= <-].
      all: apply answers_emit; auto.
    + rewrite bind_Ok, Hop. destruct (mixed_precision msg).
      * intros [= <-]. apply answers_emit; auto.
      * destruct (reducer_sum _ _ _ _ <? 0); [discriminate|].
        intros [= <-]. apply answers_emit; auto.
    + destruct (mixed_precision msg).
      * rewrite bind_Ok, Hop. apply Hseal. reflexivity.
      * rewrite bind_Ok, Hop. intros H.
        pose proof (answers_set_merged (key msg)
                      (mkArray (src msg) (len msg)
                         (a_dtype (merged (updates_of st (key msg))))
                         (tmp_sarray (merged (updates_of st (key msg))))) st Hs Hp) as A2.
        destruct (answers_post _ _ _ _ A2) as [S2 P2].
        apply all_recv_case_answers in H; [|assumption..].
        eapply answers_trans; [exact A2|]. apply answers_sealing. exact H.
    + rewrite bind_Ok, Hop. discriminate.
Qed.
End AnswersEngine.

(** A move that answers for a key that is sealed, or will be by the move,
    keeps the invariant. *)
Lemma answers_data_after_seal k sealing st st' :
  data_after_seal st ->
  (sealing = true -> sealed_for k (trace st)) ->
  answers k sealing st st' ->
  data_after_seal st'.
Proof.
  intros (Hs & Hp & J1 & J4) Hseal (evs & T & S & P & R & M).
  split; [exact S|]. split; [exact P|]. split.
  - intros k' H. rewrite T. apply sealed_for_app.
    destruct (M _ H) as [H'|[Hsl ->]]; [apply J1, H'|apply Hseal, Hsl].
  - intros n req res. rewrite T. intros Hn.
    destruct (Nat.lt_ge_cases n (length (trace st))) as [Hlt|Hge].
    + rewrite lookup_app_l in Hn by exact Hlt.
      rewrite take_app_le by lia. apply (J4 _ _ _ Hn).
    + rewrite lookup_app_r in Hn by exact Hge.
      rewrite take_app_ge by exact Hge.
      apply list_elem_of_lookup_2 in Hn.
      destruct (R _ _ Hn) as [?|[Hk Hwhy]]; [left; assumption|].
      right. exists k. split; [exact Hk|]. apply sealed_for_app.
      destruct Hwhy as [Hsl|Hne]; [apply Hseal, Hsl|apply J1, Hne].
Qed.
End Answers.

Section Barrier.
Variable GetThreadID : Z -> Z -> nat.
Variable EncodeKey : Z -> Z.
Variable reducer_sum : ptr -> ptr -> nat -> Z -> Z.
Variable compress_output : Z -> SArray -> ptr -> SArray.
Variable decompress_output : Z -> SArray -> SArray * Z.
Variable PageAlignedMalloc : server -> nat -> ptr.
Variable Align : nat -> nat.
Variable Promote : nat -> Z -> nat * Z.
Variable CompressorRegistry_Create : KVPairs -> nat -> nat -> Z -> bool.
Variable DepairDataHandleType : Z -> DataHandleType.
Variable DecodeKey : Z -> Z.
Variable log_key_info_ : bool.
Variable BYTEPS_FLOAT16 : Z.

Local Abbreviation handler :=
  (handler GetThreadID EncodeKey reducer_sum PageAlignedMalloc Align Promote
     CompressorRegistry_Create DepairDataHandleType DecodeKey log_key_info_
     BYTEPS_FLOAT16).
Local Abbreviation server_step :=
  (server_step GetThreadID EncodeKey reducer_sum compress_output decompress_output
     PageAlignedMalloc Align Promote CompressorRegistry_Create
     DepairDataHandleType DecodeKey log_key_info_ BYTEPS_FLOAT16).

Lemma handle_answers req req_data st st' :
  shells_empty st -> pull_keys EncodeKey st ->
  handler req req_data st = Ok st' ->
  exists k, answers EncodeKey k false st st'.
Proof.
  intros Hs Hp. unfold ServerSpec.handler, BytePSHandler. cbv zeta.
  destruct (keys req_data) as [|k0 [|k1 ks]] eqn:Hk; cbn [length Nat.eqb negb];
    try discriminate.
  match goal with
  | |- context [if ?c then _ else Ok tt] => destruct c
  end.
  2: rewrite bind_Ok.
  1: destruct (negb (length (lens req_data) =? 1)%nat); [discriminate|];
     destruct (load (lens req_data) 0) as [l0| |]; try discriminate;
     rewrite bind_Ok;
     destruct (negb (sa_size (vals req_data) =? l0)%nat); [discriminate|];
     rewrite bind_Ok.
  all: change (load [k0] 0) with (Ok k0); rewrite bind_Ok.
  all: intros H; exists (DecodeKey k0).
  all: destruct (requestType (DepairDataHandleType (cmd req)));
       try discriminate; try (eapply config_answers; eassumption).
  all: revert H; unfold BytePSHandleDefaultReq; cbn [GetStore].
  all: destruct (push req);
       [|intros H; eapply pull_answers in H; [exact H|assumption..]].
  all: destruct (negb (length (lens req_data) =? 1)%nat); [discriminate|].
  all: destruct (load (lens req_data) 0) as [l1| |]; try discriminate; rewrite bind_Ok.
  all: destruct (negb (sa_size (vals req_data) =? l1)%nat); [discriminate|].
  all: destruct (tensor (default BytePSArray_empty (store_ st !! DecodeKey k0)) =? 0)%N;
       intros H; [eapply init_answers in H|eapply push_answers in H];
       first [exact H|assumption].
Qed.

Lemma step_data_after_seal st st' :
  data_after_seal EncodeKey st -> server_step st st' -> data_after_seal EncodeKey st'.
Proof.
  intros HJ [(req & rd & H)|(i & msg & Hin & H)].
  - destruct HJ as (Hs & Hp & HJ).
    apply handle_answers in H as [k H]; [|assumption..].
    eapply answers_data_after_seal; [split; [|split]; eassumption| |exact H].
    discriminate.
  - pose proof HJ as (Hs & Hp & _).
    apply engine_step_answers in H; [|assumption..].
    eapply answers_data_after_seal; [exact HJ| |exact H].
    intros Hop. exists i, msg. split; [exact Hin|]. split; [|reflexivity].
    destruct (ops msg); try discriminate. reflexivity.
Qed.

Lemma run_data_after_seal st st' :
  data_after_seal EncodeKey st -> rtc server_step st st' -> data_after_seal EncodeKey st'.
Proof.
  intros HJ Hrun. induction Hrun as [st|st st1 st2 Hstep _ IH]; [exact HJ|].
  apply IH. eapply step_data_after_seal; eassumption.
Qed.

(** X25.  However the requests and the iterations of the engine threads
    interleave, a response is an empty acknowledgement or names one key for
    which an ALL_RECV message was queued before the response was sent, and a
    merged buffer is set only for such a key.  The ALL_RECV message may be
    that of any earlier round of the key: nothing is answered with data
    before the first one. *)
Theorem data_sent_after_all_recv st st' :
  data_after_seal EncodeKey st -> rtc server_step st st' ->
  (forall n req res, trace st' !! n = Some (Response req res) ->
     res = KVPairs_empty \/
     exists k, keys res = [EncodeKey k] /\ sealed_for k (take n (trace st'))) /\
  (forall k, tensor (merged (updates_of st' k)) <> 0%N -> sealed_for k (trace st')).
Proof.
  intros HJ Hrun.
  destruct (run_data_after_seal st st' HJ Hrun) as (_ & _ & J1 & J4).
  split; assumption.
Qed.
End Barrier.

Lemma fresh_data_after_seal EncodeKey sync blocking n :
  data_after_seal EncodeKey (example_fresh sync blocking n).
Proof.
  split; [intros k r H; cbn in H; rewrite lookup_empty in H; discriminate|].
  split; [intros k r H; cbn in H; rewrite lookup_empty in H; discriminate|].
  split.
  - intros k H. exfalso. apply H. unfold updates_of. cbn. rewrite lookup_empty.
    reflexivity.
  - intros i req res H. cbn in H. rewrite lookup_nil in H. discriminate.
Qed.

Lemma data_sent_after_all_recv_witness :
  exists st1 st2 st3,
    example_run [example_push_req 8; example_push_req 9;
                 example_push_req 8; example_push_req 9]
      (example_fresh true false 2) = Ok st1 /\
    engine_step (fun k => k) (fun _ _ _ _ => 0) (fun _ a _ => a) (fun _ a => (a, 0))
      0 example_round_all_recv st1 = Ok st2 /\
    example_handler (example_pull_req 8).1 (example_pull_req 8).2 st2 = Ok st3 /\
    trace st3 !! 8%nat
    = Some (Response (mkMeta 0 false 8) (mkKV [7] (mkSArray 4096%N 16) [16%nat])) /\
    sealed_for 7 (take 8 (trace st3)).
Proof.
  destruct (example_run [example_push_req 8; example_push_req 9;
                         example_push_req 8; example_push_req 9]
              (example_fresh true false 2)) as [st1| |] eqn:E1;
    [|vm_compute in E1; discriminate|vm_compute in E1; discriminate].
  destruct (engine_step (fun k => k) (fun _ _ _ _ => 0) (fun _ a _ => a)
              (fun _ a => (a, 0)) 0 example_round_all_recv st1) as [st2| |] eqn:E2.
  2,3: exfalso; clear - E1 E2; vm_compute in E1; injection E1 as <-;
       vm_compute in E2; discriminate.
  destruct (example_handler (example_pull_req 8).1 (example_pull_req 8).2 st2)
    as [st3| |] eqn:E3.
  2,3: exfalso; clear - E1 E2 E3; vm_compute in E1; injection E1 as <-;
       vm_compute in E2; injection E2 as <-; vm_compute in E3; discriminate.
  assert (Hin : QueuePush 0 example_round_all_recv ∈ trace st1).
  { clear - E1. vm_compute in E1. injection E1 as <-. cbn [trace].
    repeat first [apply list_elem_of_here | apply list_elem_of_further]. }
  assert (Hat : trace st3 !! 8%nat
                = Some (Response (mkMeta 0 false 8)
                          (mkKV [7] (mkSArray 4096%N 16) [16%nat]))).
  { clear - E1 E2 E3. vm_compute in E1. injection E1 as <-.
    vm_compute in E2. injection E2 as <-. vm_compute in E3. injection E3 as <-.
    reflexivity. }
  exists st1, st2, st3. split; [reflexivity|]. split; [exact E2|].
  split; [exact E3|]. split; [exact Hat|].
  destruct (data_sent_after_all_recv (fun _ _ => 0%nat) (fun k => k) (fun _ _ _ _ => 0)
              (fun _ a _ => a) (fun _ a => (a, 0)) (fun _ _ => 4096%N)
              (fun n => n) (fun n dt => (n, dt)) (fun _ _ _ _ => true)
              (fun c => mkType (if c =? 1 then kConfigPushPull else kDefaultPushPull) 0)
              (fun k => k) false 2 (example_fresh true false 2) st3)
    as [H _].
  - apply fresh_data_after_seal.
  - eapply rtc_r; [eapply rtc_r; [exact (example_run_steps _ _ _ E1)|]|].
    + right. exists 0%nat, example_round_all_recv. split; [exact Hin|exact E2].
    + left. eexists _, _. exact E3.
  - destruct (H _ _ _ Hat) as [He|(k & Hk & Hs)]; [discriminate|].
    injection Hk as <-. exact Hs.
Defined.

(** *** Pulls answered per round *)

Lemma total_credit_insert n k (shs : list shard) i sh sh' :
  shs !! i = Some sh ->
  (total_credit n k (<[i := sh']> shs) + credit n k sh
   = total_credit n k shs + credit n k sh')%nat.
Proof.
  unfold total_credit. revert i. induction shs as [|x shs IH]; intros i H; [discriminate|].
  destruct i as [|i]; simpl in *.
  - injection H as ->.
    generalize (credit n k sh'), (credit n k sh),
      (sum_list (list_fmap shard nat (credit n k) shs)). intros; lia.
  - rewrite <- !Nat.add_assoc. f_equal. apply IH, H.
Qed.

Lemma total_credit_same n k (shs : list shard) i sh sh' :
  shs !! i = Some sh -> credit n k sh' = credit n k sh ->
  total_credit n k (<[i := sh']> shs) = total_credit n k shs.
Proof.
  intros H E. pose proof (total_credit_insert n k shs i sh sh' H) as Hi.
  rewrite E in Hi. apply Nat.add_cancel_r in Hi. exact Hi.
Qed.

Lemma shard_other_key k k' (sh : shard) s :
  k' <> k ->
  (push_finished (mark_served k s sh) k' = push_finished sh k' /\
   pull_cnt (mark_served k s sh) k' = pull_cnt sh k') /\
  (push_finished (reset_flags k sh) k' = push_finished sh k' /\
   pull_cnt (reset_flags k sh) k' = pull_cnt sh k') /\
  (forall b, push_finished (set_push_finished k b sh) k' = push_finished sh k' /\
             pull_cnt (set_push_finished k b sh) k' = pull_cnt sh k') /\
  (push_finished (init_flags k sh) k' = push_finished sh k' /\
   pull_cnt (init_flags k sh) k' = pull_cnt sh k').
Proof.
  intros Hne.
  unfold push_finished, pull_cnt, mark_served, reset_flags, set_push_finished, init_flags.
  destruct (is_push_finished_ sh !! k); cbn;
    repeat split; intros; repeat rewrite lookup_insert_ne by congruence; reflexivity.
Qed.

(** [init_flags] changes neither what may still be answered nor the bound
    of the counter. *)
Lemma init_flags_credit n k k' (sh : shard) :
  (pull_cnt sh k' < n)%nat ->
  credit n k' (init_flags k sh) = credit n k' sh /\
  (pull_cnt (init_flags k sh) k' < n)%nat.
Proof.
  intros Hlt. destruct (decide (k' = k)) as [->|Hne].
  - unfold credit, init_flags, push_finished, pull_cnt in *.
    destruct (is_push_finished_ sh !! k) as [b|] eqn:E; [rewrite E; auto|].
    cbn. rewrite !lookup_insert_eq. cbn. split; [reflexivity|lia].
  - destruct (shard_other_key k k' sh 0 Hne) as (_ & _ & _ & E1 & E2).
    unfold credit. rewrite E1, E2. auto.
Qed.

Section RoundsCounting.
Variable EncodeKey : Z -> Z.
Local Abbreviation pulls_answered := (pulls_answered EncodeKey).
Local Abbreviation answers_pull := (answers_pull EncodeKey).

Lemma pulls_answered_app k a b :
  pulls_answered k (a ++ b) = (pulls_answered k a + pulls_answered k b)%nat.
Proof. unfold ServerSpec.pulls_answered. rewrite List.filter_app, length_app. reflexivity. Qed.

Lemma pulls_answered_no_data k evs : no_data evs -> pulls_answered k evs = 0%nat.
Proof.
  unfold ServerSpec.pulls_answered. induction 1 as [|e evs He _ IH]; [reflexivity|].
  cbn [List.filter]. destruct e as [req res| | | | | | | |]; cbn [ServerSpec.answers_pull]; try exact IH.
  rewrite bool_decide_eq_false_2; [exact IH|]. rewrite He. discriminate.
Qed.

Lemma no_data_silent evs : Forall (fun e => is_response e = false) evs -> no_data evs.
Proof.
  intros H. eapply Forall_impl; [exact H|].
  intros [req res| | | | | | | |]; cbn; auto. discriminate.
Qed.
End RoundsCounting.

Lemma quiet_silent st st' evs :
  shells_empty st ->
  push_response_map_ st' = push_response_map_ st -> shards st' = shards st ->
  pull_response_map_ st' = pull_response_map_ st -> same_config st st' ->
  trace st' = trace st ++ evs -> Forall (fun e => is_response e = false) evs ->
  quiet st st'.
Proof.
  intros Hs Hpush Hsh Hpull Hcfg Htr Hev.
  split; [intros k r; rewrite Hpush; apply Hs|].
  split; [exact Hsh|]. split; [exact Hpull|]. split; [exact Hcfg|].
  exists evs. split; [exact Htr|]. apply no_data_silent, Hev.
Qed.

Lemma quiet_refl st : shells_empty st -> quiet st st.
Proof.
  intros Hs. apply (quiet_silent st st []); auto.
  - repeat split; reflexivity.
  - rewrite app_nil_r. reflexivity.
Qed.

Lemma quiet_trans st1 st2 st3 : quiet st1 st2 -> quiet st2 st3 -> quiet st1 st3.
Proof.
  intros (_ & A1 & A2 & A3 & e1 & A4 & A5) (B0 & B1 & B2 & B3 & e2 & B4 & B5).
  split; [exact B0|]. split; [congruence|]. split; [congruence|].
  split; [unfold same_config in *; intuition congruence|].
  exists (e1 ++ e2). split; [rewrite B4, A4, app_assoc; reflexivity|].
  apply Forall_app; split; assumption.
Qed.

Lemma quiet_post st st' : quiet st st' -> shells_empty st'.
Proof. intros (H & _). exact H. Qed.

(** A step that changes none of the fields the accounts read. *)
Ltac quiet_setter :=
  match goal with
  | Hs : shells_empty ?st |- quiet ?st ?st' =>
      apply (quiet_silent st st' []);
      [exact Hs|reflexivity|reflexivity|reflexivity|repeat split; reflexivity
      |rewrite app_nil_r; reflexivity|constructor]
  end.

Lemma quiet_emit e st :
  shells_empty st -> is_response e = false -> quiet st (emit e st).
Proof.
  intros Hs He. apply (quiet_silent st _ [e]); auto.
  repeat split; reflexivity.
Qed.

Lemma quiet_SendPushResponse k req st :
  shells_empty st -> quiet st (SendPushResponse k req st).
Proof.
  intros Hs.
  assert (Hshell : push_shell st k = KVPairs_empty).
  { unfold push_shell. destruct (push_response_map_ st !! k) as [r|] eqn:E;
      [apply (Hs _ _ E)|reflexivity]. }
  pose proof (SendPushResponse_trace k req st) as Htr. rewrite Hshell in Htr.
  split.
  { unfold SendPushResponse. destruct (push_response_map_ st !! k) as [r|] eqn:E;
      [exact Hs|].
    intros k' r. cbn [push_response_map_ emit set_push_response_map].
    destruct (decide (k' = k)) as [->|Hne].
    - rewrite lookup_insert_eq. congruence.
    - rewrite lookup_insert_ne by congruence. apply Hs. }
  unfold SendPushResponse in *.
  destruct (push_response_map_ st !! k) as [r|];
    (split; [reflexivity|]; split; [reflexivity|];
     split; [repeat split; reflexivity|];
     eexists; split; [exact Htr|]; repeat constructor).
Qed.

Lemma quiet_respond_all k reqs : forall st,
  shells_empty st -> quiet st (respond_all k reqs st).
Proof.
  induction reqs as [|r reqs IH]; intros st Hs; [apply quiet_refl, Hs|].
  unfold respond_all in *. cbn [fold_left].
  pose proof (quiet_SendPushResponse k r st Hs) as H1.
  eapply quiet_trans; [exact H1|]. apply IH, (quiet_post _ _ H1).
Qed.

Lemma quiet_buffer_and_respond k req st :
  shells_empty st -> quiet st (buffer_and_respond k req st).
Proof.
  intros Hs. unfold buffer_and_respond.
  set (st1 := set_update_buf _ st).
  set (st2 := set_request k _ st1).
  assert (A2 : quiet st st2) by quiet_setter.
  destruct (_ <? _)%nat; [exact A2|].
  pose proof (quiet_respond_all k (request (updates_of st2 k)) st2 (quiet_post _ _ A2)) as A3.
  eapply quiet_trans; [exact A2|]. eapply quiet_trans; [exact A3|].
  pose proof (quiet_post _ _ A3) as Hs3. quiet_setter.
Qed.

Section QuietHandlers.
Variable GetThreadID : Z -> Z -> nat.
Variable reducer_sum : ptr -> ptr -> nat -> Z -> Z.
Variable PageAlignedMalloc : server -> nat -> ptr.
Variable Align : nat -> nat.
Variable Promote : nat -> Z -> nat * Z.
Variable CompressorRegistry_Create : KVPairs -> nat -> nat -> Z -> bool.

Lemma quiet_config k ty req req_data st st' :
  shells_empty st ->
  BytePSHandleConfigReq Align CompressorRegistry_Create k ty req req_data st = Ok st' ->
  quiet st st'.
Proof.
  intros Hs. unfold BytePSHandleConfigReq.
  destruct (decide (k ∈ compressor_map_ st)) as [Hin|Hnin].
  - rewrite bind_Ok. intros [= <-]. apply quiet_buffer_and_respond, Hs.
  - destruct (lens req_data) as [|l0 ls]; [discriminate|].
    change (load (l0 :: ls) 0) with (Ok l0). rewrite bind_Ok.
    cbn [GetStore].
    destruct (CompressorRegistry_Create _ _ _ _); [|discriminate].
    rewrite bind_Ok. intros [= <-].
    set (st1 := set_compressor_map _ _).
    assert (A1 : quiet st st1) by quiet_setter.
    eapply quiet_trans; [exact A1|].
    apply quiet_buffer_and_respond, (quiet_post _ _ A1).
Qed.

Lemma quiet_init k ty n stored req req_data mixed st st' :
  shells_empty st ->
  BytePSHanleInit PageAlignedMalloc Align Promote k ty n stored req req_data mixed st
  = Ok st' ->
  quiet st st'.
Proof.
  intros Hs. unfold BytePSHanleInit.
  set (st_a := if sync_mode_ st && bool_decide (update_buf_ st !! k = None)
               then _ else st).
  assert (Aa : quiet st st_a).
  { subst st_a. destruct (sync_mode_ st && bool_decide (update_buf_ st !! k = None));
      [quiet_setter|apply quiet_refl, Hs]. }
  set (st_b := set_update_buf (<[k:=updates_of st_a k]> (update_buf_ st_a)) st_a).
  set (st_c := set_request k _ st_b).
  assert (Ac : quiet st st_c).
  { eapply quiet_trans; [exact Aa|]. pose proof (quiet_post _ _ Aa) as Hsa. quiet_setter. }
  destruct (_ <? _)%nat; [intros [= <-]; exact Ac|].
  pose proof (quiet_post _ _ Ac) as Hsc.
  assert (Hfin : forall (st_e : server) p n' dt,
            quiet st_c st_e ->
            (let st_f := set_store (<[k:=mkArray p n' dt (tmp_sarray stored)]> (store_ st_e)) st_e in
             if (p =? 0)%N then Fatal "Check failed: stored->tensor"
             else Ok (set_request k [] (respond_all k (request (updates_of st_f k)) st_f)))
            = Ok st' ->
            quiet st st').
  { intros st_e p n' dt Ae. cbv zeta.
    destruct (p =? 0)%N; [discriminate|].
    set (st_f := set_store _ st_e). intros [= <-].
    pose proof (quiet_post _ _ Ae) as Hse.
    assert (Af : quiet st_e st_f) by quiet_setter.
    pose proof (quiet_respond_all k (request (updates_of st_f k)) st_f (quiet_post _ _ Af)) as Ag.
    pose proof (quiet_post _ _ Ag) as Hsg.
    eapply quiet_trans; [exact Ac|]. eapply quiet_trans; [exact Ae|].
    eapply quiet_trans; [exact Af|]. eapply quiet_trans; [exact Ag|]. quiet_setter. }
  destruct mixed.
  - cbn [GetFP16Copy].
    match goal with |- context [(PageAlignedMalloc ?s ?z =? 0)%N] =>
      destruct (PageAlignedMalloc s z =? 0)%N; [discriminate|] end.
    destruct (Promote n (dtype ty)) as [n' dt]. rewrite bind_Ok. cbn beta iota.
    apply Hfin. quiet_setter.
  - rewrite bind_Ok. cbn beta iota. apply Hfin. apply quiet_refl, Hsc.
Qed.

Lemma push_shards k ty n stored recved req req_data mixed st st' :
  BytePSHandlePush GetThreadID reducer_sum k ty n stored recved req req_data mixed st
  = Ok st' ->
  shards st' = shards st.
Proof.
  destruct st as [sm eb N lb ts store ub fp cm prm plm sh tr].
  unfold BytePSHandlePush.
  match goal with
  | |- context [push_workload ?s k stored] =>
      destruct (push_workload s k stored) as [w| |] eqn:Hw; try discriminate
  end.
  rewrite bind_Ok. clear Hw.
  unfold SendPushResponse.
  destruct (ub !! k) as [[pend mrg]|] eqn:Hub; srv; rewrite ?Hub; srv;
    cbn [UpdateBuf_empty request merged].
  1: destruct pend as [|p0 pending'].
  all: destruct sm, eb; cbn [negb andb]; try discriminate.
  all: repeat match goal with
       | |- context [reducer_sum ?a ?b ?c ?d <? 0] =>
           destruct (reducer_sum a b c d <? 0); try discriminate
       end.
  all: rewrite ?bind_Ok; srv.
  all: destruct (prm !! k) as [shell|] eqn:Hs; srv.
  all: repeat match goal with
       | |- context [(?a =? ?b)%nat] => destruct (Nat.eqb_spec a b)
       end.
  all: cbn [andb negb]; intros [= <-]; reflexivity.
Qed.

Lemma quiet_push k ty n stored recved req req_data mixed st st' :
  shells_empty st ->
  BytePSHandlePush GetThreadID reducer_sum k ty n stored recved req req_data mixed st
  = Ok st' ->
  quiet st st'.
Proof.
  intros Hs Hrun.
  pose proof (push_shards _ _ _ _ _ _ _ _ _ _ Hrun) as Hsh.
  destruct (push_maps _ _ _ _ _ _ _ _ _ _ _ _ Hrun) as [Hpull Hpush].
  apply push_any_mode in Hrun as (evs & H1 & H2 & _ & _ & H5 & _).
  assert (Hshell : push_shell st k = KVPairs_empty).
  { unfold push_shell. destruct (push_response_map_ st !! k) as [r|] eqn:E;
      [apply (Hs _ _ E)|reflexivity]. }
  split.
  { intros k' r. rewrite Hpush. destruct (push_response_map_ st !! k) eqn:E; [apply Hs|].
    destruct (decide (k' = k)) as [->|Hne].
    - rewrite lookup_insert_eq. congruence.
    - rewrite lookup_insert_ne by congruence. apply Hs. }
  split; [exact Hsh|]. split; [exact Hpull|]. split; [exact H5|].
  exists evs. split; [exact H1|].
  apply Forall_forall. intros e He. destruct e as [req' res| | | | | | | |]; auto.
  assert (Hf : In (Response req' res) (List.filter is_response evs)).
  { apply filter_In. split; [apply list_elem_of_In; exact He|reflexivity]. }
  rewrite H2 in Hf. destruct Hf as [Hf|[]]. injection Hf as _ <-. rewrite Hshell.
  reflexivity.
Qed.
End QuietHandlers.

Section RoundSteps.
Variable EncodeKey : Z -> Z.
Hypothesis EncodeKey_inj : forall k k', EncodeKey k = EncodeKey k' -> k = k'.
Local Abbreviation pull_keys := (pull_keys EncodeKey).
Local Abbreviation pulls_answered := (pulls_answered EncodeKey).
Local Abbreviation round_step := (round_step EncodeKey).

Lemma pulls_answered_one k k' req res :
  keys res = [EncodeKey k] ->
  pulls_answered k' [Response req res] = if decide (k' = k) then 1%nat else 0%nat.
Proof.
  intros Hk. unfold ServerSpec.pulls_answered. cbn [List.filter ServerSpec.answers_pull]. rewrite Hk.
  destruct (decide (k' = k)) as [->|Hne].
  - rewrite bool_decide_eq_true_2 by reflexivity. reflexivity.
  - rewrite bool_decide_eq_false_2; [reflexivity|].
    intros [= H]. apply EncodeKey_inj in H. congruence.
Qed.

Lemma SendPullResponse_round k req st st' :
  shells_empty st -> pull_keys st ->
  SendPullResponse EncodeKey k req st = Ok st' ->
  shells_empty st' /\ pull_keys st' /\ shards st' = shards st /\ same_config st st' /\
  exists res, trace st' = trace st ++ [Response req res] /\ keys res = [EncodeKey k].
Proof.
  intros Hs Hp. unfold SendPullResponse. cbv zeta.
  destruct (tensor (merged (updates_of st k)) =? 0)%N; [discriminate|].
  cbn [pull_response_map_ set_update_buf].
  assert (Hins : forall (m : gmap Z KVPairs) r, keys r = [EncodeKey k] ->
            (forall k' r', m !! k' = Some r' -> keys r' = [EncodeKey k']) ->
            forall k' r', <[k := r]> m !! k' = Some r' -> keys r' = [EncodeKey k']).
  { intros m r Hr Hm k' r'. destruct (decide (k' = k)) as [->|Hne'].
    - rewrite lookup_insert_eq. intros [= <-]. exact Hr.
    - rewrite lookup_insert_ne by congruence. apply Hm. }
  destruct (pull_response_map_ st !! k) as [old|] eqn:E; intros [= <-].
  all: split; [exact Hs|].
  all: split; [intros k' r';
               cbn [pull_response_map_ emit set_pull_response_map set_update_buf];
               apply Hins; [|exact Hp]; cbn [keys]; try reflexivity; apply (Hp _ _ E)|].
  all: split; [reflexivity|]; split; [repeat split; reflexivity|].
  all: eexists; split; [reflexivity|]; cbn [keys]; try reflexivity; apply (Hp _ _ E).
Qed.

Lemma credit_finished n k sh :
  push_finished sh k = true -> credit n k sh = (n - pull_cnt sh k)%nat.
Proof. intros H. unfold credit. rewrite H. reflexivity. Qed.

Lemma credit_other n k' sh sh' :
  push_finished sh' k' = push_finished sh k' -> pull_cnt sh' k' = pull_cnt sh k' ->
  credit n k' sh' = credit n k' sh.
Proof. intros H1 H2. unfold credit. rewrite H1, H2. reflexivity. Qed.

(** The loop over the parked pulls, on a shard whose round is open. *)
Lemma flush_pulls_round k it : forall kept sh st sh' st',
  shells_empty st -> pull_keys st ->
  (forall k', (pull_cnt sh k' < NumWorkers st)%nat) ->
  push_finished sh k = true ->
  flush_pulls EncodeKey k it kept sh st = Ok (sh', st') ->
  shards st' = shards st /\
  round_step (NumWorkers st) k (NumWorkers st - pull_cnt sh k) sh sh' st st'.
Proof.
  induction it as [|m rest IH]; intros kept sh st sh' st' Hs Hp Hlt Hfin.
  - cbn [flush_pulls]. intros [= <- <-]. split; [reflexivity|].
    split; [exact Hs|]. split; [exact Hp|]. split; [repeat split; reflexivity|].
    split; [exact Hlt|]. split; [reflexivity|].
    exists []. rewrite app_nil_r. split; [reflexivity|]. split; [reflexivity|].
    change (credit (NumWorkers st) k (set_q_pull_reqmeta k kept sh))
      with (credit (NumWorkers st) k sh).
    rewrite credit_finished by exact Hfin. cbn. lia.
  - cbn [flush_pulls].
    destruct (decide (sender m ∈ seen_sender sh k)).
    + rewrite bind_Ok.
      destruct (Nat.eqb_spec (pull_cnt sh k) (NumWorkers st)) as [E|_];
        [specialize (Hlt k); lia|].
      apply IH; assumption.
    + destruct (SendPullResponse EncodeKey k m st) as [st1| |] eqn:E; try discriminate.
      apply SendPullResponse_round in E as (S1 & P1 & Hsh1 & C1 & res & T1 & K1);
        [|assumption..].
      rewrite !bind_Ok.
      destruct (mark_served_fields k (sender m) sh) as (F1 & F2 & _).
      assert (HN : NumWorkers st1 = NumWorkers st) by apply C1.
      rewrite HN.
      destruct (Nat.eqb_spec (pull_cnt (mark_served k (sender m) sh) k) (NumWorkers st))
        as [Efull|Enot].
      * intros [= <- <-]. split; [exact Hsh1|].
        destruct (reset_flags_fields k (mark_served k (sender m) sh)) as (R1 & R2 & _).
        split; [exact S1|]. split; [exact P1|]. split; [exact C1|].
        split.
        { intros k'. change (pull_cnt (set_q_pull_reqmeta k (kept ++ rest)
                                 (reset_flags k (mark_served k (sender m) sh))) k')
            with (pull_cnt (reset_flags k (mark_served k (sender m) sh)) k').
          destruct (decide (k' = k)) as [->|Hne]; [rewrite R2; specialize (Hlt k); lia|].
          destruct (shard_other_key k k' (mark_served k (sender m) sh) 0 Hne)
            as (_ & (_ & ->) & _).
          destruct (shard_other_key k k' sh (sender m) Hne) as ((_ & ->) & _).
          apply Hlt. }
        split.
        { intros k' Hne.
          change (credit (NumWorkers st) k' (set_q_pull_reqmeta k (kept ++ rest)
                                 (reset_flags k (mark_served k (sender m) sh))))
            with (credit (NumWorkers st) k' (reset_flags k (mark_served k (sender m) sh))).
          destruct (shard_other_key k k' (mark_served k (sender m) sh) 0 Hne)
            as (_ & (Ea & Eb) & _).
          destruct (shard_other_key k k' sh (sender m) Hne) as ((Ec & Ed) & _).
          apply credit_other; congruence. }
        exists [Response m res]. split; [exact T1|]. split.
        { intros k' Hne. rewrite (pulls_answered_one k k' m res K1), decide_False by exact Hne.
          reflexivity. }
        rewrite (pulls_answered_one k k m res K1), decide_True by reflexivity.
        change (credit (NumWorkers st) k (set_q_pull_reqmeta k (kept ++ rest)
                               (reset_flags k (mark_served k (sender m) sh))))
          with (credit (NumWorkers st) k (reset_flags k (mark_served k (sender m) sh))).
        unfold credit. rewrite R1. specialize (Hlt k). lia.
      * intros H. apply IH in H as (Hsh2 & S2 & P2 & C2 & L2 & O2 & evs & T2 & Z2 & B2).
        -- split; [congruence|].
           split; [exact S2|]. split; [exact P2|].
           split; [unfold same_config in *; intuition congruence|].
           rewrite HN in *.
           split; [exact L2|]. split.
           { intros k' Hne. rewrite (O2 k' Hne).
             destruct (shard_other_key k k' sh (sender m) Hne) as ((Ec & Ed) & _).
             apply credit_other; assumption. }
           exists (Response m res :: evs). split; [rewrite T2, T1, <- app_assoc; reflexivity|].
           split.
           { intros k' Hne.
             change (Response m res :: evs) with ([Response m res] ++ evs).
             rewrite pulls_answered_app, (pulls_answered_one k k' m res K1),
               decide_False, (Z2 k' Hne) by exact Hne. reflexivity. }
           change (Response m res :: evs) with ([Response m res] ++ evs).
           rewrite pulls_answered_app, (pulls_answered_one k k m res K1),
             decide_True by reflexivity.
           rewrite F2 in B2. specialize (Hlt k). rewrite F2 in Enot. lia.
        -- exact S1.
        -- exact P1.
        -- intros k'. rewrite HN. destruct (decide (k' = k)) as [->|Hne].
           ++ rewrite F2. rewrite F2 in Enot. specialize (Hlt k). lia.
           ++ destruct (shard_other_key k k' sh (sender m) Hne) as ((_ & ->) & _).
              apply Hlt.
        -- rewrite F1. exact Hfin.
Qed.

Section PullRound.
Variable GetThreadID : Z -> Z -> nat.

(** A pull request in sync mode with a non-blocking engine. *)
Lemma pull_round k ty stored req st st' :
  sync_mode_ st = true -> is_engine_blocking_ st = false ->
  shells_empty st -> pull_keys st ->
  (forall sh k', sh ∈ shards st -> (pull_cnt sh k' < NumWorkers st)%nat) ->
  BytePSHandlePull GetThreadID EncodeKey k ty stored req st = Ok st' ->
  exists i sh sh',
    shards st !! i = Some sh /\ shards st' = <[i := sh']> (shards st) /\
    round_step (NumWorkers st) k (credit (NumWorkers st) k sh) sh sh' st st'.
Proof.
  intros Hsync Hblk Hs Hp Hlt. unfold BytePSHandlePull.
  destruct (tensor stored =? 0)%N; [discriminate|].
  rewrite Hblk, Hsync. cbn [orb negb].
  set (tid := GetThreadID k 0).
  unfold load at 1. destruct (shards st !! tid) as [sh|] eqn:Hsh; [|discriminate].
  rewrite bind_Ok.
  assert (Hin : sh ∈ shards st) by (eapply list_elem_of_lookup_2; exact Hsh).
  assert (Hinit : forall k', credit (NumWorkers st) k' (init_flags k sh)
                             = credit (NumWorkers st) k' sh /\
                             (pull_cnt (init_flags k sh) k' < NumWorkers st)%nat).
  { intros k'. apply init_flags_credit, Hlt, Hin. }
  set (sh0 := init_flags k sh) in *.
  destruct (push_finished sh0 k && bool_decide (sender req ∉ seen_sender sh0 k)) eqn:Hc.
  - apply andb_true_iff in Hc as [Hfin _].
    destruct (SendPullResponse EncodeKey k req st) as [st1| |] eqn:E; try discriminate.
    apply SendPullResponse_round in E as (S1 & P1 & Hsh1 & C1 & res & T1 & K1);
      [|assumption..].
    rewrite !bind_Ok.
    assert (HN : NumWorkers st1 = NumWorkers st) by apply C1. rewrite HN, Hsh1.
    destruct (mark_served_fields k (sender req) sh0) as (F1 & F2 & _).
    set (sh1 := mark_served k (sender req) sh0) in *.
    set (sh2 := if (pull_cnt sh1 k =? NumWorkers st)%nat then reset_flags k sh1 else sh1).
    rewrite (store_lookup _ _ sh sh2 Hsh), bind_Ok. intros [= <-].
    exists tid, sh, sh2. split; [exact Hsh|]. split; [reflexivity|].
    split; [exact S1|]. split; [exact P1|]. split; [exact C1|].
    assert (Hother : forall k', k' <> k ->
              push_finished sh2 k' = push_finished sh0 k' /\
              pull_cnt sh2 k' = pull_cnt sh0 k').
    { intros k' Hne. unfold sh2.
      destruct (shard_other_key k k' sh0 (sender req) Hne) as ((Ea & Eb) & _).
      destruct (shard_other_key k k' sh1 0 Hne) as (_ & (Ec & Ed) & _).
      fold sh1 in Ea, Eb.
      destruct (pull_cnt sh1 k =? NumWorkers st)%nat; split; congruence. }
    pose proof (proj2 (Hinit k)) as Hk.
    split.
    { intros k'. destruct (decide (k' = k)) as [->|Hne].
      - unfold sh2. destruct (Nat.eqb_spec (pull_cnt sh1 k) (NumWorkers st)) as [Ef|En].
        + destruct (reset_flags_fields k sh1) as (_ & -> & _). lia.
        + rewrite F2 in *. lia.
      - destruct (Hother k' Hne) as [_ ->]. apply Hinit. }
    split.
    { intros k' Hne. destruct (Hother k' Hne) as [Ea Eb].
      rewrite <- (proj1 (Hinit k')). apply credit_other; assumption. }
    exists [Response req res]. split; [exact T1|]. split.
    { intros k' Hne. rewrite (pulls_answered_one k k' req res K1), decide_False by exact Hne.
      reflexivity. }
    rewrite (pulls_answered_one k k req res K1), decide_True by reflexivity.
    rewrite <- (proj1 (Hinit k)), (credit_finished _ _ sh0 Hfin).
    unfold sh2. destruct (Nat.eqb_spec (pull_cnt sh1 k) (NumWorkers st)) as [Ef|En].
    + unfold credit. destruct (reset_flags_fields k sh1) as (-> & _). lia.
    + unfold credit. rewrite F1, Hfin, F2. lia.
  - rewrite bind_Ok.
    set (sh2 := set_q_pull_reqmeta k (q_pull_reqmeta sh0 k ++ [req]) sh0).
    rewrite (store_lookup _ _ sh sh2 Hsh), bind_Ok. intros [= <-].
    exists tid, sh, sh2. split; [exact Hsh|]. split; [reflexivity|].
    split; [exact Hs|]. split; [exact Hp|]. split; [repeat split; reflexivity|].
    split; [intros k'; apply Hinit|].
    split; [intros k' _; apply Hinit|].
    exists []. rewrite app_nil_r. split; [reflexivity|]. split; [reflexivity|].
    change (credit (NumWorkers st) k sh2) with (credit (NumWorkers st) k sh0).
    rewrite (proj1 (Hinit k)). cbn. lia.
Qed.

End PullRound.

(** The ALL_RECV case of the engine. *)
Lemma all_recv_round i msg st st' :
  shells_empty st -> pull_keys st ->
  (forall sh k', sh ∈ shards st -> (pull_cnt sh k' < NumWorkers st)%nat) ->
  all_recv_case EncodeKey i msg st = Ok st' ->
  exists sh sh',
    shards st !! i = Some sh /\ shards st' = <[i := sh']> (shards st) /\
    round_step (NumWorkers st) (key msg) (NumWorkers st) sh sh' st st'.
Proof.
  intros Hs Hp Hlt. unfold all_recv_case.
  unfold load at 1. destruct (shards st !! i) as [sh|] eqn:Hsh; [|discriminate].
  rewrite bind_Ok.
  assert (Hin : sh ∈ shards st) by (eapply list_elem_of_lookup_2; exact Hsh).
  set (k := key msg).
  assert (Hinit : forall k', credit (NumWorkers st) k' (init_flags k sh)
                             = credit (NumWorkers st) k' sh /\
                             (pull_cnt (init_flags k sh) k' < NumWorkers st)%nat).
  { intros k'. apply init_flags_credit, Hlt, Hin. }
  set (sh0 := init_flags k sh) in *.
  destruct (set_push_finished_fields k true sh0) as (G1 & G2 & _).
  set (sh1 := set_push_finished k true sh0) in *.
  assert (Hlt1 : forall k', (pull_cnt sh1 k' < NumWorkers st)%nat).
  { intros k'. destruct (decide (k' = k)) as [->|Hne]; [rewrite G2; apply Hinit|].
    destruct (shard_other_key k k' sh0 0 Hne) as (_ & _ & Hb & _).
    destruct (Hb true) as [_ Eb]. fold sh1 in Eb. rewrite Eb. apply Hinit. }
  destruct (flush_pulls EncodeKey k (q_pull_reqmeta sh1 k) [] sh1 st)
    as [[sh2 st1]| |] eqn:E; try discriminate.
  rewrite bind_Ok.
  apply flush_pulls_round in E as (Hsh1 & S1 & P1 & C1 & L1 & O1 & evs & T1 & Z1 & B1);
    [|assumption..].
  rewrite Hsh1. rewrite (store_lookup (shards st) i sh sh2 Hsh), bind_Ok. intros [= <-].
  exists sh, sh2. split; [reflexivity|]. split; [reflexivity|].
  split; [exact S1|]. split; [exact P1|]. split; [exact C1|].
  split; [exact L1|]. split.
  { intros k' Hne. rewrite (O1 k' Hne), <- (proj1 (Hinit k')).
    destruct (shard_other_key k k' sh0 0 Hne) as (_ & _ & Hb & _).
    destruct (Hb true) as [Ea Eb]. apply credit_other; assumption. }
  exists evs. split; [exact T1|]. split; [exact Z1|]. lia.
Qed.

Lemma round_step_after_quiet n k spent sh sh' st st0 st' :
  quiet st st0 -> round_step n k spent sh sh' st0 st' ->
  round_step n k spent sh sh' st st'.
Proof.
  intros (_ & _ & _ & C0 & e0 & T0 & N0) (S1 & P1 & C1 & L1 & O1 & evs & T1 & Z1 & B1).
  split; [exact S1|]. split; [exact P1|].
  split; [unfold same_config in *; intuition congruence|].
  split; [exact L1|]. split; [exact O1|].
  exists (e0 ++ evs). split; [rewrite T1, T0, app_assoc; reflexivity|].
  split.
  - intros k' Hne. rewrite pulls_answered_app, (pulls_answered_no_data _ _ _ N0), (Z1 k' Hne).
    reflexivity.
  - rewrite pulls_answered_app, (pulls_answered_no_data _ _ _ N0). exact B1.
Qed.

Section RoundsEngine.
Variable reducer_sum : ptr -> ptr -> nat -> Z -> Z.
Variable compress_output : Z -> SArray -> ptr -> SArray.
Variable decompress_output : Z -> SArray -> SArray * Z.

(** An iteration of the engine: only on an ALL_RECV message does it touch
    a shard or answer a pull. *)
Lemma engine_round i msg st st' :
  shells_empty st -> pull_keys st ->
  (forall sh k', sh ∈ shards st -> (pull_cnt sh k' < NumWorkers st)%nat) ->
  engine_step EncodeKey reducer_sum compress_output decompress_output i msg st = Ok st' ->
  match ops msg with
  | ALL_RECV =>
      exists sh sh',
        shards st !! i = Some sh /\ shards st' = <[i := sh']> (shards st) /\
        round_step (NumWorkers st) (key msg) (NumWorkers st) sh sh' st st'
  | _ => quiet st st'
  end.
Proof.
  intros Hs Hp Hlt. unfold engine_step.
  destruct (dst msg =? 0)%N; [discriminate|].
  destruct (src msg =? 0)%N; [discriminate|].
  assert (Hseal : forall st0 st1,
            quiet st st0 ->
            all_recv_case EncodeKey i msg st0 = Ok st1 ->
            exists sh sh',
              shards st !! i = Some sh /\ shards st1 = <[i := sh']> (shards st) /\
              round_step (NumWorkers st) (key msg) (NumWorkers st) sh sh' st st1).
  { intros st0 st1 Hq H.
    pose proof Hq as (S0 & Hsh0 & Hpl0 & (_ & _ & HN0) & _).
    apply all_recv_round in H as (sh & sh' & A1 & A2 & A3).
    - rewrite Hsh0 in A1, A2. rewrite HN0 in A3. exists sh, sh'.
      split; [exact A1|]. split; [exact A2|].
      eapply round_step_after_quiet; eassumption.
    - exact S0.
    - intros k' r. rewrite Hpl0. apply Hp.
    - rewrite Hsh0, HN0. exact Hlt. }
  destruct (decide (key msg ∈ compressor_map_ st)) as [Hc|Hc].
  - destruct (ops msg) eqn:Hop.
    + destruct (load (lens (sarray msg)) 0) as [cl| |]; try discriminate.
      rewrite bind_Ok. destruct (len msg <? cl)%nat; [discriminate|].
      destruct (decompress_output (key msg) (mkSArray (src msg) cl)) as [d dt].
      rewrite bind_Ok. cbn [ops mixed_precision dst src len type dtype key].
      intros [= <-].
      eapply quiet_trans; [apply quiet_emit|apply quiet_emit];
        first [exact Hs|reflexivity].
    + destruct (load (lens (sarray msg)) 0) as [cl| |]; try discriminate.
      rewrite bind_Ok. destruct (len msg <? cl)%nat; [discriminate|].
      destruct (decompress_output (key msg) (mkSArray (src msg) cl)) as [d dt].
      rewrite bind_Ok. cbn [ops mixed_precision dst src len type dtype key].
      destruct (reducer_sum _ _ _ _ <? 0); [discriminate|].
      intros [= <-].
      eapply quiet_trans; [apply quiet_emit|apply quiet_emit];
        first [exact Hs|reflexivity].
    + rewrite bind_Ok, Hop. apply Hseal.
      eapply quiet_silent;
        [exact Hs|reflexivity|reflexivity|reflexivity|repeat split; reflexivity
        |cbn [trace emit set_merged set_update_buf]; reflexivity|repeat constructor].
    + destruct (load (lens (sarray msg)) 0) as [cl| |]; try discriminate.
      rewrite bind_Ok. destruct (len msg <? cl)%nat; [discriminate|].
      destruct (decompress_output (key msg) (mkSArray (src msg) cl)) as [d dt].
      rewrite bind_Ok. cbn [ops]. discriminate.
  - destruct (ops msg) eqn:Hop.
    + rewrite bind_Ok, Hop. destruct (mixed_precision msg); intros [= <-].
      all: apply quiet_emit; [exact Hs|reflexivity].
    + rewrite bind_Ok, Hop. destruct (mixed_precision msg).
      * intros [= <-]. apply quiet_emit; [exact Hs|reflexivity].
      * destruct (reducer_sum _ _ _ _ <? 0); [discriminate|].
        intros [= <-]. apply quiet_emit; [exact Hs|reflexivity].
    + destruct (mixed_precision msg).
      * rewrite bind_Ok, Hop. apply Hseal.
        eapply quiet_silent;
          [exact Hs|reflexivity|reflexivity|reflexivity|repeat split; reflexivity
          |cbn [trace emit set_merged set_update_buf]; reflexivity|repeat constructor].
      * rewrite bind_Ok, Hop. apply Hseal. quiet_setter.
    + rewrite bind_Ok, Hop. discriminate.
Qed.
End RoundsEngine.
End RoundSteps.

Section RoundsRun.
Variable GetThreadID : Z -> Z -> nat.
Variable EncodeKey : Z -> Z.
Variable reducer_sum : ptr -> ptr -> nat -> Z -> Z.
Variable compress_output : Z -> SArray -> ptr -> SArray.
Variable decompress_output : Z -> SArray -> SArray * Z.
Variable PageAlignedMalloc : server -> nat -> ptr.
Variable Align : nat -> nat.
Variable Promote : nat -> Z -> nat * Z.
Variable CompressorRegistry_Create : KVPairs -> nat -> nat -> Z -> bool.
Variable DepairDataHandleType : Z -> DataHandleType.
Variable DecodeKey : Z -> Z.
Variable log_key_info_ : bool.
Variable BYTEPS_FLOAT16 : Z.
Hypothesis EncodeKey_inj : forall k k', EncodeKey k = EncodeKey k' -> k = k'.

Local Abbreviation handler :=
  (handler GetThreadID EncodeKey reducer_sum PageAlignedMalloc Align Promote
     CompressorRegistry_Create DepairDataHandleType DecodeKey log_key_info_
     BYTEPS_FLOAT16).
Local Abbreviation do_move :=
  (do_move GetThreadID EncodeKey reducer_sum compress_output decompress_output
     PageAlignedMalloc Align Promote CompressorRegistry_Create
     DepairDataHandleType DecodeKey log_key_info_ BYTEPS_FLOAT16).
Local Abbreviation run_moves :=
  (run_moves GetThreadID EncodeKey reducer_sum compress_output decompress_output
     PageAlignedMalloc Align Promote CompressorRegistry_Create
     DepairDataHandleType DecodeKey log_key_info_ BYTEPS_FLOAT16).
Local Abbreviation rounds_inv := (rounds_inv EncodeKey).
Local Abbreviation pulls_answered := (pulls_answered EncodeKey).
Local Abbreviation round_step := (round_step EncodeKey).

(** A request changes the accounts only when it is a pull, and then as
    [round_step] says, with what the shard could still answer spent. *)
Lemma handle_round req req_data st st' :
  sync_mode_ st = true -> is_engine_blocking_ st = false ->
  shells_empty st -> pull_keys EncodeKey st ->
  (forall sh k', sh ∈ shards st -> (pull_cnt sh k' < NumWorkers st)%nat) ->
  handler req req_data st = Ok st' ->
  quiet st st' \/
  exists k i sh sh',
    shards st !! i = Some sh /\ shards st' = <[i := sh']> (shards st) /\
    round_step (NumWorkers st) k (credit (NumWorkers st) k sh) sh sh' st st'.
Proof.
  intros Hsync Hblk Hs Hp Hlt. unfold ServerSpec.handler, BytePSHandler. cbv zeta.
  destruct (keys req_data) as [|k0 [|k1 ks]] eqn:Hk; cbn [length Nat.eqb negb];
    try discriminate.
  match goal with
  | |- context [if ?c then _ else Ok tt] => destruct c
  end.
  2: rewrite bind_Ok.
  1: destruct (negb (length (lens req_data) =? 1)%nat); [discriminate|];
     destruct (load (lens req_data) 0) as [l0| |]; try discriminate;
     rewrite bind_Ok;
     destruct (negb (sa_size (vals req_data) =? l0)%nat); [discriminate|];
     rewrite bind_Ok.
  all: change (load [k0] 0) with (Ok k0); rewrite bind_Ok.
  all: destruct (requestType (DepairDataHandleType (cmd req)));
       try discriminate;
       try (intros H; left; eapply quiet_config; eassumption).
  all: unfold BytePSHandleDefaultReq; cbn [GetStore].
  all: destruct (push req);
       [|intros H; right; exists (DecodeKey k0);
         eapply (pull_round EncodeKey EncodeKey_inj GetThreadID) in H;
         [exact H|try assumption..]].
  all: destruct (negb (length (lens req_data) =? 1)%nat); [discriminate|].
  all: destruct (load (lens req_data) 0) as [l1| |]; try discriminate; rewrite bind_Ok.
  all: destruct (negb (sa_size (vals req_data) =? l1)%nat); [discriminate|].
  all: destruct (tensor (default BytePSArray_empty (store_ st !! DecodeKey k0)) =? 0)%N;
       intros H; left; [eapply quiet_init in H|eapply quiet_push in H];
       first [exact H|assumption].
Qed.

Lemma rounds_inv_quiet rounds st st' :
  rounds_inv rounds st -> quiet st st' -> rounds_inv rounds st'.
Proof.
  intros (Hs & Hp & Hlt & Hacc) (S1 & Hsh & Hpl & (_ & _ & HN) & evs & T & Hnd).
  split; [exact S1|]. split; [intros k r; rewrite Hpl; apply Hp|].
  rewrite Hsh, HN. split; [exact Hlt|].
  intros k. rewrite T, pulls_answered_app, (pulls_answered_no_data _ _ _ Hnd), Nat.add_0_r.
  apply Hacc.
Qed.

Lemma rounds_inv_round_step rounds st st' k i sh sh' spent (extra : nat) :
  rounds_inv rounds st ->
  shards st !! i = Some sh -> shards st' = <[i := sh']> (shards st) ->
  round_step (NumWorkers st) k spent sh sh' st st' ->
  (spent <= credit (NumWorkers st) k sh + NumWorkers st * extra)%nat ->
  rounds_inv (fun k' => (rounds k' + if decide (k' = k) then extra else 0)%nat) st'.
Proof.
  intros (Hs & Hp & Hlt & Hacc) Hi Hsh (S1 & P1 & (_ & _ & HN) & L1 & O1 & evs & T & Z & B) Hsp.
  split; [exact S1|]. split; [exact P1|]. rewrite Hsh, HN. split.
  - intros sh0 k' Hin. apply list_elem_of_lookup_1 in Hin as [j Hj].
    destruct (decide (j = i)) as [->|Hne].
    + rewrite list_lookup_insert_eq in Hj by (eapply lookup_lt_Some; exact Hi).
      injection Hj as <-. apply L1.
    + rewrite list_lookup_insert_ne in Hj by congruence.
      apply Hlt. eapply list_elem_of_lookup_2; exact Hj.
  - intros k'. rewrite T, pulls_answered_app. specialize (Hacc k').
    destruct (decide (k' = k)) as [->|Hne].
    + pose proof (total_credit_insert (NumWorkers st) k (shards st) i sh sh' Hi) as Ht.
      revert Hacc Ht B Hsp.
      generalize (pulls_answered k (trace st)), (pulls_answered k evs),
        (total_credit (NumWorkers st) k (<[i:=sh']> (shards st))),
        (total_credit (NumWorkers st) k (shards st)),
        (credit (NumWorkers st) k sh), (credit (NumWorkers st) k sh').
      intros a b t' t c c'. nia.
    + rewrite (Z k' Hne), (total_credit_same _ _ _ _ _ _ Hi (O1 k' Hne)). lia.
Qed.

Lemma rounds_inv_le (rounds rounds' : Z -> nat) st :
  (forall k, (rounds k <= rounds' k)%nat) -> rounds_inv rounds st -> rounds_inv rounds' st.
Proof.
  intros Hle (Hs & Hp & Hlt & Hacc). repeat (split; [assumption|]).
  intros k. specialize (Hacc k). specialize (Hle k). nia.
Qed.

(** One move keeps the accounts, with one more round for the key of an
    ALL_RECV message the engine ran on. *)
Lemma do_move_rounds rounds m st st' :
  sync_mode_ st = true -> is_engine_blocking_ st = false ->
  rounds_inv rounds st -> do_move m st = Ok st' ->
  same_config st st' /\
  rounds_inv (fun k => (rounds k + if seals k m then 1 else 0)%nat) st'.
Proof.
  intros Hsync Hblk Hinv Hrun. pose proof Hinv as (Hs & Hp & Hlt & _).
  destruct m as [req rd|i msg]; cbn [ServerSpec.do_move seals] in *.
  - apply handle_round in Hrun as [Hq|(k & i & sh & sh' & H1 & H2 & H3)]; try assumption.
    + split; [apply Hq|].
      eapply rounds_inv_le; [|eapply rounds_inv_quiet; eassumption].
      intros k. cbn. lia.
    + split; [apply H3|].
      eapply rounds_inv_le;
        [|eapply (rounds_inv_round_step rounds st st' k i sh sh' _ 0); try eassumption; lia].
      intros k'. cbn. destruct (decide (k' = k)); lia.
  - apply (engine_round EncodeKey EncodeKey_inj) in Hrun; try assumption.
    destruct (ops msg).
    1,2,4: split; [apply Hrun|];
           (eapply rounds_inv_le; [|eapply rounds_inv_quiet; eassumption]);
           intros k; cbn; lia.
    destruct Hrun as (sh & sh' & H1 & H2 & H3).
    split; [apply H3|].
    eapply rounds_inv_le;
      [|eapply (rounds_inv_round_step rounds st st' (key msg) i sh sh' _ 1);
        try eassumption; lia].
    intros k'. cbn. destruct (decide (k' = key msg)) as [->|Hne].
    + rewrite bool_decide_eq_true_2 by reflexivity. lia.
    + rewrite bool_decide_eq_false_2 by congruence. lia.
Qed.

(** X29.  In sync mode with a non-blocking engine, however requests and
    engine iterations follow each other, the pulls answered for a key are at
    most [NumWorkers] for each ALL_RECV message of the key the engine has
    run on: an answer beyond the [NumWorkers] of a round waits for the next
    ALL_RECV. *)
Theorem pulls_answered_per_round ms : forall rounds st st',
  sync_mode_ st = true -> is_engine_blocking_ st = false ->
  rounds_inv rounds st -> run_moves ms st = Ok st' ->
  rounds_inv (fun k => (rounds k + sealed_rounds k ms)%nat) st' /\
  forall k, (pulls_answered k (trace st')
             <= NumWorkers st * (rounds k + sealed_rounds k ms))%nat.
Proof.
  assert (Hmain : forall rounds st st',
            sync_mode_ st = true -> is_engine_blocking_ st = false ->
            rounds_inv rounds st -> run_moves ms st = Ok st' ->
            NumWorkers st' = NumWorkers st /\
            rounds_inv (fun k => (rounds k + sealed_rounds k ms)%nat) st').
  { induction ms as [|m ms IH]; intros rounds st st' Hsync Hblk Hinv.
    - intros [= <-]. split; [reflexivity|].
      eapply rounds_inv_le; [|exact Hinv]. intros k. cbn. lia.
    - unfold ServerSpec.run_moves. cbn [foldM].
      destruct (do_move m st) as [st1| |] eqn:E; try discriminate.
      rewrite bind_Ok. intros Hrun.
      apply (do_move_rounds rounds) in E as ((C1 & C2 & C3) & Hinv1); try assumption.
      apply (IH (fun k => (rounds k + if seals k m then 1 else 0)%nat)) in Hrun
        as [HN Hinv2]; [|congruence|congruence|exact Hinv1].
      split; [congruence|].
      eapply rounds_inv_le; [|exact Hinv2].
      intros k. unfold sealed_rounds. cbn [List.filter].
      destruct (seals k m); cbn [length]; lia. }
  intros rounds st st' Hsync Hblk Hinv Hrun.
  destruct (Hmain rounds st st' Hsync Hblk Hinv Hrun) as [HN Hinv'].
  split; [exact Hinv'|].
  intros k. destruct Hinv' as (_ & _ & _ & Hacc). specialize (Hacc k).
  rewrite HN in Hacc. lia.
Qed.
End RoundsRun.

Lemma fresh_rounds_inv EncodeKey sync blocking n :
  (0 < n)%nat -> rounds_inv EncodeKey (fun _ => 0%nat) (example_fresh sync blocking n).
Proof.
  intros Hn.
  split; [intros k r H; cbn in H; rewrite lookup_empty in H; discriminate|].
  split; [intros k r H; cbn in H; rewrite lookup_empty in H; discriminate|].
  split.
  - intros sh k Hin. cbn in Hin. apply list_elem_of_singleton in Hin as ->.
    unfold pull_cnt. cbn. rewrite lookup_empty. exact Hn.
  - intros k. cbn. unfold credit, push_finished. cbn. rewrite lookup_empty. cbn. lia.
Qed.

Lemma pulls_answered_per_round_witness :
  exists st',
    example_moves example_round (example_fresh true false 2) = Ok st' /\
    pulls_answered (fun k => k) 7 (trace st') = 2%nat /\
    (pulls_answered (fun k => k) 7 (trace st') <= 2 * (0 + 1))%nat.
Proof.
  destruct (example_moves example_round (example_fresh true false 2)) as [st'| |] eqn:E;
    [|vm_compute in E; discriminate|vm_compute in E; discriminate].
  exists st'. split; [reflexivity|].
  split; [clear - E; vm_compute in E; injection E as <-; reflexivity|].
  destruct (pulls_answered_per_round (fun _ _ => 0%nat) (fun k => k) (fun _ _ _ _ => 0)
              (fun _ a _ => a) (fun _ a => (a, 0)) (fun _ _ => 4096%N)
              (fun n => n) (fun n dt => (n, dt)) (fun _ _ _ _ => true)
              (fun c => mkType (if c =? 1 then kConfigPushPull else kDefaultPushPull) 0)
              (fun k => k) false 2 (fun k k' H => H)
              example_round (fun _ => 0%nat) (example_fresh true false 2) st')
    as [_ H].
  - reflexivity.
  - reflexivity.
  - apply fresh_rounds_inv. lia.
  - exact E.
  - exact (H 7).
Defined.

End ServerFacts.
